(** * Sukode code assistant: the agentic loop and its conversation store

    A shallow embedding of the TypeScript services that drive a query:
    [ConversationManager], [MessageFormatterService], [ResponseGeneratorService],
    [ToolExecutor], [ToolCallProcessorService] and [AgentLoopService].

    Arrays are lists indexed from 0, JS [Map]s are insertion-ordered association
    lists, promises are the outcome they settle with, and everything the services
    reach outside the repository (the chat-completion transport, the tool
    implementations, [JSON.parse], the editor's prompt, the clock) is a field of
    the record [World].  A JS string is held as a [string], the bytes of its
    UTF-8 encoding; where the code counts or cuts by position ([.length],
    [.substring]) the model goes through the UTF-16 code units of the text,
    [Js.units]. *)

From Stdlib Require Import List String Ascii Bool Arith Lia NArith ZArith.
From Stdlib Require Import Numbers.DecimalString.
Import ListNotations.
Local Open Scope string_scope.
Local Open Scope list_scope.
Local Open Scope nat_scope.

Set Implicit Arguments.

(** ** JavaScript values used by the services *)

Module Js.

(** An [Error] object: [name] and [message]. *)
Record Error := mkError { err_name : string; err_message : string }.

(** [new Error(msg)]. *)
Definition newError (msg : string) : Error := mkError "Error" msg.

(** What a [throw] carries: an [Error] instance, or any other value, kept as
    the text [String(value)] gives. *)
Inductive Thrown :=
| ThrownError (e : Error)
| ThrownValue (text : string).

(** The settlement of an awaited computation. *)
Inductive Completion (A : Type) :=
| Ok (a : A)
| Threw (t : Thrown).
Arguments Ok {A} a.
Arguments Threw {A} t.

(** A string is truthy when it is not empty. *)
Definition truthy (s : string) : bool :=
  match s with EmptyString => false | _ => true end.

(** An optional string ([undefined]/[null] or a string) is truthy when it is a
    non-empty string. *)
Definition truthy_opt (s : option string) : bool :=
  match s with Some s => truthy s | None => false end.

(** The UTF-16 code units of a text held in UTF-8.  A character of one to
    three bytes is one unit and a character of four bytes is a surrogate pair;
    a byte that starts no character reads as U+FFFD. *)
Definition replacement : N := 65533%N.

Definition continuation (c : ascii) : bool :=
  (128 <=? N_of_ascii c)%N && (N_of_ascii c <? 192)%N.

Definition low_bits (c : ascii) : N := (N_of_ascii c mod 64)%N.

Fixpoint units (s : string) : list N :=
  match s with
  | EmptyString => []
  | String c0 s1 =>
      let b0 := N_of_ascii c0 in
      if (b0 <? 128)%N then b0 :: units s1
      else if (192 <=? b0)%N && (b0 <? 224)%N then
        match s1 with
        | String c1 s2 =>
            if continuation c1
            then ((b0 mod 32) * 64 + low_bits c1)%N :: units s2
            else replacement :: units s1
        | _ => replacement :: units s1
        end
      else if (224 <=? b0)%N && (b0 <? 240)%N then
        match s1 with
        | String c1 (String c2 s3) =>
            if continuation c1 && continuation c2
            then ((b0 mod 16) * 4096 + low_bits c1 * 64 + low_bits c2)%N :: units s3
            else replacement :: units s1
        | _ => replacement :: units s1
        end
      else if (240 <=? b0)%N && (b0 <? 248)%N then
        match s1 with
        | String c1 (String c2 (String c3 s4)) =>
            if continuation c1 && continuation c2 && continuation c3
            then
              let point :=
                ((b0 mod 8) * 262144 + low_bits c1 * 4096 + low_bits c2 * 64 +
                 low_bits c3)%N in
              (55296 + (point - 65536) / 1024)%N ::
              (56320 + (point - 65536) mod 1024)%N :: units s4
            else replacement :: units s1
        | _ => replacement :: units s1
        end
      else replacement :: units s1
  end.

(** [s.length]. *)
Definition length (s : string) : nat := List.length (units s).

(** [s.substring(0, column)] and [s.substring(column)] for an integer
    [column], as code units: a negative one counts as 0, one past the end as
    the end. *)
Definition substring_to (s : string) (column : Z) : list N :=
  firstn (Z.to_nat column) (units s).

Definition substring_from (s : string) (column : Z) : list N :=
  skipn (Z.to_nat column) (units s).

(** The UTF-8 bytes of a code point. *)
Definition utf8_point (point : N) : string :=
  if (point <? 128)%N then String (ascii_of_N point) EmptyString
  else if (point <? 2048)%N then
    String (ascii_of_N (192 + point / 64))
      (String (ascii_of_N (128 + point mod 64)) EmptyString)
  else if (point <? 65536)%N then
    String (ascii_of_N (224 + point / 4096))
      (String (ascii_of_N (128 + (point / 64) mod 64))
         (String (ascii_of_N (128 + point mod 64)) EmptyString))
  else
    String (ascii_of_N (240 + point / 262144))
      (String (ascii_of_N (128 + (point / 4096) mod 64))
         (String (ascii_of_N (128 + (point / 64) mod 64))
            (String (ascii_of_N (128 + point mod 64)) EmptyString))).

Definition high_surrogate (u : N) : bool := (55296 <=? u)%N && (u <? 56320)%N.
Definition low_surrogate (u : N) : bool := (56320 <=? u)%N && (u <? 57344)%N.

(** Code units as Node's ['utf8'] encoding writes them: a surrogate pair is one
    character of four bytes, and a surrogate without its partner is U+FFFD. *)
Fixpoint utf8 (us : list N) : string :=
  match us with
  | [] => EmptyString
  | u :: rest =>
      if high_surrogate u then
        match rest with
        | l :: rest' =>
            if low_surrogate l
            then utf8_point (65536 + (u - 55296) * 1024 + (l - 56320)) ++ utf8 rest'
            else utf8_point replacement ++ utf8 rest
        | [] => utf8_point replacement
        end
      else if low_surrogate u then utf8_point replacement ++ utf8 rest
      else utf8_point u ++ utf8 rest
  end.

(** [s.includes(sub)]. *)
Fixpoint includes (s sub : string) : bool :=
  prefix sub s ||
  match s with
  | EmptyString => false
  | String _ s' => includes s' sub
  end.

(** [Error.prototype.toString]. *)
Definition Error_toString (e : Error) : string :=
  match err_name e, err_message e with
  | EmptyString, msg => msg
  | nm, EmptyString => nm
  | nm, msg => nm ++ ": " ++ msg
  end.

(** [String(value)] of a thrown value, as a template literal interpolates it. *)
Definition String_of (t : Thrown) : string :=
  match t with
  | ThrownError e => Error_toString e
  | ThrownValue text => text
  end.

(** [error instanceof Error ? error.message : String(error)]. *)
Definition message_or_string (t : Thrown) : string :=
  match t with
  | ThrownError e => err_message e
  | ThrownValue text => text
  end.

(** [error instanceof Error ? error : new Error(String(error))]. *)
Definition as_Error (t : Thrown) : Error :=
  match t with
  | ThrownError e => e
  | ThrownValue text => newError text
  end.

(** Decimal text of a natural number. *)
Definition nat_text (n : nat) : string :=
  NilZero.string_of_uint (Nat.to_uint n).

Definition N_text (n : N) : string :=
  NilZero.string_of_uint (N.to_uint n).

(** The three decimals of a remainder below 1000, trailing zeros dropped. *)
Definition millis_text (r : N) : string :=
  let d1 := N.div r 100 in
  let d2 := N.modulo (N.div r 10) 10 in
  let d3 := N.modulo r 10 in
  if N.eqb d3 0 then
    if N.eqb d2 0 then N_text d1 else N_text d1 ++ N_text d2
  else N_text d1 ++ N_text d2 ++ N_text d3.

(** The text of [ms/1000] for a whole number of milliseconds (exact below
    2^53, where the quotient prints with at most three decimals). *)
Definition seconds_text (ms : N) : string :=
  let q := N.div ms 1000 in
  let r := N.modulo ms 1000 in
  if N.eqb r 0 then N_text q else N_text q ++ "." ++ millis_text r.

(** An insertion-ordered [Map]: [set] on a present key keeps its place. *)
Section Maps.
Variables K V : Type.
Variable keq : K -> K -> bool.

Definition Map := list (K * V).

Fixpoint map_get (m : Map) (k : K) : option V :=
  match m with
  | [] => None
  | (k', v) :: m' => if keq k' k then Some v else map_get m' k
  end.

Definition map_has (m : Map) (k : K) : bool :=
  match map_get m k with Some _ => true | None => false end.

Fixpoint map_set (m : Map) (k : K) (v : V) : Map :=
  match m with
  | [] => [(k, v)]
  | (k', v') :: m' =>
      if keq k' k then (k', v) :: m' else (k', v') :: map_set m' k v
  end.
End Maps.

(** [array.splice(index, 1)]: nothing happens past the end. *)
Definition splice1 (A : Type) (l : list A) (index : nat) : list A :=
  firstn index l ++ skipn (S index) l.

(** [array.splice(index, 0, x)]: past the end the item is appended. *)
Definition splice_in (A : Type) (l : list A) (index : nat) (x : A) : list A :=
  firstn index l ++ x :: skipn index l.

(** [array.sort((a, b) => b - a)] on indices: descending insertion sort. *)
Fixpoint insert_desc (x : nat) (l : list nat) : list nat :=
  match l with
  | [] => [x]
  | y :: l' => if y <=? x then x :: l else y :: insert_desc x l'
  end.

Definition sort_desc (l : list nat) : list nat :=
  fold_right insert_desc [] l.

(** [[...new Set(l)]]: first occurrences, in order. *)
Fixpoint dedupe_from (seen l : list nat) : list nat :=
  match l with
  | [] => []
  | x :: l' =>
      if existsb (Nat.eqb x) seen then dedupe_from seen l'
      else x :: dedupe_from (x :: seen) l'
  end.

Definition dedupe (l : list nat) : list nat := dedupe_from [] l.

End Js.

(** ** The data model ([types.ts]) *)

Inductive Role := user | assistant | system | tool.

Definition Role_eqb (a b : Role) : bool :=
  match a, b with
  | user, user | assistant, assistant | system, system | tool, tool => true
  | _, _ => false
  end.

(** [toolCall.function]: a name and the arguments as JSON text. *)
Record FunctionCall := mkFunctionCall {
  fn_name : string;
  fn_arguments : string
}.

(** An entry of [tool_calls], shaped as the provider's SDK and the loop's own
    chunk buffer build it: an id and a [function] object, whose name or
    arguments are empty on a partially streamed call. *)
Record ToolCall := mkToolCall {
  tc_id : string;
  tc_function : FunctionCall
}.

(** [ConversationMessage]; [content] is [None] for [null]. *)
Record ConversationMessage := mkMessage {
  role : Role;
  content : option string;
  tool_calls : option (list ToolCall);
  tool_call_id : option string
}.

Record ToolCallResult := mkResult {
  res_tool_call_id : string;
  output : string;
  success : bool
}.

Record APIKeyValidation := mkValidation {
  valid : bool;
  validation_message : option string
}.

(** [SummarizedHistoryMessage]: always role [system] and summary type
    ["conversation_history"]. *)
Record SummarizedHistoryMessage := mkSummary {
  sum_role : Role;
  sum_content : string;
  summary_type : string;
  file_references : option (list string);
  timestamp : N
}.

(** Plain messages of each role. *)
Definition user_msg (text : string) : ConversationMessage :=
  mkMessage user (Some text) None None.

Definition system_msg (text : string) : ConversationMessage :=
  mkMessage system (Some text) None None.

Definition assistant_text (text : string) : ConversationMessage :=
  mkMessage assistant (Some text) None None.

(** [{role: 'tool', tool_call_id, content}]. *)
Definition tool_msg (call_id text : string) : ConversationMessage :=
  mkMessage tool (Some text) None (Some call_id).

Definition is_tool (m : ConversationMessage) : bool := Role_eqb (role m) tool.

Definition is_user (m : ConversationMessage) : bool := Role_eqb (role m) user.

(** [message.role === 'assistant' && message.tool_calls &&
    message.tool_calls.length > 0]. *)
Definition has_tool_calls (m : ConversationMessage) : bool :=
  Role_eqb (role m) assistant &&
  match tool_calls m with
  | Some (_ :: _) => true
  | _ => false
  end.

(** [message.tool_calls] read as an array, empty when absent. *)
Definition calls_list (m : ConversationMessage) : list ToolCall :=
  match tool_calls m with Some l => l | None => [] end.

(** [message.tool_call_id === id]. *)
Definition answers (m : ConversationMessage) (call_id : string) : bool :=
  match tool_call_id m with
  | Some c => String.eqb c call_id
  | None => false
  end.

(** ** The pairing invariant of a transcript *)

(** The tool calls an assistant message carries. *)
Definition calls_of (m : ConversationMessage) : list ToolCall :=
  if Role_eqb (role m) assistant then calls_list m else [].

(** How many assistant tool calls of [pre] carry [call_id]. *)
Definition earlier_calls (pre : list ConversationMessage) (call_id : string) : nat :=
  List.length (filter (fun c => String.eqb (tc_id c) call_id) (flat_map calls_of pre)).

(** The tool-role messages that follow at once, up to the first message of
    another role. *)
Fixpoint tool_run (post : list ConversationMessage) : list ConversationMessage :=
  match post with
  | m :: post' => if is_tool m then m :: tool_run post' else []
  | [] => []
  end.

(** How many messages of the run after a call answer [call_id]. *)
Definition responses_in_run (post : list ConversationMessage) (call_id : string) : nat :=
  List.length (filter (fun m => answers m call_id) (tool_run post)).

(** What the invariant asks of the message [m] standing between [pre] and
    [post]. *)
Definition paired_at (pre : list ConversationMessage) (m : ConversationMessage)
    (post : list ConversationMessage) : bool :=
  (if is_tool m then
     match tool_call_id m with
     | Some c => earlier_calls pre c =? 1
     | None => false
     end
   else true) &&
  forallb (fun c => responses_in_run post (tc_id c) =? 1) (calls_of m).

Fixpoint pairing_from (pre post : list ConversationMessage) : bool :=
  match post with
  | [] => true
  | m :: post' => paired_at pre m post' && pairing_from (pre ++ [m]) post'
  end.

(** Every tool-role message answers exactly one earlier assistant tool call, and
    every assistant tool call is followed, before any non-tool message, by
    exactly one tool-role message with its id. *)
Definition pairing_invariant (h : list ConversationMessage) : bool :=
  pairing_from [] h.

(** ** The collaborators outside the repository *)

(** How a tool implementation settles once dispatched: it resolves with a text,
    rejects, or is still pending when the timer of the call fires. *)
Inductive ToolOutcome :=
| Resolves (text : string)
| Rejects (t : Js.Thrown)
| Pending.

(** The transport's answer: [response.choices], each choice reduced to its
    [message]. *)
Record ChatResponse := mkResponse { choices : list ConversationMessage }.

(** Everything the services call but do not define.  The transport and the
    tools are indexed by how many requests or executions came before, so that a
    repeated call may answer differently. *)
Record World := mkWorld {
  (** [systemPrompt] and the project path of the loop. *)
  systemPrompt : string;
  projectPath : string;
  (** [openAIClient.validateApiKey()]. *)
  validateApiKey : APIKeyValidation;
  (** [openAIClient.createChatCompletion(messages, ...)] on the n-th request. *)
  createChatCompletion :
    nat -> list ConversationMessage -> Js.Completion ChatResponse;
  (** [JSON.parse(text)]: [None] when the text parses, else the [SyntaxError]. *)
  JSON_parse_error : string -> option Js.Error;
  (** The implementation behind a tool name, given the argument text, on the
      n-th execution. *)
  tool_implementation : nat -> string -> string -> ToolOutcome;
  (** Whether the n-th [showWarningMessage] prompt is answered ['Approve']. *)
  approves : nat -> bool;
  (** [content.match(filePathPattern)], empty when there is no match. *)
  filePathMatches : string -> list string;
  (** [JSON.parse(text)[param]] when it is a non-empty string. *)
  JSON_string_param : string -> string -> option string;
  (** [Date.now()] once n requests were sent. *)
  Date_now : nat -> N;
  (** [JSON.stringify(summary)]. *)
  JSON_stringify : SummarizedHistoryMessage -> string
}.

(** The mutable state a query runs in: the store's transcript, and a record of
    what was asked of the collaborators. *)
Record State := mkState {
  conversationHistory : list ConversationMessage;
  chat_requests : list (list ConversationMessage);
  tool_executions : list (string * string);
  prompts_shown : nat
}.

Definition with_history (st : State) (h : list ConversationMessage) : State :=
  mkState h (chat_requests st) (tool_executions st) (prompts_shown st).

(** ** ConversationManager *)

Module ConversationManager.

Definition History := list ConversationMessage.

Definition maxHistoryLength : nat := 10.

(** [for (let i = 0; i < l.length; i++)] with [l[i]] at hand. *)
Definition indexed (A : Type) (l : list A) : list (nat * A) :=
  combine (seq 0 (List.length l)) l.

(** *** safelyTruncateConversationHistory *)

Definition ToolCallMap := Js.Map string nat.
Definition ToolResponseMap := Js.Map nat (list nat).

(** [map.get(k) || []]. *)
Definition get_or_nil (K : Type) (keq : K -> K -> bool)
    (m : Js.Map K (list nat)) (k : K) : list nat :=
  match Js.map_get keq m k with Some l => l | None => [] end.

(** One round of the map-building loop of step 1. *)
Definition truncation_maps_step (st : ToolCallMap * ToolResponseMap)
    (im : nat * ConversationMessage) : ToolCallMap * ToolResponseMap :=
  let '(i, message) := im in
  let '(toolCallMap, toolResponseMap) := st in
  let '(toolCallMap, toolResponseMap) :=
    if has_tool_calls message then
      (fold_left (fun t c => Js.map_set String.eqb t (tc_id c) i)
                 (calls_list message) toolCallMap,
       Js.map_set Nat.eqb toolResponseMap i [])
    else (toolCallMap, toolResponseMap) in
  if is_tool message && Js.truthy_opt (tool_call_id message) then
    match tool_call_id message with
    | Some c =>
        match Js.map_get String.eqb toolCallMap c with
        | Some assistantIndex =>
            (toolCallMap,
             Js.map_set Nat.eqb toolResponseMap assistantIndex
               (get_or_nil Nat.eqb toolResponseMap assistantIndex ++ [i]))
        | None => (toolCallMap, toolResponseMap)
        end
    | None => (toolCallMap, toolResponseMap)
    end
  else (toolCallMap, toolResponseMap).

Definition truncation_maps (h : History) : ToolCallMap * ToolResponseMap :=
  fold_left truncation_maps_step (indexed h) ([], []).

(** [Math.max(...responseIndices, nextIndex)]. *)
Definition max_index (responseIndices : list nat) (nextIndex : nat) : nat :=
  fold_right Nat.max nextIndex responseIndices.

(** Whether the scan of step 2 breaks at the user message at [i]: the next
    message is a tool-calling assistant whose last response (or itself) lies
    at or past [h.length - minimumToKeep]. *)
Definition blocked (h : History) (toolResponseMap : ToolResponseMap)
    (minimumToKeep i : nat) : bool :=
  let nextIndex := i + 1 in
  match nth_error h nextIndex with
  | Some nextMessage =>
      has_tool_calls nextMessage &&
      (List.length h - minimumToKeep <=?
       max_index (get_or_nil Nat.eqb toolResponseMap nextIndex) nextIndex)
  | None => false
  end.

(** The scan of step 2 from index [i] with [safeRemovalPoint = safe]; [fuel]
    counts the rounds left before [i] reaches [h.length - minimumToKeep]. *)
Fixpoint scan (h : History) (toolResponseMap : ToolResponseMap)
    (minimumToKeep excessMessages fuel i safe : nat) : nat :=
  match fuel with
  | 0 => safe
  | S fuel' =>
      match nth_error h i with
      | None => safe
      | Some message =>
          if is_user message then
            if blocked h toolResponseMap minimumToKeep i then safe
            else
              let safe' := i + 1 in
              if excessMessages <=? safe' then safe'
              else scan h toolResponseMap minimumToKeep excessMessages
                        fuel' (i + 1) safe'
          else
            if excessMessages <=? safe then safe
            else scan h toolResponseMap minimumToKeep excessMessages
                      fuel' (i + 1) safe
      end
  end.

(** The value of [safeRemovalPoint] when step 2 ends (0 when the early
    returns are taken). *)
Definition safeRemovalPoint (h : History) : nat :=
  if List.length h <=? maxHistoryLength then 0
  else
    let minimumToKeep := Nat.div maxHistoryLength 2 * 2 in
    let excessMessages := List.length h - maxHistoryLength in
    if excessMessages <=? 0 then 0
    else
      scan h (snd (truncation_maps h)) minimumToKeep excessMessages
           (List.length h - minimumToKeep) 0 0.

Definition safelyTruncateConversationHistory (h : History) : History :=
  let point := safeRemovalPoint h in
  if 0 <? point then skipn point h else h.

(** *** addToConversationHistory, clearConversationHistory *)

Definition addToConversationHistory (h : History) (message : ConversationMessage)
    : History :=
  safelyTruncateConversationHistory (h ++ [message]).

Definition clearConversationHistory (h : History) : History := [].

(** [msgs.forEach(msg => addToConversationHistory(msg))]. *)
Definition addAll (h : History) (msgs : list ConversationMessage) : History :=
  fold_left addToConversationHistory msgs h.

(** *** sanitizeToolMessages *)

Definition sanitize_maps_step
    (st : Js.Map string nat * Js.Map string (list nat))
    (im : nat * ConversationMessage)
    : Js.Map string nat * Js.Map string (list nat) :=
  let '(i, message) := im in
  let '(assistantToolCalls, toolResponses) := st in
  let assistantToolCalls :=
    if has_tool_calls message then
      fold_left (fun t c => Js.map_set String.eqb t (tc_id c) i)
                (calls_list message) assistantToolCalls
    else assistantToolCalls in
  if is_tool message && Js.truthy_opt (tool_call_id message) then
    match tool_call_id message with
    | Some c =>
        (assistantToolCalls,
         Js.map_set String.eqb toolResponses c
           (get_or_nil String.eqb toolResponses c ++ [i]))
    | None => (assistantToolCalls, toolResponses)
    end
  else (assistantToolCalls, toolResponses).

Definition sanitize_maps (h : History)
    : Js.Map string nat * Js.Map string (list nat) :=
  fold_left sanitize_maps_step (indexed h) ([], []).

Definition orphanedToolResponses (h : History) : list nat :=
  let '(assistantToolCalls, toolResponses) := sanitize_maps h in
  flat_map (fun '(toolCallId, indices) =>
              if Js.map_has String.eqb assistantToolCalls toolCallId then []
              else indices)
           toolResponses.

(** The [Set] of assistant indices owning a call nobody answers, in insertion
    order. *)
Definition orphanedToolCalls (h : History) : list nat :=
  let '(assistantToolCalls, toolResponses) := sanitize_maps h in
  Js.dedupe
    (flat_map (fun '(toolCallId, index) =>
                 if Js.map_has String.eqb toolResponses toolCallId then []
                 else [index])
              assistantToolCalls).

(** The transcript after the call and the number it returns. *)
Definition sanitizeToolMessages (h : History) : History * nat :=
  match h with
  | [] => ([], 0)
  | _ =>
      match orphanedToolResponses h, orphanedToolCalls h with
      | [], [] => (h, 0)
      | responses, calls =>
          let allOrphanedIndices := Js.sort_desc (responses ++ calls) in
          (fold_left (@Js.splice1 _) allOrphanedIndices h,
           List.length allOrphanedIndices)
      end
  end.

(** *** validateAndSanitizeConversationHistory *)

(** [prevMessage.role === 'assistant' && prevMessage.tool_calls] with a call
    whose id is [call_id]. *)
Definition owns_call (prevMessage : ConversationMessage) (call_id : string) : bool :=
  Role_eqb (role prevMessage) assistant &&
  match tool_calls prevMessage with
  | Some calls => existsb (fun tc => String.eqb (tc_id tc) call_id) calls
  | None => false
  end.

(** The look-back loop [for (let j = i - 1; j >= 0; j--)], entered with
    [j + 1 = i]: the index of the nearest earlier owner of [call_id]. *)
Fixpoint look_back (h : History) (call_id : string) (i : nat) : option nat :=
  match i with
  | 0 => None
  | S j =>
      match nth_error h j with
      | Some prevMessage =>
          if owns_call prevMessage call_id then Some j
          else look_back h call_id j
      | None => look_back h call_id j
      end
  end.

(** Some message strictly between [matchingAssistantIndex] and [i] is not a
    tool message. *)
Definition hasInterveningMessages (h : History) (matchingAssistantIndex i : nat)
    : bool :=
  existsb (fun m => negb (is_tool m))
          (firstn (i - (matchingAssistantIndex + 1))
                  (skipn (matchingAssistantIndex + 1) h)).

(** First pass: whether the message at [i] is pushed on [messagesToRemove]. *)
Definition first_pass_removes (h : History) (i : nat) (message : ConversationMessage)
    : bool :=
  if is_tool message && Js.truthy_opt (tool_call_id message) then
    match tool_call_id message with
    | Some call_id =>
        match look_back h call_id i with
        | None => true
        | Some matchingAssistantIndex =>
            hasInterveningMessages h matchingAssistantIndex i
        end
    | None => false
    end
  else false.

Definition first_pass (h : History) : list nat :=
  flat_map (fun '(i, message) =>
              if first_pass_removes h i message then [i] else [])
           (indexed h).

(** The search [for (let j = i + 1; ...)] for the response to one call: it
    stops at the first non-tool message. *)
Fixpoint foundToolResponse (post : History) (call_id : string) : bool :=
  match post with
  | [] => false
  | nextMessage :: post' =>
      if negb (is_tool nextMessage) then false
      else if answers nextMessage call_id then true
      else foundToolResponse post' call_id
  end.

(** The ids of the calls of the message at [i] that have no response in the
    run after it. *)
Definition missingToolResponses (h : History) (i : nat) (message : ConversationMessage)
    : list string :=
  map tc_id
      (filter (fun tc => negb (foundToolResponse (skipn (i + 1) h) (tc_id tc)))
              (calls_list message)).

(** Second pass: [messagesToFix], in ascending index order. *)
Definition messagesToFix (h : History) : list (nat * list string) :=
  flat_map (fun '(i, message) =>
              if has_tool_calls message then
                match missingToolResponses h i message with
                | [] => []
                | missing => [(i, missing)]
                end
              else [])
           (indexed h).

(** [assistantToToolCallMap.get(i) || []]: the map holds the call ids of each
    assistant message with tool calls. *)
Definition assistantToToolCallMap_get (h : History) (i : nat) : list string :=
  match nth_error h i with
  | Some message =>
      if has_tool_calls message then map tc_id (calls_list message) else []
  | None => []
  end.

(** [!tc.function || !tc.function.name || !tc.function.arguments]; the
    [function] object itself is always there. *)
Definition incomplete_call (tc : ToolCall) : bool :=
  negb (Js.truthy (fn_name (tc_function tc))) ||
  negb (Js.truthy (fn_arguments (tc_function tc))).

Definition incomplete_message (message : ConversationMessage) : bool :=
  has_tool_calls message && existsb incomplete_call (calls_list message).

(** The pass over incomplete streamed calls: the message itself and every
    later tool message answering one of its calls. *)
Definition streaming_pass (h : History) : list nat :=
  flat_map (fun '(i, message) =>
              if incomplete_message message then
                i :: flat_map (fun '(j, nextMessage) =>
                       if (i <? j) && is_tool nextMessage &&
                          Js.truthy_opt (tool_call_id nextMessage) &&
                          existsb (answers nextMessage)
                                  (assistantToToolCallMap_get h i)
                       then [j] else [])
                     (indexed h)
              else [])
           (indexed h).

(** [messagesToRemove] after deduplication and the descending sort. *)
Definition messagesToRemove (h : History) : list nat :=
  Js.sort_desc (Js.dedupe (first_pass h ++ streaming_pass h)).

Definition dummy_response : string := "Tool execution failed or timed out.".

(** One round of the fourth pass. *)
Definition fix_step (validatedHistory : History) (fixme : nat * list string)
    : History :=
  let '(index, missing) := fixme in
  match nth_error validatedHistory index with
  | Some message =>
      if Role_eqb (role message) assistant &&
         match tool_calls message with Some _ => true | None => false end
      then
        fold_left (fun acc call_id =>
                     Js.splice_in acc (index + 1) (tool_msg call_id dummy_response))
                  missing validatedHistory
      else validatedHistory
  | None => validatedHistory
  end.

(** The repaired transcript, which also replaces the stored one. *)
Definition validateAndSanitizeConversationHistory (h : History) : History :=
  let removed := fold_left (@Js.splice1 _) (messagesToRemove h) h in
  fold_left fix_step (rev (messagesToFix h)) removed.

(** *** summarizeConversationHistory *)

(** [fileReferences.add(x)] on an insertion-ordered [Set]. *)
Definition set_add (refs : list string) (x : string) : list string :=
  if existsb (String.eqb x) refs then refs else refs ++ [x].

(** [s.endsWith('/')]. *)
Fixpoint endsWith_slash (s : string) : bool :=
  match s with
  | EmptyString => false
  | String c EmptyString => Ascii.eqb c "/"%char
  | String _ s' => endsWith_slash s'
  end.

Definition path_params : list string :=
  ["FilePath"; "DirectoryPath"; "TargetFile"; "AbsolutePath"].

(** The references one message contributes: likely file paths of its content,
    then the path parameters of its tool calls. *)
Definition references_step (w : World) (refs : list string)
    (message : ConversationMessage) : list string :=
  let refs :=
    match content message with
    | Some text =>
        fold_left (fun r m =>
                     if Js.includes m "." && negb (endsWith_slash m)
                     then set_add r m else r)
                  (filePathMatches w text) refs
    | None => refs
    end in
  match tool_calls message with
  | Some calls =>
      fold_left (fun r toolCall =>
                   fold_left (fun r param =>
                                match JSON_string_param w
                                        (fn_arguments (tc_function toolCall)) param with
                                | Some path => set_add r path
                                | None => r
                                end)
                             path_params r)
                calls refs
  | None => refs
  end.

Definition collect_fileReferences (w : World) (h : History) : list string :=
  fold_left (references_step w) h [].

(** The index of the first tool message after [i] answering [call_id]. *)
Definition first_response_after (h : History) (i : nat) (call_id : string)
    : option nat :=
  match find (fun '(j, potentialResponse) =>
                (i <? j) && is_tool potentialResponse &&
                answers potentialResponse call_id)
             (indexed h) with
  | Some (j, _) => Some j
  | None => None
  end.

(** [typeof content === 'string' ? content : JSON.stringify(content)]. *)
Definition content_text (message : ConversationMessage) : string :=
  match content message with Some text => text | None => "null" end.

Definition plain (message : ConversationMessage) : ConversationMessage :=
  mkMessage (role message) (Some (content_text message)) None None.

(** The loop building [formattedConversation]: [skipIndices] is threaded
    along, [acc] holds what was pushed. *)
Fixpoint format_loop (h : History) (todo : list (nat * ConversationMessage))
    (skipIndices : list nat) (acc : History) : History :=
  match todo with
  | [] => acc
  | (i, message) :: todo' =>
      if existsb (Nat.eqb i) skipIndices then
        format_loop h todo' skipIndices acc
      else if has_tool_calls message then
        let acc' :=
          if Js.truthy_opt (content message) then acc ++ [plain message]
          else acc in
        let skip' :=
          fold_left (fun sk toolCall =>
                       match first_response_after h i (tc_id toolCall) with
                       | Some j => sk ++ [j]
                       | None => sk
                       end)
                    (calls_list message) skipIndices in
        format_loop h todo' skip' acc'
      else if is_tool message then
        format_loop h todo' skipIndices acc
      else
        format_loop h todo' skipIndices (acc ++ [plain message])
  end.

Definition formattedConversation (h : History) : History :=
  format_loop h (indexed h) [] [].

Definition summarization_instruction : string :=
  "Your task is to summarize the following conversation between a user and an AI assistant. " ++
  "Focus on capturing the main topics discussed, key code snippets mentioned, important decisions made, " ++
  "and the overall context of the conversation. Keep the summary concise but informative. " ++
  "Make sure to preserve references to file paths and important code concepts.".

Definition count_role (r : Role) (h : History) : nat :=
  List.length (filter (fun m => Role_eqb (role m) r) h).

Definition fallbackSummary (h : History) : string :=
  "Conversation summary (fallback): " ++ Js.nat_text (count_role user h) ++
  " user messages, " ++ Js.nat_text (count_role assistant h) ++
  " assistant messages, " ++ Js.nat_text (count_role tool h) ++
  " tool interactions.".

(** [response.choices[0]?.message?.content || 'Failed to generate
    conversation summary.']. *)
Definition summaryContent (response : ChatResponse) : string :=
  match choices response with
  | message :: _ =>
      if Js.truthy_opt (content message) then content_text message
      else "Failed to generate conversation summary."
  | [] => "Failed to generate conversation summary."
  end.

(** The method, on the state it runs in: the summary it resolves with and the
    state it leaves. *)
Definition summarizeConversationHistory (w : World) (st : State)
    : State * SummarizedHistoryMessage :=
  let h := conversationHistory st in
  match h with
  | [] =>
      (st,
       mkSummary system "No conversation history yet." "conversation_history"
                 None (Date_now w (List.length (chat_requests st))))
  | _ =>
      let fileReferences := collect_fileReferences w h in
      let request := system_msg summarization_instruction :: formattedConversation h in
      let st' :=
        mkState (conversationHistory st) (chat_requests st ++ [request])
                (tool_executions st) (prompts_shown st) in
      match createChatCompletion w (List.length (chat_requests st)) request with
      | Js.Ok response =>
          (st',
           mkSummary system (summaryContent response) "conversation_history"
                     (Some fileReferences)
                     (Date_now w (List.length (chat_requests st'))))
      | Js.Threw _ =>
          (st',
           mkSummary system (fallbackSummary (conversationHistory st'))
                     "conversation_history" (Some fileReferences)
                     (Date_now w (List.length (chat_requests st'))))
      end
  end.

End ConversationManager.

(** ** MessageFormatterService *)

Module MessageFormatterService.

(** The user-role note about [lastError]. *)
Definition error_note (lastError : Js.Error) : ConversationMessage :=
  user_msg ("There was an error in the previous step: " ++ Js.err_message lastError ++
            ". Please handle this gracefully and adjust your approach.").

Definition formatMessages (systemPrompt : string)
    (conversationHistory : list ConversationMessage)
    (lastError : option Js.Error) : list ConversationMessage :=
  let messages := [system_msg systemPrompt] in
  let messages :=
    match lastError with
    | Some e => messages ++ [error_note e]
    | None => messages
    end in
  messages ++ conversationHistory.

(** The size one message adds to the estimate. *)
Definition payload_of (message : ConversationMessage) : nat :=
  (if Js.truthy_opt (content message)
   then Js.length (ConversationManager.content_text message) else 0) +
  match tool_calls message with
  | Some calls =>
      fold_left (fun total tc =>
                   total + Js.length (fn_name (tc_function tc)) +
                   Js.length (fn_arguments (tc_function tc)))
                calls 0
  | None => 0
  end.

Definition shouldSummarizeHistory (conversationHistory : list ConversationMessage)
    (maxPayloadSize maxMessages : nat) : bool :=
  let totalPayloadSize :=
    fold_left (fun total message => total + payload_of message)
              conversationHistory 0 in
  (maxPayloadSize <? totalPayloadSize) ||
  (maxMessages <? List.length conversationHistory).

End MessageFormatterService.

(** ** ResponseGeneratorService *)

Module ResponseGeneratorService.

Definition working_placeholder : string :=
  "I'm working on your request. Let me analyze this further...".

Definition generateFinalResponse (assistantMessage : ConversationMessage) : string :=
  if Js.truthy_opt (content assistantMessage) then
    ConversationManager.content_text assistantMessage
  else
    match tool_calls assistantMessage with
    | Some (_ :: _) => working_placeholder
    | _ => ""
    end.

End ResponseGeneratorService.

(** ** ToolExecutor *)

Module ToolExecutor.

(** [requiresUserConfirmation(toolName)]. *)
Definition requiresUserConfirmation (toolName : string) : bool :=
  existsb (String.eqb toolName)
          ["create_file"; "update_file"; "create_directory"; "run_command"].

(** The names [executeTool] dispatches on. *)
Definition dispatched : list string :=
  ["done"; "create_file"; "update_file"; "create_directory"; "find_by_name";
   "list_dir"; "tree_view"; "view_file"; "grep_search"; "codebase_search";
   "view_code_item"; "read_url_content"; "search_web"; "run_command";
   "checkDiagnostics"].

(** [executeTool]: the implementation behind the name, or the default case of
    the switch. *)
Definition executeTool (w : World) (n : nat) (functionName functionArgs : string)
    : ToolOutcome :=
  if existsb (String.eqb functionName) dispatched then
    tool_implementation w n functionName functionArgs
  else Resolves ("Tool " ++ functionName ++ " is not implemented yet.").

(** [executeWithTimeout]: the promise always resolves, with the result, with
    the text of the caught error, or with the timeout notice. *)
Definition executeWithTimeout (fn : ToolOutcome) (timeoutMs : N) : string :=
  match fn with
  | Resolves result => result
  | Rejects error => "Error executing tool: " ++ Js.String_of error
  | Pending =>
      "Tool execution timed out after " ++ Js.seconds_text timeoutMs ++ " seconds"
  end.

(** [executeToolWithTimeout]; its own [catch] is never entered since
    [executeWithTimeout] does not reject. *)
Definition executeToolWithTimeout (w : World) (n : nat)
    (functionName functionArgs : string) (timeoutMs : N) : string :=
  executeWithTimeout (executeTool w n functionName functionArgs) timeoutMs.

End ToolExecutor.

(** ** ToolCallProcessorService *)

Module ToolCallProcessorService.

(** One round of the loop over [toolCalls]: the state after it and the result
    pushed. *)
Definition process_one (w : World) (st : State) (toolCall : ToolCall)
    : State * ToolCallResult :=
  let toolName := fn_name (tc_function toolCall) in
  let args := fn_arguments (tc_function toolCall) in
  match JSON_parse_error w args with
  | Some error =>
      (st, mkResult (tc_id toolCall) ("Error: " ++ Js.err_message error) false)
  | None =>
      let output :=
        ToolExecutor.executeToolWithTimeout
          w (List.length (tool_executions st)) toolName args 30000%N in
      (mkState (conversationHistory st) (chat_requests st)
               (tool_executions st ++ [(toolName, args)]) (prompts_shown st),
       mkResult (tc_id toolCall) output true)
  end.

Fixpoint process_all (w : World) (st : State) (toolCalls : list ToolCall)
    : State * list ToolCallResult :=
  match toolCalls with
  | [] => (st, [])
  | toolCall :: rest =>
      let '(st1, result) := process_one w st toolCall in
      let '(st2, results) := process_all w st1 rest in
      (st2, result :: results)
  end.

(** [processToolCalls(toolCalls, breakingChangeTools)]: the state after the
    batch and [{requiresUserConfirmation, results}]. *)
Definition processToolCalls (w : World) (st : State) (toolCalls : list ToolCall)
    (breakingChangeTools : list string) : State * (bool * list ToolCallResult) :=
  let '(st', results) := process_all w st toolCalls in
  (st', (false, results)).

End ToolCallProcessorService.

(** ** AgentLoopService *)

Module AgentLoopService.

Import ConversationManager.

Definition MAX_ITERATIONS : nat := 10.
Definition MAX_PAYLOAD_SIZE : nat := 100 * 1000.
Definition MAX_MESSAGES : nat := 33.

Definition BREAKING_CHANGE_TOOLS : list string :=
  ["create_file"; "update_file"; "create_directory"; "run_command"].

Definition newline : string := String (Ascii.ascii_of_nat 10) EmptyString.

Definition withProjectPathSystemPrompt (w : World) : string :=
  systemPrompt w ++ newline ++ newline ++
  "Remember you are working in project path: " ++ projectPath w.

(** The variables of the loop. *)
Record LoopVars := mkVars {
  loopComplete : bool;
  forceExitLoop : bool;
  finalResponse : string;
  lastError : option Js.Error;
  iterations : nat
}.

Definition initial_vars : LoopVars := mkVars false false "" None 0.

(** How the body of one iteration ends. *)
Inductive Step :=
| Break (v : LoopVars)
| Next (v : LoopVars)
| Caught (v : LoopVars) (error : Js.Thrown).

Definition reset_message : string :=
  "I encountered an API error while processing your request. The conversation has been reset. Please try your question again with simpler instructions.".

Definition friendly_message : string :=
  "I encountered an issue while processing your request. The conversation has been reset to prevent further errors. Please try your question again.".

Definition denial : Js.Error :=
  Js.newError "User denied permission for the assistant to make changes".

(** The [TypeError] of reading [.message] of a missing [choices[0]]. *)
Definition no_choice : Js.Error :=
  Js.mkError "TypeError" "Cannot read properties of undefined (reading 'message')".

(** [typeof summary === 'string' ? summary : summary.content ||
    JSON.stringify(summary)]. *)
Definition summary_text (w : World) (summary : SummarizedHistoryMessage) : string :=
  if Js.truthy (sum_content summary) then sum_content summary
  else JSON_stringify w summary.

(** The request of an iteration: the formatted history, or, when it is too
    large, the summary of all but the last four messages followed by these.
    Summarizing swaps the stored transcript for the older part and puts the
    original back, message by message. *)
Definition build_request (w : World) (st : State) (lastError : option Js.Error)
    : State * list ConversationMessage :=
  let history := conversationHistory st in
  let messages :=
    MessageFormatterService.formatMessages
      (withProjectPathSystemPrompt w) history lastError in
  if MessageFormatterService.shouldSummarizeHistory
       history MAX_PAYLOAD_SIZE MAX_MESSAGES &&
     (2 <? List.length history)
  then
    let latestMessages := skipn (List.length history - 4) history in
    let olderMessages := firstn (List.length history - 4) history in
    match olderMessages with
    | [] => (st, messages)
    | _ =>
        let originalHistory := conversationHistory st in
        let st1 := with_history st (addAll (clearConversationHistory history) olderMessages) in
        let '(st2, summary) := summarizeConversationHistory w st1 in
        let st3 :=
          with_history st2
            (addAll (clearConversationHistory (conversationHistory st2)) originalHistory) in
        (st3,
         [system_msg (withProjectPathSystemPrompt w);
          assistant_text (summary_text w summary)] ++ latestMessages)
    end
  else (st, messages).

(** [apiError instanceof Error] with one of the three marks in its message. *)
Definition is_validation_error (apiError : Js.Thrown) : bool :=
  match apiError with
  | Js.ThrownError e =>
      Js.includes (Js.err_message e) "400 Invalid parameter" ||
      Js.includes (Js.err_message e) "messages with role 'tool' must be a response" ||
      Js.includes (Js.err_message e) "invalid_request_error"
  | Js.ThrownValue _ => false
  end.

(** The transport call and [response.choices[0].message], as the inner [try]
    sees them. *)
Definition call_transport (w : World) (st : State) (messages : list ConversationMessage)
    : State * Js.Completion ConversationMessage :=
  let st' :=
    mkState (conversationHistory st) (chat_requests st ++ [messages])
            (tool_executions st) (prompts_shown st) in
  match createChatCompletion w (List.length (chat_requests st)) messages with
  | Js.Ok response =>
      match choices response with
      | assistantMessage :: _ => (st', Js.Ok assistantMessage)
      | [] => (st', Js.Threw (Js.ThrownError no_choice))
      end
  | Js.Threw apiError => (st', Js.Threw apiError)
  end.

(** [results.forEach(result => addToConversationHistory({role: 'tool', ...}))]. *)
Definition append_results (st : State) (results : list ToolCallResult) : State :=
  with_history st
    (addAll (conversationHistory st)
            (map (fun r => tool_msg (res_tool_call_id r) (output r)) results)).

Definition is_done (toolCall : ToolCall) : bool :=
  String.eqb (fn_name (tc_function toolCall)) "done".

(** The branch taken when a [done] call is found. *)
Definition done_branch (w : World) (st : State) (v : LoopVars)
    (assistantMessage : ConversationMessage) (doneToolCall : ToolCall)
    : State * Step :=
  let '(st1, (_, results)) :=
    ToolCallProcessorService.processToolCalls w st [doneToolCall] [] in
  let st2 := append_results st1 results in
  let response :=
    match results with
    | r :: _ =>
        if Js.truthy (output r) then output r
        else ResponseGeneratorService.generateFinalResponse assistantMessage
    | [] => ResponseGeneratorService.generateFinalResponse assistantMessage
    end in
  (st2, Next (mkVars true (forceExitLoop v) response (lastError v) (iterations v))).

(** The branch that runs every call of the message. *)
Definition tools_branch (w : World) (st : State) (v : LoopVars)
    (calls : list ToolCall) : State * Step :=
  let '(st1, (requiresUserConfirmation, results)) :=
    ToolCallProcessorService.processToolCalls w st calls BREAKING_CHANGE_TOOLS in
  let st2 :=
    if requiresUserConfirmation then
      mkState (conversationHistory st1) (chat_requests st1)
              (tool_executions st1) (S (prompts_shown st1))
    else st1 in
  if requiresUserConfirmation && negb (approves w (prompts_shown st1)) then
    (st2, Caught v (Js.ThrownError denial))
  else
    let st3 := append_results st2 results in
    match find (fun result => negb (success result)) results with
    | Some failedToolCall =>
        (st3,
         Next (mkVars (loopComplete v) (forceExitLoop v) (finalResponse v)
                      (Some (Js.newError ("Tool execution failed: " ++
                                          output failedToolCall)))
                      (iterations v)))
    | None => (st3, Next v)
    end.

(** What follows a successful transport call. *)
Definition interpret (w : World) (st : State) (v : LoopVars)
    (assistantMessage : ConversationMessage) : State * Step :=
  let st1 :=
    with_history st (addToConversationHistory (conversationHistory st) assistantMessage) in
  match tool_calls assistantMessage with
  | None | Some [] =>
      (st1,
       Next (mkVars true (forceExitLoop v)
                    (ResponseGeneratorService.generateFinalResponse assistantMessage)
                    (lastError v) (iterations v)))
  | Some calls =>
      match find is_done calls with
      | Some doneToolCall => done_branch w st1 v assistantMessage doneToolCall
      | None => tools_branch w st1 v calls
      end
  end.

(** The [try] block of one iteration. *)
Definition attempt (w : World) (st : State) (v : LoopVars) : State * Step :=
  let '(st1, messages) := build_request w st (lastError v) in
  match call_transport w st1 messages with
  | (st2, Js.Threw apiError) =>
      if is_validation_error apiError then
        let st3 := with_history st2 (fst (sanitizeToolMessages (conversationHistory st2))) in
        let st4 := with_history st3 (clearConversationHistory (conversationHistory st3)) in
        (st4, Break (mkVars true true reset_message (lastError v) (iterations v)))
      else (st2, Caught v apiError)
  | (st2, Js.Ok assistantMessage) => interpret w st2 v assistantMessage
  end.

(** One round of the [while] loop, after [iterations++]: the state and
    variables it leaves, and whether it ended on [break]. *)
Definition iteration (w : World) (st : State) (v : LoopVars)
    : State * LoopVars * bool :=
  match attempt w st v with
  | (st', Break v') => (st', v', true)
  | (st', Next v') => (st', v', false)
  | (st', Caught v' error) =>
      (st',
       mkVars (loopComplete v') (forceExitLoop v') (finalResponse v')
              (Some (Js.as_Error error)) (iterations v'),
       false)
  end.

(** [!loopComplete && !forceExitLoop && iterations < MAX_ITERATIONS]. *)
Definition loop_condition (v : LoopVars) : bool :=
  negb (loopComplete v) && negb (forceExitLoop v) && (iterations v <? MAX_ITERATIONS).

Definition increment (v : LoopVars) : LoopVars :=
  mkVars (loopComplete v) (forceExitLoop v) (finalResponse v) (lastError v)
         (S (iterations v)).

(** The [while] loop; [fuel] bounds the rounds, and [MAX_ITERATIONS] of it is
    never used up before the condition fails. *)
Fixpoint while_loop (w : World) (fuel : nat) (st : State) (v : LoopVars)
    : State * LoopVars :=
  if loop_condition v then
    match fuel with
    | 0 => (st, v)
    | S fuel' =>
        match iteration w st (increment v) with
        | (st', v', true) => (st', v')
        | (st', v', false) => while_loop w fuel' st' v'
        end
    end
  else (st, v).

Definition exceeded_message (lastError : option Js.Error) : string :=
  "I'm sorry, but I encountered an issue while processing your request. " ++
  match lastError with
  | Some e => "Error: " ++ Js.err_message e
  | None => "Please try again with a clearer or simpler query."
  end.

(** The [isOpenAIError] test of the outer [catch]. *)
Definition isOpenAIError (error : Js.Thrown) : bool :=
  match error with
  | Js.ThrownError e =>
      Js.includes (Js.err_message e) "OPENAI_API_ERROR" ||
      Js.includes (Js.err_message e) "400 Invalid parameter" ||
      Js.includes (Js.err_message e) "messages with role 'tool' must be a response" ||
      Js.includes (Js.err_message e) "invalid_request_error" ||
      String.eqb (Js.err_name e) "OpenAIApiValidationError"
  | Js.ThrownValue _ => false
  end.

(** The outer [catch]. *)
Definition outer_catch (st : State) (error : Js.Thrown) : State * Js.Completion string :=
  if isOpenAIError error then
    let st1 := with_history st (fst (sanitizeToolMessages (conversationHistory st))) in
    let st2 := with_history st1 (clearConversationHistory (conversationHistory st1)) in
    let st3 :=
      with_history st2
        (addToConversationHistory (conversationHistory st2)
           (system_msg "The conversation has been reset due to an API error.")) in
    (st3, Js.Ok friendly_message)
  else (st, Js.Threw error).

Definition validation_failure (validation : APIKeyValidation) : Js.Error :=
  Js.newError ("OpenAI API key validation failed: " ++
               match validation_message validation with
               | Some text => text
               | None => "undefined"
               end).

(** The loop proper, once the key is validated: the state and variables when
    the [while] loop is left. *)
Definition run_loop (w : World) (st : State) (query : string) : State * LoopVars :=
  let st1 :=
    with_history st (addToConversationHistory (conversationHistory st) (user_msg query)) in
  while_loop w MAX_ITERATIONS st1 initial_vars.

(** What is returned once the [while] loop is left: [finalResponse], replaced
    by the apology when [loopComplete] is still false. *)
Definition response_text (v : LoopVars) : string :=
  if negb (loopComplete v) then exceeded_message (lastError v)
  else finalResponse v.

(** [executeAgentLoop(query)]: the state it leaves and the text it resolves
    with, or what it rejects with. *)
Definition executeAgentLoop (w : World) (st : State) (query : string)
    : State * Js.Completion string :=
  let validation := validateApiKey w in
  if negb (valid validation) then
    outer_catch st (Js.ThrownError (validation_failure validation))
  else
    let '(st', v) := run_loop w st query in
    (st', Js.Ok (response_text v)).

End AgentLoopService.

(** ** AgentLoopService: the streaming entry point and its chunk buffer *)

Module AgentLoopStreaming.

(** [chunk.function]: either part may be missing. *)
Record ChunkFunction := mkChunkFunction {
  chunk_name : option string;
  chunk_arguments : option string
}.

(** One entry of [toolCallChunks]: the position of the call it belongs to, and
    whatever arrived of its id and function. *)
Record ToolCallChunk := mkChunk {
  chunk_index : nat;
  chunk_id : option string;
  chunk_function : option ChunkFunction
}.

(** An entry of [assistantMessageBuffer.tool_calls]: a tool call with its
    [type] and the [index] it was opened for. *)
Record BufferedToolCall := mkBuffered {
  buffered_call : ToolCall;
  buffered_type : string;
  buffered_index : nat
}.

(** [s += part] when [part] is truthy. *)
Definition append_part (s : string) (part : option string) : string :=
  if Js.truthy_opt part then
    match part with Some text => s ++ text | None => s end
  else s.

(** The two [+=] on [toolCall.function], guarded by [if (chunk.function)]. *)
Definition merge_chunk (toolCall : BufferedToolCall) (chunk : ToolCallChunk)
    : BufferedToolCall :=
  match chunk_function chunk with
  | Some f =>
      mkBuffered
        (mkToolCall (tc_id (buffered_call toolCall))
           (mkFunctionCall
              (append_part (fn_name (tc_function (buffered_call toolCall))) (chunk_name f))
              (append_part (fn_arguments (tc_function (buffered_call toolCall)))
                           (chunk_arguments f))))
        (buffered_type toolCall) (buffered_index toolCall)
  | None => toolCall
  end.

(** The call opened for a chunk whose index is not in the buffer yet. *)
Definition opened (tool_calls : list BufferedToolCall) (chunk : ToolCallChunk)
    : BufferedToolCall :=
  mkBuffered
    (mkToolCall
       (if Js.truthy_opt (chunk_id chunk)
        then match chunk_id chunk with Some id => id | None => "" end
        else "call_" ++ Js.nat_text (List.length tool_calls))
       (mkFunctionCall "" ""))
    "function" (chunk_index chunk).

(** The first entry with the chunk's index, mutated in place. *)
Fixpoint merge_into (tool_calls : list BufferedToolCall) (chunk : ToolCallChunk)
    : list BufferedToolCall :=
  match tool_calls with
  | [] => []
  | tc :: rest =>
      if buffered_index tc =? chunk_index chunk
      then merge_chunk tc chunk :: rest
      else tc :: merge_into rest chunk
  end.

(** One round of the loop over [toolCallChunks]. *)
Definition process_chunk (tool_calls : list BufferedToolCall) (chunk : ToolCallChunk)
    : list BufferedToolCall :=
  match find (fun tc => buffered_index tc =? chunk_index chunk) tool_calls with
  | Some _ => merge_into tool_calls chunk
  | None => tool_calls ++ [merge_chunk (opened tool_calls chunk) chunk]
  end.

(** [processToolCallChunk(toolCallChunks, assistantMessageBuffer)]: the
    [tool_calls] of the buffer afterwards; [None] is a buffer without the
    field. *)
Definition processToolCallChunk (toolCallChunks : list ToolCallChunk)
    (tool_calls : option (list BufferedToolCall)) : list BufferedToolCall :=
  fold_left process_chunk toolCallChunks
            (match tool_calls with Some calls => calls | None => [] end).

(** [executeStreamingAgentLoop(query, onChunk)]: the chunks handed to
    [onChunk] and the text resolved with. *)
Definition executeStreamingAgentLoop (query : string) : list string * string :=
  ([""], "").

End AgentLoopStreaming.

(** ** ContextFilesManager *)

Module ContextFilesManager.

(** The manager: the [Set] of context files in insertion order, and what
    [_onDidUpdateContextFiles] fired so far. *)
Record Manager := mkManager {
  contextFiles : list string;
  fired : list (list string)
}.

Definition empty : Manager := mkManager [] [].

(** [getContextFiles()]: [Array.from(this.contextFiles)]. *)
Definition getContextFiles (m : Manager) : list string := contextFiles m.

(** [addContextFile(filePath)], with [normalize] for [path.normalize].  A
    [filePath] that is not a string ([None]) makes [path.normalize] throw; the
    [catch] logs and leaves the manager as it is. *)
Definition addContextFile (normalize : string -> string) (m : Manager)
    (filePath : option string) : Manager :=
  match filePath with
  | Some p =>
      let files := ConversationManager.set_add (contextFiles m) (normalize p) in
      mkManager files (fired m ++ [files])
  | None => m
  end.

(** [clearContextFiles()]. *)
Definition clearContextFiles (m : Manager) : Manager :=
  mkManager [] (fired m ++ [[]]).

(** A call on the manager. *)
Inductive Call :=
| Add (filePath : option string)
| Clear.

Definition perform (normalize : string -> string) (m : Manager) (c : Call) : Manager :=
  match c with
  | Add filePath => addContextFile normalize m filePath
  | Clear => clearContextFiles m
  end.

End ContextFilesManager.

(** ** OpenAIClientServiceImpl *)

Module OpenAIClientServiceImpl.

(** The two settings read from [sukodeCodeAssistant]. *)
Record Settings := mkSettings {
  apiKey : option string;
  apiUrl : option string
}.

(** The options an [OpenAI] client was built with. *)
Record Client := mkClient {
  client_apiKey : string;
  client_baseURL : option string
}.

(** What the service reaches outside the repository: [String.prototype.trim],
    whether [new OpenAI(options)] throws, and
    [client.chat.completions.create] on the messages. *)
Record Sdk := mkSdk {
  trim : string -> string;
  construction_error : Client -> option Js.Thrown;
  completions_create : Client -> list ConversationMessage -> Js.Completion ChatResponse
}.

(** [!apiKey || apiKey.trim() === '']. *)
Definition unconfigured (sdk : Sdk) (settings : Settings) : bool :=
  match apiKey settings with
  | Some key => negb (Js.truthy key) || negb (Js.truthy (trim sdk key))
  | None => true
  end.

(** [initializeClient()]: the [client] field afterwards. *)
Definition initializeClient (sdk : Sdk) (settings : Settings) (client : option Client)
    : option Client :=
  if unconfigured sdk settings then client
  else
    match apiKey settings with
    | Some key =>
        let built := mkClient (trim sdk key) (apiUrl settings) in
        match construction_error sdk built with
        | None => Some built
        | Some _ => client
        end
    | None => client
    end.

Definition not_configured : string :=
  "OpenAI API key not configured. Please set it in the extension settings.".

(** [validateApiKey()]: the [client] field afterwards and the answer. *)
Definition validateApiKey (sdk : Sdk) (settings : Settings) (client : option Client)
    : option Client * APIKeyValidation :=
  if unconfigured sdk settings then
    (client, mkValidation false (Some not_configured))
  else
    (match client with
     | Some _ => client
     | None => initializeClient sdk settings client
     end,
     mkValidation true (Some "API key is configured")).

(** [createChatCompletion(messages, tools, model, temperature)]; the last
    three go to the SDK as they are. *)
Definition createChatCompletion (sdk : Sdk) (settings : Settings)
    (client : option Client) (messages : list ConversationMessage)
    : Js.Completion ChatResponse :=
  match client with
  | None => Js.Threw (Js.ThrownError (Js.newError "OpenAI client not initialized"))
  | Some c =>
      let validation := snd (validateApiKey sdk settings client) in
      if negb (valid validation) then
        Js.Threw (Js.ThrownError
                    (Js.newError (match validation_message validation with
                                  | Some text => text
                                  | None => ""
                                  end)))
      else completions_create sdk c messages
  end.

End OpenAIClientServiceImpl.

(** ** Text as the file tools handle it *)

Module Text.

Definition newline_char : ascii := Ascii.ascii_of_nat 10.

(** [s.split('\n')]: never empty. *)
Fixpoint split_lines (s : string) : list string :=
  match s with
  | EmptyString => [EmptyString]
  | String c rest =>
      if Ascii.eqb c newline_char then EmptyString :: split_lines rest
      else
        match split_lines rest with
        | line :: lines => String c line :: lines
        | [] => [String c EmptyString]
        end
  end.

(** [lines.join('\n')]. *)
Fixpoint join_lines (lines : list string) : string :=
  match lines with
  | [] => EmptyString
  | [line] => line
  | line :: rest => line ++ String newline_char (join_lines rest)
  end.

(** [array.slice(start, end)] for integers: a negative index counts from the
    end, and both are clamped to the array. *)
Definition slice (A : Type) (l : list A) (start finish : Z) : list A :=
  let len := Z.of_nat (List.length l) in
  let from := if (start <? 0)%Z then Z.max (len + start) 0 else Z.min start len in
  let to := if (finish <? 0)%Z then Z.max (len + finish) 0 else Z.min finish len in
  firstn (Z.to_nat (to - from)) (skipn (Z.to_nat from) l).

(** [array[index]] for an integer index. *)
Definition at_index (A : Type) (l : list A) (index : Z) : option A :=
  if (index <? 0)%Z then None else nth_error l (Z.to_nat index).

(** [array[index] = x] for an index inside the array. *)
Fixpoint set_index (A : Type) (l : list A) (index : nat) (x : A) : list A :=
  match l, index with
  | [], _ => []
  | _ :: rest, 0 => x :: rest
  | y :: rest, S index' => y :: set_index rest index' x
  end.

End Text.

(** ** The file tools: createFile, updateFile *)

Module FileTools.

Local Open Scope string_scope.

(** What the tools reach outside the repository, over a disk of type [D]:
    Node's [fs] (a throwing call gives the [Error], and the disk as it then
    is), [path], the text of a number, and the diagnostics of a file as
    [getFocusedDiagnosticsForFile] reports them. *)
Record Host (D : Type) := mkHost {
  existsSync : D -> string -> bool;
  readFileSync : D -> string -> string + Js.Error;
  writeFileSync : D -> string -> string -> D * option Js.Error;
  mkdirSync : D -> string -> D * option Js.Error;
  dirname : string -> string;
  extname : string -> string;
  number_text : Z -> string;
  getFocusedDiagnosticsForFile : D -> string -> Js.Completion string
}.

Definition line_break : string := String Text.newline_char EmptyString.

Definition codeExtensions : list string :=
  [".ts"; ".js"; ".tsx"; ".jsx"; ".json"; ".py"; ".java"; ".cpp"; ".c"; ".cs"; ".go"; ".rb"].

(** [checkForDiagnostics(filePath)]. *)
Definition checkForDiagnostics (D : Type) (host : Host D) (disk : D) (filePath : string)
    : string :=
  if negb (existsb (String.eqb (extname host filePath)) codeExtensions) then ""
  else
    match getFocusedDiagnosticsForFile host disk filePath with
    | Js.Ok diagnostics =>
        if prefix "No issues" diagnostics then "No diagnostic issues found."
        else "Diagnostic check results:" ++ line_break ++ diagnostics
    | Js.Threw _ => ""
    end.

(** [createFile(filePath, content)]: the disk afterwards and the text
    resolved with. *)
Definition createFile (D : Type) (host : Host D) (disk : D) (filePath content : string)
    : D * string :=
  if existsSync host disk filePath then
    (disk, "Error: File already exists at " ++ filePath ++
           ". Use updateFile to modify existing files.")
  else
    let dirPath := dirname host filePath in
    let made :=
      if negb (existsSync host disk dirPath) then mkdirSync host disk dirPath
      else (disk, None) in
    match made with
    | (disk1, Some error) => (disk1, "Error: " ++ Js.err_message error)
    | (disk1, None) =>
        match writeFileSync host disk1 filePath content with
        | (disk2, Some error) => (disk2, "Error: " ++ Js.err_message error)
        | (disk2, None) => (disk2, "File created successfully: " ++ filePath)
        end
    end.

(** [updateFile(filePath, content, insertAtLine, insertAtColumn)] for integer
    positions; [None] is an argument left out.  The target line is cut and put
    together again as code units, since a column inside a surrogate pair cuts
    the pair; the new line is held in UTF-8 as [writeFileSync(..., 'utf8')]
    writes it. *)
Definition updateFile (D : Type) (host : Host D) (disk : D) (filePath content : string)
    (insertAtLine insertAtColumn : option Z) : D * string :=
  if negb (existsSync host disk filePath) then
    (disk, "Error: File does not exist at " ++ filePath ++
           ". Use createFile to create a new file.")
  else
    match insertAtLine with
    | Some line =>
        match readFileSync host disk filePath with
        | inr err => (disk, "Error updating file at position: " ++ Js.err_message err)
        | inl existingContent =>
            let lines := Text.split_lines existingContent in
            if (line <? 0)%Z || (Z.of_nat (List.length lines) <=? line)%Z then
              (disk, "Error: Line number " ++ number_text host line ++
                     " is out of range (file has " ++ Js.nat_text (List.length lines) ++
                     " lines)")
            else
              let column :=
                match insertAtColumn with
                | Some c => if (c =? 0)%Z then 0%Z else c
                | None => 0%Z
                end in
              match Text.at_index lines line with
              | None => (disk, "Error updating file at position: " ++
                               "Cannot read properties of undefined (reading 'length')")
              | Some targetLine =>
                  if (Z.of_nat (Js.length targetLine) <? column)%Z then
                    (disk, "Error: Column number " ++ number_text host column ++
                           " is out of range (line has " ++
                           Js.nat_text (Js.length targetLine) ++ " characters)")
                  else
                    let lineStart := Js.substring_to targetLine column in
                    let lineEnd := Js.substring_from targetLine column in
                    let lines' :=
                      Text.set_index lines (Z.to_nat line)
                                     (Js.utf8 (lineStart ++ Js.units content ++ lineEnd)%list) in
                    let updatedContent := Text.join_lines lines' in
                    match writeFileSync host disk filePath updatedContent with
                    | (disk1, Some err) =>
                        (disk1, "Error updating file at position: " ++ Js.err_message err)
                    | (disk1, None) =>
                        (disk1,
                         "File updated successfully: " ++ filePath ++
                         " (inserted content at line " ++ number_text host line ++
                         ", column " ++ number_text host column ++ ")" ++
                         line_break ++ line_break ++ checkForDiagnostics host disk1 filePath)
                    end
              end
        end
    | None =>
        match writeFileSync host disk filePath content with
        | (disk1, Some error) => (disk1, "Error: " ++ Js.err_message error)
        | (disk1, None) =>
            (disk1,
             "File updated successfully: " ++ filePath ++ line_break ++ line_break ++
             checkForDiagnostics host disk1 filePath)
        end
    end.

End FileTools.

(** ** ToolExecutor: the file tools it runs itself *)

Module ToolExecutorFiles.

Local Open Scope string_scope.

(** What the executors reach outside the repository: the project path the
    [ProjectPathService] holds, Node's [path], and the editor's
    [openTextDocument(path).getText()]. *)
Record Editor := mkEditor {
  getCurrentProjectPath : option string;
  isAbsolute : string -> bool;
  join : string -> string -> string;
  normalize : string -> string;
  openTextDocument : string -> Js.Completion string
}.

(** The arguments of [view_file], as its schema declares them; a line number
    left out is [None]. *)
Record ViewFileArgs := mkViewFileArgs {
  AbsolutePath : string;
  StartLine : option Z;
  EndLine : option Z
}.

(** [n || fallback] for an integer [n] that may be missing. *)
Definition or_else (n : option Z) (fallback : Z) : Z :=
  match n with
  | Some z => if (z =? 0)%Z then fallback else z
  | None => fallback
  end.

(** [executeViewFile(args)]: the context files afterwards and the text
    resolved with. *)
Definition executeViewFile (editor : Editor) (manager : ContextFilesManager.Manager)
    (args : ViewFileArgs) : ContextFilesManager.Manager * string :=
  if negb (Js.truthy_opt (getCurrentProjectPath editor)) then
    (manager, "Error: No workspace folder is open")
  else
    let projectPath :=
      match getCurrentProjectPath editor with Some p => p | None => "" end in
    let filePath :=
      if negb (isAbsolute editor (AbsolutePath args))
      then join editor projectPath (AbsolutePath args)
      else AbsolutePath args in
    let manager1 :=
      ContextFilesManager.addContextFile (normalize editor) manager (Some filePath) in
    match openTextDocument editor filePath with
    | Js.Threw err => (manager1, "Error viewing file: " ++ Js.String_of err)
    | Js.Ok content =>
        let lines := Text.split_lines content in
        let last := (Z.of_nat (List.length lines) - 1)%Z in
        let startLine := Z.max 0 (or_else (StartLine args) 0) in
        let endLine := Z.min last (or_else (EndLine args) last) in
        (manager1, Text.join_lines (Text.slice lines startLine (endLine + 1)))
    end.

(** The arguments of [create_file] and [update_file]. *)
Record WriteFileArgs := mkWriteFileArgs {
  FilePath : string;
  Content : string;
  InsertAtLine : option Z;
  InsertAtColumn : option Z
}.

(** [if (result.includes('successfully')) addContextFile(args.FilePath)]. *)
Definition note_success (editor : Editor) (manager : ContextFilesManager.Manager)
    (filePath result : string) : ContextFilesManager.Manager :=
  if Js.includes result "successfully"
  then ContextFilesManager.addContextFile (normalize editor) manager (Some filePath)
  else manager.

(** [executeCreateFile(args)]. *)
Definition executeCreateFile (D : Type) (host : FileTools.Host D) (editor : Editor)
    (disk : D) (manager : ContextFilesManager.Manager) (args : WriteFileArgs)
    : D * ContextFilesManager.Manager * string :=
  let '(disk1, result) := FileTools.createFile host disk (FilePath args) (Content args) in
  (disk1, note_success editor manager (FilePath args) result, result).

(** [executeUpdateFile(args)]. *)
Definition executeUpdateFile (D : Type) (host : FileTools.Host D) (editor : Editor)
    (disk : D) (manager : ContextFilesManager.Manager) (args : WriteFileArgs)
    : D * ContextFilesManager.Manager * string :=
  let '(disk1, result) :=
    FileTools.updateFile host disk (FilePath args) (Content args)
                         (InsertAtLine args) (InsertAtColumn args) in
  (disk1, note_success editor manager (FilePath args) result, result).

End ToolExecutorFiles.

(** ** Concrete worlds and transcripts *)

Module Scenario.

(** A stand-in for [JSON.parse] on the argument texts used below: an object
    literal parses, anything else is a syntax error. *)
Definition parse_objects (text : string) : option Js.Error :=
  if prefix "{}" text then None
  else Some (Js.mkError "SyntaxError" "Unexpected token in JSON").

(** A world with a valid key, a transport that always answers [reply], and
    tools that settle as [tools] says. *)
Definition world (reply : nat -> list ConversationMessage -> Js.Completion ChatResponse)
    (tools : nat -> string -> string -> ToolOutcome) (approve : bool) : World :=
  mkWorld "You are a coding assistant." "/tmp/proj"
          (mkValidation true None)
          reply parse_objects tools (fun _ => approve)
          (fun _ => []) (fun _ _ => None) (fun _ => 0%N) (fun _ => "{}").

Definition says (m : ConversationMessage) : nat -> list ConversationMessage -> Js.Completion ChatResponse :=
  fun _ _ => Js.Ok (mkResponse [m]).

Definition fails_with (message : string) : nat -> list ConversationMessage -> Js.Completion ChatResponse :=
  fun _ _ => Js.Threw (Js.ThrownError (Js.newError message)).

Definition all_resolve (text : string) : nat -> string -> string -> ToolOutcome :=
  fun _ _ _ => Resolves text.

Definition all_reject (message : string) : nat -> string -> string -> ToolOutcome :=
  fun _ _ _ => Rejects (Js.ThrownError (Js.newError message)).

Definition all_pending : nat -> string -> string -> ToolOutcome :=
  fun _ _ _ => Pending.

Definition call (call_id name args : string) : ToolCall :=
  mkToolCall call_id (mkFunctionCall name args).

(** An assistant message that only carries tool calls. *)
Definition requests (calls : list ToolCall) : ConversationMessage :=
  mkMessage assistant None (Some calls) None.

Definition fresh : State := mkState [] [] [] 0.

Definition started (h : list ConversationMessage) : State := mkState h [] [] 0.

(** The transport answers a plain text; every tool rejects. *)
Definition rejecting_world : World :=
  world (says (assistant_text "All done.")) (all_reject "EACCES: permission denied") true.

(** The transport answers a plain text; no tool settles in time. *)
Definition pending_world : World :=
  world (says (assistant_text "All done.")) all_pending true.

(** Twelve messages: a question answered at once, a question answered after one
    tool call, then four more plain exchanges. *)
Definition long_transcript : list ConversationMessage :=
  [user_msg "q1"; assistant_text "a1";
   user_msg "q2"; requests [call "call_1" "view_file" "{}"]; tool_msg "call_1" "contents";
   assistant_text "a2";
   user_msg "q3"; assistant_text "a3";
   user_msg "q4"; assistant_text "a4";
   user_msg "q5"; assistant_text "a5"].

(** A world like [world], with chosen path matches for message contents. *)
Definition world_with_paths
    (reply : nat -> list ConversationMessage -> Js.Completion ChatResponse)
    (paths : string -> list string) : World :=
  mkWorld "You are a coding assistant." "/tmp/proj"
          (mkValidation true None)
          reply parse_objects (all_resolve "ok") (fun _ => true)
          paths (fun _ _ => None) (fun _ => 0%N) (fun _ => "{}").

(** The transport is down; the second question mentions a file and a
    directory. *)
Definition offline_world : World :=
  world_with_paths (fails_with "connect ETIMEDOUT")
    (fun text => if String.eqb text "q2" then ["/tmp/proj/main.ts"; "/tmp/proj/"] else []).

(** The model asks for a file to be created; the tool succeeds; the user would
    answer [Deny] if asked. *)
Definition denying_world : World :=
  world (says (requests [call "call_1" "create_file" "{}"]))
        (all_resolve "File created successfully") false.

(** The model's message carries a [done] call between two other calls. *)
Definition done_world : World :=
  world (says (requests [call "call_1" "list_dir" "{}"; call "call_2" "done" "{}";
                         call "call_3" "run_command" "{}"]))
        (all_resolve "Task completed: listed the project") true.

(** The provider rejects the request as malformed. *)
Definition rejected_world : World :=
  world (fails_with "400 status code: invalid_request_error") (all_resolve "ok") true.

(** The model closes with a message that has neither content nor tool calls. *)
Definition silent_world : World :=
  world (says (mkMessage assistant None None None)) (all_resolve "ok") true.

(** The model keeps asking for a listing with malformed arguments. *)
Definition stubborn_world : World :=
  world (says (requests [call "call_1" "list_dir" "{"])) (all_resolve "ok") true.

(** The model asks for a listing and for a file, the second with malformed
    arguments. *)
Definition mixed_world : World :=
  world (says (requests [call "call_1" "list_dir" "{}"; call "call_2" "view_file" "{"]))
        (all_resolve "ok") true.

(** A transcript with the three defects at once: the call [call_a] is separated
    from its response by a user message, and the last tool message answers no
    call at all. *)
Definition broken_transcript : list ConversationMessage :=
  [user_msg "q1";
   requests [call "call_a" "view_file" "{}"; call "call_b" "list_dir" "{}"];
   tool_msg "call_b" "listing";
   user_msg "q2";
   tool_msg "call_a" "contents";
   tool_msg "call_x" "stray"].

(** A well-paired exchange with one tool message that answers no call. *)
Definition stray_transcript : list ConversationMessage :=
  [user_msg "q1";
   requests [call "call_a" "view_file" "{}"];
   tool_msg "call_a" "contents";
   tool_msg "call_x" "stray";
   assistant_text "a1"].

(** The same call answered twice. *)
Definition doubled_transcript : list ConversationMessage :=
  [requests [call "call_a" "view_file" "{}"];
   tool_msg "call_a" "contents";
   tool_msg "call_a" "contents"].

(** Two calls, one of them never answered. *)
Definition half_answered_transcript : list ConversationMessage :=
  [requests [call "call_a" "view_file" "{}"; call "call_b" "list_dir" "{}"];
   tool_msg "call_a" "contents"].

(** A call whose arguments never arrived, with its response. *)
Definition streamed_transcript : list ConversationMessage :=
  [user_msg "q1";
   requests [call "call_a" "view_file" EmptyString];
   tool_msg "call_a" "contents";
   user_msg "q2"].

(** An orphaned response ahead of a call that was never answered. *)
Definition shifted_transcript : list ConversationMessage :=
  [tool_msg "call_x" "stray";
   requests [call "call_a" "view_file" "{}"];
   user_msg "q1"].

(** An orphaned response ahead of a call that was never answered, followed by
    a well-paired exchange. *)
Definition misplaced_transcript : list ConversationMessage :=
  [tool_msg "call_x" "stray";
   requests [call "call_a" "view_file" "{}"];
   requests [call "call_b" "list_dir" "{}"];
   tool_msg "call_b" "listing"].

End Scenario.

(** ** Concrete hosts, clients and chunks *)

Module Examples.

(** Ten stored messages: a question and nine steps of the answer. *)
Definition full_store : list ConversationMessage :=
  user_msg "q0" :: repeat (assistant_text "working") 9.

(** Twelve messages of an answer in progress, none of them from the user. *)
Definition long_answer : list ConversationMessage :=
  repeat (assistant_text "working") 12.

(** A streamed answer with two calls, the parts of the first arriving around
    those of the second. *)
Definition streamed_chunks : list AgentLoopStreaming.ToolCallChunk :=
  [AgentLoopStreaming.mkChunk 0 (Some "call_a")
     (Some (AgentLoopStreaming.mkChunkFunction (Some "view_") None));
   AgentLoopStreaming.mkChunk 1 None
     (Some (AgentLoopStreaming.mkChunkFunction (Some "list_dir") (Some "{}")));
   AgentLoopStreaming.mkChunk 0 None
     (Some (AgentLoopStreaming.mkChunkFunction (Some "file") (Some "{}")))].

(** A disk as a map from paths to contents: every path on it is a file that
    can be read and written, and the language server has nothing to report. *)
Definition Disk := Js.Map string string.

Definition memory_host : FileTools.Host Disk :=
  FileTools.mkHost
    (fun disk p => Js.map_has String.eqb disk p)
    (fun disk p =>
       match Js.map_get String.eqb disk p with
       | Some text => inl text
       | None => inr (Js.newError "ENOENT: no such file or directory")
       end)
    (fun disk p text => (Js.map_set String.eqb disk p text, None))
    (fun disk p => (disk, None))
    (fun p => "/tmp/proj")
    (fun p => ".ts")
    (fun z => if (z <? 0)%Z then ("-" ++ Js.N_text (Z.to_N (- z)))%string
              else Js.N_text (Z.to_N z))
    (fun disk p => Js.Ok "No issues found in the file.").

Definition two_lines : string :=
  ("let a = 1;" ++ FileTools.line_break ++ "let c = 3;")%string.

Definition project_disk : Disk := [("/tmp/proj/main.ts", two_lines)].

(** The two bytes of U+00E9, and a file whose second line holds it. *)
Definition e_acute : string :=
  String (Ascii.ascii_of_nat 195) (String (Ascii.ascii_of_nat 169) EmptyString).

Definition accented_line : string := ("caf" ++ e_acute ++ " au lait")%string.

Definition menu_disk : Disk :=
  [("/tmp/proj/menu.ts", ("menu:" ++ FileTools.line_break ++ accented_line)%string)].

(** An editor with the project open, in which only [main.ts] can be opened. *)
Definition project_editor : ToolExecutorFiles.Editor :=
  ToolExecutorFiles.mkEditor
    (Some "/tmp/proj")
    (fun p => prefix "/" p)
    (fun a b => (a ++ "/" ++ b)%string)
    (fun p => p)
    (fun p => if String.eqb p "/tmp/proj/main.ts" then Js.Ok two_lines
              else Js.Threw (Js.ThrownError (Js.newError "cannot open file"))).

(** [trim] for keys padded with spaces at the front. *)
Fixpoint trim_front (s : string) : string :=
  match s with
  | String c rest => if Ascii.eqb c " "%char then trim_front rest else s
  | EmptyString => EmptyString
  end.

Definition plain_sdk : OpenAIClientServiceImpl.Sdk :=
  OpenAIClientServiceImpl.mkSdk
    trim_front (fun _ => None) (fun _ _ => Js.Ok (mkResponse [assistant_text "ok"])).

Definition no_key : OpenAIClientServiceImpl.Settings :=
  OpenAIClientServiceImpl.mkSettings None None.

(** A world whose key validation is the one of the client without a key. *)
Definition keyless_world : World :=
  mkWorld "You are a coding assistant." "/tmp/proj"
          (snd (OpenAIClientServiceImpl.validateApiKey plain_sdk no_key None))
          (Scenario.says (assistant_text "ok")) Scenario.parse_objects
          (Scenario.all_resolve "ok") (fun _ => true)
          (fun _ => []) (fun _ _ => None) (fun _ => 0%N) (fun _ => "{}").

End Examples.


(** * Properties *)

Unset Implicit Arguments.

(** ** Tool call results *)

Section ToolCallResults.

Import ToolCallProcessorService.

(** The calls among the first [i] whose arguments parse: each of them was
    dispatched to a tool. *)
Definition dispatched_before (w : World) (i : nat) (toolCalls : list ToolCall) : nat :=
  List.length (filter (fun tc =>
                         match JSON_parse_error w (fn_arguments (tc_function tc)) with
                         | None => true
                         | Some _ => false
                         end)
                      (firstn i toolCalls)).

(** What the result [r] of a call must be when [n] tools were dispatched
    before it. *)
Definition result_of_call (w : World) (n : nat) (toolCall : ToolCall)
    (r : ToolCallResult) : Prop :=
  res_tool_call_id r = tc_id toolCall /\
  match JSON_parse_error w (fn_arguments (tc_function toolCall)) with
  | Some error =>
      success r = false /\ output r = ("Error: " ++ Js.err_message error)%string
  | None =>
      success r = true /\
      match ToolExecutor.executeTool w n (fn_name (tc_function toolCall))
                                     (fn_arguments (tc_function toolCall)) with
      | Resolves text => output r = text
      | Rejects error =>
          output r = ("Error executing tool: " ++ Js.String_of error)%string
      | Pending => output r = "Tool execution timed out after 30 seconds"
      end
  end.

Lemma process_one_result (w : World) (st : State) (toolCall : ToolCall) :
  result_of_call w (List.length (tool_executions st)) toolCall
                 (snd (process_one w st toolCall)).
Proof.
  unfold result_of_call, process_one.
  destruct (JSON_parse_error w (fn_arguments (tc_function toolCall))) as [e|]; simpl.
  - auto.
  - repeat split.
    unfold ToolExecutor.executeToolWithTimeout, ToolExecutor.executeWithTimeout.
    destruct (ToolExecutor.executeTool _ _ _ _); reflexivity.
Qed.

Lemma process_one_executions (w : World) (st : State) (toolCall : ToolCall) :
  List.length (tool_executions (fst (process_one w st toolCall))) =
  List.length (tool_executions st) + dispatched_before w 1 [toolCall].
Proof.
  unfold process_one, dispatched_before. simpl.
  destruct (JSON_parse_error w (fn_arguments (tc_function toolCall))); simpl.
  - lia.
  - rewrite length_app. simpl. lia.
Qed.

Lemma process_one_frame (w : World) (st : State) (toolCall : ToolCall) :
  conversationHistory (fst (process_one w st toolCall)) = conversationHistory st /\
  chat_requests (fst (process_one w st toolCall)) = chat_requests st /\
  prompts_shown (fst (process_one w st toolCall)) = prompts_shown st.
Proof.
  unfold process_one.
  destruct (JSON_parse_error w (fn_arguments (tc_function toolCall))); simpl; auto.
Qed.

Lemma process_all_frame (w : World) (toolCalls : list ToolCall) :
  forall st,
    conversationHistory (fst (process_all w st toolCalls)) = conversationHistory st /\
    chat_requests (fst (process_all w st toolCalls)) = chat_requests st /\
    prompts_shown (fst (process_all w st toolCalls)) = prompts_shown st.
Proof.
  induction toolCalls as [|tc rest IH]; intros st; simpl; auto.
  destruct (process_one w st tc) as [st1 r] eqn:E1.
  destruct (process_all w st1 rest) as [st2 rs] eqn:E2. simpl.
  specialize (IH st1). rewrite E2 in IH. simpl in IH.
  pose proof (process_one_frame w st tc) as F. rewrite E1 in F. simpl in F.
  destruct IH as (A & B & C), F as (A' & B' & C'). repeat split; congruence.
Qed.

Lemma process_all_results (w : World) (toolCalls : list ToolCall) :
  forall st i toolCall r,
    nth_error toolCalls i = Some toolCall ->
    nth_error (snd (process_all w st toolCalls)) i = Some r ->
    result_of_call w (List.length (tool_executions st) + dispatched_before w i toolCalls)
                   toolCall r.
Proof.
  induction toolCalls as [|tc rest IH]; intros st i toolCall r Hc Hr.
  - destruct i; discriminate.
  - simpl in Hr.
    destruct (process_one w st tc) as [st1 r1] eqn:E1.
    destruct (process_all w st1 rest) as [st2 rs] eqn:E2. simpl in Hr.
    destruct i as [|i].
    + simpl in Hc, Hr. inversion Hc; inversion Hr; subst.
      unfold dispatched_before. simpl. rewrite Nat.add_0_r.
      pose proof (process_one_result w st toolCall) as P. rewrite E1 in P. exact P.
    + simpl in Hc, Hr.
      specialize (IH st1 i toolCall r Hc). rewrite E2 in IH. specialize (IH Hr).
      pose proof (process_one_executions w st tc) as L. rewrite E1 in L. simpl in L.
      rewrite L in IH.
      replace (List.length (tool_executions st) + dispatched_before w (S i) (tc :: rest))
        with (List.length (tool_executions st) + dispatched_before w 1 [tc] +
              dispatched_before w i rest); [exact IH|].
      unfold dispatched_before. simpl.
      destruct (JSON_parse_error w (fn_arguments (tc_function tc))); simpl; lia.
Qed.

Lemma process_all_length (w : World) (toolCalls : list ToolCall) :
  forall st, List.length (snd (process_all w st toolCalls)) = List.length toolCalls.
Proof.
  induction toolCalls as [|tc rest IH]; intros st; simpl; auto.
  destruct (process_one w st tc) as [st1 r1].
  specialize (IH st1).
  destruct (process_all w st1 rest) as [st2 rs]. simpl in *. congruence.
Qed.

Lemma processToolCalls_results (w : World) (st : State) (toolCalls : list ToolCall)
    (names : list string) :
  snd (snd (processToolCalls w st toolCalls names)) = snd (process_all w st toolCalls) /\
  fst (processToolCalls w st toolCalls names) = fst (process_all w st toolCalls).
Proof.
  unfold processToolCalls. destruct (process_all w st toolCalls); auto.
Qed.

End ToolCallResults.

(** C1 (as amended): [processToolCalls] returns one result per call, in call
    order and under the call's id.  A call whose argument text does not parse
    is not dispatched and yields [success:false] with ["Error: "] and the
    parser's message.  A call whose arguments parse yields [success:true],
    whatever the tool does: the tool's text when it resolves, ["Error executing
    tool: "] and the error's text when it rejects, and the 30 seconds timeout
    notice when it is still pending as the timer fires. *)
Theorem C1_results_by_parse_outcome :
  forall (w : World) (st : State) (toolCalls : list ToolCall) (names : list string),
    let results := snd (snd (ToolCallProcessorService.processToolCalls w st toolCalls names)) in
    List.length results = List.length toolCalls /\
    forall i toolCall r,
      nth_error toolCalls i = Some toolCall ->
      nth_error results i = Some r ->
      result_of_call w (List.length (tool_executions st) + dispatched_before w i toolCalls)
                     toolCall r.
Proof.
  intros w st toolCalls names results. subst results.
  destruct (processToolCalls_results w st toolCalls names) as [R _].
  rewrite R. split.
  - apply process_all_length.
  - intros i toolCall r Hc Hr. eapply process_all_results; eauto.
Qed.

(** C1, the claim as stated fails: a tool that rejects, and one that is still
    pending after 30 seconds, both give [success:true], and an output that does
    not begin with ["Error: "]. *)
Lemma C1_failed_execution_reported_as_success :
  ToolExecutor.executeTool Scenario.rejecting_world 0 "view_file" "{}" =
    Rejects (Js.ThrownError (Js.newError "EACCES: permission denied")) /\
  snd (snd (ToolCallProcessorService.processToolCalls
              Scenario.rejecting_world Scenario.fresh
              [Scenario.call "call_1" "view_file" "{}"] [])) =
    [mkResult "call_1" "Error executing tool: Error: EACCES: permission denied" true] /\
  prefix "Error: " "Error executing tool: Error: EACCES: permission denied" = false /\
  ToolExecutor.executeTool Scenario.pending_world 0 "run_command" "{}" = Pending /\
  snd (snd (ToolCallProcessorService.processToolCalls
              Scenario.pending_world Scenario.fresh
              [Scenario.call "call_2" "run_command" "{}"] [])) =
    [mkResult "call_2" "Tool execution timed out after 30 seconds" true] /\
  prefix "Error: " "Tool execution timed out after 30 seconds" = false.
Proof.
  repeat split; vm_compute; reflexivity.
Qed.

(** ** Truncation *)

Section Truncation.

Import ConversationManager.

(** A user message stands just before position [k], unless [k] is 0. *)
Definition after_user (h : History) (k : nat) : Prop :=
  k = 0 \/ exists m, nth_error h (k - 1) = Some m /\ role m = user.

Lemma is_user_role (m : ConversationMessage) : is_user m = true -> role m = user.
Proof. unfold is_user. destruct (role m); simpl; congruence. Qed.

Lemma scan_bounds (h : History) (trm : ToolResponseMap) (keep excess : nat) :
  forall fuel i safe,
    safe <= i ->
    after_user h safe ->
    let k := scan h trm keep excess fuel i safe in
    k <= i + fuel /\ after_user h k.
Proof.
  induction fuel as [|fuel IH]; intros i safe Hle Hu; simpl.
  - split; [lia | exact Hu].
  - destruct (nth_error h i) as [message|] eqn:Hi.
    + destruct (is_user message) eqn:Hum.
      * destruct (blocked h trm keep i).
        { split; [lia | exact Hu]. }
        assert (Hu' : after_user h (i + 1)).
        { right. exists message. replace (i + 1 - 1) with i by lia.
          split; [exact Hi | apply is_user_role; exact Hum]. }
        destruct (excess <=? i + 1).
        { split; [lia | exact Hu']. }
        specialize (IH (i + 1) (i + 1) (le_n _) Hu'). simpl in IH.
        destruct IH as [A B]. split; [lia | exact B].
      * destruct (excess <=? safe).
        { split; [lia | exact Hu]. }
        assert (Hle' : safe <= i + 1) by lia.
        specialize (IH (i + 1) safe Hle' Hu). simpl in IH.
        destruct IH as [A B]. split; [lia | exact B].
    + split; [lia | exact Hu].
Qed.

(** The removal point never exceeds the excess over the maximum, and a user
    message stands just before it. *)
Lemma safeRemovalPoint_bounds (h : History) :
  safeRemovalPoint h <= List.length h - maxHistoryLength /\
  after_user h (safeRemovalPoint h).
Proof.
  unfold safeRemovalPoint.
  destruct (List.length h <=? maxHistoryLength) eqn:E.
  - split; [lia | left; reflexivity].
  - destruct (List.length h - maxHistoryLength <=? 0).
    + split; [lia | left; reflexivity].
    + pose proof (@scan_bounds h (snd (truncation_maps h)) (Nat.div maxHistoryLength 2 * 2)
                    (List.length h - maxHistoryLength)
                    (List.length h - Nat.div maxHistoryLength 2 * 2) 0 0
                    (le_n _) (or_introl eq_refl)) as P.
      simpl in P. exact P.
Qed.

Lemma safelyTruncate_skipn (h : History) :
  safelyTruncateConversationHistory h = skipn (safeRemovalPoint h) h.
Proof.
  unfold safelyTruncateConversationHistory.
  destruct (0 <? safeRemovalPoint h) eqn:E; [reflexivity|].
  apply Nat.ltb_ge in E. replace (safeRemovalPoint h) with 0 by lia. reflexivity.
Qed.

Lemma safelyTruncate_short (h : History) :
  List.length h <= maxHistoryLength -> safelyTruncateConversationHistory h = h.
Proof.
  intros L. rewrite safelyTruncate_skipn.
  pose proof (safeRemovalPoint_bounds h) as [B _].
  replace (safeRemovalPoint h) with 0 by lia. reflexivity.
Qed.

Lemma safelyTruncate_length (h : History) :
  List.length (safelyTruncateConversationHistory h) =
  List.length h - safeRemovalPoint h.
Proof. rewrite safelyTruncate_skipn. apply length_skipn. Qed.

(** Appending keeps the new message last: truncation only drops a prefix of
    what was there before. *)
Lemma addToConversationHistory_last (h : History) (message : ConversationMessage) :
  exists k, k <= List.length h /\
            addToConversationHistory h message = skipn k h ++ [message].
Proof.
  unfold addToConversationHistory. rewrite safelyTruncate_skipn.
  pose proof (safeRemovalPoint_bounds (h ++ [message])) as [B _].
  rewrite length_app in B. simpl in B.
  exists (safeRemovalPoint (h ++ [message])). split.
  - unfold maxHistoryLength in B. lia.
  - rewrite skipn_app.
    replace (safeRemovalPoint (h ++ [message]) - List.length h) with 0
      by (unfold maxHistoryLength in B; lia).
    reflexivity.
Qed.

End Truncation.

(** ** The pairing invariant, position by position *)

Section Pairing.

Lemma pairing_from_split (post : list ConversationMessage) :
  forall pre acc m,
    pairing_from acc (pre ++ m :: post) = true ->
    paired_at (acc ++ pre) m post = true.
Proof.
  induction pre as [|a pre IH]; intros acc m H; simpl in H.
  - rewrite app_nil_r. apply andb_true_iff in H. tauto.
  - apply andb_true_iff in H. destruct H as [_ H].
    apply IH in H. rewrite <- app_assoc in H. exact H.
Qed.

(** Under the invariant, every position is paired. *)
Lemma pairing_invariant_at (pre post : list ConversationMessage) (m : ConversationMessage) :
  pairing_invariant (pre ++ m :: post) = true -> paired_at pre m post = true.
Proof. intros H. apply (pairing_from_split post pre [] m H). Qed.

Lemma pairing_from_intro (post : list ConversationMessage) :
  forall acc,
    (forall pre m rest, post = pre ++ m :: rest -> paired_at (acc ++ pre) m rest = true) ->
    pairing_from acc post = true.
Proof.
  induction post as [|a post IH]; intros acc H; simpl; [reflexivity|].
  apply andb_true_iff. split.
  - specialize (H [] a post eq_refl). rewrite app_nil_r in H. exact H.
  - apply IH. intros pre m rest E. subst post.
    specialize (H (a :: pre) m rest eq_refl).
    rewrite <- app_assoc. exact H.
Qed.

Lemma earlier_calls_app (a b : list ConversationMessage) (c : string) :
  earlier_calls (a ++ b) c = earlier_calls a c + earlier_calls b c.
Proof.
  unfold earlier_calls. rewrite flat_map_app, filter_app, length_app. reflexivity.
Qed.

Lemma earlier_calls_cons (m : ConversationMessage) (b : list ConversationMessage) (c : string) :
  earlier_calls (m :: b) c = earlier_calls [m] c + earlier_calls b c.
Proof. apply (earlier_calls_app [m] b c). Qed.

Lemma earlier_calls_own (m : ConversationMessage) (tc : ToolCall) :
  In tc (calls_of m) -> 1 <= earlier_calls [m] (tc_id tc).
Proof.
  intros H. unfold earlier_calls. simpl. rewrite app_nil_r.
  assert (I : In tc (filter (fun c => String.eqb (tc_id c) (tc_id tc)) (calls_of m))).
  { apply filter_In. split; [exact H | apply String.eqb_refl]. }
  destruct (filter _ (calls_of m)); [destruct I | simpl; lia].
Qed.

Lemma tool_run_prefix (post : list ConversationMessage) :
  exists rest, post = tool_run post ++ rest.
Proof.
  induction post as [|m post [rest IH]]; simpl.
  - exists []. reflexivity.
  - destruct (is_tool m).
    + exists rest. simpl. congruence.
    + exists (m :: post). reflexivity.
Qed.

Lemma tool_run_all_tools (post : list ConversationMessage) (r : ConversationMessage) :
  In r (tool_run post) -> is_tool r = true.
Proof.
  induction post as [|m post IH]; simpl; [tauto|].
  destruct (is_tool m) eqn:E; simpl; [|tauto].
  intros [->|H]; auto.
Qed.

(** A call answered once in its run has an answering tool message later on. *)
Lemma response_in_run_split (post : list ConversationMessage) (c : string) :
  responses_in_run post c = 1 ->
  exists a r b, post = a ++ r :: b /\ is_tool r = true /\ answers r c = true.
Proof.
  unfold responses_in_run. intros H.
  destruct (filter (fun m => answers m c) (tool_run post)) as [|r l] eqn:F;
    [discriminate|].
  assert (I : In r (filter (fun m => answers m c) (tool_run post)))
    by (rewrite F; left; reflexivity).
  apply filter_In in I. destruct I as [I A].
  pose proof (tool_run_all_tools post r I) as T.
  destruct (tool_run_prefix post) as [rest P].
  apply in_split in I. destruct I as (a & b & S).
  exists a, r, (b ++ rest). repeat split; auto.
  rewrite P at 1. rewrite S, <- app_assoc. reflexivity.
Qed.

Lemma calls_of_assistant (m : ConversationMessage) (tc : ToolCall) :
  In tc (calls_of m) -> role m = assistant.
Proof.
  unfold calls_of. destruct (role m); simpl; tauto.
Qed.

Lemma answers_id (r : ConversationMessage) (c : string) :
  answers r c = true -> tool_call_id r = Some c.
Proof.
  unfold answers. destruct (tool_call_id r) as [c'|]; [|discriminate].
  intros E. apply String.eqb_eq in E. congruence.
Qed.

(** Under the invariant a tool message comes after every call carrying its
    id. *)
Lemma responses_after_calls (t : list ConversationMessage) :
  pairing_invariant t = true ->
  forall i j m r tc,
    nth_error t i = Some m -> In tc (calls_of m) ->
    nth_error t j = Some r -> is_tool r = true -> answers r (tc_id tc) = true ->
    i < j.
Proof.
  intros P i j m r tc Hi Hc Hj Tr Ar.
  destruct (Nat.lt_ge_cases i j) as [|G]; [assumption|exfalso].
  assert (N : j <> i).
  { intros ->. rewrite Hi in Hj. inversion Hj; subst.
    apply calls_of_assistant in Hc. unfold is_tool in Tr. rewrite Hc in Tr. discriminate. }
  assert (L : j < i) by lia. clear G N.
  destruct (nth_error_split t j Hj) as (pre & post & E & Lp).
  subst t.
  rewrite nth_error_app2 in Hi by lia.
  replace (i - List.length pre) with (S (i - List.length pre - 1)) in Hi by lia.
  simpl in Hi.
  destruct (nth_error_split post _ Hi) as (mid & post' & E' & _). subst post.
  (* the tool message at j owns exactly one earlier call *)
  pose proof (pairing_invariant_at pre (mid ++ m :: post') r P) as Pj.
  unfold paired_at in Pj. rewrite Tr in Pj.
  rewrite (answers_id _ _ Ar) in Pj.
  apply andb_true_iff in Pj. destruct Pj as [Pj _]. apply Nat.eqb_eq in Pj.
  (* the call at i is answered in its run *)
  assert (P' : pairing_invariant ((pre ++ r :: mid) ++ m :: post') = true)
    by (rewrite <- app_assoc; exact P).
  pose proof (pairing_invariant_at (pre ++ r :: mid) post' m P') as Pi.
  unfold paired_at in Pi. apply andb_true_iff in Pi. destruct Pi as [_ Pi].
  rewrite forallb_forall in Pi. specialize (Pi tc Hc). apply Nat.eqb_eq in Pi.
  destruct (response_in_run_split post' (tc_id tc) Pi) as (a & r' & b & E & Tr' & Ar').
  subst post'.
  assert (P'' : pairing_invariant (((pre ++ r :: mid) ++ m :: a) ++ r' :: b) = true).
  { rewrite <- app_assoc. simpl. exact P'. }
  pose proof (pairing_invariant_at ((pre ++ r :: mid) ++ m :: a) b r' P'') as Pr.
  unfold paired_at in Pr. rewrite Tr' in Pr. rewrite (answers_id _ _ Ar') in Pr.
  apply andb_true_iff in Pr. destruct Pr as [Pr _]. apply Nat.eqb_eq in Pr.
  rewrite !earlier_calls_app in Pr.
  rewrite (earlier_calls_cons m a) in Pr.
  pose proof (earlier_calls_own m tc Hc). lia.
Qed.

End Pairing.

(** C4: on a transcript that satisfies the pairing invariant, truncation drops
    a prefix that ends just after a user message (or drops nothing); every tool
    message answering a surviving assistant tool call survives as well; a
    transcript at or under the maximum is left as it is, so truncating again
    once at or under the maximum changes nothing; and the cut never takes more
    than the excess, the transcript staying over-length when no admissible
    point removes enough. *)
Theorem C4_truncation_is_safe :
  forall t : ConversationManager.History,
    pairing_invariant t = true ->
    let k := ConversationManager.safeRemovalPoint t in
    let t' := ConversationManager.safelyTruncateConversationHistory t in
    t' = skipn k t /\
    after_user t k /\
    (forall i j m r tc,
        nth_error t i = Some m -> In tc (calls_of m) -> k <= i ->
        nth_error t j = Some r -> is_tool r = true -> answers r (tc_id tc) = true ->
        k <= j) /\
    (List.length t <= ConversationManager.maxHistoryLength -> t' = t) /\
    (List.length t' <= ConversationManager.maxHistoryLength ->
     ConversationManager.safelyTruncateConversationHistory t' = t') /\
    k <= List.length t - ConversationManager.maxHistoryLength /\
    (ConversationManager.maxHistoryLength < List.length t ->
     ConversationManager.maxHistoryLength <= List.length t').
Proof.
  intros t P k t'. subst k t'.
  pose proof (safeRemovalPoint_bounds t) as [B U].
  repeat split.
  - apply safelyTruncate_skipn.
  - exact U.
  - intros i j m r tc Hi Hc Hk Hj Tr Ar.
    pose proof (responses_after_calls t P i j m r tc Hi Hc Hj Tr Ar). lia.
  - apply safelyTruncate_short.
  - apply safelyTruncate_short.
  - exact B.
  - intros L. rewrite safelyTruncate_length. lia.
Qed.

(** C4 at work: of the twelve messages of [Scenario.long_transcript] only the
    first is dropped, the cut falling just after that user message. *)
Lemma C4_truncation_is_safe_witness :
  pairing_invariant Scenario.long_transcript = true /\
  ConversationManager.safelyTruncateConversationHistory Scenario.long_transcript =
    skipn 1 Scenario.long_transcript /\
  after_user Scenario.long_transcript 1.
Proof.
  split; [reflexivity|].
  pose proof (C4_truncation_is_safe Scenario.long_transcript eq_refl) as H.
  simpl in H. destruct H as (A & B & _). split; [exact A | exact B].
Defined.

(** ** Summaries *)

(** C10: on an empty transcript [summarizeConversationHistory] resolves with the
    system message ["No conversation history yet."] of summary type
    ["conversation_history"] and without a [file_references] list; nothing is
    sent to the transport and the state is untouched. *)
Theorem C10_empty_transcript_summary :
  forall (w : World) (st : State),
    conversationHistory st = [] ->
    let r := ConversationManager.summarizeConversationHistory w st in
    fst r = st /\
    chat_requests (fst r) = chat_requests st /\
    sum_role (snd r) = system /\
    sum_content (snd r) = "No conversation history yet." /\
    summary_type (snd r) = "conversation_history" /\
    file_references (snd r) = None.
Proof.
  intros w st E r. subst r.
  unfold ConversationManager.summarizeConversationHistory.
  rewrite E. simpl. repeat split; reflexivity.
Qed.

(** C10 on the fresh state of a world whose transport would fail if asked. *)
Lemma C10_empty_transcript_summary_witness :
  fst (ConversationManager.summarizeConversationHistory Scenario.offline_world Scenario.fresh)
    = Scenario.fresh /\
  sum_content (snd (ConversationManager.summarizeConversationHistory
                      Scenario.offline_world Scenario.fresh))
    = "No conversation history yet.".
Proof.
  pose proof (C10_empty_transcript_summary Scenario.offline_world Scenario.fresh eq_refl) as H.
  simpl in H. destruct H as (A & _ & _ & B & _). split; [exact A | exact B].
Defined.

(** C9: [summarizeConversationHistory] leaves the stored transcript as it found
    it, whether the transport answers or fails.  On a non-empty transcript a
    transport failure yields the templated summary, which counts the user,
    assistant and tool messages, and carries the collected file references; an
    answer yields its text with the same references. *)
Theorem C9_summarize_keeps_transcript :
  forall (w : World) (st : State),
    let h := conversationHistory st in
    let request :=
      system_msg ConversationManager.summarization_instruction ::
      ConversationManager.formattedConversation h in
    let r := ConversationManager.summarizeConversationHistory w st in
    conversationHistory (fst r) = h /\
    (forall error,
        h <> [] ->
        createChatCompletion w (List.length (chat_requests st)) request = Js.Threw error ->
        sum_role (snd r) = system /\
        sum_content (snd r) =
          ("Conversation summary (fallback): " ++
           Js.nat_text (ConversationManager.count_role user h) ++ " user messages, " ++
           Js.nat_text (ConversationManager.count_role assistant h) ++ " assistant messages, " ++
           Js.nat_text (ConversationManager.count_role tool h) ++ " tool interactions.")%string /\
        summary_type (snd r) = "conversation_history" /\
        file_references (snd r) = Some (ConversationManager.collect_fileReferences w h)) /\
    (forall response,
        h <> [] ->
        createChatCompletion w (List.length (chat_requests st)) request = Js.Ok response ->
        sum_content (snd r) = ConversationManager.summaryContent response /\
        file_references (snd r) = Some (ConversationManager.collect_fileReferences w h)).
Proof.
  intros w st h request r. subst h request r.
  unfold ConversationManager.summarizeConversationHistory.
  destruct (conversationHistory st) as [|m h] eqn:E.
  - simpl. split; [exact E|].
    split; intros ? N; exfalso; apply N; reflexivity.
  - split; [|split].
    + destruct (createChatCompletion w _ _); reflexivity.
    + intros error _ T. rewrite T. simpl. repeat split.
    + intros response _ T. rewrite T. simpl. split; reflexivity.
Qed.

(** C9 with the transport down: the twelve stored messages are still there, and
    the fallback summary counts them and keeps the one file path. *)
Lemma C9_summarize_keeps_transcript_witness :
  let r := ConversationManager.summarizeConversationHistory
             Scenario.offline_world (Scenario.started Scenario.long_transcript) in
  conversationHistory (fst r) = Scenario.long_transcript /\
  sum_content (snd r) =
    "Conversation summary (fallback): 5 user messages, 6 assistant messages, 1 tool interactions." /\
  file_references (snd r) = Some ["/tmp/proj/main.ts"].
Proof.
  pose proof (C9_summarize_keeps_transcript
                Scenario.offline_world (Scenario.started Scenario.long_transcript)) as H.
  cbv zeta in H. destruct H as (A & B & _).
  assert (N : conversationHistory (Scenario.started Scenario.long_transcript) <> [])
    by (simpl; discriminate).
  specialize (B _ N eq_refl). destruct B as (_ & B & _ & C).
  cbv zeta. split; [exact A | split; [exact B | exact C]].
Defined.

(** ** The agent loop *)

Section AgentLoop.

Import ConversationManager AgentLoopService.

Lemma summarize_frame (w : World) (st : State) :
  let st' := fst (summarizeConversationHistory w st) in
  conversationHistory st' = conversationHistory st /\
  tool_executions st' = tool_executions st /\
  prompts_shown st' = prompts_shown st /\
  List.length (chat_requests st') <= List.length (chat_requests st) + 1.
Proof.
  unfold summarizeConversationHistory.
  destruct (conversationHistory st) eqn:E; simpl.
  - repeat split; auto; lia.
  - destruct (createChatCompletion w _ _); simpl; rewrite length_app; simpl;
      repeat split; auto; lia.
Qed.

Lemma build_request_frame (w : World) (st : State) (e : option Js.Error) :
  let st' := fst (build_request w st e) in
  tool_executions st' = tool_executions st /\
  prompts_shown st' = prompts_shown st /\
  List.length (chat_requests st') <= List.length (chat_requests st) + 1.
Proof.
  unfold build_request.
  destruct (_ && _); [|simpl; repeat split; auto; lia].
  destruct (firstn _ _) eqn:F; [simpl; repeat split; auto; lia|].
  match goal with
  | |- context [summarizeConversationHistory w ?s] =>
      pose proof (summarize_frame w s) as S;
      destruct (summarizeConversationHistory w s) as [st2 summary]
  end.
  simpl in *. destruct S as (_ & A & B & C). repeat split; auto.
Qed.

Lemma call_transport_frame (w : World) (st : State) (messages : list ConversationMessage) :
  let st' := fst (call_transport w st messages) in
  conversationHistory st' = conversationHistory st /\
  chat_requests st' = chat_requests st ++ [messages] /\
  tool_executions st' = tool_executions st /\
  prompts_shown st' = prompts_shown st.
Proof.
  unfold call_transport.
  destruct (createChatCompletion w _ _) as [response|t]; simpl; auto.
  destruct (choices response); simpl; auto.
Qed.

Lemma done_branch_spec (w : World) (st : State) (v : LoopVars)
    (assistantMessage : ConversationMessage) (doneToolCall : ToolCall) :
  done_branch w st v assistantMessage doneToolCall =
  (with_history (fst (ToolCallProcessorService.process_one w st doneToolCall))
     (addToConversationHistory (conversationHistory st)
        (tool_msg (tc_id doneToolCall)
           (output (snd (ToolCallProcessorService.process_one w st doneToolCall))))),
   Next (mkVars true (forceExitLoop v)
               (if Js.truthy (output (snd (ToolCallProcessorService.process_one w st doneToolCall)))
                then output (snd (ToolCallProcessorService.process_one w st doneToolCall))
                else ResponseGeneratorService.generateFinalResponse assistantMessage)
               (lastError v) (iterations v))).
Proof.
  unfold done_branch, ToolCallProcessorService.processToolCalls. simpl.
  pose proof (process_one_frame w st doneToolCall) as (H & _).
  pose proof (process_one_result w st doneToolCall) as (I & _).
  destruct (ToolCallProcessorService.process_one w st doneToolCall) as [st1 r].
  simpl in *. unfold append_results. simpl. rewrite H, I. reflexivity.
Qed.

(** The branch that runs all calls never prompts: the processor always reports
    that no confirmation is required. *)
Lemma tools_branch_spec (w : World) (st : State) (v : LoopVars) (calls : list ToolCall) :
  tools_branch w st v calls =
  (append_results (fst (ToolCallProcessorService.process_all w st calls))
                  (snd (ToolCallProcessorService.process_all w st calls)),
   Next (match find (fun result => negb (success result))
                    (snd (ToolCallProcessorService.process_all w st calls)) with
         | Some failedToolCall =>
             mkVars (loopComplete v) (forceExitLoop v) (finalResponse v)
                    (Some (Js.newError ("Tool execution failed: " ++ output failedToolCall)))
                    (iterations v)
         | None => v
         end)).
Proof.
  unfold tools_branch, ToolCallProcessorService.processToolCalls.
  destruct (ToolCallProcessorService.process_all w st calls) as [st1 results].
  simpl. destruct (find _ results); reflexivity.
Qed.

(** The variables a step ends with. *)
Definition vars_of (s : Step) : LoopVars :=
  match s with Break v | Next v | Caught v _ => v end.

Lemma interpret_frame (w : World) (st : State) (v : LoopVars) (m : ConversationMessage) :
  let r := interpret w st v m in
  chat_requests (fst r) = chat_requests st /\
  prompts_shown (fst r) = prompts_shown st /\
  iterations (vars_of (snd r)) = iterations v.
Proof.
  unfold interpret.
  destruct (tool_calls m) as [[|c calls]|]; [simpl; auto | | simpl; auto].
  destruct (find is_done (c :: calls)) as [d|].
  - rewrite done_branch_spec. simpl.
    pose proof (process_one_frame w
                  (with_history st (addToConversationHistory (conversationHistory st) m)) d)
      as (_ & A & B).
    simpl in *. auto.
  - rewrite tools_branch_spec. simpl.
    pose proof (process_all_frame w (c :: calls)
                  (with_history st (addToConversationHistory (conversationHistory st) m)))
      as (_ & A & B).
    simpl in *. repeat split; auto.
    destruct (find _ _); reflexivity.
Qed.

Lemma attempt_frame (w : World) (st : State) (v : LoopVars) :
  let r := attempt w st v in
  List.length (chat_requests (fst r)) <= List.length (chat_requests st) + 2 /\
  prompts_shown (fst r) = prompts_shown st /\
  iterations (vars_of (snd r)) = iterations v.
Proof.
  unfold attempt.
  pose proof (build_request_frame w st (lastError v)) as B.
  destruct (build_request w st (lastError v)) as [st1 messages]. simpl in B.
  destruct B as (_ & B1 & B2).
  pose proof (call_transport_frame w st1 messages) as C.
  destruct (call_transport w st1 messages) as [st2 [m|t]]; simpl in C;
    destruct C as (_ & C1 & _ & C2).
  - pose proof (interpret_frame w st2 v m) as I. simpl in I.
    destruct I as (I1 & I2 & I3).
    rewrite I1, I2, C1, C2, B1, length_app. simpl. repeat split; auto; lia.
  - destruct (is_validation_error t); simpl;
      rewrite C1, C2, B1, length_app; simpl; repeat split; auto; lia.
Qed.

Lemma iteration_frame (w : World) (st : State) (v : LoopVars) :
  let r := iteration w st v in
  List.length (chat_requests (fst (fst r))) <= List.length (chat_requests st) + 2 /\
  prompts_shown (fst (fst r)) = prompts_shown st /\
  iterations (snd (fst r)) = iterations v.
Proof.
  unfold iteration.
  pose proof (attempt_frame w st v) as A.
  destruct (attempt w st v) as [st' [v'|v'|v' t]]; simpl in *; exact A.
Qed.

(** A round that is entered and does not break hands over to the rest of the
    loop. *)
Lemma while_loop_unfold (w : World) (fuel : nat) (st : State) (v : LoopVars) :
  loop_condition v = true ->
  while_loop w (S fuel) st v =
  match iteration w st (increment v) with
  | (st', v', true) => (st', v')
  | (st', v', false) => while_loop w fuel st' v'
  end.
Proof. intros C. simpl. rewrite C. reflexivity. Qed.

Lemma while_loop_exit (w : World) (fuel : nat) (st : State) (v : LoopVars) :
  loop_condition v = false -> while_loop w fuel st v = (st, v).
Proof. intros C. destruct fuel; simpl; rewrite C; reflexivity. Qed.

(** The loop leaves by its condition or by [break], never for want of fuel,
    once the fuel covers the iterations left; the counter stays within the
    maximum and at most two requests are sent per round. *)
Lemma while_loop_bounds (w : World) :
  forall fuel st v,
    iterations v <= MAX_ITERATIONS ->
    MAX_ITERATIONS <= iterations v + fuel ->
    let r := while_loop w fuel st v in
    iterations (snd r) <= MAX_ITERATIONS /\
    (loop_condition (snd r) = false \/ forceExitLoop (snd r) = true) /\
    List.length (chat_requests (fst r)) + 2 * iterations v <=
      List.length (chat_requests st) + 2 * iterations (snd r) /\
    prompts_shown (fst r) = prompts_shown st /\
    forall k, while_loop w (fuel + k) st v = r.
Proof.
  induction fuel as [|fuel IH]; intros st v L F.
  - assert (C : loop_condition v = false).
    { unfold loop_condition. replace (iterations v <? MAX_ITERATIONS) with false.
      - apply andb_false_r.
      - symmetry. apply Nat.ltb_ge. lia. }
    simpl. rewrite C. simpl. repeat split; auto; try lia.
    intros k. apply while_loop_exit. exact C.
  - destruct (loop_condition v) eqn:C.
    + rewrite while_loop_unfold by exact C.
      assert (L' : iterations v < MAX_ITERATIONS).
      { unfold loop_condition in C. apply andb_true_iff in C. destruct C as [_ C].
        apply Nat.ltb_lt in C. exact C. }
      pose proof (iteration_frame w st (increment v)) as I.
      destruct (iteration w st (increment v)) as [[st' v'] brk] eqn:E.
      simpl in I. destruct I as (I1 & I2 & I3).
      destruct brk.
      * simpl. repeat split; try lia.
        -- right.
           unfold iteration in E.
           destruct (attempt w st (increment v)) as [st2 [v2|v2|v2 t]] eqn:A;
             inversion E; subst.
           unfold attempt in A.
           destruct (build_request w st _) as [st1 messages].
           destruct (call_transport w st1 messages) as [st3 [m|t]].
           ++ unfold interpret in A.
              destruct (tool_calls m) as [[|c calls]|]; try discriminate.
              destruct (find is_done (c :: calls)).
              ** rewrite done_branch_spec in A. discriminate.
              ** rewrite tools_branch_spec in A. discriminate.
           ++ destruct (is_validation_error t); inversion A; reflexivity.
        -- intros k. simpl. rewrite C, E. reflexivity.
      * assert (L2 : iterations v' <= MAX_ITERATIONS) by lia.
        assert (F2 : MAX_ITERATIONS <= iterations v' + fuel) by lia.
        specialize (IH st' v' L2 F2). simpl in IH.
        destruct IH as (A1 & A2 & A3 & A4 & A5).
        simpl. repeat split; auto; try lia.
        intros k. simpl. rewrite C, E. apply A5.
    + rewrite while_loop_exit by exact C. simpl. repeat split; auto; try lia.
      intros k. rewrite C. reflexivity.
Qed.

Lemma loop_condition_complete (v : LoopVars) :
  loopComplete v = true -> loop_condition v = false.
Proof. intros C. unfold loop_condition. rewrite C. reflexivity. Qed.

Lemma loop_condition_incomplete (v : LoopVars) :
  loop_condition v = true -> loopComplete v = false /\ forceExitLoop v = false.
Proof.
  unfold loop_condition. intros C.
  apply andb_true_iff in C. destruct C as [C _].
  apply andb_true_iff in C. destruct C as [A B].
  apply negb_true_iff in A. apply negb_true_iff in B. auto.
Qed.

(** The loop closed on a message without content and without tool calls: the
    last request sent was answered with [m] as [choices[0].message], the
    [assistantMessage] of that round, [m] is the last message stored, and it
    has neither content nor tool calls. *)
Definition closing_empty (w : World) (st : State) : Prop :=
  exists requests messages m others pre,
    chat_requests st = requests ++ [messages] /\
    createChatCompletion w (List.length requests) messages =
      Js.Ok (mkResponse (m :: others)) /\
    conversationHistory st = pre ++ [m] /\
    Js.truthy_opt (content m) = false /\
    (tool_calls m = None \/ tool_calls m = Some []).

(** Once the loop is complete its response is not empty, unless the closing
    message was. *)
Definition answered (w : World) (st : State) (v : LoopVars) : Prop :=
  loopComplete v = true -> finalResponse v <> "" \/ closing_empty w st.

Lemma truthy_not_empty (text : string) : Js.truthy text = true -> text <> "".
Proof. destruct text; simpl; congruence. Qed.

Lemma generateFinalResponse_with_calls (m : ConversationMessage)
    (c : ToolCall) (calls : list ToolCall) :
  tool_calls m = Some (c :: calls) ->
  ResponseGeneratorService.generateFinalResponse m <> "".
Proof.
  intros T.
  unfold ResponseGeneratorService.generateFinalResponse, content_text. rewrite T.
  destruct (content m) as [text|]; simpl.
  - destruct (Js.truthy text) eqn:E; [apply truthy_not_empty; exact E | discriminate].
  - discriminate.
Qed.

Lemma generateFinalResponse_empty (m : ConversationMessage) :
  ResponseGeneratorService.generateFinalResponse m = "" ->
  Js.truthy_opt (content m) = false /\ (tool_calls m = None \/ tool_calls m = Some []).
Proof.
  unfold ResponseGeneratorService.generateFinalResponse, content_text.
  destruct (Js.truthy_opt (content m)) eqn:E.
  - intros H. exfalso. destruct (content m) as [text|]; simpl in *; [|discriminate].
    apply (truthy_not_empty text E H).
  - destruct (tool_calls m) as [[|c calls]|]; auto. discriminate.
Qed.

Lemma interpret_answered (w : World) (st : State) (v : LoopVars)
    (m : ConversationMessage) (requests : list (list ConversationMessage))
    (messages others : list ConversationMessage) :
  chat_requests st = requests ++ [messages] ->
  createChatCompletion w (List.length requests) messages =
    Js.Ok (mkResponse (m :: others)) ->
  loopComplete v = false ->
  answered w (fst (interpret w st v m)) (vars_of (snd (interpret w st v m))).
Proof.
  intros Rq T C. unfold interpret.
  assert (N : forall st',
             conversationHistory st' = addToConversationHistory (conversationHistory st) m ->
             chat_requests st' = chat_requests st ->
             answered w st'
               (mkVars true (forceExitLoop v)
                       (ResponseGeneratorService.generateFinalResponse m)
                       (lastError v) (iterations v))).
  { intros st' H R _. simpl.
    destruct (string_dec (ResponseGeneratorService.generateFinalResponse m) "") as [E|E];
      [right | left; exact E].
    apply generateFinalResponse_empty in E. destruct E as [E1 E2].
    destruct (addToConversationHistory_last (conversationHistory st) m) as (k & _ & K).
    exists requests, messages, m, others, (skipn k (conversationHistory st)).
    rewrite R, H. auto. }
  destruct (tool_calls m) as [[|c calls]|] eqn:Tc;
    [apply N; reflexivity | | apply N; reflexivity].
  destruct (find is_done (c :: calls)) as [d|].
  - rewrite done_branch_spec. simpl. intros _. left. simpl.
    destruct (Js.truthy (output _)) eqn:E.
    + apply truthy_not_empty. exact E.
    + apply (generateFinalResponse_with_calls m c calls Tc).
  - rewrite tools_branch_spec. simpl. intros H. exfalso.
    destruct (find _ _); simpl in H; congruence.
Qed.

Lemma attempt_answered (w : World) (st : State) (v : LoopVars) :
  loopComplete v = false ->
  answered w (fst (attempt w st v)) (vars_of (snd (attempt w st v))).
Proof.
  intros C. unfold attempt.
  destruct (build_request w st (lastError v)) as [st1 messages].
  unfold call_transport.
  destruct (createChatCompletion w (List.length (chat_requests st1)) messages)
    as [[answer]|t] eqn:T.
  - cbn [choices]. destruct answer as [|m others].
    + simpl. intros H. congruence.
    + apply (interpret_answered w _ v m (chat_requests st1) messages others);
        [reflexivity | exact T | exact C].
  - destruct (is_validation_error t); simpl.
    + intros _. left. discriminate.
    + intros H. congruence.
Qed.

Lemma iteration_answered (w : World) (st : State) (v : LoopVars) :
  loopComplete v = false ->
  answered w (fst (fst (iteration w st v))) (snd (fst (iteration w st v))).
Proof.
  intros C. pose proof (attempt_answered w st v C) as A.
  unfold iteration. destruct (attempt w st v) as [st' [v'|v'|v' t]]; simpl in *; exact A.
Qed.

Lemma while_loop_answered (w : World) :
  forall fuel st v,
    answered w st v ->
    answered w (fst (while_loop w fuel st v)) (snd (while_loop w fuel st v)).
Proof.
  induction fuel as [|fuel IH]; intros st v A.
  - simpl. destruct (loop_condition v); exact A.
  - destruct (loop_condition v) eqn:C.
    + rewrite while_loop_unfold by exact C.
      destruct (loop_condition_incomplete v C) as [L _].
      pose proof (iteration_answered w st (increment v) L) as I.
      destruct (iteration w st (increment v)) as [[st' v'] brk]. simpl in I.
      destruct brk; [exact I | apply IH; exact I].
    + rewrite while_loop_exit by exact C. exact A.
Qed.

(** Conversely, a loop that closed on an empty message is complete, with the
    empty response. *)
Definition closes_empty (w : World) (st : State) (v : LoopVars) : Prop :=
  closing_empty w st -> loopComplete v = true /\ finalResponse v = "".

Lemma attempt_closes (w : World) (st : State) (v : LoopVars) :
  closes_empty w (fst (attempt w st v)) (vars_of (snd (attempt w st v))).
Proof.
  unfold closes_empty, attempt.
  destruct (build_request w st (lastError v)) as [st1 messages].
  unfold call_transport.
  destruct (createChatCompletion w (List.length (chat_requests st1)) messages)
    as [[answer]|t] eqn:T.
  - cbn [choices]. destruct answer as [|m others].
    + simpl. intros (requests & messages' & m' & others' & pre & Rq & T' & _).
      apply app_inj_tail in Rq. destruct Rq as [<- <-].
      rewrite T in T'. discriminate.
    + set (st2 := mkState _ _ _ _).
      pose proof (interpret_frame w st2 v m) as F. cbv zeta in F. destruct F as (F & _).
      intros (requests & messages' & m' & others' & pre & Rq & T' & _ & E1 & E2).
      rewrite F in Rq. simpl in Rq.
      apply app_inj_tail in Rq. destruct Rq as [<- <-].
      rewrite T in T'. injection T' as <- <-.
      unfold interpret, ResponseGeneratorService.generateFinalResponse.
      rewrite E1. destruct E2 as [E2|E2]; rewrite E2; simpl; auto.
  - destruct (is_validation_error t); simpl;
      intros (requests & messages' & m' & others' & pre & Rq & T' & _);
      apply app_inj_tail in Rq; destruct Rq as [<- <-];
      rewrite T in T'; discriminate.
Qed.

Lemma iteration_closes (w : World) (st : State) (v : LoopVars) :
  closes_empty w (fst (fst (iteration w st v))) (snd (fst (iteration w st v))).
Proof.
  pose proof (attempt_closes w st v) as A.
  unfold iteration. destruct (attempt w st v) as [st' [v'|v'|v' t]]; simpl in *; exact A.
Qed.

Lemma while_loop_closes (w : World) :
  forall fuel st v,
    closes_empty w st v ->
    closes_empty w (fst (while_loop w fuel st v)) (snd (while_loop w fuel st v)).
Proof.
  induction fuel as [|fuel IH]; intros st v A.
  - simpl. destruct (loop_condition v); exact A.
  - destruct (loop_condition v) eqn:C.
    + rewrite while_loop_unfold by exact C.
      pose proof (iteration_closes w st (increment v)) as I.
      destruct (iteration w st (increment v)) as [[st' v'] brk]. simpl in I.
      destruct brk; [exact I | apply IH; exact I].
    + rewrite while_loop_exit by exact C. exact A.
Qed.

(** The loop of a query runs at least one round, so it needs no assumption
    on the state it starts from. *)
Lemma run_loop_closes (w : World) (st : State) (query : string) :
  closes_empty w (fst (run_loop w st query)) (snd (run_loop w st query)).
Proof.
  unfold run_loop. set (st1 := with_history st _).
  change MAX_ITERATIONS with (S 9).
  rewrite while_loop_unfold by reflexivity.
  pose proof (iteration_closes w st1 (increment initial_vars)) as I.
  destruct (iteration w st1 (increment initial_vars)) as [[st' v'] brk]. simpl in I.
  destruct brk; [exact I | apply while_loop_closes; exact I].
Qed.

(** A forced exit always comes with a completed loop. *)
Lemma while_loop_forced (w : World) :
  forall fuel st v,
    (forceExitLoop v = true -> loopComplete v = true) ->
    forceExitLoop (snd (while_loop w fuel st v)) = true ->
    loopComplete (snd (while_loop w fuel st v)) = true.
Proof.
  induction fuel as [|fuel IH]; intros st v A.
  - simpl. destruct (loop_condition v); exact A.
  - destruct (loop_condition v) eqn:C.
    + rewrite while_loop_unfold by exact C.
      destruct (loop_condition_incomplete v C) as [_ F].
      assert (I : forceExitLoop (snd (fst (iteration w st (increment v)))) = true ->
                  loopComplete (snd (fst (iteration w st (increment v)))) = true).
      { unfold iteration, attempt.
        destruct (build_request w st _) as [st1 messages].
        destruct (call_transport w st1 messages) as [st2 [m|t]].
        - unfold interpret.
          destruct (tool_calls m) as [[|c calls]|]; [simpl; auto | | simpl; auto].
          destruct (find is_done (c :: calls)).
          + rewrite done_branch_spec. simpl. auto.
          + rewrite tools_branch_spec. simpl.
            destruct (find _ _); simpl; congruence.
        - destruct (is_validation_error t); simpl; congruence. }
      destruct (iteration w st (increment v)) as [[st' v'] brk]. simpl in I.
      destruct brk; [exact I | apply IH; exact I].
    + rewrite while_loop_exit by exact C. exact A.
Qed.

End AgentLoop.

Section LoopClaims.

Import ConversationManager AgentLoopService.

(** C8: [executeAgentLoop] always ends.  With an invalid key no round is run
    and nothing is sent: the outer [catch] decides the outcome.  With a valid
    key it resolves with the text of the loop variables it ends on; the loop
    runs at most [MAX_ITERATIONS] = 10 rounds and stops because its condition
    fails or on [break] (more fuel changes nothing); it sends at most two
    requests per round and shows no prompt.  When it ends without completing,
    all ten rounds were used and the text is the apology, which carries the
    message of [lastError] when one was recorded. *)
Theorem C8_loop_ends_within_max_iterations :
  forall (w : World) (st : State) (query : string),
    let st1 :=
      with_history st (addToConversationHistory (conversationHistory st) (user_msg query)) in
    let r := run_loop w st query in
    if valid (validateApiKey w) then
      executeAgentLoop w st query = (fst r, Js.Ok (response_text (snd r))) /\
      iterations (snd r) <= MAX_ITERATIONS /\
      loop_condition (snd r) = false /\
      (forall k, while_loop w (MAX_ITERATIONS + k) st1 initial_vars = r) /\
      List.length (chat_requests (fst r)) <= List.length (chat_requests st) + 2 * MAX_ITERATIONS /\
      prompts_shown (fst r) = prompts_shown st /\
      (loopComplete (snd r) = false ->
       iterations (snd r) = MAX_ITERATIONS /\
       response_text (snd r) = exceeded_message (lastError (snd r))) /\
      (forall e,
          exceeded_message (Some e) =
          ("I'm sorry, but I encountered an issue while processing your request. Error: " ++
           Js.err_message e)%string)
    else
      executeAgentLoop w st query =
        outer_catch st (Js.ThrownError (validation_failure (validateApiKey w))) /\
      chat_requests (fst (executeAgentLoop w st query)) = chat_requests st /\
      tool_executions (fst (executeAgentLoop w st query)) = tool_executions st.
Proof.
  intros w st query st1 r. subst r.
  unfold executeAgentLoop, run_loop.
  destruct (valid (validateApiKey w)) eqn:V; cbn [negb].
  2:{ split; [reflexivity|]. unfold outer_catch.
      destruct (isOpenAIError _); split; reflexivity. }
  fold st1.
  assert (L0 : iterations initial_vars <= MAX_ITERATIONS) by (simpl; lia).
  assert (F0 : MAX_ITERATIONS <= iterations initial_vars + MAX_ITERATIONS) by lia.
  pose proof (while_loop_bounds w MAX_ITERATIONS st1 initial_vars L0 F0) as B.
  pose proof (while_loop_forced w MAX_ITERATIONS st1 initial_vars) as Fx.
  cbv zeta in B.
  destruct (while_loop w MAX_ITERATIONS st1 initial_vars) as [st' v'] eqn:E.
  cbn [fst snd] in B, Fx |- *. destruct B as (B1 & B2 & B3 & B4 & B5).
  assert (C : loop_condition v' = false).
  { destruct B2 as [B2|B2]; [exact B2|].
    unfold loop_condition. rewrite B2. cbn [negb].
    rewrite andb_false_r. reflexivity. }
  split; [reflexivity|]. split; [exact B1|]. split; [exact C|].
  split; [exact B5|]. split.
  { unfold st1, with_history, initial_vars in B3.
    cbn [chat_requests iterations] in B3. unfold MAX_ITERATIONS in *. lia. }
  split; [exact B4|]. split.
  - intros H. split.
    + destruct (forceExitLoop v') eqn:Fe.
      * assert (X : loopComplete v' = true) by (apply Fx; [discriminate | reflexivity]).
        congruence.
      * unfold loop_condition in C. rewrite H, Fe in C. cbn [negb andb] in C.
        apply Nat.ltb_ge in C. lia.
    + unfold response_text. rewrite H. reflexivity.
  - intros e. reflexivity.
Qed.

(** C8 where the model never stops asking: after ten rounds the caller gets the
    apology with the last tool failure in it. *)
Lemma C8_loop_ends_within_max_iterations_witness :
  snd (executeAgentLoop Scenario.stubborn_world Scenario.fresh "list the project") =
    Js.Ok "I'm sorry, but I encountered an issue while processing your request. Error: Tool execution failed: Error: Unexpected token in JSON" /\
  iterations (snd (run_loop Scenario.stubborn_world Scenario.fresh "list the project")) = 10.
Proof.
  pose proof (C8_loop_ends_within_max_iterations
                Scenario.stubborn_world Scenario.fresh "list the project") as H.
  cbv zeta in H.
  change (valid (validateApiKey Scenario.stubborn_world)) with true in H.
  cbv iota in H. destruct H as (A & _ & _ & _ & _ & _ & B & _).
  split.
  - rewrite A. vm_compute. reflexivity.
  - apply B. vm_compute. reflexivity.
Defined.

(** C7 (as amended): the text [executeAgentLoop] resolves with is empty
    exactly when the message the transport returned in the closing round, the
    [assistantMessage] the loop stored last, has neither content nor tool
    calls: its empty response is returned as it is.  In every other case, a
    loop that closes on a [done] call among them, the text is not empty.  The
    call rejects only when the key validation fails, with that error and
    without touching the state. *)
Theorem C7_response_text_and_rejection :
  forall (w : World) (st : State) (query : string),
    match executeAgentLoop w st query with
    | (st', Js.Ok text) =>
        (text <> "" \/ closing_empty w st') /\
        (closing_empty w st' -> text = "")
    | (st', Js.Threw error) =>
        valid (validateApiKey w) = false /\
        error = Js.ThrownError (validation_failure (validateApiKey w)) /\
        st' = st
    end.
Proof.
  intros w st query. unfold executeAgentLoop.
  destruct (valid (validateApiKey w)) eqn:V; simpl negb; cbv iota.
  - pose proof (run_loop_closes w st query) as B. unfold run_loop in *.
    set (st1 := with_history st _) in *.
    assert (A0 : answered w st1 initial_vars) by (intros H; discriminate).
    pose proof (while_loop_answered w MAX_ITERATIONS st1 initial_vars A0) as A.
    destruct (while_loop w MAX_ITERATIONS st1 initial_vars) as [st' v']. simpl in A, B.
    unfold response_text. split.
    + destruct (loopComplete v') eqn:C; simpl.
      * apply A. exact C.
      * left. unfold exceeded_message. simpl. discriminate.
    + intros Cl. destruct (B Cl) as [C R]. rewrite C. simpl. exact R.
  - unfold outer_catch.
    destruct (isOpenAIError _).
    + split; [left; discriminate|].
      intros (requests & messages & m & others & pre & _ & _ & H & E & _).
      exfalso. cbn in H.
      destruct pre as [|x pre]; [|destruct pre; discriminate].
      injection H as <-. discriminate E.
    + auto.
Qed.

(** C7, the claim as stated fails: when the model answers with neither content
    nor tool calls, the loop completes and returns the empty text. *)
Lemma C7_empty_response_returned :
  executeAgentLoop Scenario.silent_world Scenario.fresh "hello" =
  (mkState [user_msg "hello"; mkMessage assistant None None None]
           [[system_msg (withProjectPathSystemPrompt Scenario.silent_world);
             user_msg "hello"]]
           [] 0,
   Js.Ok "").
Proof. vm_compute. reflexivity. Qed.

Lemma find_is_done (calls : list ToolCall) (d0 : ToolCall) :
  In d0 calls -> fn_name (tc_function d0) = "done" ->
  exists d, find is_done calls = Some d /\ In d calls /\ fn_name (tc_function d) = "done".
Proof.
  intros I N.
  destruct (find is_done calls) as [d|] eqn:F.
  - exists d. apply find_some in F. destruct F as [F1 F2].
    unfold is_done in F2. apply String.eqb_eq in F2. auto.
  - exfalso. pose proof (find_none _ _ F d0 I) as H.
    unfold is_done in H. rewrite N in H. discriminate.
Qed.

(** C6: when the transport call of a round fails with an [Error] whose message
    contains ["invalid_request_error"], ["400 Invalid parameter"] or the
    tool-role sequencing complaint, the loop is left in that round with the
    stored transcript empty, no further request sent, and the fixed reset
    message as the text to return. *)
Theorem C6_protocol_violation_resets :
  forall (w : World) (fuel : nat) (st : State) (v : LoopVars)
         (st1 : State) (messages : list ConversationMessage) (e : Js.Error),
    loop_condition v = true ->
    build_request w st (lastError v) = (st1, messages) ->
    createChatCompletion w (List.length (chat_requests st1)) messages =
      Js.Threw (Js.ThrownError e) ->
    Js.includes (Js.err_message e) "invalid_request_error" = true \/
    Js.includes (Js.err_message e) "400 Invalid parameter" = true \/
    Js.includes (Js.err_message e) "messages with role 'tool' must be a response" = true ->
    exists st' v',
      while_loop w (S fuel) st v = (st', v') /\
      conversationHistory st' = [] /\
      chat_requests st' = chat_requests st1 ++ [messages] /\
      tool_executions st' = tool_executions st /\
      prompts_shown st' = prompts_shown st /\
      iterations v' = S (iterations v) /\
      loopComplete v' = true /\
      forceExitLoop v' = true /\
      response_text v' =
        "I encountered an API error while processing your request. The conversation has been reset. Please try your question again with simpler instructions.".
Proof.
  intros w fuel st v st1 messages e C B T M.
  assert (V : is_validation_error (Js.ThrownError e) = true).
  { unfold is_validation_error. destruct M as [M|[M|M]]; rewrite M;
      rewrite ?orb_true_r; reflexivity. }
  pose proof (build_request_frame w st (lastError v)) as Fr.
  rewrite B in Fr. cbn [fst] in Fr. destruct Fr as (Fr & Fp & _).
  rewrite while_loop_unfold by exact C.
  unfold iteration, attempt. cbn [lastError increment].
  rewrite B. unfold call_transport. rewrite T, V.
  eexists. eexists. split; [reflexivity|].
  cbn. repeat split; assumption.
Qed.

(** C6 on the first round of a query: the twelve stored messages are gone, one
    request was sent, and the caller gets the reset message. *)
Lemma C6_protocol_violation_resets_witness :
  executeAgentLoop Scenario.rejected_world (Scenario.started Scenario.long_transcript) "hello" =
  (mkState []
     [MessageFormatterService.formatMessages
        (withProjectPathSystemPrompt Scenario.rejected_world)
        (addToConversationHistory Scenario.long_transcript (user_msg "hello")) None]
     [] 0,
   Js.Ok reset_message).
Proof.
  destruct (C6_protocol_violation_resets
              Scenario.rejected_world 9
              (with_history (Scenario.started Scenario.long_transcript)
                 (addToConversationHistory Scenario.long_transcript (user_msg "hello")))
              initial_vars _ _
              (Js.newError "400 status code: invalid_request_error")
              eq_refl eq_refl eq_refl (or_introl eq_refl))
    as (st' & v' & W & H & R & X & Y & _ & L & _ & T).
  unfold executeAgentLoop, run_loop. cbn [valid validateApiKey Scenario.rejected_world
    Scenario.world negb conversationHistory Scenario.started].
  change MAX_ITERATIONS with 10.
  rewrite W. rewrite T.
  destruct st' as [h reqs tools prompts]. cbn in H, R, X, Y. subst.
  reflexivity.
Defined.

(** C5: when the assistant message of a round carries a call named [done], the
    first such call is the only one processed: no other tool is dispatched, the
    transcript grows by the assistant message and the one tool message
    answering that call, and the loop ends in that round with the call's output
    as the text to return, or the Response Generator's text when the output is
    empty. *)
Theorem C5_done_short_circuits :
  forall (w : World) (fuel : nat) (st : State) (v : LoopVars)
         (st1 : State) (messages : list ConversationMessage)
         (m : ConversationMessage) (others : list ConversationMessage)
         (calls : list ToolCall) (d0 : ToolCall),
    loop_condition v = true ->
    build_request w st (lastError v) = (st1, messages) ->
    createChatCompletion w (List.length (chat_requests st1)) messages =
      Js.Ok (mkResponse (m :: others)) ->
    tool_calls m = Some calls ->
    In d0 calls -> fn_name (tc_function d0) = "done" ->
    exists d r st' v',
      find is_done calls = Some d /\ fn_name (tc_function d) = "done" /\
      result_of_call w (List.length (tool_executions st)) d r /\
      while_loop w (S fuel) st v = (st', v') /\
      tool_executions st' =
        tool_executions st ++
        match JSON_parse_error w (fn_arguments (tc_function d)) with
        | None => [("done", fn_arguments (tc_function d))]
        | Some _ => []
        end /\
      conversationHistory st' =
        addToConversationHistory
          (addToConversationHistory (conversationHistory st1) m)
          (tool_msg (tc_id d) (output r)) /\
      chat_requests st' = chat_requests st1 ++ [messages] /\
      iterations v' = S (iterations v) /\
      loopComplete v' = true /\
      response_text v' =
        (if Js.truthy (output r) then output r
         else ResponseGeneratorService.generateFinalResponse m).
Proof.
  intros w fuel st v st1 messages m others calls d0 C B T Tc I N.
  destruct (find_is_done calls d0 I N) as (d & F & _ & Nd).
  pose proof (build_request_frame w st (lastError v)) as Fr.
  rewrite B in Fr. cbn [fst] in Fr. destruct Fr as (Fr & _).
  set (st2 := with_history
                (mkState (conversationHistory st1) (chat_requests st1 ++ [messages])
                         (tool_executions st1) (prompts_shown st1))
                (addToConversationHistory (conversationHistory st1) m)).
  pose proof (process_one_result w st2 d) as R.
  assert (It : iteration w st (increment v) =
               (with_history (fst (ToolCallProcessorService.process_one w st2 d))
                  (addToConversationHistory (conversationHistory st2)
                     (tool_msg (tc_id d)
                        (output (snd (ToolCallProcessorService.process_one w st2 d))))),
                mkVars true (forceExitLoop v)
                  (if Js.truthy (output (snd (ToolCallProcessorService.process_one w st2 d)))
                   then output (snd (ToolCallProcessorService.process_one w st2 d))
                   else ResponseGeneratorService.generateFinalResponse m)
                  (lastError v) (S (iterations v)),
                false)).
  { unfold iteration, attempt. cbn [lastError increment].
    rewrite B. unfold call_transport. rewrite T. cbn [choices].
    unfold interpret. rewrite Tc.
    destruct calls as [|c calls]; [destruct I|].
    rewrite F. cbn [conversationHistory]. fold st2.
    rewrite done_branch_spec. reflexivity. }
  exists d, (snd (ToolCallProcessorService.process_one w st2 d)).
  eexists. eexists.
  split; [exact F|]. split; [exact Nd|].
  split.
  { replace (List.length (tool_executions st)) with (List.length (tool_executions st2));
      [exact R|]. unfold st2. cbn. rewrite Fr. reflexivity. }
  split.
  { rewrite while_loop_unfold by exact C. rewrite It.
    apply while_loop_exit. apply loop_condition_complete. reflexivity. }
  unfold ToolCallProcessorService.process_one. rewrite Nd.
  destruct (JSON_parse_error w (fn_arguments (tc_function d)));
    cbn; rewrite ?Fr, ?app_nil_r; repeat split.
Qed.

(** C5 on the first round of a query: of the three calls only [done] runs, the
    transcript ends with the assistant message and the one tool message, and
    the caller gets the summary of [done]. *)
Lemma C5_done_short_circuits_witness :
  executeAgentLoop Scenario.done_world Scenario.fresh "list the project" =
  (mkState
     [user_msg "list the project";
      Scenario.requests [Scenario.call "call_1" "list_dir" "{}";
                         Scenario.call "call_2" "done" "{}";
                         Scenario.call "call_3" "run_command" "{}"];
      tool_msg "call_2" "Task completed: listed the project"]
     [[system_msg (withProjectPathSystemPrompt Scenario.done_world);
       user_msg "list the project"]]
     [("done", "{}")] 0,
   Js.Ok "Task completed: listed the project").
Proof.
  destruct (C5_done_short_circuits
              Scenario.done_world 9
              (with_history Scenario.fresh
                 (addToConversationHistory [] (user_msg "list the project")))
              initial_vars _ _ _ [] _ (Scenario.call "call_2" "done" "{}")
              eq_refl eq_refl eq_refl eq_refl (or_intror (or_introl eq_refl)) eq_refl)
    as (d & r & st' & v' & F & _ & R & W & X & H & Q & _ & L & T).
  inversion F; subst d. clear F.
  destruct R as (_ & R). cbn in R. destruct R as (_ & R).
  unfold executeAgentLoop, run_loop. cbn [valid validateApiKey Scenario.done_world
    Scenario.world negb conversationHistory Scenario.fresh].
  change MAX_ITERATIONS with 10.
  rewrite W, T. rewrite R in *.
  destruct st' as [h reqs tools prompts]. cbn in H, Q, X. subst.
  assert (P : prompts = 0).
  { pose proof (while_loop_bounds Scenario.done_world 10
                  (with_history Scenario.fresh
                     (addToConversationHistory [] (user_msg "list the project")))
                  initial_vars) as B.
    cbv zeta in B. rewrite W in B. cbn [fst snd] in B.
    apply B; cbn; unfold MAX_ITERATIONS; lia. }
  subst prompts. reflexivity.
Defined.

(** C2, what the code does: [processToolCalls] reports that no confirmation is
    required whatever the calls are, so the round that runs the calls of a
    message never prompts; in [Scenario.denying_world] every round creates the
    file although [create_file] requires confirmation and the user would deny
    it, and no denial is ever recorded. *)
Theorem C2_confirmation_is_never_requested :
  (forall (w : World) (st : State) (toolCalls : list ToolCall) (names : list string),
      fst (snd (ToolCallProcessorService.processToolCalls w st toolCalls names)) = false) /\
  (forall (w : World) (st : State) (v : LoopVars) (calls : list ToolCall),
      prompts_shown (fst (tools_branch w st v calls)) = prompts_shown st /\
      forall v' error, snd (tools_branch w st v calls) <> Caught v' error) /\
  ToolExecutor.requiresUserConfirmation "create_file" = true /\
  existsb (String.eqb "create_file") BREAKING_CHANGE_TOOLS = true /\
  approves Scenario.denying_world 0 = false /\
  (let r := iteration Scenario.denying_world
              (with_history Scenario.fresh
                 (addToConversationHistory [] (user_msg "create notes.txt")))
              (increment initial_vars) in
   tool_executions (fst (fst r)) = [("create_file", "{}")] /\
   prompts_shown (fst (fst r)) = 0 /\
   lastError (snd (fst r)) = None /\
   conversationHistory (fst (fst r)) =
     [user_msg "create notes.txt";
      Scenario.requests [Scenario.call "call_1" "create_file" "{}"];
      tool_msg "call_1" "File created successfully"]).
Proof.
  split; [|split].
  - intros w st toolCalls names.
    unfold ToolCallProcessorService.processToolCalls.
    destruct (ToolCallProcessorService.process_all w st toolCalls). reflexivity.
  - intros w st v calls. rewrite tools_branch_spec. cbn [fst snd]. split.
    + unfold append_results. cbn [prompts_shown with_history].
      apply (process_all_frame w calls st).
    + intros v' error. discriminate.
  - repeat split; vm_compute; reflexivity.
Qed.

End LoopClaims.

(** ** Repairing a transcript *)

(** *** Index bookkeeping: [indexed], descending removals, sorting *)

Section Indices.

Import ConversationManager.

(** [indexed] started at [s]. *)
Definition indexed_from (A : Type) (s : nat) (l : list A) : list (nat * A) :=
  combine (seq s (List.length l)) l.

Lemma indexed_is_from (A : Type) (l : list A) : indexed l = indexed_from A 0 l.
Proof. reflexivity. Qed.

Lemma indexed_from_cons (A : Type) (s : nat) (x : A) (l : list A) :
  indexed_from A s (x :: l) = (s, x) :: indexed_from A (S s) l.
Proof. reflexivity. Qed.

Lemma indexed_from_app (A : Type) (l1 l2 : list A) :
  forall s, indexed_from A s (l1 ++ l2) =
            indexed_from A s l1 ++ indexed_from A (s + List.length l1) l2.
Proof.
  induction l1 as [|x l1 IH]; intros s; simpl.
  - rewrite Nat.add_0_r. reflexivity.
  - rewrite !indexed_from_cons. simpl. rewrite IH.
    replace (S s + List.length l1) with (s + S (List.length l1)) by lia. reflexivity.
Qed.

Lemma indexed_from_In (A : Type) (l : list A) :
  forall s i x, In (i, x) (indexed_from A s l) -> s <= i /\ nth_error l (i - s) = Some x.
Proof.
  induction l as [|y l IH]; intros s i x H; [destruct H|].
  rewrite indexed_from_cons in H. destruct H as [H|H].
  - inversion H; subst. rewrite Nat.sub_diag. split; [lia|reflexivity].
  - apply IH in H. destruct H as [L N]. split; [lia|].
    replace (i - s) with (S (i - S s)) by lia. exact N.
Qed.

Lemma indexed_In (A : Type) (l : list A) (i : nat) (x : A) :
  In (i, x) (indexed l) -> nth_error l i = Some x.
Proof.
  intros H. apply indexed_from_In in H. rewrite Nat.sub_0_r in H. tauto.
Qed.

(** Strictly descending lists of indices. *)
Fixpoint descending (l : list nat) : Prop :=
  match l with
  | [] => True
  | x :: l' => (forall y, In y l' -> y < x) /\ descending l'
  end.

(** Strictly ascending lists of indices. *)
Fixpoint ascending (l : list nat) : Prop :=
  match l with
  | [] => True
  | x :: l' => (forall y, In y l' -> x < y) /\ ascending l'
  end.

Lemma ascending_app (l1 l2 : list nat) :
  ascending (l1 ++ l2) <->
  ascending l1 /\ ascending l2 /\ forall x y, In x l1 -> In y l2 -> x < y.
Proof.
  induction l1 as [|a l1 IH]; simpl.
  - split; [intros H; repeat split; auto; intros ? ? []|tauto].
  - rewrite IH. split.
    + intros (H & A1 & A2 & A3). repeat split; auto.
      * intros y I. apply H. apply in_or_app. auto.
      * intros x y [->|I] J; [apply H; apply in_or_app; auto | apply A3; auto].
    + intros ((H & A1) & A2 & A3). repeat split; auto.
      intros y I. apply in_app_or in I. destruct I; auto.
Qed.

Lemma insert_desc_In (x : nat) (l : list nat) (y : nat) :
  In y (Js.insert_desc x l) <-> y = x \/ In y l.
Proof.
  induction l as [|a l IH]; simpl.
  - intuition auto.
  - destruct (a <=? x); simpl; [intuition auto|]. rewrite IH. intuition auto.
Qed.

Lemma sort_desc_In (l : list nat) (y : nat) : In y (Js.sort_desc l) <-> In y l.
Proof.
  induction l as [|a l IH]; simpl; [tauto|].
  rewrite insert_desc_In, IH. intuition auto.
Qed.

Lemma insert_desc_descending (x : nat) (l : list nat) :
  descending l -> ~ In x l -> descending (Js.insert_desc x l).
Proof.
  induction l as [|a l IH]; simpl; intros D N.
  - split; [intros ? []|exact I].
  - destruct D as [D1 D2].
    destruct (a <=? x) eqn:E.
    + apply Nat.leb_le in E. simpl. split; [|split; assumption].
      intros y [->|I]; [lia|]. specialize (D1 y I). lia.
    + apply Nat.leb_gt in E. simpl. split.
      * intros y I. apply insert_desc_In in I. destruct I as [->|I]; [lia|auto].
      * apply IH; [exact D2 | intros I; apply N; auto].
Qed.

Lemma sort_desc_descending (l : list nat) : NoDup l -> descending (Js.sort_desc l).
Proof.
  induction l as [|a l IH]; simpl; intros N; [exact I|].
  inversion N; subst. apply insert_desc_descending; [auto|].
  rewrite sort_desc_In. assumption.
Qed.

Lemma dedupe_from_spec (l : list nat) :
  forall seen,
    NoDup (Js.dedupe_from seen l) /\
    forall y, In y (Js.dedupe_from seen l) <-> In y l /\ ~ In y seen.
Proof.
  induction l as [|a l IH]; intros seen; simpl.
  - split; [constructor | intros y; tauto].
  - destruct (existsb (Nat.eqb a) seen) eqn:E.
    + destruct (IH seen) as [N M]. split; [exact N|].
      intros y. rewrite M. apply existsb_exists in E. destruct E as (z & Iz & Ez).
      apply Nat.eqb_eq in Ez. subst z.
      split; [tauto|]. intros [[->|I] Ny]; [contradiction|tauto].
    + destruct (IH (a :: seen)) as [N M]. split.
      * constructor; [|exact N]. rewrite M. simpl. tauto.
      * intros y. simpl. rewrite M. simpl.
        assert (Na : ~ In a seen).
        { intros I. assert (X : existsb (Nat.eqb a) seen = true).
          { apply existsb_exists. exists a. split; [exact I | apply Nat.eqb_refl]. }
          congruence. }
        destruct (Nat.eq_dec a y) as [->|D]; [tauto|]. tauto.
Qed.

Lemma dedupe_NoDup (l : list nat) : NoDup (Js.dedupe l).
Proof. apply (dedupe_from_spec l []). Qed.

Lemma dedupe_In (l : list nat) (y : nat) : In y (Js.dedupe l) <-> In y l.
Proof.
  unfold Js.dedupe. destruct (dedupe_from_spec l []) as [_ M].
  rewrite M. simpl. tauto.
Qed.

Lemma splice1_last (A : Type) (l t : list A) (x : A) :
  Js.splice1 ((l ++ [x]) ++ t) (List.length l) = l ++ t.
Proof.
  unfold Js.splice1. rewrite <- app_assoc.
  rewrite firstn_app, Nat.sub_diag, firstn_all, firstn_0, app_nil_r.
  rewrite skipn_app.
  replace (S (List.length l) - List.length l) with 1 by lia.
  rewrite skipn_all2 by lia. reflexivity.
Qed.

End Indices.

(** *** The third and fourth pass as edits by position *)

Section Edits.

Import ConversationManager.

(** The placeholder messages inserted after an assistant message, in the order
    they end up in. *)
Definition synthesized (missing : list string) : History :=
  rev (map (fun call_id => tool_msg call_id dummy_response) missing).

(** The test of the fourth pass on the message found at the index. *)
Definition fixable (m : ConversationMessage) : bool :=
  Role_eqb (role m) assistant &&
  match tool_calls m with Some _ => true | None => false end.

(** The missing ids recorded for index [i]. *)
Definition missing_at (F : list (nat * list string)) (i : nat) : list string :=
  match find (fun f => fst f =? i) F with
  | Some f => snd f
  | None => []
  end.

(** What becomes of the message at an index: dropped when the index is in [R],
    followed by the placeholders recorded in [F]. *)
Definition edit (R : list nat) (F : list (nat * list string))
    (im : nat * ConversationMessage) : History :=
  (if existsb (Nat.eqb (fst im)) R then [] else [snd im]) ++
  synthesized (missing_at F (fst im)).

Definition edited (R : list nat) (F : list (nat * list string)) (s : nat) (l : History)
    : History :=
  flat_map (edit R F) (indexed_from _ s l).

Lemma edited_app (R : list nat) (F : list (nat * list string)) (s : nat) (l1 l2 : History) :
  edited R F s (l1 ++ l2) = edited R F s l1 ++ edited R F (s + List.length l1) l2.
Proof. unfold edited. rewrite indexed_from_app, flat_map_app. reflexivity. Qed.

Lemma edited_ext (R R' : list nat) (F F' : list (nat * list string)) (l : History) :
  forall s,
    (forall i, s <= i < s + List.length l ->
               existsb (Nat.eqb i) R = existsb (Nat.eqb i) R' /\
               missing_at F i = missing_at F' i) ->
    edited R F s l = edited R' F' s l.
Proof.
  induction l as [|x l IH]; intros s H; [reflexivity|].
  unfold edited. rewrite indexed_from_cons. simpl.
  fold (edited R F (S s) l). fold (edited R' F' (S s) l).
  rewrite (IH (S s)) by (intros i Hi; apply H; simpl; lia).
  destruct (H s) as [E1 E2]; [simpl; lia|].
  unfold edit. simpl. rewrite E1, E2. reflexivity.
Qed.

Lemma not_in_existsb (i : nat) (R : list nat) :
  ~ In i R -> existsb (Nat.eqb i) R = false.
Proof.
  intros N. destruct (existsb (Nat.eqb i) R) eqn:E; [|reflexivity].
  apply existsb_exists in E. destruct E as (y & I & Ey).
  apply Nat.eqb_eq in Ey. subst. contradiction.
Qed.

Lemma missing_at_none (F : list (nat * list string)) (i : nat) :
  (forall f, In f F -> fst f <> i) -> missing_at F i = [].
Proof.
  intros H. unfold missing_at.
  destruct (find (fun f => fst f =? i) F) as [f|] eqn:E; [|reflexivity].
  apply find_some in E. destruct E as [I E]. apply Nat.eqb_eq in E.
  exfalso. apply (H f I E).
Qed.

Lemma missing_at_app (F G : list (nat * list string)) (i : nat) :
  (forall f, In f F -> fst f <> i) -> missing_at (F ++ G) i = missing_at G i.
Proof.
  intros H. unfold missing_at. induction F as [|f F IH]; [reflexivity|].
  simpl. destruct (fst f =? i) eqn:E.
  - apply Nat.eqb_eq in E. exfalso. apply (H f); [left; reflexivity | exact E].
  - apply IH. intros g I. apply H. right. exact I.
Qed.

Lemma missing_at_keep (F G : list (nat * list string)) (i : nat) :
  (forall f, In f G -> fst f <> i) -> missing_at (F ++ G) i = missing_at F i.
Proof.
  intros H. unfold missing_at. induction F as [|f F IH]; simpl.
  - apply (missing_at_none G i H).
  - destruct (fst f =? i); [reflexivity | exact IH].
Qed.

Lemma insert_placeholders (P : History) (missing : list string) :
  forall S,
    fold_left (fun acc call_id =>
                 Js.splice_in acc (List.length P) (tool_msg call_id dummy_response))
              missing (P ++ S) =
    P ++ synthesized missing ++ S.
Proof.
  induction missing as [|c missing IH]; intros S; [reflexivity|].
  simpl. unfold Js.splice_in at 2.
  rewrite firstn_app, Nat.sub_diag, firstn_all, firstn_0, app_nil_r.
  rewrite skipn_app, Nat.sub_diag, skipn_all. simpl.
  rewrite IH. unfold synthesized. simpl. rewrite <- !app_assoc. reflexivity.
Qed.

(** The fourth pass at the last index of [l ++ [x]]. *)
Lemma fix_step_last (l T : History) (x : ConversationMessage) (missing : list string) :
  fixable x = true ->
  fix_step ((l ++ [x]) ++ T) (List.length l, missing) =
  (l ++ [x]) ++ synthesized missing ++ T.
Proof.
  intros Fx. unfold fix_step.
  rewrite <- app_assoc. rewrite nth_error_app2 by lia. rewrite Nat.sub_diag. simpl.
  unfold fixable in Fx. rewrite Fx.
  replace (List.length l + 1) with (List.length (l ++ [x]))
    by (rewrite length_app; reflexivity).
  replace (l ++ x :: T) with ((l ++ [x]) ++ T) by (rewrite <- app_assoc; reflexivity).
  apply insert_placeholders.
Qed.

(** Removing the indices of [R], highest first, then inserting the placeholders
    of [F], highest index first, edits every position on its own, as long as no
    removal lies at or before an insertion. *)
Lemma edits_correct (l : History) :
  forall (T : History) (R : list nat) (F : list (nat * list string)),
    descending R ->
    ascending (map fst F) ->
    (forall r, In r R -> r < List.length l) ->
    (forall f, In f F -> exists m, nth_error l (fst f) = Some m /\ fixable m = true) ->
    (forall r f, In r R -> In f F -> fst f < r) ->
    fold_left fix_step (rev F) (fold_left (@Js.splice1 _) R (l ++ T)) =
    edited R F 0 l ++ T.
Proof.
  induction l as [|x l IH] using rev_ind; intros T R F DR AF VR VF Lt.
  - destruct R as [|r R]; [|specialize (VR r (or_introl eq_refl)); simpl in VR; lia].
    destruct F as [|f F]; [reflexivity|].
    destruct (VF f (or_introl eq_refl)) as (m & N & _). destruct (fst f); discriminate.
  - rewrite edited_app. simpl Nat.add.
    assert (VF' : forall f, In f F -> fst f < List.length l ->
                  exists m, nth_error l (fst f) = Some m /\ fixable m = true).
    { intros f I L. destruct (VF f I) as (m & N & X).
      rewrite nth_error_app1 in N by exact L. eauto. }
    assert (Keep : forall R0 F0,
               (forall r, In r R0 -> r < List.length l) ->
               (forall f, In f F0 -> fst f < List.length l) ->
               edited R0 F0 (List.length l) [x] = [x]).
    { intros R0 F0 HR HF. unfold edited, edit. simpl.
      rewrite not_in_existsb by (intros I; specialize (HR _ I); lia).
      rewrite missing_at_none by (intros f I; specialize (HF _ I); lia).
      reflexivity. }
    assert (Below : forall R0 F0,
               descending R0 -> ascending (map fst F0) ->
               (forall r, In r R0 -> r < List.length l) ->
               (forall f, In f F0 -> fst f < List.length l) ->
               (forall f, In f F0 -> In f F) ->
               (forall r f, In r R0 -> In f F0 -> fst f < r) ->
               forall T0,
                 fold_left fix_step (rev F0) (fold_left (@Js.splice1 _) R0 (l ++ T0)) =
                 edited R0 F0 0 l ++ T0).
    { intros R0 F0 D0 A0 HR HF Sub L0 T0.
      apply IH; auto; intros f I; apply VF'; auto. }
    assert (RB : forall r, In r R -> r <= List.length l).
    { intros r I. specialize (VR r I). rewrite length_app in VR. simpl in VR. lia. }
    assert (FB : forall f, In f F -> fst f <= List.length l).
    { intros f I. destruct (VF f I) as (m & N & _).
      assert (fst f < List.length (l ++ [x])) by (apply nth_error_Some; congruence).
      rewrite length_app in H. simpl in H. lia. }
    destruct R as [|r R].
    + destruct F as [|f F _] using rev_ind.
      * rewrite <- app_assoc.
        rewrite (Below [] [] I I) by (simpl; tauto).
        rewrite (Keep [] []) by (simpl; tauto).
        rewrite <- ?app_assoc. reflexivity.
      * destruct (Nat.eq_dec (fst f) (List.length l)) as [E|NE].
        -- (* the last message gets placeholders *)
           rewrite map_app in AF. apply ascending_app in AF.
           destruct AF as (A1 & _ & A3).
           assert (HF : forall g, In g F -> fst g < List.length l).
           { intros g Ig. rewrite <- E. apply A3; [apply in_map; exact Ig | left; reflexivity]. }
           rewrite rev_app_distr. cbn [rev app fold_left].
           destruct f as [i missing]. simpl in E. subst i.
           destruct (VF (List.length l, missing)) as (m & N & X);
             [apply in_or_app; right; left; reflexivity|].
           simpl in N. rewrite nth_error_app2 in N by lia.
           rewrite Nat.sub_diag in N. simpl in N. inversion N; subst m.
           rewrite fix_step_last by exact X.
           rewrite <- app_assoc.
           assert (Sub : forall g, In g F -> In g (F ++ [(List.length l, missing)]))
             by (intros; apply in_or_app; auto).
           assert (NoR : forall r g, In r (@nil nat) -> In g F -> fst g < r)
             by (intros r g []).
           assert (NoV : forall r, In r (@nil nat) -> r < List.length l)
             by (intros r []).
           pose proof (Below [] F I A1 NoV HF Sub NoR ([x] ++ synthesized missing ++ T)) as Bw.
           cbn [fold_left] in Bw. rewrite Bw.
           rewrite <- !app_assoc. f_equal.
           ++ apply edited_ext. intros i Hi. split; [reflexivity|].
              symmetry. apply missing_at_keep. intros g [<-|[]]. simpl. simpl in Hi. lia.
           ++ unfold edited, edit. simpl.
              rewrite missing_at_app by (intros g Ig; specialize (HF g Ig); lia).
              unfold missing_at. simpl. rewrite Nat.eqb_refl. simpl.
              rewrite app_nil_r. reflexivity.
        -- (* every insertion lies before the last message *)
           assert (HF : forall g, In g (F ++ [f]) -> fst g < List.length l).
           { rewrite map_app in AF. apply ascending_app in AF.
             destruct AF as (_ & _ & A3).
             assert (In f (F ++ [f])) as If by (apply in_or_app; right; left; reflexivity).
             assert (fst f < List.length l) by (specialize (FB f If); lia).
             intros g Ig. apply in_app_or in Ig. destruct Ig as [Ig|[<-|[]]]; [|assumption].
             specialize (A3 (fst g) (fst f) (in_map fst _ _ Ig) (or_introl eq_refl)). lia. }
           rewrite <- app_assoc.
           rewrite (Below [] (F ++ [f]) I AF) by (simpl; tauto).
           rewrite (Keep [] (F ++ [f])) by (simpl; try tauto; exact HF).
           rewrite <- ?app_assoc. reflexivity.
    + destruct DR as [D1 D2].
      destruct (Nat.eq_dec r (List.length l)) as [E|NE].
      * (* the last message is removed *)
        subst r. simpl fold_left at 2. rewrite splice1_last.
        assert (HR : forall r, In r R -> r < List.length l) by (intros; auto).
        assert (HF : forall f, In f F -> fst f < List.length l)
          by (intros f If; apply (Lt (List.length l) f); [left; reflexivity | exact If]).
        assert (Sub : forall f, In f F -> In f F) by auto.
        assert (Lt' : forall r f, In r R -> In f F -> fst f < r)
          by (intros r f Ir If; apply Lt; [right; exact Ir | exact If]).
        rewrite (Below R F D2 AF HR HF Sub Lt').
        f_equal.
        replace (edited (List.length l :: R) F (List.length l) [x]) with (@nil ConversationMessage).
        -- rewrite app_nil_r. apply edited_ext. intros i Hi. split; [|reflexivity].
           simpl. replace (i =? List.length l) with false; [reflexivity|].
           symmetry. apply Nat.eqb_neq. simpl in Hi. lia.
        -- unfold edited, edit. simpl. rewrite Nat.eqb_refl. simpl.
           rewrite missing_at_none by (intros f If; specialize (HF f If); lia).
           reflexivity.
      * (* everything happens before the last message *)
        assert (HR : forall r', In r' (r :: R) -> r' < List.length l).
        { intros r' [<-|Ir].
          - specialize (RB r (or_introl eq_refl)). lia.
          - specialize (D1 r' Ir). specialize (RB r (or_introl eq_refl)). lia. }
        assert (HF : forall f, In f F -> fst f < List.length l).
        { intros f If. specialize (Lt r f (or_introl eq_refl) If).
          specialize (RB r (or_introl eq_refl)). lia. }
        rewrite <- app_assoc.
        rewrite (Below (r :: R) F (conj D1 D2) AF HR HF) by auto.
        rewrite (Keep (r :: R) F HR HF).
        rewrite <- ?app_assoc. reflexivity.
Qed.

End Edits.

(** *** What the passes mark, read off the neighbourhood of a message *)

Section Marks.

Import ConversationManager.

Lemma indexed_from_nth (A : Type) (l : list A) :
  forall s k x, nth_error l k = Some x -> In (s + k, x) (indexed_from A s l).
Proof.
  induction l as [|y l IH]; intros s k x H; [destruct k; discriminate|].
  rewrite indexed_from_cons. destruct k as [|k]; simpl in H.
  - inversion H; subst. rewrite Nat.add_0_r. left. reflexivity.
  - right. replace (s + S k) with (S s + k) by lia. apply IH. exact H.
Qed.

Lemma indexed_nth (A : Type) (l : list A) (i : nat) (x : A) :
  nth_error l i = Some x -> In (i, x) (indexed l).
Proof. intros H. apply (indexed_from_nth A l 0 i x H). Qed.

(** A pass that records at most one entry per index, under that index, yields
    ascending indices within the range it walked. *)
Lemma one_per_index (A B : Type) (g : nat * A -> list (nat * B)) :
  (forall i x, g (i, x) = [] \/ exists b, g (i, x) = [(i, b)]) ->
  forall l s,
    ascending (map fst (flat_map g (indexed_from A s l))) /\
    forall f, In f (flat_map g (indexed_from A s l)) -> s <= fst f < s + List.length l.
Proof.
  intros G. induction l as [|x l IH]; intros s.
  - simpl. split; [exact I | intros f []].
  - rewrite indexed_from_cons. simpl. destruct (IH (S s)) as [A1 A2].
    destruct (G s x) as [E|[b E]]; rewrite E; simpl.
    + split; [exact A1|]. intros f I. specialize (A2 f I). lia.
    + split; [split; [|exact A1]|].
      * intros y Iy. apply in_map_iff in Iy. destruct Iy as (f & <- & If).
        specialize (A2 f If). lia.
      * intros f [<-|If]; [simpl; lia|]. specialize (A2 f If). lia.
Qed.

Definition fix_entry (h : History) (im : nat * ConversationMessage)
    : list (nat * list string) :=
  let '(i, message) := im in
  if has_tool_calls message then
    match missingToolResponses h i message with
    | [] => []
    | missing => [(i, missing)]
    end
  else [].

Lemma messagesToFix_is (h : History) :
  messagesToFix h = flat_map (fix_entry h) (indexed h).
Proof. reflexivity. Qed.

Lemma fix_entry_one (h : History) (i : nat) (m : ConversationMessage) :
  fix_entry h (i, m) = [] \/ exists b, fix_entry h (i, m) = [(i, b)].
Proof.
  unfold fix_entry. destruct (has_tool_calls m); [|left; reflexivity].
  destruct (missingToolResponses h i m) as [|c l]; [left; reflexivity|].
  right. eexists. reflexivity.
Qed.

Lemma has_tool_calls_fixable (m : ConversationMessage) :
  has_tool_calls m = true -> fixable m = true.
Proof.
  unfold has_tool_calls, fixable. destruct (Role_eqb _ _); simpl; [|discriminate].
  destruct (tool_calls m) as [[|c l]|]; auto.
Qed.

Lemma messagesToFix_valid (h : History) :
  ascending (map fst (messagesToFix h)) /\
  forall f, In f (messagesToFix h) ->
            exists m, nth_error h (fst f) = Some m /\ fixable m = true.
Proof.
  rewrite messagesToFix_is, indexed_is_from.
  destruct (one_per_index _ _ (fix_entry h) (fix_entry_one h) h 0) as [A1 _].
  split; [exact A1|].
  intros f If. apply in_flat_map in If. destruct If as ([i m] & Iim & If).
  apply indexed_In in Iim.
  unfold fix_entry in If. destruct (has_tool_calls m) eqn:E; [|destruct If].
  destruct (missingToolResponses h i m); [destruct If|].
  destruct If as [<-|[]]. simpl. exists m. split; [exact Iim|].
  apply has_tool_calls_fixable. exact E.
Qed.

(** The missing ids recorded for the message between [pre] and [post]. *)
Lemma missing_at_position (pre post : History) (m : ConversationMessage) :
  missing_at (messagesToFix (pre ++ m :: post)) (List.length pre) =
  if has_tool_calls m
  then missingToolResponses (pre ++ m :: post) (List.length pre) m
  else [].
Proof.
  rewrite messagesToFix_is, indexed_is_from, indexed_from_app, flat_map_app.
  rewrite indexed_from_cons. simpl flat_map.
  set (h := pre ++ m :: post).
  destruct (one_per_index _ _ (fix_entry h) (fix_entry_one h) pre 0) as [_ B1].
  destruct (one_per_index _ _ (fix_entry h) (fix_entry_one h) post (S (List.length pre)))
    as [_ B2].
  rewrite missing_at_app by (intros f If; specialize (B1 f If); lia).
  assert (N : missing_at (flat_map (fix_entry h)
                            (indexed_from _ (S (List.length pre)) post))
                         (List.length pre) = []).
  { apply missing_at_none. intros f If. specialize (B2 f If). lia. }
  unfold fix_entry at 1. destruct (has_tool_calls m); [|exact N].
  destruct (missingToolResponses h (List.length pre) m) as [|c l]; [exact N|].
  unfold missing_at. simpl. rewrite Nat.eqb_refl. reflexivity.
Qed.

Lemma first_pass_In (h : History) (i : nat) :
  In i (first_pass h) <->
  exists m, nth_error h i = Some m /\ first_pass_removes h i m = true.
Proof.
  unfold first_pass. rewrite in_flat_map. split.
  - intros ([j m] & Ijm & Ii). apply indexed_In in Ijm.
    destruct (first_pass_removes h j m) eqn:E; [|destruct Ii].
    destruct Ii as [<-|[]]. eauto.
  - intros (m & N & E). exists (i, m). split; [apply indexed_nth; exact N|].
    rewrite E. left. reflexivity.
Qed.

(** What the pass over incomplete calls marks: the incomplete message, and
    every later tool message answering one of its calls. *)
Lemma streaming_pass_In (h : History) (x : nat) :
  In x (streaming_pass h) <->
  exists i m,
    nth_error h i = Some m /\ incomplete_message m = true /\
    (x = i \/
     exists r, nth_error h x = Some r /\ i < x /\ is_tool r = true /\
               Js.truthy_opt (tool_call_id r) = true /\
               existsb (answers r) (assistantToToolCallMap_get h i) = true).
Proof.
  unfold streaming_pass. rewrite in_flat_map. split.
  - intros ([i m] & Iim & Ix). apply indexed_In in Iim.
    destruct (incomplete_message m) eqn:E; [|destruct Ix].
    exists i, m. split; [exact Iim|]. split; [exact E|].
    destruct Ix as [<-|Ix]; [left; reflexivity|]. right.
    apply in_flat_map in Ix. destruct Ix as ([j r] & Ijr & Ix).
    apply indexed_In in Ijr.
    destruct ((i <? j) && is_tool r && Js.truthy_opt (tool_call_id r) &&
              existsb (answers r) (assistantToToolCallMap_get h i)) eqn:C;
      [|destruct Ix].
    destruct Ix as [<-|[]].
    apply andb_true_iff in C. destruct C as [C C4].
    apply andb_true_iff in C. destruct C as [C C3].
    apply andb_true_iff in C. destruct C as [C1 C2].
    apply Nat.ltb_lt in C1. exists r. auto.
  - intros (i & m & N & E & Hx). exists (i, m).
    split; [apply indexed_nth; exact N|]. rewrite E.
    destruct Hx as [->|(r & Nr & L & T & I & A)]; [left; reflexivity|].
    right. apply in_flat_map. exists (x, r).
    split; [apply indexed_nth; exact Nr|].
    apply Nat.ltb_lt in L. rewrite L, T, I, A. left. reflexivity.
Qed.

Lemma messagesToRemove_In (h : History) (i : nat) :
  In i (messagesToRemove h) <-> In i (first_pass h) \/ In i (streaming_pass h).
Proof.
  unfold messagesToRemove. rewrite sort_desc_In, dedupe_In, in_app_iff. reflexivity.
Qed.

Lemma messagesToRemove_valid (h : History) (i : nat) :
  In i (messagesToRemove h) -> i < List.length h.
Proof.
  intros I. apply nth_error_Some. apply messagesToRemove_In in I.
  destruct I as [I|I].
  - apply first_pass_In in I. destruct I as (m & N & _). congruence.
  - apply streaming_pass_In in I.
    destruct I as (j & m & N & _ & [->|(r & Nr & _)]); congruence.
Qed.

Lemma messagesToRemove_descending (h : History) : descending (messagesToRemove h).
Proof. apply sort_desc_descending. apply dedupe_NoDup. Qed.

(** The nearest message before a position that is not a tool message. *)
Definition owner_of (pre : History) : option ConversationMessage :=
  find (fun m => negb (is_tool m)) (rev pre).

Lemma owner_of_snoc (pre : History) (x : ConversationMessage) :
  owner_of (pre ++ [x]) = if is_tool x then owner_of pre else Some x.
Proof.
  unfold owner_of. rewrite rev_app_distr. simpl. destruct (is_tool x); reflexivity.
Qed.

Lemma look_back_prefix (pre : History) (c : string) :
  forall i post, i <= List.length pre ->
                 look_back (pre ++ post) c i = look_back pre c i.
Proof.
  induction i as [|j IH]; intros post L; [reflexivity|].
  simpl. rewrite nth_error_app1 by lia. rewrite IH by lia. reflexivity.
Qed.

Lemma look_back_bound (h : History) (c : string) :
  forall i a, look_back h c i = Some a -> a < i.
Proof.
  induction i as [|j IH]; intros a H; [discriminate|].
  simpl in H. destruct (nth_error h j) as [p|].
  - destruct (owns_call p c); [inversion H; lia|]. apply IH in H. lia.
  - apply IH in H. lia.
Qed.

Lemma look_back_snoc (pre : History) (x : ConversationMessage) (c : string) :
  look_back (pre ++ [x]) c (S (List.length pre)) =
  if owns_call x c then Some (List.length pre) else look_back pre c (List.length pre).
Proof.
  simpl. rewrite nth_error_app2 by lia. rewrite Nat.sub_diag. simpl.
  destruct (owns_call x c); [reflexivity|]. apply look_back_prefix. lia.
Qed.

(** The verdict of the first pass on a tool message answering [c] right after
    [pre]. *)
Definition verdict (pre : History) (c : string) : bool :=
  match look_back pre c (List.length pre) with
  | None => true
  | Some a => existsb (fun m => negb (is_tool m)) (skipn (a + 1) pre)
  end.

Lemma owns_call_not_tool (x : ConversationMessage) (c : string) :
  is_tool x = true -> owns_call x c = false.
Proof.
  unfold is_tool, owns_call. destruct (role x); simpl; congruence.
Qed.

(** The first pass keeps a tool message exactly when the nearest earlier
    message of another role is an assistant owning the answered call. *)
Lemma verdict_owner (c : string) (pre : History) :
  verdict pre c =
  negb (match owner_of pre with Some o => owns_call o c | None => false end).
Proof.
  induction pre as [|x pre IH] using rev_ind; [reflexivity|].
  unfold verdict in *. rewrite length_app. simpl List.length.
  replace (List.length pre + 1) with (S (List.length pre)) by lia.
  rewrite look_back_snoc, owner_of_snoc.
  destruct (is_tool x) eqn:Tx.
  - rewrite (owns_call_not_tool x c Tx).
    destruct (look_back pre c (List.length pre)) as [a|] eqn:L; [|exact IH].
    pose proof (look_back_bound pre c _ a L) as B.
    rewrite skipn_app, existsb_app.
    replace (a + 1 - List.length pre) with 0 by lia. simpl.
    rewrite Tx. simpl. rewrite orb_false_r. exact IH.
  - destruct (owns_call x c) eqn:O.
    + rewrite skipn_app.
      replace (List.length pre + 1 - List.length pre) with 1 by lia.
      rewrite skipn_all2 by lia. reflexivity.
    + destruct (look_back pre c (List.length pre)) as [a|] eqn:L; [|reflexivity].
      pose proof (look_back_bound pre c _ a L) as B.
      rewrite skipn_app, existsb_app.
      replace (a + 1 - List.length pre) with 0 by lia. simpl.
      rewrite Tx. simpl. rewrite orb_true_r. reflexivity.
Qed.

(** Whether the first pass leaves a tool message in place, given its owner. *)
Definition keeps (owner : option ConversationMessage) (m : ConversationMessage) : bool :=
  match owner, tool_call_id m with
  | Some o, Some c => owns_call o c
  | _, _ => false
  end.

Lemma first_pass_removes_position (pre post : History) (m : ConversationMessage) :
  first_pass_removes (pre ++ m :: post) (List.length pre) m =
  is_tool m && Js.truthy_opt (tool_call_id m) && negb (keeps (owner_of pre) m).
Proof.
  unfold first_pass_removes, keeps.
  destruct (is_tool m && Js.truthy_opt (tool_call_id m)) eqn:E; [|reflexivity].
  destruct (tool_call_id m) as [c|]; [|rewrite andb_false_r in E; discriminate].
  simpl. rewrite look_back_prefix by lia.
  pose proof (verdict_owner c pre) as V. unfold verdict in V.
  destruct (look_back pre c (List.length pre)) as [a|] eqn:L.
  - pose proof (look_back_bound pre c _ a L) as B.
    unfold hasInterveningMessages.
    rewrite skipn_app. replace (a + 1 - List.length pre) with 0 by lia.
    simpl skipn at 2.
    rewrite firstn_app.
    rewrite length_skipn.
    replace (List.length pre - (a + 1) - (List.length pre - (a + 1))) with 0 by lia.
    rewrite firstn_0, app_nil_r.
    rewrite firstn_all2 by (rewrite length_skipn; lia).
    rewrite V. destruct (owner_of pre); reflexivity.
  - rewrite V. destruct (owner_of pre); reflexivity.
Qed.

(** The owner that still counts: an incomplete assistant message is removed, and
    takes its run with it. *)
Definition effective_owner (pre : History) : option ConversationMessage :=
  match owner_of pre with
  | Some o => if incomplete_message o then None else Some o
  | None => None
  end.

Lemma effective_owner_snoc (pre : History) (x : ConversationMessage) :
  effective_owner (pre ++ [x]) =
  if is_tool x then effective_owner pre
  else if incomplete_message x then None else Some x.
Proof.
  unfold effective_owner. rewrite owner_of_snoc. destruct (is_tool x); reflexivity.
Qed.

Lemma owner_of_position (pre : History) (o : ConversationMessage) :
  owner_of pre = Some o -> exists i, i < List.length pre /\ nth_error pre i = Some o.
Proof.
  unfold owner_of. intros F. apply find_some in F. destruct F as [I _].
  apply in_rev in I. apply In_nth_error in I. destruct I as (i & N).
  exists i. split; [apply nth_error_Some; congruence | exact N].
Qed.

Lemma NoDup_app_disjoint (A : Type) (l1 l2 : list A) (a : A) :
  NoDup (l1 ++ l2) -> In a l1 -> In a l2 -> False.
Proof.
  induction l1 as [|x l1 IH]; simpl; intros N I1 I2; [destruct I1|].
  inversion N as [|? ? Nx Nl]; subst. destruct I1 as [->|I1].
  - apply Nx. apply in_or_app. right. exact I2.
  - apply IH; assumption.
Qed.

Lemma call_owner_ordered (h : History) :
  NoDup (map tc_id (flat_map calls_of h)) ->
  forall i i' m m' tc tc',
    nth_error h i = Some m -> nth_error h i' = Some m' ->
    In tc (calls_of m) -> In tc' (calls_of m') -> tc_id tc = tc_id tc' ->
    i < i' -> False.
Proof.
  intros N i i' m m' tc tc' Hi Hi' I I' E L.
  destruct (nth_error_split h i Hi) as (pre & post & -> & Lp).
  rewrite nth_error_app2 in Hi' by lia.
  replace (i' - List.length pre) with (S (i' - List.length pre - 1)) in Hi' by lia.
  simpl in Hi'. apply nth_error_In in Hi'.
  rewrite flat_map_app, map_app in N. apply NoDup_app_remove_l in N.
  simpl in N. rewrite map_app in N.
  apply (NoDup_app_disjoint _ _ _ (tc_id tc) N).
  - apply in_map. exact I.
  - rewrite E. apply in_map. apply in_flat_map. exists m'. split; assumption.
Qed.

(** With distinct call ids, two positions owning the same id are one. *)
Lemma call_owner_unique (h : History) :
  NoDup (map tc_id (flat_map calls_of h)) ->
  forall i i' m m' tc tc',
    nth_error h i = Some m -> nth_error h i' = Some m' ->
    In tc (calls_of m) -> In tc' (calls_of m') -> tc_id tc = tc_id tc' ->
    i = i'.
Proof.
  intros N i i' m m' tc tc' Hi Hi' I I' E.
  destruct (Nat.lt_trichotomy i i') as [L|[L|L]]; [exfalso | exact L | exfalso].
  - apply (call_owner_ordered h N i i' m m' tc tc'); assumption.
  - apply (call_owner_ordered h N i' i m' m tc' tc); auto.
Qed.

Lemma incomplete_has_tool_calls (m : ConversationMessage) :
  incomplete_message m = true -> has_tool_calls m = true.
Proof. unfold incomplete_message. intros H. apply andb_true_iff in H. tauto. Qed.

Lemma has_tool_calls_not_tool (m : ConversationMessage) :
  has_tool_calls m = true -> is_tool m = false.
Proof. unfold has_tool_calls, is_tool. destruct (role m); simpl; congruence. Qed.

Lemma owns_call_ids (o : ConversationMessage) (c : string) (r : ConversationMessage) :
  has_tool_calls o = true -> tool_call_id r = Some c ->
  existsb (answers r) (map tc_id (calls_list o)) = owns_call o c.
Proof.
  intros H Ic. unfold owns_call, calls_list.
  unfold has_tool_calls in H. apply andb_true_iff in H. destruct H as [R _]. rewrite R.
  simpl. destruct (tool_calls o) as [calls|]; [|reflexivity].
  induction calls as [|tc calls IH]; [reflexivity|].
  simpl. rewrite IH. unfold answers. rewrite Ic.
  rewrite (String.eqb_sym c (tc_id tc)). reflexivity.
Qed.

Lemma owns_call_In (o : ConversationMessage) (c : string) :
  owns_call o c = true -> exists tc, In tc (calls_of o) /\ tc_id tc = c.
Proof.
  unfold owns_call, calls_of, calls_list. intros H.
  apply andb_true_iff in H. destruct H as [R H]. rewrite R.
  destruct (tool_calls o) as [calls|]; [|discriminate].
  apply existsb_exists in H. destruct H as (tc & I & E).
  apply String.eqb_eq in E. eauto.
Qed.

Lemma assistantToToolCallMap_get_owner
  (h : History) (i : nat) (o r : ConversationMessage) (c : string) :
  nth_error h i = Some o -> has_tool_calls o = true -> tool_call_id r = Some c ->
  existsb (answers r) (ConversationManager.assistantToToolCallMap_get h i) = owns_call o c.
Proof.
  intros N H Ic. unfold ConversationManager.assistantToToolCallMap_get.
  rewrite N, H. apply owns_call_ids; assumption.
Qed.

End Marks.

(** *** The repair, message by message *)

Section Repair.

Import ConversationManager.

(** The ids of the calls of [m] that no tool message of the run [rest] starts
    with answers. *)
Definition missing_in (m : ConversationMessage) (rest : History) : list string :=
  map tc_id
      (filter (fun tc => negb (foundToolResponse rest (tc_id tc))) (calls_list m)).

(** The transcript rebuilt from left to right: [owner] is the nearest earlier
    message that is not a tool message, unless that message was dropped.  A
    tool message with an id stays only next to an owner of its call; an
    assistant message with an incomplete call is dropped; any other message
    with tool calls is followed by a placeholder for each call its run does not
    answer. *)
Fixpoint repair (owner : option ConversationMessage) (h : History) : History :=
  match h with
  | [] => []
  | m :: rest =>
      if is_tool m then
        (if Js.truthy_opt (tool_call_id m) && negb (keeps owner m) then [] else [m]) ++
        repair owner rest
      else if incomplete_message m then repair None rest
      else
        m :: synthesized (if has_tool_calls m then missing_in m rest else []) ++
        repair (Some m) rest
  end.

(** No index marked for removal lies at or before an index marked for
    placeholders. *)
Definition removals_follow_fixes (h : History) : bool :=
  forallb (fun r => forallb (fun f => fst f <? r) (messagesToFix h))
          (messagesToRemove h).

Lemma existsb_eqb_In (i : nat) (l : list nat) :
  existsb (Nat.eqb i) l = true <-> In i l.
Proof.
  rewrite existsb_exists. split.
  - intros (y & I & E). apply Nat.eqb_eq in E. subst. exact I.
  - intros I. exists i. split; [exact I | apply Nat.eqb_refl].
Qed.

Lemma position_nth (pre post : History) (m : ConversationMessage) :
  nth_error (pre ++ m :: post) (List.length pre) = Some m.
Proof. rewrite nth_error_app2 by lia. rewrite Nat.sub_diag. reflexivity. Qed.

(** Whether the message between [pre] and [post] is in [messagesToRemove]. *)
Lemma removed_at_position (pre post : History) (m : ConversationMessage) :
  NoDup (map tc_id (flat_map calls_of (pre ++ m :: post))) ->
  existsb (Nat.eqb (List.length pre)) (messagesToRemove (pre ++ m :: post)) =
  if is_tool m
  then Js.truthy_opt (tool_call_id m) && negb (keeps (effective_owner pre) m)
  else incomplete_message m.
Proof.
  intros N. set (h := pre ++ m :: post) in *.
  pose proof (position_nth pre post m) as Nm. fold h in Nm.
  assert (Fp : In (List.length pre) (first_pass h) <->
               is_tool m && Js.truthy_opt (tool_call_id m) &&
               negb (keeps (owner_of pre) m) = true).
  { rewrite first_pass_In. rewrite <- (first_pass_removes_position pre post m).
    fold h. split; [intros (m' & N' & E); congruence | eauto]. }
  destruct (is_tool m) eqn:Tm.
  - destruct (Js.truthy_opt (tool_call_id m)) eqn:Im.
    + destruct (tool_call_id m) as [c|] eqn:Ic; [|discriminate].
      simpl in Fp. simpl.
      unfold effective_owner.
      destruct (owner_of pre) as [o|] eqn:Ow.
      * unfold keeps in *. rewrite Ic in *.
        destruct (owns_call o c) eqn:Oc.
        -- (* next to the owner: removed exactly when the owner is incomplete *)
           destruct (owner_of_position pre o Ow) as (io & Lo & No).
           assert (Nh : nth_error h io = Some o)
             by (unfold h; rewrite nth_error_app1 by exact Lo; exact No).
           destruct (incomplete_message o) eqn:Io.
           ++ simpl. apply existsb_eqb_In. apply messagesToRemove_In. right.
              apply streaming_pass_In. exists io, o.
              split; [exact Nh|]. split; [exact Io|]. right.
              exists m. split; [exact Nm|]. split; [exact Lo|].
              split; [exact Tm|]. split; [rewrite Ic; exact Im|].
              rewrite (assistantToToolCallMap_get_owner h io o m c Nh
                         (incomplete_has_tool_calls o Io) Ic). exact Oc.
           ++ rewrite Oc. simpl. apply not_in_existsb. intros I.
              apply messagesToRemove_In in I. destruct I as [I|I].
              ** apply Fp in I. discriminate.
              ** apply streaming_pass_In in I.
                 destruct I as (i & mi & Ni & Ii & [E|(r & Nr & Li & _ & _ & A)]).
                 --- rewrite <- E in Ni. rewrite Nm in Ni. inversion Ni; subst mi.
                     apply incomplete_has_tool_calls, has_tool_calls_not_tool in Ii.
                     congruence.
                 --- rewrite Nm in Nr. inversion Nr; subst r.
                     rewrite (assistantToToolCallMap_get_owner h i mi m c Ni
                                (incomplete_has_tool_calls mi Ii) Ic) in A.
                     destruct (owns_call_In o c Oc) as (tc & Itc & Etc).
                     destruct (owns_call_In mi c A) as (tc' & Itc' & Etc').
                     assert (io = i).
                     { apply (call_owner_unique h N io i o mi tc tc'); auto. congruence. }
                     subst i. assert (mi = o) by congruence. subst mi. congruence.
        -- destruct (incomplete_message o); simpl; rewrite ?Oc; simpl;
             apply existsb_eqb_In; apply messagesToRemove_In; left;
             apply Fp; reflexivity.
      * simpl. apply existsb_eqb_In. apply messagesToRemove_In. left.
        apply Fp. unfold keeps. reflexivity.
    + simpl. apply not_in_existsb. intros I.
      apply messagesToRemove_In in I. destruct I as [I|I].
      * apply Fp in I. simpl in I. discriminate.
      * apply streaming_pass_In in I.
        destruct I as (i & mi & Ni & Ii & [E|(r & Nr & _ & _ & Ir & _)]).
        -- rewrite <- E in Ni. rewrite Nm in Ni. inversion Ni; subst mi.
           apply incomplete_has_tool_calls, has_tool_calls_not_tool in Ii. congruence.
        -- rewrite Nm in Nr. inversion Nr; subst r. congruence.
  - destruct (incomplete_message m) eqn:Im.
    + apply existsb_eqb_In. apply messagesToRemove_In. right.
      apply streaming_pass_In. exists (List.length pre), m. auto.
    + apply not_in_existsb. intros I.
      apply messagesToRemove_In in I. destruct I as [I|I].
      * apply Fp in I. simpl in I. discriminate.
      * apply streaming_pass_In in I.
        destruct I as (i & mi & Ni & Ii & [E|(r & Nr & _ & Tr & _)]).
        -- rewrite <- E in Ni. rewrite Nm in Ni. congruence.
        -- rewrite Nm in Nr. congruence.
Qed.

Lemma not_tool_no_calls (m : ConversationMessage) :
  is_tool m = true -> has_tool_calls m = false.
Proof. unfold is_tool, has_tool_calls. destruct (role m); simpl; congruence. Qed.

(** A removed message has no placeholders recorded, or a removal would stand
    at an insertion. *)
Lemma removed_not_fixed (pre post : History) (m : ConversationMessage) :
  removals_follow_fixes (pre ++ m :: post) = true ->
  existsb (Nat.eqb (List.length pre)) (messagesToRemove (pre ++ m :: post)) = true ->
  missing_at (messagesToFix (pre ++ m :: post)) (List.length pre) = [].
Proof.
  intros W R. apply existsb_eqb_In in R.
  unfold missing_at.
  destruct (find (fun f => fst f =? List.length pre) (messagesToFix (pre ++ m :: post)))
    as [f|] eqn:F; [|reflexivity].
  apply find_some in F. destruct F as [If Ef]. apply Nat.eqb_eq in Ef.
  unfold removals_follow_fixes in W. rewrite forallb_forall in W.
  specialize (W _ R). rewrite forallb_forall in W. specialize (W f If).
  apply Nat.ltb_lt in W. lia.
Qed.

Lemma edited_repair (post : History) :
  forall pre,
    NoDup (map tc_id (flat_map calls_of (pre ++ post))) ->
    removals_follow_fixes (pre ++ post) = true ->
    edited (messagesToRemove (pre ++ post)) (messagesToFix (pre ++ post))
           (List.length pre) post =
    repair (effective_owner pre) post.
Proof.
  induction post as [|m post IH]; intros pre N W; [reflexivity|].
  unfold edited. rewrite indexed_from_cons. simpl flat_map.
  fold (edited (messagesToRemove (pre ++ m :: post)) (messagesToFix (pre ++ m :: post))
               (S (List.length pre)) post).
  assert (E : pre ++ m :: post = (pre ++ [m]) ++ post)
    by (rewrite <- app_assoc; reflexivity).
  specialize (IH (pre ++ [m])). rewrite <- E in IH. specialize (IH N W).
  rewrite length_app in IH. simpl List.length in IH.
  replace (List.length pre + 1) with (S (List.length pre)) in IH by lia.
  rewrite IH. rewrite effective_owner_snoc.
  unfold edit. cbn [fst snd].
  pose proof (removed_not_fixed pre post m W) as NF.
  rewrite (removed_at_position pre post m N) in *.
  simpl repair.
  destruct (is_tool m) eqn:Tm.
  - rewrite missing_at_position, (not_tool_no_calls m Tm). simpl.
    destruct (Js.truthy_opt (tool_call_id m) && negb (keeps (effective_owner pre) m));
      simpl; rewrite ?app_nil_r; reflexivity.
  - destruct (incomplete_message m) eqn:Im.
    + rewrite (NF eq_refl). reflexivity.
    + rewrite missing_at_position. unfold missingToolResponses.
      replace (skipn (List.length pre + 1) (pre ++ m :: post)) with post.
      * fold (missing_in m post). reflexivity.
      * rewrite skipn_app.
        replace (List.length pre + 1 - List.length pre) with 1 by lia.
        rewrite skipn_all2 by lia. reflexivity.
Qed.

(** With distinct call ids and every removal after every insertion,
    [validateAndSanitizeConversationHistory] is [repair]. *)
Lemma validate_is_repair (h : History) :
  NoDup (map tc_id (flat_map calls_of h)) ->
  removals_follow_fixes h = true ->
  validateAndSanitizeConversationHistory h = repair None h.
Proof.
  intros N W.
  unfold validateAndSanitizeConversationHistory.
  destruct (messagesToFix_valid h) as [AF VF].
  pose proof (edits_correct h [] (messagesToRemove h) (messagesToFix h)
                (messagesToRemove_descending h) AF) as Ed.
  rewrite !app_nil_r in Ed. rewrite Ed.
  - apply (edited_repair h [] N W).
  - apply messagesToRemove_valid.
  - exact VF.
  - intros r f Ir If. unfold removals_follow_fixes in W.
    rewrite forallb_forall in W. specialize (W r Ir).
    rewrite forallb_forall in W. specialize (W f If).
    apply Nat.ltb_lt in W. exact W.
Qed.

End Repair.

(** *** The repaired transcript satisfies the pairing invariant *)

Section RepairPaired.

Import ConversationManager.

Fixpoint distinct (l : list string) : bool :=
  match l with
  | [] => true
  | x :: l' => negb (existsb (String.eqb x) l') && distinct l'
  end.

(** Every tool message carries a non-empty [tool_call_id]. *)
Definition tool_ids_present (h : History) : bool :=
  forallb (fun m => negb (is_tool m) || Js.truthy_opt (tool_call_id m)) h.

(** No two assistant tool calls of the transcript share an id. *)
Definition call_ids_distinct (h : History) : bool :=
  distinct (map tc_id (flat_map calls_of h)).

Definition response_ids (run : History) : list string :=
  flat_map (fun m => match tool_call_id m with Some c => [c] | None => [] end) run.

(** No run of consecutive tool messages answers the same id twice. *)
Fixpoint runs_answer_once (h : History) : bool :=
  match h with
  | [] => true
  | m :: post => distinct (response_ids (tool_run (m :: post))) && runs_answer_once post
  end.

Lemma distinct_NoDup (l : list string) : distinct l = true -> NoDup l.
Proof.
  induction l as [|x l IH]; simpl; intros H; [constructor|].
  apply andb_true_iff in H. destruct H as [H1 H2]. constructor; [|auto].
  intros I. apply negb_true_iff in H1.
  assert (X : existsb (String.eqb x) l = true).
  { apply existsb_exists. exists x. split; [exact I | apply String.eqb_refl]. }
  congruence.
Qed.

Lemma NoDup_count (A : Type) (f : A -> string) (c : string) (l : list A) :
  NoDup (map f l) -> List.length (filter (fun x => String.eqb (f x) c) l) <= 1.
Proof.
  induction l as [|x l IH]; simpl; intros N; [lia|].
  inversion N as [|? ? Nx Nl]; subst. specialize (IH Nl).
  destruct (String.eqb (f x) c) eqn:E; [|exact IH].
  apply String.eqb_eq in E. simpl.
  destruct (filter (fun x0 => String.eqb (f x0) c) l) as [|y l'] eqn:F; [simpl; lia|].
  exfalso. apply Nx.
  assert (I : In y (filter (fun x0 => String.eqb (f x0) c) l))
    by (rewrite F; left; reflexivity).
  apply filter_In in I. destruct I as [I Ey]. apply String.eqb_eq in Ey.
  rewrite E, <- Ey. apply in_map. exact I.
Qed.

Lemma calls_of_tool (m : ConversationMessage) : is_tool m = true -> calls_of m = [].
Proof. unfold is_tool, calls_of. destruct (role m); simpl; congruence. Qed.

Lemma earlier_calls_bound (acc rest : History) (c : string) :
  NoDup (map tc_id (flat_map calls_of (acc ++ rest))) -> earlier_calls acc c <= 1.
Proof.
  intros N. unfold earlier_calls. apply NoDup_count.
  rewrite flat_map_app, map_app in N. apply NoDup_app_remove_r in N. exact N.
Qed.

Lemma earlier_calls_In (acc : History) (o : ConversationMessage) (tc : ToolCall) :
  In o acc -> In tc (calls_of o) -> 1 <= earlier_calls acc (tc_id tc).
Proof.
  intros Io Itc. apply in_split in Io. destruct Io as (a & b & ->).
  rewrite earlier_calls_app, earlier_calls_cons.
  pose proof (earlier_calls_own o tc Itc). lia.
Qed.

Lemma earlier_calls_tools (acc S : History) (c : string) :
  (forall s, In s S -> is_tool s = true) ->
  earlier_calls (acc ++ S) c = earlier_calls acc c.
Proof.
  intros H. rewrite earlier_calls_app.
  assert (Z : earlier_calls S c = 0).
  { unfold earlier_calls. induction S as [|s S IH]; [reflexivity|].
    simpl. rewrite (calls_of_tool s) by (apply H; left; reflexivity).
    apply IH. intros s' I. apply H. right. exact I. }
  lia.
Qed.

Lemma calls_of_tools (S : History) :
  (forall s, In s S -> is_tool s = true) -> flat_map calls_of S = [].
Proof.
  induction S as [|s S IH]; intros H; [reflexivity|].
  simpl. rewrite (calls_of_tool s) by (apply H; left; reflexivity).
  apply IH. intros s' I. apply H. right. exact I.
Qed.

(** Tool messages whose call is owned exactly once before them pass the check
    one after the other. *)
Lemma pairing_from_tools (S : History) :
  forall acc X,
    (forall s, In s S ->
               is_tool s = true /\
               exists c, tool_call_id s = Some c /\ earlier_calls acc c = 1) ->
    pairing_from acc (S ++ X) = pairing_from (acc ++ S) X.
Proof.
  induction S as [|s S IH]; intros acc X H.
  - rewrite app_nil_r. reflexivity.
  - simpl. destruct (H s (or_introl eq_refl)) as (Ts & c & Ic & Ec).
    unfold paired_at. rewrite Ts, Ic, Ec, (calls_of_tool s Ts). simpl.
    rewrite IH.
    + rewrite <- app_assoc. reflexivity.
    + intros s' I. destruct (H s' (or_intror I)) as (T' & c' & I' & E').
      split; [exact T'|]. exists c'. split; [exact I'|].
      rewrite earlier_calls_tools; [exact E'|].
      intros x [<-|[]]. exact Ts.
Qed.

(** How many messages of a list answer [c]. *)
Definition answers_count (c : string) (l : History) : nat :=
  List.length (filter (fun m => answers m c) l).

Lemma answers_count_app (c : string) (a b : History) :
  answers_count c (a ++ b) = answers_count c a + answers_count c b.
Proof. unfold answers_count. rewrite filter_app, length_app. reflexivity. Qed.

Lemma foundToolResponse_run (rest : History) (c : string) :
  foundToolResponse rest c = existsb (fun m => answers m c) (tool_run rest).
Proof.
  induction rest as [|m rest IH]; [reflexivity|].
  simpl. destruct (is_tool m); simpl; [|reflexivity].
  destruct (answers m c); simpl; [reflexivity | exact IH].
Qed.

Lemma answers_count_found (c : string) (run : History) :
  existsb (fun m => answers m c) run = true -> 1 <= answers_count c run.
Proof.
  unfold answers_count. induction run as [|m run IH]; simpl; [discriminate|].
  destruct (answers m c); simpl; [lia | exact IH].
Qed.

Lemma answers_count_not_found (c : string) (run : History) :
  existsb (fun m => answers m c) run = false -> answers_count c run = 0.
Proof.
  unfold answers_count. induction run as [|m run IH]; simpl; [reflexivity|].
  destruct (answers m c); simpl; [discriminate | exact IH].
Qed.

Lemma answers_count_distinct (c : string) (run : History) :
  distinct (response_ids run) = true -> answers_count c run <= 1.
Proof.
  intros D. apply distinct_NoDup in D.
  unfold answers_count. induction run as [|m run IH]; simpl; [lia|].
  unfold response_ids in D. simpl in D. fold (response_ids run) in D.
  unfold answers at 1.
  destruct (tool_call_id m) as [c'|] eqn:E; simpl in D.
  - inversion D as [|? ? Nx Nl]; subst. specialize (IH Nl).
    destruct (String.eqb c' c) eqn:Ec; [|exact IH].
    apply String.eqb_eq in Ec. subst c'. simpl.
    destruct (filter (fun m0 => answers m0 c) run) as [|r l] eqn:F; [simpl; lia|].
    exfalso. apply Nx.
    assert (I : In r (filter (fun m0 => answers m0 c) run))
      by (rewrite F; left; reflexivity).
    apply filter_In in I. destruct I as [I A]. apply answers_id in A.
    unfold response_ids. apply in_flat_map. exists r. split; [exact I|].
    rewrite A. left. reflexivity.
  - apply IH. exact D.
Qed.

Lemma answers_count_filter (c : string) (keep : ConversationMessage -> bool) (run : History) :
  (forall r, In r run -> answers r c = true -> keep r = true) ->
  answers_count c (filter keep run) = answers_count c run.
Proof.
  unfold answers_count. induction run as [|m run IH]; intros H; [reflexivity|].
  simpl. assert (H' : forall r, In r run -> answers r c = true -> keep r = true)
    by (intros r I; apply H; right; exact I).
  destruct (answers m c) eqn:A.
  - rewrite (H m (or_introl eq_refl) A). simpl. rewrite A. simpl. rewrite IH; auto.
  - destruct (keep m); simpl; rewrite ?A; apply IH; auto.
Qed.

Lemma answers_count_synthesized (c : string) (ids : list string) :
  answers_count c (synthesized ids) = List.length (filter (fun x => String.eqb x c) ids).
Proof.
  unfold synthesized, answers_count.
  induction ids as [|x ids IH]; [reflexivity|].
  simpl. rewrite filter_app, length_app, IH.
  cbn [filter]. unfold answers, tool_msg. cbn [tool_call_id].
  destruct (String.eqb x c); simpl; lia.
Qed.

Lemma synthesized_In (ids : list string) (s : ConversationMessage) :
  In s (synthesized ids) ->
  is_tool s = true /\ exists c, In c ids /\ tool_call_id s = Some c.
Proof.
  unfold synthesized. rewrite <- in_rev, in_map_iff.
  intros (c & <- & I). split; [reflexivity|]. exists c. split; [exact I | reflexivity].
Qed.

Lemma tool_run_app_tools (S X : History) :
  (forall s, In s S -> is_tool s = true) -> tool_run (S ++ X) = S ++ tool_run X.
Proof.
  induction S as [|s S IH]; intros H; [reflexivity|].
  simpl. rewrite (H s (or_introl eq_refl)). rewrite IH; [reflexivity|].
  intros s' I. apply H. right. exact I.
Qed.

(** After a dropped message nothing of its run stays. *)
Lemma tool_run_repair_none (rest : History) :
  tool_ids_present rest = true -> tool_run (repair None rest) = [].
Proof.
  induction rest as [|r rest IH]; intros W1; [reflexivity|].
  simpl in W1. apply andb_true_iff in W1. destruct W1 as [W1r W1].
  simpl. destruct (is_tool r) eqn:Tr.
  - simpl in W1r. rewrite W1r. simpl. apply IH. exact W1.
  - destruct (incomplete_message r); [apply IH; exact W1|].
    simpl. rewrite Tr. reflexivity.
Qed.

Lemma tool_run_repair (owner : option ConversationMessage) (rest : History) :
  tool_ids_present rest = true ->
  tool_run (repair owner rest) =
  filter (fun r => negb (Js.truthy_opt (tool_call_id r) && negb (keeps owner r)))
         (tool_run rest).
Proof.
  induction rest as [|r rest IH]; intros W1; [reflexivity|].
  simpl in W1. apply andb_true_iff in W1. destruct W1 as [_ W1].
  simpl. destruct (is_tool r) eqn:Tr.
  - simpl. destruct (Js.truthy_opt (tool_call_id r) && negb (keeps owner r)); simpl.
    + apply IH. exact W1.
    + rewrite Tr, IH by exact W1. reflexivity.
  - destruct (incomplete_message r).
    + apply tool_run_repair_none. exact W1.
    + simpl. rewrite Tr. reflexivity.
Qed.

Lemma NoDup_app_drop_middle (A : Type) (a b c : list A) :
  NoDup (a ++ b ++ c) -> NoDup (a ++ c).
Proof.
  induction b as [|x b IH]; simpl; intros N; [exact N|].
  apply IH. apply NoDup_remove_1 in N. exact N.
Qed.

Lemma runs_answer_once_head (h : History) :
  runs_answer_once h = true -> distinct (response_ids (tool_run h)) = true.
Proof.
  destruct h as [|m h]; [reflexivity|]. simpl runs_answer_once.
  intros H. apply andb_true_iff in H. tauto.
Qed.

Lemma NoDup_map_filter (A : Type) (f : A -> string) (keep : A -> bool) (l : list A) :
  NoDup (map f l) -> NoDup (map f (filter keep l)).
Proof.
  induction l as [|x l IH]; simpl; intros N; [constructor|].
  inversion N as [|? ? Nx Nl]; subst.
  destruct (keep x); simpl; [|auto].
  constructor; [|auto]. intros I. apply Nx.
  apply in_map_iff in I. destruct I as (y & E & I).
  apply filter_In in I. rewrite <- E. apply in_map. tauto.
Qed.

Lemma calls_of_has_tool_calls (m : ConversationMessage) (tc : ToolCall) :
  In tc (calls_of m) -> has_tool_calls m = true /\ calls_of m = calls_list m.
Proof.
  unfold calls_of, has_tool_calls, calls_list.
  destruct (Role_eqb (role m) assistant); [|intros []].
  destruct (tool_calls m) as [[|c l]|]; simpl; intros I; try destruct I; auto.
Qed.

Lemma own_call (m : ConversationMessage) (tc : ToolCall) :
  In tc (calls_of m) -> owns_call m (tc_id tc) = true.
Proof.
  intros I. unfold owns_call.
  rewrite (calls_of_assistant m tc I). simpl.
  unfold calls_of, calls_list in I. rewrite (calls_of_assistant m tc I) in I. simpl in I.
  destruct (tool_calls m) as [calls|]; [|destruct I].
  apply existsb_exists. exists tc. split; [exact I | apply String.eqb_refl].
Qed.

(** In the repaired transcript every call of [m] is answered once in the run
    that follows: by the message that was there, or by its placeholder. *)
Lemma repaired_run_answers (m : ConversationMessage) (rest : History) (tc : ToolCall) :
  In tc (calls_of m) ->
  NoDup (map tc_id (calls_of m)) ->
  distinct (response_ids (tool_run rest)) = true ->
  tool_ids_present rest = true ->
  responses_in_run (synthesized (missing_in m rest) ++ repair (Some m) rest) (tc_id tc) = 1.
Proof.
  intros I N D W1. unfold responses_in_run.
  rewrite tool_run_app_tools by (intros s Is; apply synthesized_In in Is; tauto).
  fold (answers_count (tc_id tc) (synthesized (missing_in m rest) ++
                                   tool_run (repair (Some m) rest))).
  rewrite answers_count_app, tool_run_repair, answers_count_synthesized by exact W1.
  rewrite answers_count_filter.
  2:{ intros r _ A. apply answers_id in A. unfold keeps. rewrite A.
      rewrite (own_call m tc I). simpl. rewrite andb_false_r. reflexivity. }
  destruct (calls_of_has_tool_calls m tc I) as [_ E].
  unfold missing_in. rewrite <- E.
  pose proof (NoDup_count _ (fun x : string => x) (tc_id tc)
                (map tc_id (filter (fun tc0 => negb (foundToolResponse rest (tc_id tc0)))
                                   (calls_of m)))) as Cnt.
  rewrite map_id in Cnt. specialize (Cnt (NoDup_map_filter _ _ _ _ N)).
  destruct (foundToolResponse rest (tc_id tc)) eqn:Fd.
  - (* answered in the run: no placeholder *)
    rewrite foundToolResponse_run in Fd.
    pose proof (answers_count_found _ _ Fd).
    pose proof (answers_count_distinct (tc_id tc) _ D).
    assert (Z : List.length
                  (filter (fun x => String.eqb x (tc_id tc))
                     (map tc_id (filter (fun tc0 => negb (foundToolResponse rest (tc_id tc0)))
                                        (calls_of m)))) = 0).
    { destruct (filter (fun x => String.eqb x (tc_id tc)) _) as [|y l] eqn:F; [reflexivity|].
      exfalso.
      assert (Iy : In y (filter (fun x => String.eqb x (tc_id tc))
                           (map tc_id (filter (fun tc0 => negb (foundToolResponse rest (tc_id tc0)))
                                              (calls_of m)))))
        by (rewrite F; left; reflexivity).
      apply filter_In in Iy. destruct Iy as [Iy Ey]. apply String.eqb_eq in Ey. subst y.
      apply in_map_iff in Iy. destruct Iy as (tc' & E' & I').
      apply filter_In in I'. destruct I' as [_ Nf]. rewrite E' in Nf.
      rewrite foundToolResponse_run, Fd in Nf. discriminate. }
    lia.
  - (* not answered: exactly one placeholder *)
    rewrite foundToolResponse_run in Fd.
    rewrite (answers_count_not_found _ _ Fd).
    assert (P : 1 <= List.length
                  (filter (fun x => String.eqb x (tc_id tc))
                     (map tc_id (filter (fun tc0 => negb (foundToolResponse rest (tc_id tc0)))
                                        (calls_of m))))).
    { assert (Iy : In (tc_id tc)
                      (filter (fun x => String.eqb x (tc_id tc))
                         (map tc_id (filter (fun tc0 => negb (foundToolResponse rest (tc_id tc0)))
                                            (calls_of m))))).
      { apply filter_In. split; [|apply String.eqb_refl].
        apply in_map. apply filter_In. split; [exact I|].
        rewrite foundToolResponse_run, Fd. reflexivity. }
      destruct (filter (fun x => String.eqb x (tc_id tc)) _); [destruct Iy | simpl; lia]. }
    lia.
Qed.

(** The repair of [h], continued after the output [acc], passes the pairing
    check. *)
Lemma repair_paired (h : History) :
  forall acc owner,
    NoDup (map tc_id (flat_map calls_of (acc ++ h))) ->
    (forall o, owner = Some o -> In o acc) ->
    tool_ids_present h = true ->
    runs_answer_once h = true ->
    pairing_from acc (repair owner h) = true.
Proof.
  induction h as [|m rest IH]; intros acc owner N O W1 W3; [reflexivity|].
  simpl in W1. apply andb_true_iff in W1. destruct W1 as [W1m W1].
  simpl runs_answer_once in W3. apply andb_true_iff in W3. destruct W3 as [_ W3].
  simpl repair. destruct (is_tool m) eqn:Tm.
  - simpl in W1m. rewrite W1m. simpl.
    assert (Nr : NoDup (map tc_id (flat_map calls_of (acc ++ rest)))).
    { rewrite flat_map_app in *. simpl in N. rewrite (calls_of_tool m Tm) in N. exact N. }
    destruct (keeps owner m) eqn:K; simpl.
    + unfold keeps in K.
      destruct owner as [o|]; [|discriminate].
      destruct (tool_call_id m) as [c|] eqn:Ic; [|discriminate].
      destruct (owns_call_In o c K) as (tc & Itc & <-).
      apply andb_true_iff. split.
      * unfold paired_at. rewrite Tm, Ic, (calls_of_tool m Tm). simpl.
        rewrite andb_true_r. apply Nat.eqb_eq.
        pose proof (earlier_calls_bound acc (m :: rest) (tc_id tc) N).
        pose proof (earlier_calls_In acc o tc (O o eq_refl) Itc). lia.
      * apply IH; auto.
        -- rewrite <- app_assoc. exact N.
        -- intros o' E. apply in_or_app. left. apply O. exact E.
    + apply IH; auto.
  - destruct (incomplete_message m) eqn:Im.
    { apply IH; auto.
      - rewrite flat_map_app, map_app in *. simpl in N. rewrite map_app in N.
        apply NoDup_app_drop_middle in N. exact N.
      - intros o E. discriminate. }
    assert (Nm : NoDup (map tc_id (calls_of m))).
    { rewrite flat_map_app, map_app in N. apply NoDup_app_remove_l in N.
      simpl in N. rewrite map_app in N. apply NoDup_app_remove_r in N. exact N. }
    set (S := synthesized (if has_tool_calls m then missing_in m rest else [])).
    assert (ST : forall s, In s S -> is_tool s = true)
      by (intros s Is; apply synthesized_In in Is; tauto).
    simpl. apply andb_true_iff. split.
    + unfold paired_at. rewrite Tm. simpl.
      apply forallb_forall. intros tc Itc. apply Nat.eqb_eq.
      destruct (calls_of_has_tool_calls m tc Itc) as [Hm _].
      unfold S. rewrite Hm.
      apply repaired_run_answers; auto.
      apply runs_answer_once_head. exact W3.
    + rewrite pairing_from_tools.
      * apply IH; auto.
        -- rewrite <- !app_assoc. rewrite !flat_map_app in *.
           rewrite (calls_of_tools S ST). simpl. simpl in N.
           rewrite ?app_nil_r. exact N.
        -- intros o E. inversion E; subst o.
           apply in_or_app. left. apply in_or_app. right. left. reflexivity.
      * intros s Is. split; [apply ST; exact Is|].
        unfold S in Is. apply synthesized_In in Is. destruct Is as (_ & c & Ic & Es).
        exists c. split; [exact Es|].
        destruct (has_tool_calls m) eqn:Hm; [|destruct Ic].
        unfold missing_in in Ic. apply in_map_iff in Ic. destruct Ic as (tc & <- & Itc).
        apply filter_In in Itc. destruct Itc as [Itc _].
        assert (Ic : In tc (calls_of m)).
        { unfold calls_of. unfold has_tool_calls in Hm.
          destruct (Role_eqb (role m) assistant); [exact Itc | discriminate]. }
        assert (B : earlier_calls (acc ++ [m]) (tc_id tc) <= 1).
        { apply (earlier_calls_bound (acc ++ [m]) rest).
          rewrite <- app_assoc. exact N. }
        assert (A : 1 <= earlier_calls (acc ++ [m]) (tc_id tc)).
        { apply (earlier_calls_In _ m tc); [|exact Ic].
          apply in_or_app. right. left. reflexivity. }
        lia.
Qed.

End RepairPaired.

(** *** What the two maintenance passes restore *)

Section Restoring.

Import ConversationManager.

(** The transcripts on which [validateAndSanitizeConversationHistory] is meant
    to work: ids are in place and unambiguous, and no removal precedes an
    insertion. *)
Definition repairable (h : History) : bool :=
  tool_ids_present h && call_ids_distinct h && runs_answer_once h &&
  removals_follow_fixes h.

Lemma validate_restores_pairing (h : History) :
  repairable h = true ->
  pairing_invariant (validateAndSanitizeConversationHistory h) = true.
Proof.
  unfold repairable. intros H.
  apply andb_true_iff in H. destruct H as [H W5].
  apply andb_true_iff in H. destruct H as [H W3].
  apply andb_true_iff in H. destruct H as [W1 W2].
  rewrite (validate_is_repair h (distinct_NoDup _ W2) W5).
  unfold pairing_invariant. apply repair_paired; auto.
  - simpl. apply distinct_NoDup. exact W2.
  - intros o E. discriminate.
Qed.

End Restoring.

(** *** The maps of [sanitizeToolMessages] *)

Section SanitizeMaps.

Import ConversationManager.

Lemma map_get_set (V : Type) (m : Js.Map string V) (k : string) (v : V) (k' : string) :
  Js.map_get String.eqb (Js.map_set String.eqb m k v) k' =
  if String.eqb k k' then Some v else Js.map_get String.eqb m k'.
Proof.
  induction m as [|[a b] m IH]; simpl.
  - destruct (String.eqb k k'); reflexivity.
  - destruct (String.eqb a k) eqn:E1; simpl.
    + apply String.eqb_eq in E1. subst a. destruct (String.eqb k k'); reflexivity.
    + destruct (String.eqb a k') eqn:E2; [|exact IH].
      apply String.eqb_eq in E2. subst a.
      rewrite String.eqb_sym, E1. reflexivity.
Qed.

Lemma map_has_set (V : Type) (m : Js.Map string V) (k : string) (v : V) (k' : string) :
  Js.map_has String.eqb (Js.map_set String.eqb m k v) k' =
  String.eqb k k' || Js.map_has String.eqb m k'.
Proof.
  unfold Js.map_has. rewrite map_get_set. destruct (String.eqb k k'); reflexivity.
Qed.

Lemma map_get_In (V : Type) (m : Js.Map string V) (k : string) (v : V) :
  Js.map_get String.eqb m k = Some v -> In (k, v) m.
Proof.
  induction m as [|[a b] m IH]; simpl; [discriminate|].
  destruct (String.eqb a k) eqn:E.
  - apply String.eqb_eq in E. subst a. intros H. inversion H. left. reflexivity.
  - intros H. right. apply IH. exact H.
Qed.

Lemma map_has_In (V : Type) (m : Js.Map string V) (k : string) :
  Js.map_has String.eqb m k = true <-> In k (map fst m).
Proof.
  unfold Js.map_has. induction m as [|[a b] m IH]; simpl.
  - split; [discriminate | tauto].
  - destruct (String.eqb a k) eqn:E.
    + apply String.eqb_eq in E. subst a. split; auto.
    + rewrite IH. apply String.eqb_neq in E. split; [auto|]. intros [X|X]; [contradiction|exact X].
Qed.

Lemma In_map_get (V : Type) (m : Js.Map string V) (k : string) (v : V) :
  NoDup (map fst m) -> In (k, v) m -> Js.map_get String.eqb m k = Some v.
Proof.
  induction m as [|[a b] m IH]; simpl; intros N I; [destruct I|].
  inversion N as [|? ? Na Nm]; subst.
  destruct I as [E|I].
  - inversion E; subst. rewrite String.eqb_refl. reflexivity.
  - destruct (String.eqb a k) eqn:E.
    + apply String.eqb_eq in E. subst a. exfalso. apply Na.
      apply (in_map fst) in I. exact I.
    + apply IH; assumption.
Qed.

Lemma map_set_keys (V : Type) (m : Js.Map string V) (k : string) (v : V) :
  map fst (Js.map_set String.eqb m k v) =
  map fst m ++ (if Js.map_has String.eqb m k then [] else [k]).
Proof.
  unfold Js.map_has. induction m as [|[a b] m IH]; simpl; [reflexivity|].
  destruct (String.eqb a k) eqn:E; simpl.
  - rewrite app_nil_r. reflexivity.
  - rewrite IH. reflexivity.
Qed.

Lemma map_set_NoDup (V : Type) (m : Js.Map string V) (k : string) (v : V) :
  NoDup (map fst m) -> NoDup (map fst (Js.map_set String.eqb m k v)).
Proof.
  intros N. rewrite map_set_keys.
  destruct (Js.map_has String.eqb m k) eqn:H; [rewrite app_nil_r; exact N|].
  apply NoDup_app; [exact N | constructor; [intros [] | constructor] |].
  intros a Ia [<-|[]]. apply map_has_In in Ia. congruence.
Qed.

Lemma map_set_In (V : Type) (m : Js.Map string V) (k : string) (v : V)
    (c : string) (x : V) :
  NoDup (map fst m) ->
  In (c, x) (Js.map_set String.eqb m k v) ->
  (c = k /\ x = v) \/ (c <> k /\ In (c, x) m).
Proof.
  induction m as [|[a b] m IH]; simpl; intros N.
  - intros [E|[]]. inversion E. auto.
  - inversion N as [|? ? Na Nm]; subst.
    destruct (String.eqb a k) eqn:E; simpl.
    + apply String.eqb_eq in E. subst a.
      intros [X|X]; [inversion X; auto|].
      right. split; [|right; exact X].
      intros ->. apply Na. apply (in_map fst) in X. exact X.
    + apply String.eqb_neq in E.
      intros [X|X]; [inversion X; subst; right; split; [exact E | left; reflexivity]|].
      destruct (IH Nm X) as [Y|[Y Z]]; [auto|]. right. split; [exact Y | right; exact Z].
Qed.

Lemma map_set_In_back (V : Type) (m : Js.Map string V) (k : string) (v : V)
    (c : string) (x : V) :
  c <> k -> In (c, x) m -> In (c, x) (Js.map_set String.eqb m k v).
Proof.
  intros D. induction m as [|[a b] m IH]; simpl; [tauto|].
  destruct (String.eqb a k) eqn:E; simpl.
  - apply String.eqb_eq in E. subst a.
    intros [X|X]; [inversion X; subst; contradiction | right; exact X].
  - intros [X|X]; [left; exact X | right; apply IH; exact X].
Qed.

Lemma map_set_In_new (V : Type) (m : Js.Map string V) (k : string) (v : V) :
  In (k, v) (Js.map_set String.eqb m k v).
Proof.
  induction m as [|[a b] m IH]; simpl; [left; reflexivity|].
  destruct (String.eqb a k) eqn:E; simpl.
  - apply String.eqb_eq in E. subst a. left. reflexivity.
  - right. exact IH.
Qed.

End SanitizeMaps.

Section SanitizeSpec.

Import ConversationManager.

Definition calls_step (atc : Js.Map string nat) (im : nat * ConversationMessage)
    : Js.Map string nat :=
  if has_tool_calls (snd im) then
    fold_left (fun t c => Js.map_set String.eqb t (tc_id c) (fst im))
              (calls_list (snd im)) atc
  else atc.

Definition responses_step (tr : Js.Map string (list nat)) (im : nat * ConversationMessage)
    : Js.Map string (list nat) :=
  if is_tool (snd im) && Js.truthy_opt (tool_call_id (snd im)) then
    match tool_call_id (snd im) with
    | Some c => Js.map_set String.eqb tr c (get_or_nil String.eqb tr c ++ [fst im])
    | None => tr
    end
  else tr.

Lemma sanitize_maps_split (l : list (nat * ConversationMessage)) :
  forall st,
    fold_left sanitize_maps_step l st =
    (fold_left calls_step l (fst st), fold_left responses_step l (snd st)).
Proof.
  induction l as [|[i m] l IH]; intros [atc tr]; [reflexivity|].
  simpl fold_left. rewrite IH. f_equal.
  - f_equal. unfold sanitize_maps_step, calls_step. simpl.
    destruct (is_tool m && Js.truthy_opt (tool_call_id m));
      [destruct (tool_call_id m)|]; reflexivity.
  - f_equal. unfold sanitize_maps_step, responses_step. simpl.
    destruct (is_tool m && Js.truthy_opt (tool_call_id m));
      [destruct (tool_call_id m)|]; reflexivity.
Qed.

Lemma set_calls_has (i : nat) (calls : list ToolCall) (c : string) :
  forall t,
    Js.map_has String.eqb
      (fold_left (fun t tc => Js.map_set String.eqb t (tc_id tc) i) calls t) c =
    Js.map_has String.eqb t c || existsb (fun tc => String.eqb (tc_id tc) c) calls.
Proof.
  induction calls as [|tc calls IH]; intros t; simpl.
  - rewrite orb_false_r. reflexivity.
  - rewrite IH, map_has_set.
    destruct (String.eqb (tc_id tc) c), (Js.map_has String.eqb t c); reflexivity.
Qed.

Lemma has_tool_calls_calls_of (m : ConversationMessage) :
  (if has_tool_calls m then calls_list m else []) = calls_of m.
Proof.
  unfold has_tool_calls, calls_of, calls_list.
  destruct (Role_eqb (role m) assistant); simpl; [|reflexivity].
  destruct (tool_calls m) as [[|c l]|]; reflexivity.
Qed.

Lemma calls_has (c : string) (l : list (nat * ConversationMessage)) :
  forall atc,
    Js.map_has String.eqb (fold_left calls_step l atc) c =
    Js.map_has String.eqb atc c ||
    existsb (fun tc => String.eqb (tc_id tc) c) (flat_map calls_of (map snd l)).
Proof.
  induction l as [|[i m] l IH]; intros atc; simpl.
  - rewrite orb_false_r. reflexivity.
  - rewrite IH, existsb_app, <- has_tool_calls_calls_of.
    unfold calls_step. simpl.
    destruct (has_tool_calls m); simpl; [|reflexivity].
    rewrite set_calls_has, orb_assoc. reflexivity.
Qed.

Lemma map_snd_indexed_from (A : Type) (l : list A) :
  forall s, map snd (indexed_from A s l) = l.
Proof.
  induction l as [|x l IH]; intros s; [reflexivity|].
  rewrite indexed_from_cons. simpl. rewrite IH. reflexivity.
Qed.

(** [assistantToolCalls.has(c)]: some assistant tool call carries [c]. *)
Lemma assistantToolCalls_has (h : History) (c : string) :
  Js.map_has String.eqb (fst (sanitize_maps h)) c =
  existsb (fun tc => String.eqb (tc_id tc) c) (flat_map calls_of h).
Proof.
  unfold sanitize_maps. rewrite sanitize_maps_split. simpl fst.
  rewrite calls_has, indexed_is_from, map_snd_indexed_from. reflexivity.
Qed.

(** The tool message at index [i] answers [c] with a non-empty id. *)
Definition response_at (h : History) (i : nat) (c : string) : Prop :=
  exists m, nth_error h i = Some m /\ is_tool m = true /\
            Js.truthy_opt (tool_call_id m) = true /\ tool_call_id m = Some c.

Lemma response_at_bound (h : History) (i : nat) (c : string) :
  response_at h i c -> i < List.length h.
Proof. intros (m & N & _). apply nth_error_Some. congruence. Qed.

Lemma response_at_snoc (h : History) (x : ConversationMessage) (i : nat) (c : string) :
  response_at (h ++ [x]) i c <->
  response_at h i c \/
  (i = List.length h /\ is_tool x = true /\
   Js.truthy_opt (tool_call_id x) = true /\ tool_call_id x = Some c).
Proof.
  unfold response_at. split.
  - intros (m & N & P).
    destruct (Nat.lt_ge_cases i (List.length h)) as [L|G].
    + rewrite nth_error_app1 in N by exact L. left. eauto.
    + rewrite nth_error_app2 in N by exact G.
      destruct (i - List.length h) as [|k] eqn:E; simpl in N.
      * inversion N; subst m. right. split; [lia | exact P].
      * destruct k; discriminate.
  - intros [(m & N & P)|(E & P)].
    + exists m. split; [|exact P]. rewrite nth_error_app1; [exact N|].
      apply nth_error_Some. congruence.
    + exists x. split; [|exact P]. subst i.
      rewrite nth_error_app2 by lia. rewrite Nat.sub_diag. reflexivity.
Qed.

(** What [toolResponses] holds once [h] is scanned. *)
Definition responses_recorded (h : History) (tr : Js.Map string (list nat)) : Prop :=
  NoDup (map fst tr) /\
  (forall c idxs, In (c, idxs) tr ->
                  NoDup idxs /\ forall i, In i idxs <-> response_at h i c) /\
  (forall i c, response_at h i c -> exists idxs, In (c, idxs) tr).

Lemma toolResponses_snoc (h : History) (x : ConversationMessage) :
  snd (sanitize_maps (h ++ [x])) =
  responses_step (snd (sanitize_maps h)) (List.length h, x).
Proof.
  unfold sanitize_maps. rewrite !sanitize_maps_split. simpl snd.
  rewrite indexed_is_from, indexed_from_app, fold_left_app. reflexivity.
Qed.

Lemma toolResponses_recorded (h : History) :
  responses_recorded h (snd (sanitize_maps h)).
Proof.
  induction h as [|x h IH] using rev_ind.
  - unfold responses_recorded. simpl. split; [constructor|]. split.
    + intros c idxs [].
    + intros i c (m & N & _). destruct i; discriminate.
  - rewrite toolResponses_snoc.
    set (tr := snd (sanitize_maps h)) in *.
    destruct IH as (Nk & Ent & Ex).
    unfold responses_step. cbn [fst snd].
    destruct (is_tool x && Js.truthy_opt (tool_call_id x)) eqn:E.
    + apply andb_true_iff in E. destruct E as [Tx Ix].
      destruct (tool_call_id x) as [c0|] eqn:Ic; [|discriminate].
      set (old := get_or_nil String.eqb tr c0).
      assert (Old : NoDup old /\ forall i, In i old <-> response_at h i c0).
      { unfold old, get_or_nil.
        destruct (Js.map_get String.eqb tr c0) as [idxs|] eqn:G.
        - apply map_get_In in G. apply (Ent c0 idxs G).
        - split; [constructor|]. intros i. split; [intros []|].
          intros R. destruct (Ex i c0 R) as (idxs & I).
          apply (In_map_get _ tr c0 idxs Nk) in I. congruence. }
      destruct Old as [Nold Mold].
      split; [apply map_set_NoDup; exact Nk|]. split.
      * intros c idxs I. apply map_set_In in I; [|exact Nk].
        destruct I as [[-> ->]|[D I]].
        -- split.
           ++ apply NoDup_app; [exact Nold | constructor; [intros []|constructor] |].
              intros a Ia [<-|[]]. apply Mold in Ia.
              apply response_at_bound in Ia. lia.
           ++ intros i. rewrite in_app_iff, response_at_snoc, Mold. simpl.
              split.
              ** intros [A|[E|[]]]; [left; exact A|].
                 right. subst i. repeat split; auto. rewrite Ic. exact Ix.
              ** intros [A|(E & _)]; [left; exact A | right; left; symmetry; exact E].
        -- destruct (Ent c idxs I) as [N M]. split; [exact N|].
           intros i. rewrite response_at_snoc, M.
           split; [auto|]. intros [A|(_ & _ & _ & A)]; [exact A|].
           exfalso. apply D. congruence.
      * intros i c R. apply response_at_snoc in R.
        destruct (string_dec c c0) as [->|D].
        -- eexists. apply map_set_In_new.
        -- destruct R as [R|(_ & _ & _ & A)]; [|exfalso; apply D; congruence].
           destruct (Ex i c R) as (idxs & I). exists idxs.
           apply map_set_In_back; assumption.
    + assert (Same : forall i c, response_at (h ++ [x]) i c <-> response_at h i c).
      { intros i c. rewrite response_at_snoc. split; [|auto].
        intros [A|(_ & T & I & _)]; [exact A|]. rewrite T, I in E. discriminate. }
      split; [exact Nk|]. split.
      * intros c idxs I. destruct (Ent c idxs I) as [N M]. split; [exact N|].
        intros i. rewrite Same. apply M.
      * intros i c R. apply Same in R. apply (Ex i c R).
Qed.

End SanitizeSpec.

(** *** [sanitizeToolMessages] on orphaned responses *)

Section SanitizeOrphans.

Import ConversationManager.

(** A tool message whose non-empty id no assistant tool call of [h] carries. *)
Definition orphan_response (h : History) (m : ConversationMessage) : bool :=
  is_tool m && Js.truthy_opt (tool_call_id m) &&
  negb (existsb (fun tc => answers m (tc_id tc)) (flat_map calls_of h)).

Lemma sanitize_unfold (h : History) :
  sanitizeToolMessages h =
  (fold_left (@Js.splice1 _)
             (Js.sort_desc (orphanedToolResponses h ++ orphanedToolCalls h)) h,
   List.length (Js.sort_desc (orphanedToolResponses h ++ orphanedToolCalls h))).
Proof.
  unfold sanitizeToolMessages. destruct h as [|m h]; [reflexivity|].
  destruct (orphanedToolResponses (m :: h)) as [|r rs];
    destruct (orphanedToolCalls (m :: h)) as [|c cs]; reflexivity.
Qed.

Lemma answers_owned (m : ConversationMessage) (c : string) (calls : list ToolCall) :
  tool_call_id m = Some c ->
  existsb (fun tc => answers m (tc_id tc)) calls =
  existsb (fun tc => String.eqb (tc_id tc) c) calls.
Proof.
  intros Ic. induction calls as [|tc calls IH]; [reflexivity|].
  simpl. rewrite IH. unfold answers. rewrite Ic.
  rewrite (String.eqb_sym c (tc_id tc)). reflexivity.
Qed.

Lemma orphan_response_at (h : History) (i : nat) (m : ConversationMessage) :
  nth_error h i = Some m ->
  (orphan_response h m = true <->
   exists c, response_at h i c /\
             Js.map_has String.eqb (fst (sanitize_maps h)) c = false).
Proof.
  intros N. unfold orphan_response. split.
  - intros H. apply andb_true_iff in H. destruct H as [H O].
    apply andb_true_iff in H. destruct H as [T I].
    destruct (tool_call_id m) as [c|] eqn:Ic; [|discriminate].
    exists c. split.
    + exists m. rewrite Ic. auto.
    + rewrite assistantToolCalls_has, <- (answers_owned m c _ Ic).
      apply negb_true_iff. exact O.
  - intros (c & (m' & N' & T & I & Ic) & O).
    assert (m' = m) by congruence. subst m'.
    rewrite T, I. simpl. apply negb_true_iff.
    rewrite (answers_owned m c _ Ic), <- assistantToolCalls_has. exact O.
Qed.

Lemma orphanedToolResponses_is (h : History) :
  orphanedToolResponses h =
  flat_map (fun e : string * list nat =>
              if Js.map_has String.eqb (fst (sanitize_maps h)) (fst e) then []
              else snd e)
           (snd (sanitize_maps h)).
Proof.
  unfold orphanedToolResponses. destruct (sanitize_maps h) as [atc tr]. simpl.
  induction tr as [|[c idxs] tr IH]; [reflexivity|]. simpl. rewrite IH. reflexivity.
Qed.

Lemma response_at_id (h : History) (i : nat) (c c' : string) :
  response_at h i c -> response_at h i c' -> c = c'.
Proof. intros (m & N & _ & _ & I) (m' & N' & _ & _ & I'). congruence. Qed.

Lemma orphanedToolResponses_spec (h : History) :
  NoDup (orphanedToolResponses h) /\
  forall i, In i (orphanedToolResponses h) <->
            exists m, nth_error h i = Some m /\ orphan_response h m = true.
Proof.
  rewrite orphanedToolResponses_is.
  destruct (toolResponses_recorded h) as (Nk & Ent & Ex).
  set (atc := fst (sanitize_maps h)) in *.
  set (tr := snd (sanitize_maps h)) in *.
  split.
  - clear Ex. induction tr as [|[c idxs] tr IH]; [constructor|].
    simpl. inversion Nk as [|? ? Nc Nt]; subst.
    assert (Ent' : forall c0 idxs0, In (c0, idxs0) tr ->
                   NoDup idxs0 /\ forall i, In i idxs0 <-> response_at h i c0)
      by (intros c0 idxs0 I; apply Ent; right; exact I).
    specialize (IH Nt Ent').
    destruct (Ent c idxs (or_introl eq_refl)) as [Ni Mi].
    apply NoDup_app; [destruct (Js.map_has String.eqb atc c); [constructor | exact Ni] | exact IH |].
    intros a Ia Ib.
    assert (Ra : response_at h a c).
    { destruct (Js.map_has String.eqb atc c); [destruct Ia | apply Mi; exact Ia]. }
    apply in_flat_map in Ib. destruct Ib as ([c' idxs'] & Ie & Ib). simpl in Ib.
    assert (Rb : response_at h a c').
    { destruct (Ent' c' idxs' Ie) as [_ M'].
      destruct (Js.map_has String.eqb atc c'); [destruct Ib | apply M'; exact Ib]. }
    pose proof (response_at_id h a c c' Ra Rb). subst c'.
    apply Nc. apply (in_map fst) in Ie. exact Ie.
  - intros i. rewrite in_flat_map. split.
    + intros ([c idxs] & Ie & Ii). simpl in Ii.
      destruct (Js.map_has String.eqb atc c) eqn:O; [destruct Ii|].
      destruct (Ent c idxs Ie) as [_ M]. apply M in Ii.
      destruct Ii as (m & N & P). exists m. split; [exact N|].
      apply (orphan_response_at h i m N). exists c. split; [exists m; auto | exact O].
    + intros (m & N & O). apply (orphan_response_at h i m N) in O.
      destruct O as (c & R & O). destruct (Ex i c R) as (idxs & Ie).
      exists (c, idxs). split; [exact Ie|]. simpl. fold atc in O. rewrite O.
      apply (Ent c idxs Ie). exact R.
Qed.

Lemma flat_map_nil (A B : Type) (g : A -> list B) (l : list A) :
  (forall x, In x l -> g x = []) -> flat_map g l = [].
Proof.
  induction l as [|x l IH]; intros H; [reflexivity|].
  simpl. rewrite (H x (or_introl eq_refl)). apply IH.
  intros y I. apply H. right. exact I.
Qed.

(** When every call id is answered somewhere, no assistant message is an
    orphan. *)
Lemma orphanedToolCalls_nil (h : History) :
  (forall tc, In tc (flat_map calls_of h) -> exists i, response_at h i (tc_id tc)) ->
  orphanedToolCalls h = [].
Proof.
  intros H. unfold orphanedToolCalls.
  pose proof (assistantToolCalls_has h) as A.
  destruct (toolResponses_recorded h) as (Nk & _ & Ex).
  destruct (sanitize_maps h) as [atc tr]. simpl in *.
  rewrite flat_map_nil; [reflexivity|].
  intros [c index] I.
  assert (O : Js.map_has String.eqb atc c = true)
    by (apply map_has_In; apply (in_map fst) in I; exact I).
  rewrite A in O. apply existsb_exists in O. destruct O as (tc & Itc & E).
  apply String.eqb_eq in E. subst c.
  destruct (H tc Itc) as (i & R). destruct (Ex i _ R) as (idxs & Ie).
  assert (X : Js.map_has String.eqb tr (tc_id tc) = true)
    by (apply map_has_In; apply (in_map fst) in Ie; exact Ie).
  rewrite X. reflexivity.
Qed.

Lemma splice_length (R : list nat) :
  forall (l : History),
    descending R -> (forall r, In r R -> r < List.length l) ->
    List.length (fold_left (@Js.splice1 _) R l) + List.length R = List.length l.
Proof.
  induction R as [|r R IH]; intros l D V; [simpl; lia|].
  destruct D as [D1 D2]. simpl.
  assert (L : List.length (Js.splice1 l r) + 1 = List.length l).
  { unfold Js.splice1. rewrite length_app, length_firstn, length_skipn.
    specialize (V r (or_introl eq_refl)). lia. }
  rewrite <- L, <- (IH (Js.splice1 l r) D2); [lia|].
  intros r' I. specialize (D1 r' I). specialize (V r (or_introl eq_refl)). lia.
Qed.

Lemma edited_filter (R : list nat) (p : ConversationMessage -> bool) (l : History) :
  forall s,
    (forall i m, In (i, m) (indexed_from _ s l) -> existsb (Nat.eqb i) R = p m) ->
    edited R [] s l = filter (fun m => negb (p m)) l.
Proof.
  induction l as [|x l IH]; intros s H; [reflexivity|].
  unfold edited. rewrite indexed_from_cons. simpl.
  fold (edited R [] (S s) l).
  rewrite (IH (S s)) by (intros i m I; apply H; rewrite indexed_from_cons; right; exact I).
  unfold edit. simpl.
  rewrite (H s x) by (rewrite indexed_from_cons; left; reflexivity).
  destruct (p x); reflexivity.
Qed.

Lemma answered_calls (h : History) :
  tool_ids_present h = true ->
  pairing_invariant (filter (fun m => negb (orphan_response h m)) h) = true ->
  forall tc, In tc (flat_map calls_of h) -> exists i, response_at h i (tc_id tc).
Proof.
  intros W P tc I.
  apply in_flat_map in I. destruct I as (m & Im & Itc).
  assert (Km : In m (filter (fun m => negb (orphan_response h m)) h)).
  { apply filter_In. split; [exact Im|].
    unfold orphan_response, is_tool. rewrite (calls_of_assistant m tc Itc). reflexivity. }
  apply in_split in Km. destruct Km as (pre & post & E).
  rewrite E in P. pose proof (pairing_invariant_at pre post m P) as Pm.
  unfold paired_at in Pm. apply andb_true_iff in Pm. destruct Pm as [_ Pm].
  rewrite forallb_forall in Pm. specialize (Pm tc Itc). apply Nat.eqb_eq in Pm.
  destruct (response_in_run_split post (tc_id tc) Pm) as (a & r & b & Ep & Tr & Ar).
  assert (Ir : In r h).
  { assert (X : In r (filter (fun m => negb (orphan_response h m)) h)).
    { rewrite E, Ep. apply in_or_app. right. right. apply in_or_app. right. left. reflexivity. }
    apply filter_In in X. tauto. }
  apply In_nth_error in Ir. destruct Ir as (i & N).
  exists i, r. repeat split; auto; [|apply answers_id; exact Ar].
  unfold tool_ids_present in W. rewrite forallb_forall in W.
  specialize (W r (nth_error_In _ _ N)). rewrite Tr in W. exact W.
Qed.

(** When the transcript without its orphaned responses satisfies the pairing
    invariant, [sanitizeToolMessages] leaves exactly that transcript and returns
    the number of messages it dropped. *)
Lemma sanitize_removes_orphaned_responses (h : History) :
  tool_ids_present h = true ->
  pairing_invariant (filter (fun m => negb (orphan_response h m)) h) = true ->
  sanitizeToolMessages h =
  (filter (fun m => negb (orphan_response h m)) h,
   List.length h - List.length (filter (fun m => negb (orphan_response h m)) h)).
Proof.
  intros W P. rewrite sanitize_unfold.
  rewrite (orphanedToolCalls_nil h (answered_calls h W P)), app_nil_r.
  destruct (orphanedToolResponses_spec h) as [N M].
  set (R := Js.sort_desc (orphanedToolResponses h)).
  assert (D : descending R) by (apply sort_desc_descending; exact N).
  assert (V : forall r, In r R -> r < List.length h).
  { intros r I. apply sort_desc_In, M in I. destruct I as (m & Nm & _).
    apply nth_error_Some. congruence. }
  assert (F : fold_left (@Js.splice1 _) R h =
              filter (fun m => negb (orphan_response h m)) h).
  { pose proof (edits_correct h [] R [] D I V) as Ed.
    rewrite !app_nil_r in Ed. simpl in Ed. rewrite Ed.
    - apply edited_filter. intros i m Iim. apply indexed_In in Iim.
      destruct (orphan_response h m) eqn:O.
      + apply existsb_eqb_In. apply sort_desc_In, M. eauto.
      + apply not_in_existsb. intros X. apply sort_desc_In, M in X.
        destruct X as (m' & Nm' & O'). congruence.
    - intros f [].
    - intros r f _ []. }
  pose proof (splice_length R h D V) as L. rewrite F in *. f_equal. lia.
Qed.

End SanitizeOrphans.

(** ** The pairing invariant after the maintenance passes *)

(** C3, where the maintenance passes leave the invariant broken.  The fourth
    pass of [validateAndSanitizeConversationHistory] looks for each assistant
    message at the index it had before the third pass removed messages: with
    the orphaned response at index 0 gone, index 1 of
    [Scenario.shifted_transcript] holds the user message, so the unanswered
    [call_a] gets no placeholder, and index 1 of
    [Scenario.misplaced_transcript] holds the next assistant message, so the
    placeholder for [call_a] is put after that one.  A call answered twice in
    its run keeps both responses.  [sanitizeToolMessages] removes the
    assistant message of [Scenario.half_answered_transcript] for its
    unanswered [call_b] and keeps the response to its [call_a].  None of the
    four results satisfies the pairing invariant. *)
Theorem C3_maintenance_breaks_pairing :
  (ConversationManager.messagesToRemove Scenario.shifted_transcript = [0] /\
   ConversationManager.messagesToFix Scenario.shifted_transcript = [(1, ["call_a"])] /\
   ConversationManager.validateAndSanitizeConversationHistory Scenario.shifted_transcript =
     [Scenario.requests [Scenario.call "call_a" "view_file" "{}"]; user_msg "q1"] /\
   pairing_invariant
     (ConversationManager.validateAndSanitizeConversationHistory
        Scenario.shifted_transcript) = false) /\
  (ConversationManager.messagesToRemove Scenario.misplaced_transcript = [0] /\
   ConversationManager.messagesToFix Scenario.misplaced_transcript = [(1, ["call_a"])] /\
   ConversationManager.validateAndSanitizeConversationHistory Scenario.misplaced_transcript =
     [Scenario.requests [Scenario.call "call_a" "view_file" "{}"];
      Scenario.requests [Scenario.call "call_b" "list_dir" "{}"];
      tool_msg "call_a" "Tool execution failed or timed out.";
      tool_msg "call_b" "listing"] /\
   pairing_invariant
     (ConversationManager.validateAndSanitizeConversationHistory
        Scenario.misplaced_transcript) = false) /\
  (ConversationManager.validateAndSanitizeConversationHistory Scenario.doubled_transcript =
     Scenario.doubled_transcript /\
   pairing_invariant
     (ConversationManager.validateAndSanitizeConversationHistory
        Scenario.doubled_transcript) = false) /\
  (ConversationManager.sanitizeToolMessages Scenario.half_answered_transcript =
     ([tool_msg "call_a" "contents"], 1) /\
   pairing_invariant
     (fst (ConversationManager.sanitizeToolMessages Scenario.half_answered_transcript)) =
     false).
Proof. repeat split; vm_compute; reflexivity. Qed.

(** X26: on a transcript whose tool messages all carry a non-empty id, whose
    tool-call ids are pairwise distinct, in which no run of tool messages
    answers an id twice, and in which no message marked for removal stands at
    or before an assistant message marked for placeholders,
    [validateAndSanitizeConversationHistory] returns the transcript rebuilt by
    [repair] (assistant messages with an incomplete call dropped together with
    the tool messages that follow them; tool messages not next to the owner of
    their call dropped; after each remaining assistant message a ["Tool
    execution failed or timed out."] message for every call its run does not
    answer) and that transcript satisfies the pairing invariant.
    [sanitizeToolMessages], on a transcript whose tool messages carry
    non-empty ids and which satisfies the invariant once the tool messages
    answering no call are left out, removes exactly these, returns their
    number, and leaves a transcript satisfying the invariant. *)
Theorem maintenance_restores_pairing :
  (forall h : ConversationManager.History,
      repairable h = true ->
      ConversationManager.validateAndSanitizeConversationHistory h = repair None h /\
      pairing_invariant (ConversationManager.validateAndSanitizeConversationHistory h) = true) /\
  (forall h : ConversationManager.History,
      tool_ids_present h = true ->
      pairing_invariant (filter (fun m => negb (orphan_response h m)) h) = true ->
      ConversationManager.sanitizeToolMessages h =
        (filter (fun m => negb (orphan_response h m)) h,
         List.length h -
         List.length (filter (fun m => negb (orphan_response h m)) h)) /\
      pairing_invariant (fst (ConversationManager.sanitizeToolMessages h)) = true).
Proof.
  split.
  - intros h H. split; [|apply validate_restores_pairing; exact H].
    unfold repairable in H.
    apply andb_true_iff in H. destruct H as [H W5].
    apply andb_true_iff in H. destruct H as [H _].
    apply andb_true_iff in H. destruct H as [_ W2].
    apply validate_is_repair; [apply distinct_NoDup; exact W2 | exact W5].
  - intros h W P.
    rewrite (sanitize_removes_orphaned_responses h W P). split; [reflexivity | exact P].
Qed.

(** X26 at work: the separated and the stray response of
    [Scenario.broken_transcript] are dropped and a placeholder for [call_a] is
    put right after the assistant message; the incomplete call of
    [Scenario.streamed_transcript] goes with its response; the stray response
    of [Scenario.stray_transcript] is the one message [sanitizeToolMessages]
    drops. *)
Lemma maintenance_restores_pairing_witness :
  ConversationManager.validateAndSanitizeConversationHistory Scenario.broken_transcript =
    [user_msg "q1";
     Scenario.requests [Scenario.call "call_a" "view_file" "{}";
                        Scenario.call "call_b" "list_dir" "{}"];
     tool_msg "call_a" "Tool execution failed or timed out.";
     tool_msg "call_b" "listing";
     user_msg "q2"] /\
  pairing_invariant
    (ConversationManager.validateAndSanitizeConversationHistory Scenario.broken_transcript) = true /\
  ConversationManager.validateAndSanitizeConversationHistory Scenario.streamed_transcript =
    [user_msg "q1"; user_msg "q2"] /\
  ConversationManager.sanitizeToolMessages Scenario.stray_transcript =
    ([user_msg "q1";
      Scenario.requests [Scenario.call "call_a" "view_file" "{}"];
      tool_msg "call_a" "contents";
      assistant_text "a1"], 1).
Proof.
  destruct maintenance_restores_pairing as [A B].
  destruct (A Scenario.broken_transcript eq_refl) as [A1 A2].
  destruct (A Scenario.streamed_transcript eq_refl) as [A3 _].
  destruct (B Scenario.stray_transcript eq_refl eq_refl) as [B1 _].
  split; [rewrite A1; reflexivity|]. split; [exact A2|].
  split; [rewrite A3; reflexivity|].
  rewrite B1. reflexivity.
Defined.

(** * Further properties of the conversation store *)

(** ** Truncation beyond the claims *)

Section TruncationLimits.

Import ConversationManager.

Lemma scan_without_user (h : History) (trm : ToolResponseMap) (keep excess : nat) :
  0 < excess ->
  forall fuel i,
    forallb (fun m => negb (is_user m)) (firstn fuel (skipn i h)) = true ->
    scan h trm keep excess fuel i 0 = 0.
Proof.
  intros E. induction fuel as [|fuel IH]; intros i H; [reflexivity|].
  simpl. destruct (nth_error h i) as [m|] eqn:N; [|reflexivity].
  destruct (nth_error_split h i N) as (pre & post & -> & L).
  assert (S' : skipn i (pre ++ m :: post) = m :: post).
  { rewrite skipn_app, skipn_all2 by lia. replace (i - List.length pre) with 0 by lia.
    reflexivity. }
  rewrite S' in H. simpl in H. apply andb_true_iff in H. destruct H as [Hm H].
  apply negb_true_iff in Hm. rewrite Hm.
  destruct (excess <=? 0) eqn:Le; [apply Nat.leb_le in Le; lia|].
  apply IH.
  replace (skipn (i + 1) (pre ++ m :: post)) with post; [exact H|].
  rewrite skipn_app, skipn_all2 by lia.
  replace (i + 1 - List.length pre) with 1 by lia. reflexivity.
Qed.

Lemma safeRemovalPoint_without_user (t : History) :
  forallb (fun m => negb (is_user m))
          (firstn (List.length t - maxHistoryLength) t) = true ->
  safeRemovalPoint t = 0.
Proof.
  intros H. unfold safeRemovalPoint.
  destruct (List.length t <=? maxHistoryLength) eqn:Le; [reflexivity|].
  apply Nat.leb_gt in Le. cbv zeta.
  destruct (List.length t - maxHistoryLength <=? 0) eqn:Z; [reflexivity|].
  apply Nat.leb_gt in Z.
  apply scan_without_user; [exact Z|].
  change (Nat.div maxHistoryLength 2 * 2) with maxHistoryLength. exact H.
Qed.

Lemma truncate_without_user (t : History) :
  forallb (fun m => negb (is_user m))
          (firstn (List.length t - maxHistoryLength) t) = true ->
  safelyTruncateConversationHistory t = t.
Proof.
  intros H. rewrite safelyTruncate_skipn, (safeRemovalPoint_without_user t H).
  reflexivity.
Qed.

Lemma forallb_firstn (A : Type) (p : A -> bool) (n : nat) (l : list A) :
  forallb p l = true -> forallb p (firstn n l) = true.
Proof.
  revert n. induction l as [|x l IH]; intros [|n] H; simpl; auto.
  simpl in H. apply andb_true_iff in H. destruct H as [Hx H].
  rewrite Hx. simpl. apply IH. exact H.
Qed.

Lemma addAll_without_user (msgs : list ConversationMessage) :
  forall h,
    forallb (fun m => negb (is_user m)) (h ++ msgs) = true ->
    addAll h msgs = h ++ msgs.
Proof.
  induction msgs as [|m msgs IH]; intros h H; simpl.
  - rewrite app_nil_r. reflexivity.
  - unfold addAll in *. simpl.
    assert (E : addToConversationHistory h m = h ++ [m]).
    { unfold addToConversationHistory. apply truncate_without_user.
      apply forallb_firstn. rewrite forallb_app in *.
      apply andb_true_iff in H. destruct H as [Hh Hm]. simpl in Hm.
      apply andb_true_iff in Hm. destruct Hm as [Hm _].
      rewrite Hh. simpl. rewrite Hm. reflexivity. }
    rewrite E. rewrite IH; rewrite <- app_assoc; [reflexivity | exact H].
Qed.

Lemma max_index_ge (l : list nat) (n : nat) : n <= max_index l n.
Proof.
  unfold max_index. induction l as [|x l IH]; simpl; [lia|].
  pose proof (Nat.le_max_r x (fold_right Nat.max n l)). lia.
Qed.

Lemma safeRemovalPoint_one_over (a b : ConversationMessage) (rest : History) :
  List.length (a :: b :: rest) = S maxHistoryLength ->
  safeRemovalPoint (a :: b :: rest) =
  if is_user a && negb (has_tool_calls b) then 1 else 0.
Proof.
  intros L. unfold safeRemovalPoint. rewrite L.
  change (S maxHistoryLength <=? maxHistoryLength) with false.
  cbv zeta.
  change (S maxHistoryLength - maxHistoryLength <=? 0) with false.
  change (S maxHistoryLength - Nat.div maxHistoryLength 2 * 2) with 1.
  change (S maxHistoryLength - maxHistoryLength) with 1.
  cbn [scan nth_error].
  destruct (is_user a); [|reflexivity].
  unfold blocked. cbn [Nat.add nth_error]. rewrite L.
  change (S maxHistoryLength - Nat.div maxHistoryLength 2 * 2) with 1.
  pose proof (max_index_ge
                (get_or_nil Nat.eqb (snd (truncation_maps (a :: b :: rest))) 1) 1) as M.
  apply Nat.leb_le in M. rewrite M, andb_true_r.
  destruct (has_tool_calls b); reflexivity.
Qed.

(** X1: truncation only ever cuts just after a user message, so a transcript
    whose droppable prefix (all but the last [maxHistoryLength] messages) holds
    no user message is left as it is, however long; and a store that holds and
    receives no user message keeps every message it is given. *)
Theorem truncation_needs_a_user_message :
  (forall t : ConversationManager.History,
      forallb (fun m => negb (is_user m))
              (firstn (List.length t - ConversationManager.maxHistoryLength) t) = true ->
      ConversationManager.safelyTruncateConversationHistory t = t) /\
  (forall (h : ConversationManager.History) (msgs : list ConversationMessage),
      forallb (fun m => negb (is_user m)) (h ++ msgs) = true ->
      ConversationManager.addAll h msgs = h ++ msgs /\
      List.length (ConversationManager.addAll h msgs) = List.length h + List.length msgs).
Proof.
  split.
  - apply truncate_without_user.
  - intros h msgs H. rewrite (addAll_without_user msgs h H).
    split; [reflexivity | apply length_app].
Qed.

(** X2: adding to a store that holds exactly [maxHistoryLength] messages drops
    the oldest message when it is a user message that is not followed by an
    assistant message with tool calls, and drops nothing otherwise: the store
    then stays one over the maximum. *)
Theorem add_to_full_store :
  forall (h : ConversationManager.History) (message : ConversationMessage),
    List.length h = ConversationManager.maxHistoryLength ->
    ConversationManager.addToConversationHistory h message =
    match h ++ [message] with
    | first :: second :: rest =>
        if is_user first && negb (has_tool_calls second)
        then second :: rest
        else first :: second :: rest
    | short => short
    end.
Proof.
  intros h message L. unfold addToConversationHistory.
  assert (L' : List.length (h ++ [message]) = S maxHistoryLength)
    by (rewrite length_app, L; reflexivity).
  destruct (h ++ [message]) as [|a [|b rest]]; try discriminate.
  rewrite safelyTruncate_skipn, (safeRemovalPoint_one_over a b rest L').
  destruct (is_user a && negb (has_tool_calls b)); reflexivity.
Qed.

End TruncationLimits.

(** ** What the maintenance passes leave alone *)

Section MaintenanceFrame.

Import ConversationManager.

(** Messages that are neither tool messages nor assistant messages with tool
    calls. *)
Definition outside_tool_traffic (m : ConversationMessage) : bool :=
  negb (is_tool m) && negb (has_tool_calls m).

Lemma map_set_In_any (V : Type) (m : Js.Map string V) (k : string) (v : V)
    (c : string) (x : V) :
  In (c, x) (Js.map_set String.eqb m k v) -> x = v \/ In (c, x) m.
Proof.
  induction m as [|[a b] m IH]; simpl.
  - intros [E|[]]. inversion E. auto.
  - destruct (String.eqb a k); simpl.
    + intros [E|I]; [inversion E; auto | auto].
    + intros [E|I]; [auto|]. destruct (IH I); auto.
Qed.

Lemma set_calls_In (i : nat) (calls : list ToolCall) :
  forall (t : Js.Map string nat) c x,
    In (c, x) (fold_left (fun t tc => Js.map_set String.eqb t (tc_id tc) i) calls t) ->
    x = i \/ In (c, x) t.
Proof.
  induction calls as [|tc calls IH]; simpl; intros t c x I; [auto|].
  apply IH in I. destruct I as [E|I]; [auto|].
  apply map_set_In_any in I. exact I.
Qed.

Lemma calls_step_In (l : list (nat * ConversationMessage)) :
  forall (atc : Js.Map string nat) c x,
    In (c, x) (fold_left calls_step l atc) ->
    In (c, x) atc \/ exists m, In (x, m) l /\ has_tool_calls m = true.
Proof.
  induction l as [|[i m] l IH]; simpl; intros atc c x I; [auto|].
  apply IH in I. destruct I as [I|(m' & I & H)]; [|right; eauto].
  unfold calls_step in I. simpl in I.
  destruct (has_tool_calls m) eqn:H; [|auto].
  apply set_calls_In in I. destruct I as [->|I]; [|auto].
  right. exists m. auto.
Qed.

Lemma orphanedToolCalls_In (h : History) (i : nat) :
  In i (orphanedToolCalls h) ->
  exists m, nth_error h i = Some m /\ has_tool_calls m = true.
Proof.
  unfold orphanedToolCalls.
  destruct (sanitize_maps h) as [atc tr] eqn:E.
  intros I. apply (proj1 (dedupe_In _ _)) in I. apply in_flat_map in I.
  destruct I as ([c x] & Icx & Ii).
  destruct (Js.map_has String.eqb tr c); [destruct Ii|].
  destruct Ii as [<-|[]].
  assert (A : atc = fst (sanitize_maps h)) by (rewrite E; reflexivity).
  unfold sanitize_maps in A. rewrite sanitize_maps_split in A. simpl in A.
  rewrite A in Icx. apply calls_step_In in Icx.
  destruct Icx as [[]|(m & Im & H)].
  exists m. split; [apply indexed_In; exact Im | exact H].
Qed.

Lemma orphanedToolCalls_NoDup (h : History) : NoDup (orphanedToolCalls h).
Proof.
  unfold orphanedToolCalls. destruct (sanitize_maps h). apply dedupe_NoDup.
Qed.

Lemma orphan_indices (h : History) :
  NoDup (orphanedToolResponses h ++ orphanedToolCalls h) /\
  forall i, In i (orphanedToolResponses h ++ orphanedToolCalls h) ->
            exists m, nth_error h i = Some m /\ outside_tool_traffic m = false.
Proof.
  destruct (orphanedToolResponses_spec h) as [N S].
  split.
  - apply NoDup_app; [exact N | apply orphanedToolCalls_NoDup |].
    intros i I1 I2. apply S in I1. destruct I1 as (m & Nm & O).
    apply orphanedToolCalls_In in I2. destruct I2 as (m' & Nm' & H).
    assert (m' = m) by congruence. subst m'.
    unfold orphan_response in O. apply andb_true_iff in O. destruct O as [O _].
    apply andb_true_iff in O. destruct O as [T _].
    apply has_tool_calls_not_tool in H. congruence.
  - intros i I. apply in_app_or in I. destruct I as [I|I].
    + apply S in I. destruct I as (m & Nm & O). exists m. split; [exact Nm|].
      unfold orphan_response in O. apply andb_true_iff in O. destruct O as [O _].
      apply andb_true_iff in O. destruct O as [T _].
      unfold outside_tool_traffic. rewrite T. reflexivity.
    + apply orphanedToolCalls_In in I. destruct I as (m & Nm & H).
      exists m. split; [exact Nm|].
      unfold outside_tool_traffic. rewrite H. apply andb_false_r.
Qed.

(** Removing the messages at the indices [R] keeps every message a predicate
    holds of, when it holds of no message at an index of [R]. *)
Lemma filter_edited (q : ConversationMessage -> bool) (R : list nat) (l : History) :
  forall s,
    (forall i m, In (i, m) (indexed_from _ s l) ->
                 existsb (Nat.eqb i) R = true -> q m = false) ->
    filter q (edited R [] s l) = filter q l.
Proof.
  induction l as [|x l IH]; intros s H; [reflexivity|].
  unfold edited. rewrite indexed_from_cons. simpl flat_map.
  fold (edited R [] (S s) l). rewrite filter_app.
  rewrite IH.
  2:{ intros i m I. apply H. rewrite indexed_from_cons. right. exact I. }
  unfold edit. simpl fst. simpl snd.
  replace (missing_at [] s) with (@nil string) by reflexivity.
  unfold synthesized. simpl. rewrite app_nil_r.
  destruct (existsb (Nat.eqb s) R) eqn:E; simpl.
  - rewrite (H s x); [reflexivity | rewrite indexed_from_cons; left; reflexivity | exact E].
  - destruct (q x); reflexivity.
Qed.

Lemma In_edited (R : list nat) (l : History) (m : ConversationMessage) :
  forall s, In m (edited R [] s l) -> In m l.
Proof.
  induction l as [|x l IH]; intros s I; [destruct I|].
  unfold edited in I. rewrite indexed_from_cons in I. simpl flat_map in I.
  fold (edited R [] (S s) l) in I. apply in_app_or in I. destruct I as [I|I].
  - unfold edit in I. simpl in I. unfold synthesized in I. simpl in I.
    rewrite app_nil_r in I.
    destruct (existsb (Nat.eqb s) R); [destruct I|].
    destruct I as [<-|[]]. left. reflexivity.
  - right. apply (IH (S s)). exact I.
Qed.

Lemma removal_is_edited (R : list nat) (h : History) :
  descending R -> (forall r, In r R -> r < List.length h) ->
  fold_left (@Js.splice1 _) R h = edited R [] 0 h.
Proof.
  intros D V.
  pose proof (edits_correct h [] R [] D I V) as Ed.
  rewrite !app_nil_r in Ed. simpl in Ed. apply Ed.
  - intros f [].
  - intros r f _ [].
Qed.

Lemma In_removal (R : list nat) :
  forall (l : History) (m : ConversationMessage),
    In m (fold_left (@Js.splice1 _) R l) -> In m l.
Proof.
  induction R as [|r R IH]; simpl; intros l m I; [exact I|].
  apply IH in I. unfold Js.splice1 in I. apply in_app_or in I.
  rewrite <- (firstn_skipn r l). apply in_or_app.
  destruct I as [I|I]; [left; exact I | right].
  replace (S r) with (1 + r) in I by reflexivity.
  rewrite <- skipn_skipn in I.
  rewrite <- (firstn_skipn 1 (skipn r l)). apply in_or_app. right. exact I.
Qed.

(** X3: whatever the transcript, the number [sanitizeToolMessages] returns is
    the number of messages it removed; it removes only tool messages and
    assistant messages with tool calls, so every other message stays, in
    order; and it adds nothing. *)
Theorem sanitize_touches_only_tool_traffic :
  forall h : ConversationManager.History,
    let r := ConversationManager.sanitizeToolMessages h in
    List.length (fst r) + snd r = List.length h /\
    filter outside_tool_traffic (fst r) = filter outside_tool_traffic h /\
    forall m, In m (fst r) -> In m h.
Proof.
  intros h. cbv zeta. rewrite sanitize_unfold. simpl fst. simpl snd.
  destruct (orphan_indices h) as [N V].
  set (R := Js.sort_desc (orphanedToolResponses h ++ orphanedToolCalls h)).
  assert (D : descending R) by (apply sort_desc_descending; exact N).
  assert (B : forall r, In r R -> r < List.length h).
  { intros r I. apply sort_desc_In, V in I. destruct I as (m & Nm & _).
    apply nth_error_Some. congruence. }
  split; [apply splice_length; assumption|]. split.
  - rewrite (removal_is_edited R h D B). apply filter_edited.
    intros i m I E. apply indexed_from_In in I. destruct I as [_ Nm].
    rewrite Nat.sub_0_r in Nm.
    apply existsb_eqb_In, sort_desc_In, V in E. destruct E as (m' & Nm' & O).
    congruence.
  - intros m. apply In_removal.
Qed.

Lemma paired_no_orphan_response (h : History) (m : ConversationMessage) :
  pairing_invariant h = true -> In m h -> orphan_response h m = false.
Proof.
  intros P I. apply in_split in I. destruct I as (pre & post & ->).
  pose proof (pairing_invariant_at pre post m P) as A.
  unfold orphan_response. destruct (is_tool m) eqn:T; [|reflexivity].
  unfold paired_at in A. rewrite T in A.
  apply andb_true_iff in A. destruct A as [A _].
  destruct (tool_call_id m) as [c|] eqn:Ic; [|discriminate].
  apply Nat.eqb_eq in A. unfold earlier_calls in A.
  destruct (filter (fun c0 => String.eqb (tc_id c0) c) (flat_map calls_of pre))
    as [|tc l] eqn:F; [discriminate|].
  assert (Itc : In tc (filter (fun c0 => String.eqb (tc_id c0) c) (flat_map calls_of pre)))
    by (rewrite F; left; reflexivity).
  apply filter_In in Itc. destruct Itc as [Itc E].
  replace (existsb (fun tc0 => answers m (tc_id tc0))
                   (flat_map calls_of (pre ++ m :: post))) with true.
  - apply andb_false_r.
  - symmetry. apply existsb_exists. exists tc. split.
    + rewrite flat_map_app. apply in_or_app. left. exact Itc.
    + unfold answers. rewrite Ic. rewrite String.eqb_sym. exact E.
Qed.

Lemma filter_all (A : Type) (p : A -> bool) (l : list A) :
  (forall x, In x l -> p x = true) -> filter p l = l.
Proof.
  induction l as [|x l IH]; intros H; [reflexivity|].
  simpl. rewrite (H x (or_introl eq_refl)). f_equal.
  apply IH. intros y I. apply H. right. exact I.
Qed.

(** X4: a transcript that satisfies the pairing invariant, and whose tool
    messages carry non-empty ids, comes out of [sanitizeToolMessages] as it
    went in, with 0 reported. *)
Theorem sanitize_leaves_paired_transcript :
  forall h : ConversationManager.History,
    tool_ids_present h = true ->
    pairing_invariant h = true ->
    ConversationManager.sanitizeToolMessages h = (h, 0).
Proof.
  intros h W P.
  assert (F : filter (fun m => negb (orphan_response h m)) h = h).
  { apply filter_all. intros m I.
    rewrite (paired_no_orphan_response h m P I). reflexivity. }
  rewrite (sanitize_removes_orphaned_responses h W); rewrite F.
  - rewrite Nat.sub_diag. reflexivity.
  - exact P.
Qed.

(** Messages that are neither tool messages nor assistant messages with an
    incomplete tool call. *)
Definition outside_validation (m : ConversationMessage) : bool :=
  negb (is_tool m) && negb (incomplete_message m).

Lemma filter_splice_in (q : ConversationMessage -> bool) (acc : History) (k : nat)
    (x : ConversationMessage) :
  q x = false -> filter q (Js.splice_in acc k x) = filter q acc.
Proof.
  intros Q. unfold Js.splice_in. rewrite filter_app. simpl. rewrite Q.
  rewrite <- filter_app, firstn_skipn. reflexivity.
Qed.

Lemma In_splice_in (acc : History) (k : nat) (x m : ConversationMessage) :
  In m (Js.splice_in acc k x) -> m = x \/ In m acc.
Proof.
  unfold Js.splice_in. intros I. apply in_app_or in I.
  rewrite <- (firstn_skipn k acc).
  destruct I as [I|[E|I]]; [right | left; auto | right]; apply in_or_app; auto.
Qed.

Lemma fix_step_frame (q : ConversationMessage -> bool) (f : nat * list string) :
  (forall c, q (tool_msg c dummy_response) = false) ->
  forall v,
    filter q (fix_step v f) = filter q v /\
    forall m, In m (fix_step v f) ->
              In m v \/ exists c, m = tool_msg c dummy_response.
Proof.
  intros Q v. destruct f as [index missing]. unfold fix_step.
  destruct (nth_error v index) as [message|]; [|auto].
  destruct (Role_eqb (role message) assistant &&
            match tool_calls message with Some _ => true | None => false end); [|auto].
  generalize v. clear v message.
  induction missing as [|c missing IH]; intros v; simpl; [auto|].
  destruct (IH (Js.splice_in v (index + 1) (tool_msg c dummy_response))) as [F I].
  split.
  - rewrite F. apply filter_splice_in. apply Q.
  - intros m Im. apply I in Im. destruct Im as [Im|Im]; [|auto].
    apply In_splice_in in Im. destruct Im as [->|Im]; eauto.
Qed.

Lemma fix_steps_frame (q : ConversationMessage -> bool) (F : list (nat * list string)) :
  (forall c, q (tool_msg c dummy_response) = false) ->
  forall v,
    filter q (fold_left fix_step F v) = filter q v /\
    forall m, In m (fold_left fix_step F v) ->
              In m v \/ exists c, m = tool_msg c dummy_response.
Proof.
  intros Q. induction F as [|f F IH]; intros v; simpl; [auto|].
  destruct (IH (fix_step v f)) as [E I].
  destruct (fix_step_frame q f Q v) as [E' I'].
  split; [congruence|].
  intros m Im. apply I in Im. destruct Im as [Im|Im]; auto.
Qed.

Lemma removed_inside_validation (h : History) (i : nat) (m : ConversationMessage) :
  In i (messagesToRemove h) -> nth_error h i = Some m -> outside_validation m = false.
Proof.
  intros I N. unfold outside_validation.
  apply messagesToRemove_In in I. destruct I as [I|I].
  - apply first_pass_In in I. destruct I as (m' & N' & F).
    assert (m' = m) by congruence. subst m'.
    unfold first_pass_removes in F.
    destruct (is_tool m); [reflexivity|]. simpl in F. discriminate.
  - apply streaming_pass_In in I.
    destruct I as (j & mj & Nj & Ij & [E|(r & Nr & _ & T & _)]).
    + subst j. assert (mj = m) by congruence. subst mj.
      rewrite Ij. apply andb_false_r.
    + assert (r = m) by congruence. subst r. rewrite T. reflexivity.
Qed.

(** X5: whatever the transcript, [validateAndSanitizeConversationHistory]
    removes only tool messages and assistant messages with an incomplete tool
    call, and adds only ["Tool execution failed or timed out."] tool messages:
    every other message stays, in order. *)
Theorem validate_touches_only_tool_traffic :
  forall h : ConversationManager.History,
    let v := ConversationManager.validateAndSanitizeConversationHistory h in
    filter outside_validation v = filter outside_validation h /\
    forall m, In m v ->
              In m h \/
              exists c, m = tool_msg c ConversationManager.dummy_response.
Proof.
  intros h. cbv zeta. unfold validateAndSanitizeConversationHistory.
  assert (Q : forall c, outside_validation (tool_msg c dummy_response) = false)
    by reflexivity.
  destruct (fix_steps_frame outside_validation (rev (messagesToFix h)) Q
              (fold_left (@Js.splice1 _) (messagesToRemove h) h)) as [E I].
  split.
  - rewrite E.
    rewrite (removal_is_edited (messagesToRemove h) h
               (messagesToRemove_descending h) (messagesToRemove_valid h)).
    apply filter_edited. intros i m Im Ex.
    apply indexed_from_In in Im. destruct Im as [_ Nm]. rewrite Nat.sub_0_r in Nm.
    apply existsb_eqb_In in Ex. apply (removed_inside_validation h i m Ex Nm).
  - intros m Im. apply I in Im. destruct Im as [Im|Im]; [|auto].
    left. apply (In_removal _ _ _ Im).
Qed.

End MaintenanceFrame.

(** ** Validation reaches a fixed point *)

Section Settled.

Import ConversationManager.

(** A transcript validation has nothing to do on: each tool message answers a
    call of the nearest earlier message that is not a tool message ([owner]
    for the leading ones), no call is incomplete, and every call is answered
    in the run that follows it. *)
Fixpoint settled (owner : option ConversationMessage) (o : History) : bool :=
  match o with
  | [] => true
  | m :: rest =>
      if is_tool m then keeps owner m && settled owner rest
      else
        negb (incomplete_message m) &&
        forallb (fun tc => foundToolResponse rest (tc_id tc)) (calls_of m) &&
        settled (Some m) rest
  end.

Lemma owner_of_cons (x : ConversationMessage) (pre : History) :
  owner_of (x :: pre) =
  match owner_of pre with
  | Some o => Some o
  | None => if is_tool x then None else Some x
  end.
Proof.
  unfold owner_of. simpl rev.
  induction (rev pre) as [|y l IH]; simpl.
  - destruct (is_tool x); reflexivity.
  - destruct (is_tool y); simpl; [exact IH | reflexivity].
Qed.

Lemma settled_split (pre : History) :
  forall owner post,
    settled owner (pre ++ post) = true ->
    settled (match owner_of pre with Some o => Some o | None => owner end) post = true.
Proof.
  induction pre as [|x pre IH]; intros owner post H; [exact H|].
  rewrite owner_of_cons. simpl in H.
  destruct (is_tool x).
  - apply andb_true_iff in H. destruct H as [_ H]. apply IH in H.
    destruct (owner_of pre); exact H.
  - apply andb_true_iff in H. destruct H as [_ H]. apply IH in H.
    destruct (owner_of pre); exact H.
Qed.

Lemma settled_at (pre post : History) (m : ConversationMessage) :
  settled None (pre ++ m :: post) = true ->
  settled (owner_of pre) (m :: post) = true.
Proof.
  intros H. apply settled_split in H. destruct (owner_of pre); exact H.
Qed.

Lemma indexed_position (o : History) (i : nat) (m : ConversationMessage) :
  In (i, m) (indexed o) ->
  exists pre post, o = pre ++ m :: post /\ List.length pre = i.
Proof.
  intros I. apply indexed_In in I. apply nth_error_split in I.
  destruct I as (pre & post & E & L). eauto.
Qed.

Lemma settled_first_pass (o : History) :
  settled None o = true -> first_pass o = [].
Proof.
  intros H. unfold first_pass. apply flat_map_nil. intros [i m] I.
  destruct (indexed_position o i m I) as (pre & post & -> & <-).
  rewrite first_pass_removes_position.
  apply settled_at in H. simpl in H.
  destruct (is_tool m); [|reflexivity].
  apply andb_true_iff in H. destruct H as [K _]. rewrite K.
  rewrite andb_false_r. reflexivity.
Qed.

Lemma settled_complete (o : History) :
  forall owner m, settled owner o = true -> In m o -> incomplete_message m = false.
Proof.
  induction o as [|x o IH]; intros owner m H I; [destruct I|].
  simpl in H. destruct (is_tool x) eqn:T.
  - apply andb_true_iff in H. destruct H as [_ H].
    destruct I as [<-|I]; [|apply (IH owner m H I)].
    unfold incomplete_message. rewrite (not_tool_no_calls x T). reflexivity.
  - apply andb_true_iff in H. destruct H as [H S].
    apply andb_true_iff in H. destruct H as [C _].
    destruct I as [<-|I]; [|apply (IH (Some x) m S I)].
    apply negb_true_iff in C. exact C.
Qed.

Lemma settled_streaming_pass (o : History) :
  settled None o = true -> streaming_pass o = [].
Proof.
  intros H. unfold streaming_pass. apply flat_map_nil. intros [i m] I.
  apply indexed_In, nth_error_In in I.
  rewrite (settled_complete o None m H I). reflexivity.
Qed.

Lemma filter_none (A : Type) (p : A -> bool) (l : list A) :
  forallb p l = true -> filter (fun x => negb (p x)) l = [].
Proof.
  induction l as [|x l IH]; simpl; intros F; [reflexivity|].
  apply andb_true_iff in F. destruct F as [F1 F2].
  rewrite F1. simpl. apply IH. exact F2.
Qed.

Lemma settled_messagesToFix (o : History) :
  settled None o = true -> messagesToFix o = [].
Proof.
  intros H. unfold messagesToFix. apply flat_map_nil. intros [i m] I.
  destruct (indexed_position o i m I) as (pre & post & -> & <-).
  destruct (has_tool_calls m) eqn:Hm; [|reflexivity].
  apply settled_at in H. simpl in H.
  rewrite (has_tool_calls_not_tool m Hm) in H.
  apply andb_true_iff in H. destruct H as [H _].
  apply andb_true_iff in H. destruct H as [_ F].
  pose proof (has_tool_calls_calls_of m) as C. rewrite Hm in C. rewrite <- C in F.
  unfold missingToolResponses.
  replace (skipn (List.length pre + 1) (pre ++ m :: post)) with post.
  - rewrite (filter_none _ (fun tc => foundToolResponse post (tc_id tc)) _ F).
    reflexivity.
  - rewrite skipn_app.
    replace (List.length pre + 1 - List.length pre) with 1 by lia.
    rewrite skipn_all2 by lia. reflexivity.
Qed.

(** Validation leaves a settled transcript as it is. *)
Lemma settled_fixed (o : History) :
  settled None o = true -> validateAndSanitizeConversationHistory o = o.
Proof.
  intros H. unfold validateAndSanitizeConversationHistory, messagesToRemove.
  rewrite (settled_first_pass o H), (settled_streaming_pass o H),
          (settled_messagesToFix o H).
  reflexivity.
Qed.

Lemma settled_None_any (owner : option ConversationMessage) (x : History) :
  settled None x = true -> settled owner x = true.
Proof.
  destruct x as [|m rest]; [reflexivity|]. simpl.
  destruct (is_tool m); [|auto].
  unfold keeps. simpl. discriminate.
Qed.

Lemma settled_app_tools (owner : option ConversationMessage) (S X : History) :
  (forall s, In s S -> is_tool s = true /\ keeps owner s = true) ->
  settled owner (S ++ X) = settled owner X.
Proof.
  induction S as [|s S IH]; intros H; [reflexivity|].
  simpl. destruct (H s (or_introl eq_refl)) as [T K]. rewrite T, K. simpl.
  apply IH. intros s' I. apply H. right. exact I.
Qed.

Lemma owns_listed_call (m : ConversationMessage) (tc : ToolCall) :
  has_tool_calls m = true -> In tc (calls_list m) -> owns_call m (tc_id tc) = true.
Proof.
  intros H I. apply own_call.
  pose proof (has_tool_calls_calls_of m) as C. rewrite H in C. rewrite <- C. exact I.
Qed.

(** What [repair] returns is settled. *)
Lemma repair_settled (h : History) :
  forall owner,
    tool_ids_present h = true -> settled owner (repair owner h) = true.
Proof.
  induction h as [|m rest IH]; intros owner W1; [reflexivity|].
  simpl in W1. apply andb_true_iff in W1. destruct W1 as [W1m W1].
  simpl repair. destruct (is_tool m) eqn:Tm.
  - simpl in W1m. rewrite W1m. simpl.
    destruct (keeps owner m) eqn:K; simpl.
    + rewrite Tm, K. simpl. apply IH. exact W1.
    + apply IH. exact W1.
  - destruct (incomplete_message m) eqn:Im.
    + apply settled_None_any. apply IH. exact W1.
    + set (S := synthesized (if has_tool_calls m then missing_in m rest else [])).
      assert (ST : forall s, In s S -> is_tool s = true /\ keeps (Some m) s = true).
      { intros s Is. unfold S in Is. apply synthesized_In in Is.
        destruct Is as (T & c & Ic & Es). split; [exact T|].
        unfold keeps. rewrite Es.
        destruct (has_tool_calls m) eqn:Hm; [|destruct Ic].
        unfold missing_in in Ic. apply in_map_iff in Ic. destruct Ic as (tc & <- & Itc).
        apply filter_In in Itc. destruct Itc as [Itc _].
        apply owns_listed_call; assumption. }
      simpl. rewrite Tm, Im. simpl.
      rewrite (settled_app_tools (Some m) S (repair (Some m) rest) ST).
      rewrite (IH (Some m) W1), andb_true_r.
      apply forallb_forall. intros tc Itc.
      destruct (calls_of_has_tool_calls m tc Itc) as [Hm E].
      rewrite foundToolResponse_run.
      rewrite tool_run_app_tools by (intros s Is; apply ST; exact Is).
      rewrite existsb_app, (tool_run_repair (Some m) rest W1).
      destruct (foundToolResponse rest (tc_id tc)) eqn:Fd.
      * rewrite foundToolResponse_run in Fd. apply existsb_exists in Fd.
        destruct Fd as (r & Ir & A).
        replace (existsb (fun m0 => answers m0 (tc_id tc))
                   (filter (fun r0 => negb (Js.truthy_opt (tool_call_id r0) &&
                                            negb (keeps (Some m) r0)))
                           (tool_run rest))) with true; [apply orb_true_r|].
        symmetry. apply existsb_exists. exists r. split; [|exact A].
        apply filter_In. split; [exact Ir|].
        unfold keeps. rewrite (answers_id r (tc_id tc) A).
        rewrite (own_call m tc Itc). simpl. rewrite andb_false_r. reflexivity.
      * replace (existsb (fun m0 => answers m0 (tc_id tc)) S) with true; [reflexivity|].
        symmetry. apply existsb_exists.
        exists (tool_msg (tc_id tc) dummy_response). split.
        -- unfold S, synthesized. rewrite Hm. rewrite <- in_rev.
           apply (in_map (fun call_id => tool_msg call_id dummy_response)).
           unfold missing_in. apply in_map. apply filter_In. split.
           ++ rewrite <- E. exact Itc.
           ++ rewrite Fd. reflexivity.
        -- unfold answers. simpl. apply String.eqb_refl.
Qed.

(** X6: on a repairable transcript [validateAndSanitizeConversationHistory]
    reaches a fixed point at once: run on its own result it marks nothing for
    removal, nothing for placeholders, and returns that result unchanged. *)
Theorem validate_is_idempotent :
  forall h : ConversationManager.History,
    repairable h = true ->
    let v := ConversationManager.validateAndSanitizeConversationHistory h in
    ConversationManager.messagesToRemove v = [] /\
    ConversationManager.messagesToFix v = [] /\
    ConversationManager.validateAndSanitizeConversationHistory v = v.
Proof.
  intros h H. cbv zeta. unfold repairable in H.
  apply andb_true_iff in H. destruct H as [H W5].
  apply andb_true_iff in H. destruct H as [H _].
  apply andb_true_iff in H. destruct H as [W1 W2].
  rewrite (validate_is_repair h (distinct_NoDup _ W2) W5).
  pose proof (repair_settled h None W1) as S.
  split; [|split].
  - unfold messagesToRemove.
    rewrite (settled_first_pass _ S), (settled_streaming_pass _ S). reflexivity.
  - apply settled_messagesToFix. exact S.
  - apply settled_fixed. exact S.
Qed.

End Settled.

(** ** What a summary is asked about *)

Section SummaryRequest.

Import ConversationManager.

(** The messages that reach the summarisation request: those that are not tool
    messages, an assistant message with tool calls only when it has content. *)
Definition in_summary (m : ConversationMessage) : bool :=
  negb (is_tool m) && (negb (has_tool_calls m) || Js.truthy_opt (content m)).

Definition tool_indices (h : History) (skipIndices : list nat) : Prop :=
  forall j, In j skipIndices ->
            exists r, nth_error h j = Some r /\ is_tool r = true.

Lemma first_response_after_tool (h : History) (i : nat) (c : string) (j : nat) :
  first_response_after h i c = Some j ->
  exists r, nth_error h j = Some r /\ is_tool r = true.
Proof.
  unfold first_response_after.
  destruct (find _ (indexed h)) as [[j' r]|] eqn:F; [|discriminate].
  intros E. inversion E; subst j'. apply find_some in F. destruct F as [I P].
  exists r. split; [apply indexed_In; exact I|].
  apply andb_true_iff in P. destruct P as [P _].
  apply andb_true_iff in P. tauto.
Qed.

Lemma skip_responses_tool (h : History) (i : nat) (calls : list ToolCall) :
  forall skipIndices,
    tool_indices h skipIndices ->
    tool_indices h
      (fold_left (fun sk toolCall =>
                    match first_response_after h i (tc_id toolCall) with
                    | Some j => sk ++ [j]
                    | None => sk
                    end)
                 calls skipIndices).
Proof.
  induction calls as [|tc calls IH]; intros sk T; [exact T|].
  simpl. apply IH.
  destruct (first_response_after h i (tc_id tc)) as [j|] eqn:F; [|exact T].
  intros k I. apply in_app_or in I. destruct I as [I|[<-|[]]]; [apply T; exact I|].
  apply (first_response_after_tool h i (tc_id tc) j F).
Qed.

Lemma format_loop_is_filter (h : History) (l : History) :
  forall s skipIndices acc,
    (forall i m, In (i, m) (indexed_from _ s l) -> nth_error h i = Some m) ->
    tool_indices h skipIndices ->
    format_loop h (indexed_from _ s l) skipIndices acc =
    acc ++ map plain (filter in_summary l).
Proof.
  induction l as [|m l IH]; intros s sk acc N T.
  - simpl. rewrite app_nil_r. reflexivity.
  - rewrite indexed_from_cons. cbn [format_loop].
    assert (N' : forall i x, In (i, x) (indexed_from _ (S s) l) -> nth_error h i = Some x).
    { intros i x I. apply N. rewrite indexed_from_cons. right. exact I. }
    assert (Nm : nth_error h s = Some m).
    { apply N. rewrite indexed_from_cons. left. reflexivity. }
    cbn [filter].
    destruct (existsb (Nat.eqb s) sk) eqn:E.
    + apply existsb_eqb_In, T in E. destruct E as (r & Nr & Tr).
      assert (r = m) by congruence. subst r.
      assert (Q : in_summary m = false) by (unfold in_summary; rewrite Tr; reflexivity).
      rewrite Q. apply IH; assumption.
    + destruct (has_tool_calls m) eqn:Hm.
      * assert (Q : in_summary m = Js.truthy_opt (content m)).
        { unfold in_summary. rewrite (has_tool_calls_not_tool m Hm), Hm. reflexivity. }
        rewrite Q.
        rewrite IH; [| exact N' | apply skip_responses_tool; exact T].
        destruct (Js.truthy_opt (content m)); simpl.
        -- rewrite <- app_assoc. reflexivity.
        -- reflexivity.
      * assert (Q : in_summary m = negb (is_tool m)).
        { unfold in_summary. rewrite Hm. simpl. apply andb_true_r. }
        rewrite Q.
        destruct (is_tool m); simpl.
        -- apply IH; assumption.
        -- rewrite IH by assumption. rewrite <- app_assoc. reflexivity.
Qed.

(** X7: the conversation sent for summarising is the transcript without its
    tool messages and without the assistant messages that carry tool calls but
    no content, each message reduced to its role and content; so the request
    holds no tool message, no tool call and no tool-call id. *)
Theorem summary_request_has_no_tool_traffic :
  forall h : ConversationManager.History,
    ConversationManager.formattedConversation h =
      map ConversationManager.plain (filter in_summary h) /\
    forall m, In m (ConversationManager.formattedConversation h) ->
              is_tool m = false /\ tool_calls m = None /\ tool_call_id m = None.
Proof.
  intros h.
  assert (E : formattedConversation h = map plain (filter in_summary h)).
  { unfold formattedConversation. rewrite indexed_is_from.
    rewrite (format_loop_is_filter h h 0 [] []).
    - reflexivity.
    - intros i m I. apply indexed_from_In in I. destruct I as [_ I].
      rewrite Nat.sub_0_r in I. exact I.
    - intros j []. }
  split; [exact E|].
  intros m I. rewrite E in I. apply in_map_iff in I. destruct I as (x & <- & Ix).
  apply filter_In in Ix. destruct Ix as [_ P].
  unfold in_summary in P. apply andb_true_iff in P. destruct P as [P _].
  apply negb_true_iff in P.
  split; [exact P | split; reflexivity].
Qed.

(** *** The file references of a summary *)

Lemma set_add_spec (refs : list string) (x : string) :
  NoDup refs ->
  NoDup (set_add refs x) /\ forall r, In r (set_add refs x) <-> In r refs \/ r = x.
Proof.
  intros N. unfold set_add.
  destruct (existsb (String.eqb x) refs) eqn:E.
  - split; [exact N|]. intros r. split; [auto|].
    intros [I| ->]; [exact I|].
    apply existsb_exists in E. destruct E as (y & Iy & Ey).
    apply String.eqb_eq in Ey. subst y. exact Iy.
  - split.
    + apply NoDup_app; [exact N | constructor; [intros [] | constructor] |].
      intros a Ia [Ea|[]]. subst a.
      assert (T : existsb (String.eqb x) refs = true).
      { apply existsb_exists. exists x. split; [exact Ia | apply String.eqb_refl]. }
      congruence.
    + intros r. rewrite in_app_iff. simpl. intuition.
Qed.

(** Where a reference of [message] comes from. *)
Definition referenced_by (w : World) (message : ConversationMessage) (r : string) : Prop :=
  (exists text,
      content message = Some text /\ In r (filePathMatches w text) /\
      Js.includes r "." = true /\ endsWith_slash r = false) \/
  (exists calls toolCall param,
      tool_calls message = Some calls /\ In toolCall calls /\ In param path_params /\
      JSON_string_param w (fn_arguments (tc_function toolCall)) param = Some r).

Lemma fold_adds (A : Type) (f : list string -> A -> list string)
    (Q : A -> string -> Prop) :
  (forall refs a, NoDup refs ->
                  NoDup (f refs a) /\
                  forall r, In r (f refs a) <-> In r refs \/ Q a r) ->
  forall l refs,
    NoDup refs ->
    NoDup (fold_left f l refs) /\
    forall r, In r (fold_left f l refs) <-> In r refs \/ exists a, In a l /\ Q a r.
Proof.
  intros F. induction l as [|a l IH]; intros refs N; simpl.
  - split; [exact N|]. intros r. split; [auto|]. intros [I|(a & [] & _)]. exact I.
  - destruct (F refs a N) as [N' S]. destruct (IH (f refs a) N') as [N'' S''].
    split; [exact N''|]. intros r. rewrite S'', S. split.
    + intros [[I|Qa]|(b & Ib & Qb)]; [auto | right; exists a; auto | right; exists b; auto].
    + intros [I|(b & [E|Ib] & Qb)]; [auto | subst b; auto | right; eauto].
Qed.

Lemma references_step_spec (w : World) (refs : list string) (message : ConversationMessage) :
  NoDup refs ->
  NoDup (references_step w refs message) /\
  forall r, In r (references_step w refs message) <->
            In r refs \/ referenced_by w message r.
Proof.
  intros N. unfold references_step.
  set (refs1 :=
         match content message with
         | Some text =>
             fold_left (fun r m => if Js.includes m "." && negb (endsWith_slash m)
                                   then set_add r m else r)
                       (filePathMatches w text) refs
         | None => refs
         end).
  assert (S1 : NoDup refs1 /\
               forall r, In r refs1 <->
                         In r refs \/
                         exists text, content message = Some text /\
                                      In r (filePathMatches w text) /\
                                      Js.includes r "." = true /\
                                      endsWith_slash r = false).
  { unfold refs1. destruct (content message) as [text|].
    - destruct (fold_adds _
                  (fun r m => if Js.includes m "." && negb (endsWith_slash m)
                              then set_add r m else r)
                  (fun m r => r = m /\ Js.includes m "." = true /\ endsWith_slash m = false)
                  ) with (l := filePathMatches w text) (refs := refs) as [N1 I1].
      + intros rs m Nr.
        destruct (Js.includes m "." && negb (endsWith_slash m)) eqn:C.
        * destruct (set_add_spec rs m Nr) as [N' S']. split; [exact N'|].
          apply andb_true_iff in C. destruct C as [C1 C2].
          apply negb_true_iff in C2.
          intros r. rewrite S'. intuition.
        * split; [exact Nr|]. intros r. split; [auto|].
          intros [I|(-> & C1 & C2)]; [exact I|].
          rewrite C1, C2 in C. discriminate.
      + exact N.
      + split; [exact N1|]. intros r. rewrite I1. split.
        * intros [I|(m & Im & -> & C1 & C2)]; [auto|]. right. exists text. auto.
        * intros [I|(t & Et & Im & C1 & C2)]; [auto|]. right.
          inversion Et; subst t. exists r. auto.
    - split; [exact N|]. intros r. split; [auto|].
      intros [I|(t & Et & _)]; [exact I | discriminate]. }
  destruct S1 as [N1 I1].
  destruct (tool_calls message) as [calls|] eqn:Tc.
  - destruct (fold_adds _
                (fun r toolCall =>
                   fold_left (fun r param =>
                                match JSON_string_param w
                                        (fn_arguments (tc_function toolCall)) param with
                                | Some path => set_add r path
                                | None => r
                                end)
                             path_params r)
                (fun toolCall r =>
                   exists param, In param path_params /\
                                 JSON_string_param w (fn_arguments (tc_function toolCall))
                                                   param = Some r))
        with (l := calls) (refs := refs1) as [N2 I2].
    + intros rs toolCall Nr.
      apply (fold_adds _
               (fun r param =>
                  match JSON_string_param w (fn_arguments (tc_function toolCall)) param with
                  | Some path => set_add r path
                  | None => r
                  end)
               (fun param r =>
                  JSON_string_param w (fn_arguments (tc_function toolCall)) param = Some r));
        [|exact Nr].
      intros rs' param Nr'.
      destruct (JSON_string_param w (fn_arguments (tc_function toolCall)) param) as [p|].
      * destruct (set_add_spec rs' p Nr') as [N' S']. split; [exact N'|].
        intros r. rewrite S'. split; intros [I|E]; auto; right; congruence.
      * split; [exact Nr'|]. intros r. split; [auto|]. intros [I|E]; [exact I | discriminate].
    + exact N1.
    + split; [exact N2|]. intros r. rewrite I2, I1. unfold referenced_by. split.
      * intros [[I|C]|(tc & Itc & param & Ip & E)]; [auto | auto |].
        right. right. exists calls, tc, param. auto.
      * intros [I|[C|(calls' & tc & param & Ec & Itc & Ip & E)]]; [auto | auto |].
        rewrite Tc in Ec. inversion Ec; subst calls'. right. exists tc. eauto.
  - split; [exact N1|]. intros r. rewrite I1. unfold referenced_by. split.
    + intros [I|C]; auto.
    + intros [I|[C|(calls' & tc & param & Ec & _)]]; [auto | auto | congruence].
Qed.

(** X8: the file references of a summary hold no path twice, and a path is
    among them exactly when some message of the transcript contributes it: as
    a match of the path pattern in its content that contains a dot and does
    not end in a slash, or as a non-empty string under [FilePath],
    [DirectoryPath], [TargetFile] or [AbsolutePath] in the arguments of one of
    its tool calls. *)
Theorem file_references_are_distinct :
  forall (w : World) (h : ConversationManager.History),
    NoDup (ConversationManager.collect_fileReferences w h) /\
    forall r, In r (ConversationManager.collect_fileReferences w h) <->
              exists message, In message h /\ referenced_by w message r.
Proof.
  intros w h. unfold collect_fileReferences.
  destruct (fold_adds _ (references_step w) (referenced_by w)
              (references_step_spec w) h [] (NoDup_nil _)) as [N I].
  split; [exact N|]. intros r. rewrite I. split.
  - intros [[]|E]. exact E.
  - auto.
Qed.

End SummaryRequest.

(** ** The order in which tools are run *)

Section Dispatch.

Import ToolCallProcessorService.

(** Whether the argument text of a call parses. *)
Definition parses (w : World) (toolCall : ToolCall) : bool :=
  match JSON_parse_error w (fn_arguments (tc_function toolCall)) with
  | None => true
  | Some _ => false
  end.

Definition name_and_arguments (toolCall : ToolCall) : string * string :=
  (fn_name (tc_function toolCall), fn_arguments (tc_function toolCall)).

Lemma process_all_executions (w : World) (toolCalls : list ToolCall) :
  forall st,
    tool_executions (fst (process_all w st toolCalls)) =
    tool_executions st ++ map name_and_arguments (filter (parses w) toolCalls).
Proof.
  induction toolCalls as [|tc rest IH]; intros st.
  - simpl. rewrite app_nil_r. reflexivity.
  - cbn [process_all].
    destruct (process_one w st tc) as [st1 r] eqn:P1.
    specialize (IH st1).
    destruct (process_all w st1 rest) as [st2 rs].
    cbn [fst] in *. rewrite IH.
    pose proof (f_equal fst P1) as E. cbn [fst] in E. rewrite <- E.
    unfold process_one, parses. cbn [filter].
    destruct (JSON_parse_error w (fn_arguments (tc_function tc))); cbn [fst tool_executions].
    + reflexivity.
    + rewrite <- app_assoc. reflexivity.
Qed.

(** X22: [processToolCalls] hands the calls to the executor one after the
    other in call order, each under its name and with its argument text, and
    leaves out exactly the calls whose arguments do not parse; a call that
    fails or times out does not stop the ones after it.  The transcript, the
    requests sent and the prompts shown are not touched. *)
Theorem tools_run_in_call_order :
  forall (w : World) (st : State) (toolCalls : list ToolCall) (names : list string),
    let st' := fst (processToolCalls w st toolCalls names) in
    tool_executions st' =
      tool_executions st ++ map name_and_arguments (filter (parses w) toolCalls) /\
    conversationHistory st' = conversationHistory st /\
    chat_requests st' = chat_requests st /\
    prompts_shown st' = prompts_shown st.
Proof.
  intros w st toolCalls names. cbv zeta.
  destruct (processToolCalls_results w st toolCalls names) as [_ E]. rewrite E.
  split; [apply process_all_executions | apply process_all_frame].
Qed.

End Dispatch.

(** * Further properties of the agent loop *)

Section LoopRounds.

Import ConversationManager AgentLoopService.

(** ** A transport that keeps failing *)

Section FailingTransport.

Variable w : World.
Variable e : Js.Thrown.
Hypothesis always_fails :
  forall n messages, createChatCompletion w n messages = Js.Threw e.
Hypothesis not_a_validation_error : is_validation_error e = false.

Lemma iteration_failing (st : State) (v : LoopVars) :
  exists st',
    iteration w st v =
      (st',
       mkVars (loopComplete v) (forceExitLoop v) (finalResponse v)
              (Some (Js.as_Error e)) (iterations v),
       false) /\
    tool_executions st' = tool_executions st /\
    conversationHistory st' = conversationHistory (fst (build_request w st (lastError v))) /\
    List.length (chat_requests st) < List.length (chat_requests st').
Proof.
  unfold iteration, attempt.
  pose proof (build_request_frame w st (lastError v)) as Fr.
  destruct (build_request w st (lastError v)) as [st1 messages] eqn:B.
  cbn [fst] in Fr. destruct Fr as (Ft & _ & _).
  assert (Mono : List.length (chat_requests st) <= List.length (chat_requests st1)).
  { pose proof (f_equal fst B) as B1. cbn [fst] in B1. rewrite <- B1.
    unfold build_request.
    destruct (MessageFormatterService.shouldSummarizeHistory _ _ _ && _); [|cbn; lia].
    destruct (firstn _ _); [cbn; lia|].
    destruct (summarizeConversationHistory w _) as [st2 summary] eqn:Sm.
    cbn.
    pose proof (f_equal fst Sm) as S1. cbn [fst] in S1. rewrite <- S1.
    unfold summarizeConversationHistory. cbn [conversationHistory with_history].
    destruct (addAll _ _); [cbn; lia|].
    cbn [chat_requests]. destruct (createChatCompletion w _ _); cbn; rewrite length_app; lia. }
  unfold call_transport. rewrite always_fails, not_a_validation_error.
  eexists. split; [reflexivity|]. cbn.
  split; [exact Ft|]. split; [reflexivity|]. rewrite length_app. cbn. lia.
Qed.

Lemma while_loop_failing :
  forall fuel st v,
    loopComplete v = false -> forceExitLoop v = false ->
    iterations v + fuel = MAX_ITERATIONS ->
    (fuel = 0 -> lastError v = Some (Js.as_Error e)) ->
    let r := while_loop w fuel st v in
    loopComplete (snd r) = false /\
    lastError (snd r) = Some (Js.as_Error e) /\
    iterations (snd r) = MAX_ITERATIONS /\
    tool_executions (fst r) = tool_executions st /\
    List.length (chat_requests st) + fuel <= List.length (chat_requests (fst r)).
Proof.
  induction fuel as [|fuel IH]; intros st v C F I L; cbv zeta.
  - rewrite while_loop_exit.
    + cbn [fst snd]. repeat split; auto; lia.
    + unfold loop_condition. rewrite C, F. cbn [negb andb].
      apply Nat.ltb_ge. lia.
  - rewrite while_loop_unfold.
    2:{ unfold loop_condition. rewrite C, F. cbn [negb andb]. apply Nat.ltb_lt. lia. }
    destruct (iteration_failing st (increment v)) as (st' & It & Te & _ & Rq).
    rewrite It. cbv beta iota.
    specialize (IH st'
                  (mkVars (loopComplete (increment v)) (forceExitLoop (increment v))
                          (finalResponse (increment v)) (Some (Js.as_Error e))
                          (iterations (increment v)))).
    cbv zeta in IH.
    assert (I' : S (iterations v) + fuel = MAX_ITERATIONS) by lia.
    destruct (IH C F I' (fun _ => eq_refl)) as (R1 & R2 & R3 & R4 & R5).
    split; [exact R1|]. split; [exact R2|]. split; [exact R3|].
    split; [rewrite R4; exact Te|]. lia.
Qed.

End FailingTransport.

(** X9: when every request to the transport fails with an error that is not one
    of the protocol violations, [executeAgentLoop] runs all ten rounds, sends
    at least ten requests, dispatches no tool, and resolves with the apology
    carrying the message of that error. *)
Theorem failing_transport_ends_in_apology :
  forall (w : World) (st : State) (query : string) (e : Js.Thrown),
    valid (validateApiKey w) = true ->
    (forall n messages, createChatCompletion w n messages = Js.Threw e) ->
    is_validation_error e = false ->
    let r := executeAgentLoop w st query in
    snd r =
      Js.Ok ("I'm sorry, but I encountered an issue while processing your request. Error: " ++
             Js.message_or_string e)%string /\
    iterations (snd (run_loop w st query)) = MAX_ITERATIONS /\
    tool_executions (fst r) = tool_executions st /\
    List.length (chat_requests st) + MAX_ITERATIONS <= List.length (chat_requests (fst r)).
Proof.
  intros w st query e V A N. cbv zeta.
  unfold executeAgentLoop. rewrite V. cbn [negb].
  unfold run_loop.
  set (st1 := with_history st
                (addToConversationHistory (conversationHistory st) (user_msg query))).
  destruct (while_loop_failing w e A N MAX_ITERATIONS st1 initial_vars
              eq_refl eq_refl eq_refl ltac:(discriminate)) as (R1 & R2 & R3 & R4 & R5).
  destruct (while_loop w MAX_ITERATIONS st1 initial_vars) as [st' v].
  cbn [fst snd] in *.
  split.
  - unfold response_text. rewrite R1. cbn [negb]. unfold exceeded_message. rewrite R2.
    destruct e; reflexivity.
  - split; [exact R3|]. split; [exact R4 | exact R5].
Qed.

(** ** A round that ends the loop with a plain answer *)

Lemma generateFinalResponse_plain (m : ConversationMessage) :
  tool_calls m = None \/ tool_calls m = Some [] ->
  ResponseGeneratorService.generateFinalResponse m =
  match content m with Some text => text | None => "" end.
Proof.
  unfold ResponseGeneratorService.generateFinalResponse, content_text.
  intros [E|E]; rewrite E; destruct (content m) as [[|c text]|]; reflexivity.
Qed.

(** X10: when the assistant message of a round carries no tool call, the
    message is stored, no tool is dispatched, and the loop ends in that round
    with the content of the message as the text to return (the empty text when
    there is none). *)
Theorem plain_answer_ends_the_loop :
  forall (w : World) (fuel : nat) (st : State) (v : LoopVars)
         (st1 : State) (messages : list ConversationMessage)
         (m : ConversationMessage) (others : list ConversationMessage),
    loop_condition v = true ->
    build_request w st (lastError v) = (st1, messages) ->
    createChatCompletion w (List.length (chat_requests st1)) messages =
      Js.Ok (mkResponse (m :: others)) ->
    tool_calls m = None \/ tool_calls m = Some [] ->
    exists st' v',
      while_loop w (S fuel) st v = (st', v') /\
      conversationHistory st' = addToConversationHistory (conversationHistory st1) m /\
      chat_requests st' = chat_requests st1 ++ [messages] /\
      tool_executions st' = tool_executions st /\
      iterations v' = S (iterations v) /\
      loopComplete v' = true /\
      response_text v' = match content m with Some text => text | None => "" end.
Proof.
  intros w fuel st v st1 messages m others C B T Tc.
  pose proof (build_request_frame w st (lastError v)) as Fr.
  rewrite B in Fr. cbn [fst] in Fr. destruct Fr as (Fr & _).
  assert (It : iteration w st (increment v) =
               (with_history
                  (mkState (conversationHistory st1) (chat_requests st1 ++ [messages])
                           (tool_executions st1) (prompts_shown st1))
                  (addToConversationHistory (conversationHistory st1) m),
                mkVars true (forceExitLoop v)
                       (ResponseGeneratorService.generateFinalResponse m)
                       (lastError v) (S (iterations v)),
                false)).
  { unfold iteration, attempt. cbn [lastError increment].
    rewrite B. unfold call_transport. rewrite T. cbn [choices].
    unfold interpret. destruct Tc as [Tc|Tc]; rewrite Tc; reflexivity. }
  eexists. eexists. split.
  { rewrite while_loop_unfold by exact C. rewrite It.
    apply while_loop_exit. apply loop_condition_complete. reflexivity. }
  cbn. rewrite Fr. repeat split.
  apply generateFinalResponse_plain. exact Tc.
Qed.

(** ** A round that runs the calls of the message *)

Lemma process_all_ids (w : World) (toolCalls : list ToolCall) :
  forall st,
    map res_tool_call_id (snd (ToolCallProcessorService.process_all w st toolCalls)) =
    map tc_id toolCalls.
Proof.
  induction toolCalls as [|tc rest IH]; intros st; [reflexivity|].
  cbn [ToolCallProcessorService.process_all].
  destruct (ToolCallProcessorService.process_one w st tc) as [st1 r] eqn:P1.
  specialize (IH st1).
  destruct (ToolCallProcessorService.process_all w st1 rest) as [st2 rs].
  cbn [snd map] in *. rewrite IH. f_equal.
  pose proof (f_equal snd P1) as E. cbn [snd] in E. rewrite <- E.
  unfold ToolCallProcessorService.process_one.
  destruct (JSON_parse_error w (fn_arguments (tc_function tc))); reflexivity.
Qed.

Lemma find_is_done_none (calls : list ToolCall) :
  (forall c, In c calls -> fn_name (tc_function c) <> "done") ->
  find is_done calls = None.
Proof.
  induction calls as [|c calls IH]; intros H; [reflexivity|].
  simpl. unfold is_done at 1.
  destruct (String.eqb (fn_name (tc_function c)) "done") eqn:E.
  - apply String.eqb_eq in E. exfalso. apply (H c (or_introl eq_refl) E).
  - apply IH. intros c' I. apply H. right. exact I.
Qed.

(** The parser's error on the first call whose arguments do not parse. *)
Fixpoint first_unparsable (w : World) (toolCalls : list ToolCall) : option Js.Error :=
  match toolCalls with
  | [] => None
  | toolCall :: rest =>
      match JSON_parse_error w (fn_arguments (tc_function toolCall)) with
      | Some error => Some error
      | None => first_unparsable w rest
      end
  end.

Lemma first_failure (w : World) (toolCalls : list ToolCall) :
  forall st,
    option_map output
      (find (fun r => negb (success r))
            (snd (ToolCallProcessorService.process_all w st toolCalls))) =
    option_map (fun error => ("Error: " ++ Js.err_message error)%string)
               (first_unparsable w toolCalls).
Proof.
  induction toolCalls as [|tc rest IH]; intros st; [reflexivity|].
  cbn [ToolCallProcessorService.process_all first_unparsable].
  unfold ToolCallProcessorService.process_one.
  destruct (JSON_parse_error w (fn_arguments (tc_function tc))) as [error|].
  - destruct (ToolCallProcessorService.process_all w st rest) as [st2 rs].
    reflexivity.
  - match goal with
    | |- context [ToolCallProcessorService.process_all w ?s rest] =>
        specialize (IH s);
        destruct (ToolCallProcessorService.process_all w s rest) as [st2 rs]
    end.
    cbn [snd find success negb] in *. exact IH.
Qed.

(** X11: a round whose assistant message carries tool calls, none of them
    [done], stores the message and then one tool message per call, in call
    order, under the call's id and with the output of the call's result,
    before the next round starts.  Each result is the one [processToolCalls]
    gives for its call: not a success, with ["Error: "] and the parser's
    message, when the arguments of the call do not parse, and a success with
    what the tool settled with otherwise.  The loop is not completed by the
    round, and [lastError] becomes ["Tool execution failed: Error: "] with the
    parser's message for the first call whose arguments do not parse; when all
    of them parse it stays as it was. *)
Theorem tools_round_answers_every_call :
  forall (w : World) (st : State) (v : LoopVars)
         (st1 : State) (messages : list ConversationMessage)
         (m : ConversationMessage) (others : list ConversationMessage)
         (c : ToolCall) (calls : list ToolCall),
    build_request w st (lastError v) = (st1, messages) ->
    createChatCompletion w (List.length (chat_requests st1)) messages =
      Js.Ok (mkResponse (m :: others)) ->
    tool_calls m = Some (c :: calls) ->
    (forall d, In d (c :: calls) -> fn_name (tc_function d) <> "done") ->
    exists st' v' results,
      iteration w st v = (st', v', false) /\
      List.length results = List.length (c :: calls) /\
      (forall i toolCall r,
          nth_error (c :: calls) i = Some toolCall ->
          nth_error results i = Some r ->
          result_of_call w
            (List.length (tool_executions st1) + dispatched_before w i (c :: calls))
            toolCall r) /\
      conversationHistory st' =
        addAll (addToConversationHistory (conversationHistory st1) m)
               (map (fun r => tool_msg (res_tool_call_id r) (output r)) results) /\
      chat_requests st' = chat_requests st1 ++ [messages] /\
      loopComplete v' = loopComplete v /\
      finalResponse v' = finalResponse v /\
      lastError v' =
        match first_unparsable w (c :: calls) with
        | Some error =>
            Some (Js.newError ("Tool execution failed: Error: " ++ Js.err_message error))
        | None => lastError v
        end.
Proof.
  intros w st v st1 messages m others c calls B T Tc Nd.
  set (st2 := with_history
                (mkState (conversationHistory st1) (chat_requests st1 ++ [messages])
                         (tool_executions st1) (prompts_shown st1))
                (addToConversationHistory (conversationHistory st1) m)).
  pose proof (process_all_frame w (c :: calls) st2) as (Fh & Fr & _).
  pose proof (first_failure w (c :: calls) st2) as Ff.
  eexists. eexists.
  exists (snd (ToolCallProcessorService.process_all w st2 (c :: calls))).
  split.
  { unfold iteration, attempt. rewrite B. unfold call_transport. rewrite T.
    cbn [choices]. unfold interpret. rewrite Tc.
    rewrite (find_is_done_none (c :: calls) Nd).
    cbn [conversationHistory]. fold st2. rewrite tools_branch_spec.
    reflexivity. }
  split; [apply process_all_length|].
  split.
  { intros i toolCall r Hc Hr.
    apply (process_all_results w (c :: calls) st2 i toolCall r Hc Hr). }
  split.
  { unfold append_results. cbn [conversationHistory with_history]. rewrite Fh.
    reflexivity. }
  split.
  { unfold append_results. cbn [chat_requests with_history]. rewrite Fr. reflexivity. }
  destruct (find (fun r => negb (success r))
                 (snd (ToolCallProcessorService.process_all w st2 (c :: calls))))
    as [failed|];
    destruct (first_unparsable w (c :: calls)) as [error|];
    cbn [option_map] in Ff; try discriminate Ff; repeat split.
  cbn [lastError]. injection Ff as ->. reflexivity.
Qed.

(** ** The request of a round that summarises *)

Lemma addAll_short (msgs : list ConversationMessage) :
  forall h,
    List.length (h ++ msgs) <= maxHistoryLength -> addAll h msgs = h ++ msgs.
Proof.
  induction msgs as [|m msgs IH]; intros h L; unfold addAll in *; simpl.
  - rewrite app_nil_r. reflexivity.
  - assert (E : addToConversationHistory h m = h ++ [m]).
    { unfold addToConversationHistory. apply safelyTruncate_short.
      rewrite !length_app in *. simpl in *. lia. }
    rewrite E, IH; rewrite <- app_assoc; [reflexivity | exact L].
Qed.

(** X12: a round summarises exactly when the size test holds and the
    transcript has more than four messages.  Its request is then the system
    prompt, the summary of the older messages as one assistant message, and
    the last four messages as they are; a note about [lastError] is not part
    of it.  The store is refilled by adding the original messages one by one,
    which gives the original transcript back whenever it has at most
    [maxHistoryLength] messages.  Otherwise the request is the formatted
    transcript and the state is untouched. *)
Theorem request_of_a_summarising_round :
  forall (w : World) (st : State) (lastError : option Js.Error),
    let h := conversationHistory st in
    let r := build_request w st lastError in
    if MessageFormatterService.shouldSummarizeHistory h MAX_PAYLOAD_SIZE MAX_MESSAGES &&
       (4 <? List.length h)
    then
      snd r =
        [system_msg (withProjectPathSystemPrompt w);
         assistant_text
           (summary_text w
              (snd (summarizeConversationHistory w
                      (with_history st (addAll [] (firstn (List.length h - 4) h))))))] ++
        skipn (List.length h - 4) h /\
      conversationHistory (fst r) = addAll [] h /\
      (List.length h <= maxHistoryLength -> conversationHistory (fst r) = h)
    else
      r = (st, MessageFormatterService.formatMessages
                 (withProjectPathSystemPrompt w) h lastError).
Proof.
  intros w st e. cbv zeta. unfold build_request.
  destruct (MessageFormatterService.shouldSummarizeHistory
              (conversationHistory st) MAX_PAYLOAD_SIZE MAX_MESSAGES) eqn:Sh;
    [|reflexivity].
  cbn [andb].
  destruct (4 <? List.length (conversationHistory st)) eqn:L4.
  - apply Nat.ltb_lt in L4.
    assert (L2 : (2 <? List.length (conversationHistory st)) = true)
      by (apply Nat.ltb_lt; lia).
    rewrite L2.
    destruct (firstn (List.length (conversationHistory st) - 4) (conversationHistory st))
      as [|x older] eqn:F.
    { exfalso. apply (f_equal (@List.length _)) in F.
      rewrite length_firstn in F. simpl in F. lia. }
    unfold clearConversationHistory.
    pose proof (summarize_frame w (with_history st (addAll [] (x :: older)))) as Fr.
    destruct (summarizeConversationHistory w (with_history st (addAll [] (x :: older))))
      as [st2 summary].
    cbn [fst snd conversationHistory with_history] in *.
    split; [reflexivity|]. split; [reflexivity|].
    intros Le. apply (addAll_short (conversationHistory st) []). exact Le.
  - apply Nat.ltb_ge in L4.
    destruct (2 <? List.length (conversationHistory st)); [|reflexivity].
    replace (firstn (List.length (conversationHistory st) - 4) (conversationHistory st))
      with (@nil ConversationMessage); [reflexivity|].
    replace (List.length (conversationHistory st) - 4) with 0 by lia. reflexivity.
Qed.

End LoopRounds.

(** ** The pairing invariant across a round *)

Section RoundPairing.

Import ConversationManager AgentLoopService.

Lemma tool_run_app_stop (post X : list ConversationMessage) :
  tool_run X = [] -> tool_run (post ++ X) = tool_run post.
Proof.
  intros E. induction post as [|x post IH]; simpl; [exact E|].
  destruct (is_tool x); [rewrite IH; reflexivity | reflexivity].
Qed.

Lemma pairing_from_extend (h : list ConversationMessage) :
  forall acc X,
    tool_run X = [] ->
    pairing_from acc (h ++ X) = pairing_from acc h && pairing_from (acc ++ h) X.
Proof.
  induction h as [|x h IH]; intros acc X E.
  - simpl. rewrite app_nil_r. reflexivity.
  - cbn [app pairing_from]. rewrite (IH (acc ++ [x]) X E).
    rewrite <- app_assoc. cbn [app].
    unfold paired_at, responses_in_run. rewrite (tool_run_app_stop h X E).
    rewrite andb_assoc. reflexivity.
Qed.

(** The tool messages of a batch of results. *)
Definition tool_messages (results : list ToolCallResult) : list ConversationMessage :=
  map (fun r => tool_msg (res_tool_call_id r) (output r)) results.

Lemma tool_messages_run (results : list ToolCallResult) :
  tool_run (tool_messages results) = tool_messages results.
Proof.
  induction results as [|r results IH]; [reflexivity|].
  change (tool_messages (r :: results))
    with (tool_msg (res_tool_call_id r) (output r) :: tool_messages results).
  cbn [tool_run is_tool tool_msg role Role_eqb]. rewrite IH. reflexivity.
Qed.

Lemma tool_messages_answers (c : string) (results : list ToolCallResult) :
  List.length (filter (fun m => answers m c) (tool_messages results)) =
  List.length (filter (fun x => String.eqb x c) (map res_tool_call_id results)).
Proof.
  induction results as [|r results IH]; [reflexivity|].
  change (tool_messages (r :: results))
    with (tool_msg (res_tool_call_id r) (output r) :: tool_messages results).
  cbn [filter map].
  replace (answers (tool_msg (res_tool_call_id r) (output r)) c)
    with (String.eqb (res_tool_call_id r) c) by reflexivity.
  destruct (String.eqb (res_tool_call_id r) c); cbn [List.length]; rewrite IH; reflexivity.
Qed.

Lemma count_one (c : string) (ids : list string) :
  NoDup ids -> In c ids ->
  List.length (filter (fun x => String.eqb x c) ids) = 1.
Proof.
  intros N I.
  pose proof (NoDup_count _ (fun x : string => x) c ids) as Le.
  rewrite map_id in Le. specialize (Le N).
  assert (Ge : 1 <= List.length (filter (fun x => String.eqb x c) ids)).
  { assert (Ic : In c (filter (fun x => String.eqb x c) ids))
      by (apply filter_In; split; [exact I | apply String.eqb_refl]).
    destruct (filter (fun x => String.eqb x c) ids); [destruct Ic | simpl; lia]. }
  lia.
Qed.

(** A paired transcript followed by an assistant message with fresh and
    distinct call ids and one tool message per call is paired. *)
Lemma answered_calls_paired (h : list ConversationMessage) (m : ConversationMessage)
    (calls : list ToolCall) (results : list ToolCallResult) :
  pairing_invariant h = true ->
  role m = assistant ->
  tool_calls m = Some calls ->
  NoDup (map tc_id calls) ->
  (forall tc, In tc calls -> earlier_calls h (tc_id tc) = 0) ->
  map res_tool_call_id results = map tc_id calls ->
  pairing_invariant (h ++ m :: tool_messages results) = true.
Proof.
  intros P R Tc N Fresh Ids. unfold pairing_invariant in *.
  assert (Cm : calls_of m = calls).
  { unfold calls_of, calls_list. rewrite R, Tc. reflexivity. }
  assert (Tm : is_tool m = false) by (unfold is_tool; rewrite R; reflexivity).
  rewrite pairing_from_extend by (simpl; rewrite Tm; reflexivity).
  rewrite P. cbn [andb app pairing_from].
  apply andb_true_iff. split.
  - unfold paired_at. rewrite Tm, Cm. cbn [andb].
    apply forallb_forall. intros tc Itc. apply Nat.eqb_eq.
    unfold responses_in_run. rewrite tool_messages_run, tool_messages_answers, Ids.
    apply count_one; [exact N | apply in_map; exact Itc].
  - rewrite <- (app_nil_r (tool_messages results)).
    rewrite pairing_from_tools; [reflexivity|].
    intros s Is. unfold tool_messages in Is. apply in_map_iff in Is.
    destruct Is as (r & <- & Ir). split; [reflexivity|].
    exists (res_tool_call_id r). split; [reflexivity|].
    assert (Ic : In (res_tool_call_id r) (map tc_id calls))
      by (rewrite <- Ids; apply in_map; exact Ir).
    apply in_map_iff in Ic. destruct Ic as (tc & E & Itc).
    rewrite <- E, earlier_calls_app, (Fresh tc Itc). simpl.
    unfold earlier_calls. simpl. rewrite app_nil_r, Cm.
    pose proof (count_one (tc_id tc) (map tc_id calls) N (in_map tc_id _ _ Itc)) as C1.
    rewrite <- C1. clear. induction calls as [|x calls IH]; simpl; [reflexivity|].
    destruct (String.eqb (tc_id x) (tc_id tc)); simpl; rewrite IH; reflexivity.
Qed.

(** X23: a round that runs the calls of an assistant message keeps the pairing
    invariant: when the stored transcript satisfies it, the call ids of the
    message are distinct and new to the transcript, none of the calls is
    [done], and the transcript has room for the message and its tool messages
    under [maxHistoryLength], the transcript after the round satisfies it. *)
Theorem tools_round_keeps_pairing :
  forall (w : World) (st : State) (v : LoopVars)
         (st1 : State) (messages : list ConversationMessage)
         (m : ConversationMessage) (others : list ConversationMessage)
         (c : ToolCall) (calls : list ToolCall),
    build_request w st (lastError v) = (st1, messages) ->
    createChatCompletion w (List.length (chat_requests st1)) messages =
      Js.Ok (mkResponse (m :: others)) ->
    role m = assistant ->
    tool_calls m = Some (c :: calls) ->
    (forall d, In d (c :: calls) -> fn_name (tc_function d) <> "done") ->
    pairing_invariant (conversationHistory st1) = true ->
    NoDup (map tc_id (c :: calls)) ->
    (forall tc, In tc (c :: calls) ->
                earlier_calls (conversationHistory st1) (tc_id tc) = 0) ->
    List.length (conversationHistory st1) + 1 + List.length (c :: calls) <=
      maxHistoryLength ->
    pairing_invariant (conversationHistory (fst (fst (iteration w st v)))) = true.
Proof.
  intros w st v st1 messages m others c calls B T R Tc Nd P N Fresh Len.
  set (st2 := with_history
                (mkState (conversationHistory st1) (chat_requests st1 ++ [messages])
                         (tool_executions st1) (prompts_shown st1))
                (addToConversationHistory (conversationHistory st1) m)).
  set (results := snd (ToolCallProcessorService.process_all w st2 (c :: calls))).
  assert (It : conversationHistory (fst (fst (iteration w st v))) =
               addAll (addToConversationHistory (conversationHistory st1) m)
                      (tool_messages results)).
  { unfold iteration, attempt. rewrite B. unfold call_transport. rewrite T.
    cbn [choices]. unfold interpret. rewrite Tc.
    rewrite (find_is_done_none (c :: calls) Nd).
    cbn [conversationHistory]. fold st2. rewrite tools_branch_spec.
    cbn [fst]. unfold append_results. cbn [conversationHistory with_history].
    destruct (process_all_frame w (c :: calls) st2) as (Fh & _). rewrite Fh.
    reflexivity. }
  assert (Ids : map res_tool_call_id results = map tc_id (c :: calls))
    by apply process_all_ids.
  assert (Lr : List.length results = List.length (c :: calls)).
  { rewrite <- (length_map res_tool_call_id), Ids. apply length_map. }
  rewrite It.
  assert (A1 : addToConversationHistory (conversationHistory st1) m =
               conversationHistory st1 ++ [m]).
  { unfold addToConversationHistory. apply safelyTruncate_short.
    rewrite length_app. simpl. lia. }
  rewrite A1, addAll_short.
  - rewrite <- app_assoc. cbn [app].
    apply (answered_calls_paired _ m (c :: calls) results P R Tc N Fresh Ids).
  - rewrite !length_app. unfold tool_messages. rewrite length_map, Lr. simpl in *. lia.
Qed.

(** X24: a round that ends on [done] answers that call only.  When the
    assistant message also carries a call with another id, that call has no
    tool message in the stored transcript, which therefore does not satisfy
    the pairing invariant after the round (the transcript having room for the
    two new messages). *)
Theorem done_round_leaves_calls_unanswered :
  forall (w : World) (st : State) (v : LoopVars)
         (st1 : State) (messages : list ConversationMessage)
         (m : ConversationMessage) (others : list ConversationMessage)
         (calls : list ToolCall) (d x : ToolCall),
    build_request w st (lastError v) = (st1, messages) ->
    createChatCompletion w (List.length (chat_requests st1)) messages =
      Js.Ok (mkResponse (m :: others)) ->
    role m = assistant ->
    tool_calls m = Some calls ->
    find is_done calls = Some d ->
    In x calls ->
    tc_id x <> tc_id d ->
    List.length (conversationHistory st1) + 2 <= maxHistoryLength ->
    let st' := fst (fst (iteration w st v)) in
    (exists text,
        conversationHistory st' =
          conversationHistory st1 ++ [m; tool_msg (tc_id d) text]) /\
    pairing_invariant (conversationHistory st') = false.
Proof.
  intros w st v st1 messages m others calls d x B T R Tc F Ix Nx Len. cbv zeta.
  set (st2 := with_history
                (mkState (conversationHistory st1) (chat_requests st1 ++ [messages])
                         (tool_executions st1) (prompts_shown st1))
                (addToConversationHistory (conversationHistory st1) m)).
  set (text := output (snd (ToolCallProcessorService.process_one w st2 d))).
  assert (It : conversationHistory (fst (fst (iteration w st v))) =
               conversationHistory st1 ++ [m; tool_msg (tc_id d) text]).
  { unfold iteration, attempt. rewrite B. unfold call_transport. rewrite T.
    cbn [choices]. unfold interpret. rewrite Tc.
    destruct calls as [|c0 calls]; [destruct Ix|].
    rewrite F. cbn [conversationHistory]. fold st2. rewrite done_branch_spec.
    cbn [fst conversationHistory with_history]. fold text.
    assert (A1 : addToConversationHistory (conversationHistory st1) m =
                 conversationHistory st1 ++ [m]).
    { unfold addToConversationHistory. apply safelyTruncate_short.
      rewrite length_app. simpl. lia. }
    unfold st2. cbn [conversationHistory with_history]. rewrite A1.
    unfold addToConversationHistory. rewrite safelyTruncate_short.
    - rewrite <- app_assoc. reflexivity.
    - rewrite !length_app. simpl. lia. }
  split; [exists text; exact It|].
  rewrite It. unfold pairing_invariant.
  assert (Tm : is_tool m = false) by (unfold is_tool; rewrite R; reflexivity).
  rewrite pairing_from_extend by (simpl; rewrite Tm; reflexivity).
  cbn [pairing_from].
  replace (paired_at ([] ++ conversationHistory st1) m [tool_msg (tc_id d) text])
    with false; [rewrite andb_false_r; reflexivity|].
  symmetry. unfold paired_at. rewrite Tm. cbn [andb].
  assert (Cm : calls_of m = calls)
    by (unfold calls_of, calls_list; rewrite R, Tc; reflexivity).
  rewrite Cm.
  destruct (forallb (fun c0 => responses_in_run [tool_msg (tc_id d) text] (tc_id c0) =? 1)
                    calls) eqn:Fa; [|reflexivity].
  rewrite forallb_forall in Fa. specialize (Fa x Ix).
  destruct (String.eqb (tc_id d) (tc_id x)) eqn:E.
  - apply String.eqb_eq in E. congruence.
  - unfold responses_in_run, answers in Fa. cbn in Fa. rewrite E in Fa.
    discriminate Fa.
Qed.

End RoundPairing.

(** * Properties of the services around the loop *)

(** ** Strings *)

Section Strings.

Local Open Scope string_scope.

Lemma append_nil_r (s : string) : s ++ "" = s.
Proof. induction s as [|c s IH]; simpl; [reflexivity | rewrite IH; reflexivity]. Qed.

Lemma append_assoc (a b c : string) : (a ++ b) ++ c = a ++ (b ++ c).
Proof. induction a as [|x a IH]; simpl; [reflexivity | rewrite IH; reflexivity]. Qed.

End Strings.

(** ** Reassembling streamed tool calls *)

Section Streaming.

Import AgentLoopStreaming.

Definition call_at (k : nat) (tool_calls : list BufferedToolCall)
    : option BufferedToolCall :=
  find (fun tc => buffered_index tc =? k) tool_calls.

(** The name and argument parts of the chunks for position [k], as they came. *)
Definition name_parts (k : nat) (chunks : list ToolCallChunk) : list (option string) :=
  flat_map (fun chunk =>
              if chunk_index chunk =? k then
                match chunk_function chunk with
                | Some f => [chunk_name f]
                | None => []
                end
              else [])
           chunks.

Definition argument_parts (k : nat) (chunks : list ToolCallChunk) : list (option string) :=
  flat_map (fun chunk =>
              if chunk_index chunk =? k then
                match chunk_function chunk with
                | Some f => [chunk_arguments f]
                | None => []
                end
              else [])
           chunks.

Definition joined (s : string) (parts : list (option string)) : string :=
  fold_left append_part parts s.

Lemma call_at_merge_into (k : nat) (chunk : ToolCallChunk) (calls : list BufferedToolCall) :
  call_at k (merge_into calls chunk) =
  if chunk_index chunk =? k
  then option_map (fun tc => merge_chunk tc chunk) (call_at k calls)
  else call_at k calls.
Proof.
  unfold call_at. induction calls as [|tc calls IH]; simpl.
  - destruct (chunk_index chunk =? k); reflexivity.
  - destruct (buffered_index tc =? chunk_index chunk) eqn:E.
    + apply Nat.eqb_eq in E. simpl.
      assert (I : buffered_index (merge_chunk tc chunk) = buffered_index tc)
        by (unfold merge_chunk; destruct (chunk_function chunk); reflexivity).
      rewrite I, E. destruct (chunk_index chunk =? k); reflexivity.
    + simpl. destruct (buffered_index tc =? k) eqn:K.
      * apply Nat.eqb_eq in K. subst k. rewrite Nat.eqb_sym, E. reflexivity.
      * exact IH.
Qed.

Lemma merge_chunk_index (tc : BufferedToolCall) (chunk : ToolCallChunk) :
  buffered_index (merge_chunk tc chunk) = buffered_index tc.
Proof. unfold merge_chunk. destruct (chunk_function chunk); reflexivity. Qed.

Lemma call_at_app_none (k : nat) (calls : list BufferedToolCall) (tc : BufferedToolCall) :
  call_at k (calls ++ [tc]) =
  match call_at k calls with
  | Some found => Some found
  | None => if buffered_index tc =? k then Some tc else None
  end.
Proof.
  unfold call_at. induction calls as [|c calls IH]; simpl.
  - destruct (buffered_index tc =? k); reflexivity.
  - destruct (buffered_index c =? k); [reflexivity | exact IH].
Qed.

(** Looking a position up after one chunk. *)
Lemma call_at_process_chunk (k : nat) (chunk : ToolCallChunk) (calls : list BufferedToolCall) :
  call_at k (process_chunk calls chunk) =
  if chunk_index chunk =? k then
    Some (merge_chunk (match call_at k calls with
                       | Some tc => tc
                       | None => opened calls chunk
                       end) chunk)
  else call_at k calls.
Proof.
  unfold process_chunk.
  destruct (find (fun tc => buffered_index tc =? chunk_index chunk) calls) as [tc|] eqn:F.
  - rewrite call_at_merge_into.
    destruct (chunk_index chunk =? k) eqn:E; [|reflexivity].
    apply Nat.eqb_eq in E. subst k. unfold call_at. rewrite F. reflexivity.
  - rewrite call_at_app_none, merge_chunk_index. cbn [opened buffered_index].
    destruct (chunk_index chunk =? k) eqn:E.
    + apply Nat.eqb_eq in E. subst k. unfold call_at. rewrite F. reflexivity.
    + destruct (call_at k calls); reflexivity.
Qed.

Definition text_of (part : option string) : string :=
  match part with Some text => text | None => "" end.

(** The parts put one after the other. *)
Definition texts (parts : list (option string)) : string :=
  fold_right (fun part rest => (text_of part ++ rest)%string) "" parts.

Lemma append_part_text (s : string) (part : option string) :
  append_part s part = (s ++ text_of part)%string.
Proof.
  unfold append_part, text_of. destruct part as [[|c text]|]; simpl;
    rewrite ?append_nil_r; reflexivity.
Qed.

Lemma joined_texts (parts : list (option string)) :
  forall s, joined s parts = (s ++ texts parts)%string.
Proof.
  unfold joined. induction parts as [|p parts IH]; intros s; simpl.
  - rewrite append_nil_r. reflexivity.
  - rewrite IH, append_part_text, append_assoc. reflexivity.
Qed.

Definition name_of (tc : BufferedToolCall) : string :=
  fn_name (tc_function (buffered_call tc)).

Definition arguments_of (tc : BufferedToolCall) : string :=
  fn_arguments (tc_function (buffered_call tc)).

Lemma merge_chunk_parts (tc : BufferedToolCall) (chunk : ToolCallChunk) (k : nat) :
  chunk_index chunk = k ->
  name_of (merge_chunk tc chunk) = joined (name_of tc) (name_parts k [chunk]) /\
  arguments_of (merge_chunk tc chunk) =
    joined (arguments_of tc) (argument_parts k [chunk]).
Proof.
  intros E. unfold name_parts, argument_parts, merge_chunk, joined. simpl.
  rewrite E, Nat.eqb_refl. destruct (chunk_function chunk); split; reflexivity.
Qed.

Lemma parts_cons (k : nat) (chunk : ToolCallChunk) (chunks : list ToolCallChunk) :
  name_parts k (chunk :: chunks) = name_parts k [chunk] ++ name_parts k chunks /\
  argument_parts k (chunk :: chunks) =
    argument_parts k [chunk] ++ argument_parts k chunks.
Proof.
  unfold name_parts, argument_parts. simpl. rewrite !app_nil_r. split; reflexivity.
Qed.

Lemma parts_other (k : nat) (chunk : ToolCallChunk) :
  (chunk_index chunk =? k) = false ->
  name_parts k [chunk] = [] /\ argument_parts k [chunk] = [].
Proof.
  intros E. unfold name_parts, argument_parts. simpl. rewrite E. split; reflexivity.
Qed.

(** What the chunks make of position [k], over a buffer that may already hold
    a call for it. *)
Lemma reassembled (k : nat) (chunks : list ToolCallChunk) :
  forall calls,
    match call_at k (fold_left process_chunk chunks calls) with
    | Some tc =>
        name_of tc =
          joined (match call_at k calls with Some t => name_of t | None => "" end)
                 (name_parts k chunks) /\
        arguments_of tc =
          joined (match call_at k calls with Some t => arguments_of t | None => "" end)
                 (argument_parts k chunks)
    | None =>
        call_at k calls = None /\
        forall chunk, In chunk chunks -> chunk_index chunk <> k
    end.
Proof.
  induction chunks as [|chunk chunks IH]; intros calls.
  - simpl. destruct (call_at k calls); [split; reflexivity | split; [reflexivity | intros _ []]].
  - cbn [fold_left]. specialize (IH (process_chunk calls chunk)).
    rewrite call_at_process_chunk in IH.
    destruct (parts_cons k chunk chunks) as [Pn Pa]. rewrite Pn, Pa.
    unfold joined in *. rewrite !fold_left_app.
    destruct (chunk_index chunk =? k) eqn:E.
    + apply Nat.eqb_eq in E.
      destruct (call_at k (fold_left process_chunk chunks (process_chunk calls chunk)))
        as [tc|]; [|destruct IH as [IH _]; discriminate].
      destruct IH as [In Ia].
      destruct (merge_chunk_parts
                  (match call_at k calls with Some t => t | None => opened calls chunk end)
                  chunk k E) as [Mn Ma].
      unfold joined in Mn, Ma. rewrite In, Ia, Mn, Ma.
      destruct (call_at k calls); split; reflexivity.
    + destruct (parts_other k chunk E) as [On Oa]. rewrite On, Oa. cbn [fold_left].
      destruct (call_at k (fold_left process_chunk chunks (process_chunk calls chunk)))
        as [tc|]; [exact IH|].
      destruct IH as [IH1 IH2]. split; [exact IH1|].
      intros c [<-|I]; [apply Nat.eqb_neq; exact E | apply IH2; exact I].
Qed.

(** *** One call per position *)

Lemma merge_into_indices (chunk : ToolCallChunk) (calls : list BufferedToolCall) :
  map buffered_index (merge_into calls chunk) = map buffered_index calls.
Proof.
  induction calls as [|tc calls IH]; simpl; [reflexivity|].
  destruct (buffered_index tc =? chunk_index chunk); simpl.
  - rewrite merge_chunk_index. reflexivity.
  - rewrite IH. reflexivity.
Qed.

Lemma find_index_existsb (k : nat) (calls : list BufferedToolCall) :
  match find (fun tc => buffered_index tc =? k) calls with
  | Some _ => true
  | None => false
  end = existsb (Nat.eqb k) (map buffered_index calls).
Proof.
  induction calls as [|tc calls IH]; simpl; [reflexivity|].
  rewrite (Nat.eqb_sym k). destruct (buffered_index tc =? k); [reflexivity | exact IH].
Qed.

Lemma existsb_same (x : nat) (l1 l2 : list nat) :
  (forall y, In y l1 <-> In y l2) ->
  existsb (Nat.eqb x) l1 = existsb (Nat.eqb x) l2.
Proof.
  intros H. destruct (existsb (Nat.eqb x) l2) eqn:E.
  - apply existsb_eqb_In. apply H. apply existsb_eqb_In. exact E.
  - apply not_in_existsb. intros I. apply H in I. apply existsb_eqb_In in I. congruence.
Qed.

Lemma process_chunks_indices (chunks : list ToolCallChunk) :
  forall calls seen,
    (forall y, In y seen <-> In y (map buffered_index calls)) ->
    map buffered_index (fold_left process_chunk chunks calls) =
    map buffered_index calls ++ Js.dedupe_from seen (map chunk_index chunks).
Proof.
  induction chunks as [|chunk chunks IH]; intros calls seen S.
  - simpl. rewrite app_nil_r. reflexivity.
  - cbn [fold_left map Js.dedupe_from].
    rewrite (existsb_same (chunk_index chunk) seen (map buffered_index calls) S).
    rewrite <- find_index_existsb. unfold process_chunk at 2.
    destruct (find (fun tc => buffered_index tc =? chunk_index chunk) calls).
    + rewrite (IH (merge_into calls chunk) seen); rewrite merge_into_indices;
        [reflexivity | exact S].
    + rewrite (IH _ (chunk_index chunk :: seen)).
      * rewrite map_app. cbn [map]. rewrite merge_chunk_index. cbn [opened buffered_index].
        rewrite <- app_assoc. reflexivity.
      * intros y. rewrite map_app. cbn [map]. rewrite merge_chunk_index.
        cbn [opened buffered_index]. rewrite in_app_iff. simpl.
        rewrite S. tauto.
Qed.

(** X13: fed into an empty buffer, the chunks of a streamed answer are put
    together by position.  A position has a call exactly when some chunk names
    it: a position that no chunk names has no call.  The call kept for a
    position has as name, and as arguments, the name parts and the argument
    parts of that position's chunks one after the other in arrival order. *)
Theorem streamed_calls_are_reassembled :
  forall (chunks : list AgentLoopStreaming.ToolCallChunk) (k : nat),
    ((forall chunk, In chunk chunks -> AgentLoopStreaming.chunk_index chunk <> k) <->
     call_at k (AgentLoopStreaming.processToolCallChunk chunks None) = None) /\
    forall tc,
      call_at k (AgentLoopStreaming.processToolCallChunk chunks None) = Some tc ->
      name_of tc = texts (name_parts k chunks) /\
      arguments_of tc = texts (argument_parts k chunks) /\
      AgentLoopStreaming.buffered_index tc = k.
Proof.
  intros chunks k.
  pose proof (process_chunks_indices chunks [] []) as Ix.
  unfold processToolCallChunk.
  pose proof (reassembled k chunks []) as R.
  destruct (call_at k (fold_left process_chunk chunks [])) as [tc|] eqn:C.
  - unfold call_at in C. apply find_some in C. destruct C as [I C].
    apply Nat.eqb_eq in C. split.
    + split; [|discriminate]. intros No. exfalso.
      specialize (Ix ltac:(intros y; simpl; tauto)). cbn [map app] in Ix.
      assert (Ik : In k (map buffered_index (fold_left process_chunk chunks []))).
      { rewrite <- C. apply in_map. exact I. }
      rewrite Ix in Ik. apply (proj1 (dedupe_In _ _)) in Ik.
      apply in_map_iff in Ik. destruct Ik as (chunk & E & Ic).
      apply (No chunk Ic E).
    + intros tc' E. injection E as <-.
      cbn [call_at find] in R. rewrite !joined_texts in R. destruct R as [Rn Ra].
      split; [exact Rn|]. split; [exact Ra | exact C].
  - destruct R as [_ R]. split; [|discriminate].
    split; [reflexivity | intros _; exact R].
Qed.

(** X14: the buffer filled from nothing holds exactly one call per position
    named by a chunk, in the order in which the positions first appear. *)
Theorem streamed_calls_one_per_position :
  forall chunks : list AgentLoopStreaming.ToolCallChunk,
    map AgentLoopStreaming.buffered_index
        (AgentLoopStreaming.processToolCallChunk chunks None) =
      Js.dedupe (map AgentLoopStreaming.chunk_index chunks) /\
    NoDup (map AgentLoopStreaming.buffered_index
               (AgentLoopStreaming.processToolCallChunk chunks None)).
Proof.
  intros chunks. unfold processToolCallChunk.
  rewrite (process_chunks_indices chunks [] []) by (intros y; simpl; tauto).
  split; [reflexivity | apply dedupe_NoDup].
Qed.

End Streaming.

(** ** The context files *)

Section ContextFiles.

Import ContextFilesManager.

Variable normalize : string -> string.

(** The manager after a sequence of calls. *)
Definition after_calls (calls : list Call) (m : Manager) : Manager :=
  fold_left (perform normalize) calls m.

Definition up_to_date (m : Manager) : Prop :=
  fired m = [] \/ exists earlier, fired m = earlier ++ [contextFiles m].

Lemma set_add_NoDup (refs : list string) (x : string) :
  NoDup refs ->
  NoDup (ConversationManager.set_add refs x) /\
  In x (ConversationManager.set_add refs x) /\
  (forall r, In r refs -> In r (ConversationManager.set_add refs x)) /\
  (In x refs -> ConversationManager.set_add refs x = refs).
Proof.
  intros N. unfold ConversationManager.set_add.
  destruct (existsb (String.eqb x) refs) eqn:E.
  - assert (I : In x refs).
    { apply existsb_exists in E. destruct E as (y & Iy & Ey).
      apply String.eqb_eq in Ey. subst y. exact Iy. }
    auto.
  - assert (NI : ~ In x refs).
    { intros I.
      assert (T : existsb (String.eqb x) refs = true).
      { apply existsb_exists. exists x. split; [exact I | apply String.eqb_refl]. }
      congruence. }
    split; [|split; [|split]].
    + apply NoDup_app; [exact N | constructor; [intros [] | constructor] |].
      intros a Ia [Ea|[]]. subst a. exact (NI Ia).
    + apply in_or_app. right. left. reflexivity.
    + intros r I. apply in_or_app. left. exact I.
    + intros I. contradiction.
Qed.

Lemma perform_keeps (m : Manager) (c : Call) :
  NoDup (contextFiles m) -> up_to_date m ->
  NoDup (contextFiles (perform normalize m c)) /\ up_to_date (perform normalize m c).
Proof.
  intros N U. destruct c as [[p|]|]; simpl.
  - destruct (set_add_NoDup (contextFiles m) (normalize p) N) as [N' _].
    split; [exact N'|]. right. exists (fired m). reflexivity.
  - auto.
  - split; [constructor|]. right. exists (fired m). reflexivity.
Qed.

Lemma after_calls_keeps (calls : list Call) :
  forall m,
    NoDup (contextFiles m) -> up_to_date m ->
    NoDup (contextFiles (after_calls calls m)) /\ up_to_date (after_calls calls m).
Proof.
  unfold after_calls.
  induction calls as [|c calls IH]; intros m N U; simpl; [auto|].
  destruct (perform_keeps m c N U) as [N' U']. apply IH; assumption.
Qed.

End ContextFiles.

(** X15: whatever is called on a new context-files manager, in whatever order,
    the list it holds never contains a path twice, and the last event it fired
    (if any) carries exactly the list it holds; adding a path puts its
    normalised form on the list and keeps what was there, and adding it again
    leaves the list as it is. *)
Theorem context_files_stay_a_set :
  forall (normalize : string -> string) (calls : list ContextFilesManager.Call),
    let m := after_calls normalize calls ContextFilesManager.empty in
    NoDup (ContextFilesManager.getContextFiles m) /\
    up_to_date m /\
    forall p : string,
      let m' := ContextFilesManager.addContextFile normalize m (Some p) in
      In (normalize p) (ContextFilesManager.getContextFiles m') /\
      (forall q, In q (ContextFilesManager.getContextFiles m) ->
                 In q (ContextFilesManager.getContextFiles m')) /\
      ContextFilesManager.getContextFiles
        (ContextFilesManager.addContextFile normalize m' (Some p)) =
        ContextFilesManager.getContextFiles m'.
Proof.
  intros normalize calls. cbv zeta.
  destruct (after_calls_keeps normalize calls ContextFilesManager.empty
              (NoDup_nil _) (or_introl eq_refl)) as [N U].
  split; [exact N|]. split; [exact U|]. intros p.
  unfold ContextFilesManager.getContextFiles, ContextFilesManager.addContextFile.
  cbn [ContextFilesManager.contextFiles].
  destruct (set_add_NoDup _ (normalize p) N) as (N' & I & K & _).
  split; [exact I|]. split; [exact K|].
  destruct (set_add_NoDup _ (normalize p) N') as (_ & _ & _ & Same).
  apply Same. exact I.
Qed.

(** ** The client behind the loop *)

Section Client.

Import OpenAIClientServiceImpl.

Variable sdk : Sdk.

(** X20: [validateApiKey] answers valid exactly when the key has a character
    left after trimming, whatever the key is.  After a valid answer a request
    goes to the SDK through the client the service holds: the one it had, also
    when the key was changed since it was built, or else the one this call
    built from the trimmed key; when it had none and building one throws, the
    answer is still valid and the request is refused with ["OpenAI client not
    initialized"].  After an invalid answer the client is as before. *)
Theorem valid_key_and_client :
  forall (settings : Settings) (client : option Client)
         (messages : list ConversationMessage),
    let r := validateApiKey sdk settings client in
    valid (snd r) = negb (unconfigured sdk settings) /\
    (unconfigured sdk settings = true ->
     fst r = client /\ validation_message (snd r) = Some not_configured) /\
    (unconfigured sdk settings = false ->
     match client, fst r with
     | Some c, after =>
         after = Some c /\
         createChatCompletion sdk settings after messages =
           completions_create sdk c messages
     | None, Some built =>
         (exists key, apiKey settings = Some key /\
                      built = mkClient (trim sdk key) (apiUrl settings)) /\
         construction_error sdk built = None /\
         createChatCompletion sdk settings (Some built) messages =
           completions_create sdk built messages
     | None, None =>
         (exists key error,
             apiKey settings = Some key /\
             construction_error sdk (mkClient (trim sdk key) (apiUrl settings)) =
               Some error) /\
         createChatCompletion sdk settings None messages =
           Js.Threw (Js.ThrownError (Js.newError "OpenAI client not initialized"))
     end).
Proof.
  intros settings client messages. cbv zeta. unfold validateApiKey.
  destruct (unconfigured sdk settings) eqn:U.
  - split; [reflexivity|]. split; [auto | discriminate].
  - split; [reflexivity|]. split; [discriminate|]. intros _. cbn [fst].
    destruct client as [c|].
    + split; [reflexivity|]. unfold createChatCompletion, validateApiKey.
      rewrite U. reflexivity.
    + unfold initializeClient. rewrite U.
      assert (K : exists key, apiKey settings = Some key).
      { unfold unconfigured in U. destruct (apiKey settings) as [key|]; [eauto | discriminate]. }
      destruct K as (key & K). rewrite K.
      destruct (construction_error sdk (mkClient (trim sdk key) (apiUrl settings)))
        as [error|] eqn:Ce.
      * split; [exists key, error; auto | reflexivity].
      * split; [exists key; auto|]. split; [exact Ce|].
        unfold createChatCompletion, validateApiKey. rewrite U. reflexivity.
Qed.

End Client.

Section ClientAndLoop.

(** X21: when the loop's key validation is the one of this client and the key
    is not configured, [executeAgentLoop] rejects with ["OpenAI API key
    validation failed: OpenAI API key not configured. Please set it in the
    extension settings."]: the message carries no mark of a protocol violation,
    so the outer [catch] rethrows instead of resetting the conversation; the
    state is untouched. *)
Theorem unconfigured_key_rejects_the_query :
  forall (sdk : OpenAIClientServiceImpl.Sdk)
         (settings : OpenAIClientServiceImpl.Settings)
         (client : option OpenAIClientServiceImpl.Client)
         (w : World) (st : State) (query : string),
    validateApiKey w = snd (OpenAIClientServiceImpl.validateApiKey sdk settings client) ->
    OpenAIClientServiceImpl.unconfigured sdk settings = true ->
    AgentLoopService.executeAgentLoop w st query =
      (st,
       Js.Threw
         (Js.ThrownError
            (Js.newError
               "OpenAI API key validation failed: OpenAI API key not configured. Please set it in the extension settings."))).
Proof.
  intros sdk settings client w st query V U.
  unfold AgentLoopService.executeAgentLoop. rewrite V.
  unfold OpenAIClientServiceImpl.validateApiKey. rewrite U.
  cbn [snd valid negb]. reflexivity.
Qed.

End ClientAndLoop.

(** ** Text in UTF-8 and its code units *)

Section Utf8.

Local Open Scope string_scope.

(** The point a character of two, three or four bytes encodes. *)
Definition point2 (c0 c1 : ascii) : N :=
  ((N_of_ascii c0 mod 32) * 64 + Js.low_bits c1)%N.

Definition point3 (c0 c1 c2 : ascii) : N :=
  ((N_of_ascii c0 mod 16) * 4096 + Js.low_bits c1 * 64 + Js.low_bits c2)%N.

Definition point4 (c0 c1 c2 c3 : ascii) : N :=
  ((N_of_ascii c0 mod 8) * 262144 + Js.low_bits c1 * 4096 + Js.low_bits c2 * 64 +
   Js.low_bits c3)%N.

(** Texts that are UTF-8: every character in its shortest form, none of them a
    surrogate, none past U+10FFFF. *)
Fixpoint well_formed (s : string) : bool :=
  match s with
  | EmptyString => true
  | String c0 s1 =>
      let b0 := N_of_ascii c0 in
      if (b0 <? 128)%N then well_formed s1
      else if (194 <=? b0)%N && (b0 <? 224)%N then
        match s1 with
        | String c1 s2 => Js.continuation c1 && well_formed s2
        | _ => false
        end
      else if (224 <=? b0)%N && (b0 <? 240)%N then
        match s1 with
        | String c1 (String c2 s3) =>
            Js.continuation c1 && Js.continuation c2 &&
            (2048 <=? point3 c0 c1 c2)%N &&
            negb ((55296 <=? point3 c0 c1 c2)%N && (point3 c0 c1 c2 <? 57344)%N) &&
            well_formed s3
        | _ => false
        end
      else if (240 <=? b0)%N && (b0 <? 245)%N then
        match s1 with
        | String c1 (String c2 (String c3 s4)) =>
            Js.continuation c1 && Js.continuation c2 && Js.continuation c3 &&
            (65536 <=? point4 c0 c1 c2 c3)%N && (point4 c0 c1 c2 c3 <? 1114112)%N &&
            well_formed s4
        | _ => false
        end
      else false
  end.

Lemma digit (a d m : N) :
  (d < m)%N -> ((a * m + d) / m = a /\ (a * m + d) mod m = d)%N.
Proof.
  intros L. split; symmetry.
  - apply (N.div_unique (a * m + d) m a d L). lia.
  - apply (N.mod_unique (a * m + d) m a d L). lia.
Qed.

Lemma low_bits_continuation (c : ascii) :
  Js.continuation c = true ->
  (N_of_ascii c = 128 + Js.low_bits c /\ Js.low_bits c < 64)%N.
Proof.
  unfold Js.continuation, Js.low_bits. intros H.
  apply andb_true_iff in H. destruct H as [A B].
  apply N.leb_le in A. apply N.ltb_lt in B.
  assert (E : (N_of_ascii c - 128 = N_of_ascii c mod 64)%N).
  { apply (N.mod_unique (N_of_ascii c) 64 2 (N_of_ascii c - 128)); lia. }
  rewrite <- E. lia.
Qed.

Lemma lead_bits (c : ascii) (low m : N) :
  (low <= N_of_ascii c < low + m)%N -> (exists q, low = m * q)%N ->
  (N_of_ascii c = low + N_of_ascii c mod m /\ N_of_ascii c mod m < m)%N.
Proof.
  intros B (q & Q).
  assert (E : (N_of_ascii c - low = N_of_ascii c mod m)%N).
  { apply (N.mod_unique (N_of_ascii c) m q (N_of_ascii c - low)); lia. }
  rewrite <- E. lia.
Qed.

Lemma byte_back (c : ascii) (n : N) : n = N_of_ascii c -> ascii_of_N n = c.
Proof. intros ->. apply ascii_N_embedding. Qed.

(** One character read and written back. *)
Lemma units_one (c0 : ascii) (s1 : string) :
  (N_of_ascii c0 <? 128)%N = true ->
  Js.units (String c0 s1) = N_of_ascii c0 :: Js.units s1.
Proof. intros E. cbn [Js.units]. cbv zeta. rewrite E. reflexivity. Qed.

Lemma units_two (c0 c1 : ascii) (s2 : string) :
  (N_of_ascii c0 <? 128)%N = false ->
  ((194 <=? N_of_ascii c0)%N && (N_of_ascii c0 <? 224)%N) = true ->
  Js.continuation c1 = true ->
  Js.units (String c0 (String c1 s2)) = point2 c0 c1 :: Js.units s2.
Proof.
  intros E1 E2 C. cbn [Js.units]. cbv zeta. rewrite E1.
  apply andb_true_iff in E2. destruct E2 as [A B]. apply N.leb_le in A.
  assert (A' : (192 <=? N_of_ascii c0)%N = true) by (apply N.leb_le; lia).
  rewrite A', B, C. reflexivity.
Qed.

Lemma utf8_plain (u : N) (us : list N) :
  Js.high_surrogate u = false -> Js.low_surrogate u = false ->
  Js.utf8 (u :: us) = Js.utf8_point u ++ Js.utf8 us.
Proof. intros H L. cbn [Js.utf8]. rewrite H, L. reflexivity. Qed.

Lemma not_surrogate (u : N) :
  (u < 55296)%N -> Js.high_surrogate u = false /\ Js.low_surrogate u = false.
Proof.
  intros B. unfold Js.high_surrogate, Js.low_surrogate. split.
  - replace (55296 <=? u)%N with false; [reflexivity|]. symmetry. apply N.leb_gt. exact B.
  - replace (56320 <=? u)%N with false; [reflexivity|]. symmetry. apply N.leb_gt. lia.
Qed.

Lemma utf8_one (c0 : ascii) (us : list N) :
  (N_of_ascii c0 <? 128)%N = true ->
  Js.utf8 (N_of_ascii c0 :: us) = String c0 (Js.utf8 us).
Proof.
  intros E. pose proof E as B. apply N.ltb_lt in B.
  destruct (not_surrogate (N_of_ascii c0)) as [H L]; [lia|].
  rewrite (utf8_plain _ us H L). unfold Js.utf8_point. rewrite E.
  rewrite ascii_N_embedding. reflexivity.
Qed.

Lemma utf8_two (c0 c1 : ascii) (us : list N) :
  ((194 <=? N_of_ascii c0)%N && (N_of_ascii c0 <? 224)%N) = true ->
  Js.continuation c1 = true ->
  Js.utf8 (point2 c0 c1 :: us) = String c0 (String c1 (Js.utf8 us)).
Proof.
  intros E2 C. apply andb_true_iff in E2. destruct E2 as [A B].
  apply N.leb_le in A. apply N.ltb_lt in B.
  destruct (low_bits_continuation c1 C) as [C1 C2].
  destruct (lead_bits c0 192 32) as [L1 L2]; [lia | exists 6%N; reflexivity |].
  unfold point2. set (x := (N_of_ascii c0 mod 32)%N) in *. set (y := Js.low_bits c1) in *.
  destruct (digit x y 64 C2) as [D M].
  destruct (not_surrogate (x * 64 + y)) as [H L]; [lia|].
  rewrite (utf8_plain _ us H L). unfold Js.utf8_point.
  replace (x * 64 + y <? 128)%N with false by (symmetry; apply N.ltb_ge; lia).
  replace (x * 64 + y <? 2048)%N with true by (symmetry; apply N.ltb_lt; lia).
  rewrite D, M. cbn [append].
  rewrite (byte_back c0) by lia. rewrite (byte_back c1) by lia. reflexivity.
Qed.

Lemma units_three (c0 c1 c2 : ascii) (s3 : string) :
  ((224 <=? N_of_ascii c0)%N && (N_of_ascii c0 <? 240)%N) = true ->
  Js.continuation c1 = true -> Js.continuation c2 = true ->
  Js.units (String c0 (String c1 (String c2 s3))) = point3 c0 c1 c2 :: Js.units s3.
Proof.
  intros E C1 C2. pose proof E as E'.
  apply andb_true_iff in E'. destruct E' as [A B]. apply N.leb_le in A.
  cbn [Js.units]. cbv zeta.
  replace (N_of_ascii c0 <? 128)%N with false by (symmetry; apply N.ltb_ge; lia).
  replace ((192 <=? N_of_ascii c0)%N && (N_of_ascii c0 <? 224)%N) with false.
  - rewrite E, C1, C2. reflexivity.
  - symmetry. apply andb_false_iff. right. apply N.ltb_ge. lia.
Qed.

Lemma utf8_three (c0 c1 c2 : ascii) (us : list N) :
  ((224 <=? N_of_ascii c0)%N && (N_of_ascii c0 <? 240)%N) = true ->
  Js.continuation c1 = true -> Js.continuation c2 = true ->
  (2048 <=? point3 c0 c1 c2)%N = true ->
  ((55296 <=? point3 c0 c1 c2)%N && (point3 c0 c1 c2 <? 57344)%N) = false ->
  Js.utf8 (point3 c0 c1 c2 :: us) = String c0 (String c1 (String c2 (Js.utf8 us))).
Proof.
  intros E C1 C2 Lo S. apply andb_true_iff in E. destruct E as [A B].
  apply N.leb_le in A. apply N.ltb_lt in B. apply N.leb_le in Lo.
  destruct (low_bits_continuation c1 C1) as [P1 Q1].
  destruct (low_bits_continuation c2 C2) as [P2 Q2].
  destruct (lead_bits c0 224 16) as [L1 L2]; [lia | exists 14%N; reflexivity |].
  revert Lo S. unfold point3.
  set (x := (N_of_ascii c0 mod 16)%N) in *.
  set (y := Js.low_bits c1) in *. set (z := Js.low_bits c2) in *.
  intros Lo S.
  assert (H : Js.high_surrogate (x * 4096 + y * 64 + z) = false /\
              Js.low_surrogate (x * 4096 + y * 64 + z) = false).
  { unfold Js.high_surrogate, Js.low_surrogate.
    apply andb_false_iff in S. destruct S as [S|S].
    - apply N.leb_gt in S. apply not_surrogate. exact S.
    - apply N.ltb_ge in S. split.
      + apply andb_false_iff. right. apply N.ltb_ge. lia.
      + apply andb_false_iff. right. apply N.ltb_ge. exact S. }
  destruct H as [H L]. rewrite (utf8_plain _ us H L). unfold Js.utf8_point.
  replace (x * 4096 + y * 64 + z <? 128)%N with false by (symmetry; apply N.ltb_ge; lia).
  replace (x * 4096 + y * 64 + z <? 2048)%N with false by (symmetry; apply N.ltb_ge; lia).
  replace (x * 4096 + y * 64 + z <? 65536)%N with true by (symmetry; apply N.ltb_lt; lia).
  assert (D1 : ((x * 4096 + y * 64 + z) / 4096 = x)%N).
  { replace (x * 4096 + y * 64 + z)%N with (x * 4096 + (y * 64 + z))%N by lia.
    apply digit. lia. }
  assert (D2 : ((x * 4096 + y * 64 + z) / 64 = x * 64 + y)%N).
  { replace (x * 4096 + y * 64 + z)%N with ((x * 64 + y) * 64 + z)%N by lia.
    apply digit. lia. }
  assert (D3 : ((x * 4096 + y * 64 + z) mod 64 = z)%N).
  { replace (x * 4096 + y * 64 + z)%N with ((x * 64 + y) * 64 + z)%N by lia.
    apply digit. lia. }
  rewrite D1, D2, D3. destruct (digit x y 64 Q1) as [_ M]. rewrite M.
  cbn [append].
  rewrite (byte_back c0) by lia. rewrite (byte_back c1) by lia.
  rewrite (byte_back c2) by lia. reflexivity.
Qed.

Lemma units_four (c0 c1 c2 c3 : ascii) (s4 : string) :
  ((240 <=? N_of_ascii c0)%N && (N_of_ascii c0 <? 245)%N) = true ->
  Js.continuation c1 = true -> Js.continuation c2 = true -> Js.continuation c3 = true ->
  Js.units (String c0 (String c1 (String c2 (String c3 s4)))) =
    (55296 + (point4 c0 c1 c2 c3 - 65536) / 1024)%N ::
    (56320 + (point4 c0 c1 c2 c3 - 65536) mod 1024)%N :: Js.units s4.
Proof.
  intros E C1 C2 C3.
  apply andb_true_iff in E. destruct E as [A B]. apply N.leb_le in A. apply N.ltb_lt in B.
  cbn [Js.units]. cbv zeta.
  replace (N_of_ascii c0 <? 128)%N with false by (symmetry; apply N.ltb_ge; lia).
  replace ((192 <=? N_of_ascii c0)%N && (N_of_ascii c0 <? 224)%N) with false
    by (symmetry; apply andb_false_iff; right; apply N.ltb_ge; lia).
  replace ((224 <=? N_of_ascii c0)%N && (N_of_ascii c0 <? 240)%N) with false
    by (symmetry; apply andb_false_iff; right; apply N.ltb_ge; lia).
  replace ((240 <=? N_of_ascii c0)%N && (N_of_ascii c0 <? 248)%N) with true.
  - rewrite C1, C2, C3. reflexivity.
  - symmetry. apply andb_true_iff. split; [apply N.leb_le | apply N.ltb_lt]; lia.
Qed.

Lemma utf8_four (c0 c1 c2 c3 : ascii) (us : list N) :
  ((240 <=? N_of_ascii c0)%N && (N_of_ascii c0 <? 245)%N) = true ->
  Js.continuation c1 = true -> Js.continuation c2 = true -> Js.continuation c3 = true ->
  (65536 <=? point4 c0 c1 c2 c3)%N = true ->
  (point4 c0 c1 c2 c3 <? 1114112)%N = true ->
  Js.utf8 ((55296 + (point4 c0 c1 c2 c3 - 65536) / 1024)%N ::
           (56320 + (point4 c0 c1 c2 c3 - 65536) mod 1024)%N :: us) =
    String c0 (String c1 (String c2 (String c3 (Js.utf8 us)))).
Proof.
  intros E C1 C2 C3 Lo Hi. apply andb_true_iff in E. destruct E as [A B].
  apply N.leb_le in A. apply N.ltb_lt in B. apply N.leb_le in Lo. apply N.ltb_lt in Hi.
  destruct (low_bits_continuation c1 C1) as [P1 Q1].
  destruct (low_bits_continuation c2 C2) as [P2 Q2].
  destruct (low_bits_continuation c3 C3) as [P3 Q3].
  destruct (lead_bits c0 240 8) as [L1 L2]; [lia | exists 30%N; reflexivity |].
  revert Lo Hi. unfold point4.
  set (x := (N_of_ascii c0 mod 8)%N) in *.
  set (y := Js.low_bits c1) in *. set (z := Js.low_bits c2) in *.
  set (t := Js.low_bits c3) in *.
  set (point := (x * 262144 + y * 4096 + z * 64 + t)%N).
  intros Lo Hi.
  pose proof (N.div_mod (point - 65536) 1024) as DM.
  pose proof (N.mod_lt (point - 65536) 1024) as ML.
  assert (DL : ((point - 65536) / 1024 < 1024)%N)
    by (apply N.Div0.div_lt_upper_bound; lia).
  set (h := ((point - 65536) / 1024)%N) in *.
  set (l := ((point - 65536) mod 1024)%N) in *.
  specialize (DM ltac:(lia)). specialize (ML ltac:(lia)).
  cbn [Js.utf8].
  replace (Js.high_surrogate (55296 + h)) with true.
  2:{ symmetry. unfold Js.high_surrogate. apply andb_true_iff.
      split; [apply N.leb_le | apply N.ltb_lt]; lia. }
  replace (Js.low_surrogate (56320 + l)) with true.
  2:{ symmetry. unfold Js.low_surrogate. apply andb_true_iff.
      split; [apply N.leb_le | apply N.ltb_lt]; lia. }
  replace (65536 + (55296 + h - 55296) * 1024 + (56320 + l - 56320))%N with point by lia.
  unfold Js.utf8_point.
  replace (point <? 128)%N with false by (symmetry; apply N.ltb_ge; lia).
  replace (point <? 2048)%N with false by (symmetry; apply N.ltb_ge; lia).
  replace (point <? 65536)%N with false by (symmetry; apply N.ltb_ge; lia).
  assert (D1 : (point / 262144 = x)%N).
  { unfold point.
    replace (x * 262144 + y * 4096 + z * 64 + t)%N
      with (x * 262144 + (y * 4096 + z * 64 + t))%N by lia.
    apply digit. lia. }
  assert (D2 : (point / 4096 = x * 64 + y)%N).
  { unfold point.
    replace (x * 262144 + y * 4096 + z * 64 + t)%N
      with ((x * 64 + y) * 4096 + (z * 64 + t))%N by lia.
    apply digit. lia. }
  assert (D3 : (point / 64 = (x * 64 + y) * 64 + z)%N).
  { unfold point.
    replace (x * 262144 + y * 4096 + z * 64 + t)%N
      with (((x * 64 + y) * 64 + z) * 64 + t)%N by lia.
    apply digit. lia. }
  assert (D4 : (point mod 64 = t)%N).
  { unfold point.
    replace (x * 262144 + y * 4096 + z * 64 + t)%N
      with (((x * 64 + y) * 64 + z) * 64 + t)%N by lia.
    apply digit. lia. }
  rewrite D1, D2, D3, D4.
  destruct (digit x y 64 Q1) as [_ M1]. rewrite M1.
  destruct (digit (x * 64 + y) z 64 Q2) as [_ M2]. rewrite M2.
  cbn [append].
  rewrite (byte_back c0) by lia. rewrite (byte_back c1) by lia.
  rewrite (byte_back c2) by lia. rewrite (byte_back c3) by lia. reflexivity.
Qed.

(** On a text that is UTF-8, reading the code units goes character by
    character, and writing them gives the text back. *)
Lemma well_formed_units :
  forall (n : nat) (a : string),
    String.length a <= n -> well_formed a = true ->
    (forall b, Js.units (a ++ b) = (Js.units a ++ Js.units b)%list) /\
    (forall us, Js.utf8 (Js.units a ++ us)%list = a ++ Js.utf8 us).
Proof.
  induction n as [|n IH]; intros a L W.
  - destruct a; [|simpl in L; lia]. split; reflexivity.
  - destruct a as [|c0 s1]; [split; reflexivity|].
    cbn [well_formed] in W. cbv zeta in W. cbn [String.length] in L.
    destruct (N_of_ascii c0 <? 128)%N eqn:E1.
    { destruct (IH s1 ltac:(lia) W) as [U V]. split.
      - intros b. cbn [append]. rewrite !units_one by exact E1.
        rewrite U. reflexivity.
      - intros us. rewrite units_one by exact E1. cbn [app append].
        rewrite utf8_one by exact E1. rewrite V. reflexivity. }
    destruct ((194 <=? N_of_ascii c0)%N && (N_of_ascii c0 <? 224)%N) eqn:E2.
    { destruct s1 as [|c1 s2]; [discriminate|].
      apply andb_true_iff in W. destruct W as [C1 W]. cbn [String.length] in L.
      destruct (IH s2 ltac:(lia) W) as [U V]. split.
      - intros b. cbn [append]. rewrite !units_two by assumption.
        rewrite U. reflexivity.
      - intros us. rewrite units_two by assumption. cbn [app append].
        rewrite utf8_two by assumption. rewrite V. reflexivity. }
    destruct ((224 <=? N_of_ascii c0)%N && (N_of_ascii c0 <? 240)%N) eqn:E3.
    { destruct s1 as [|c1 [|c2 s3]]; try discriminate.
      apply andb_true_iff in W. destruct W as [W W3].
      apply andb_true_iff in W. destruct W as [W S]. apply negb_true_iff in S.
      apply andb_true_iff in W. destruct W as [W Lo].
      apply andb_true_iff in W. destruct W as [C1 C2]. cbn [String.length] in L.
      destruct (IH s3 ltac:(lia) W3) as [U V]. split.
      - intros b. cbn [append]. rewrite !units_three by assumption.
        rewrite U. reflexivity.
      - intros us. rewrite units_three by assumption. cbn [app append].
        rewrite utf8_three by assumption. rewrite V. reflexivity. }
    destruct ((240 <=? N_of_ascii c0)%N && (N_of_ascii c0 <? 245)%N) eqn:E4;
      [|discriminate].
    destruct s1 as [|c1 [|c2 [|c3 s4]]]; try discriminate.
    apply andb_true_iff in W. destruct W as [W W4].
    apply andb_true_iff in W. destruct W as [W Hi].
    apply andb_true_iff in W. destruct W as [W Lo].
    apply andb_true_iff in W. destruct W as [W C3].
    apply andb_true_iff in W. destruct W as [C1 C2]. cbn [String.length] in L.
    destruct (IH s4 ltac:(lia) W4) as [U V]. split.
    + intros b. cbn [append]. rewrite !units_four by assumption.
      rewrite U. reflexivity.
    + intros us. rewrite units_four by assumption. cbn [app append].
      rewrite utf8_four by assumption. rewrite V. reflexivity.
Qed.

Lemma units_append (a b : string) :
  well_formed a = true -> Js.units (a ++ b) = (Js.units a ++ Js.units b)%list.
Proof. intros W. apply (well_formed_units (String.length a) a (le_n _) W). Qed.

Lemma utf8_units_append (a : string) (us : list N) :
  well_formed a = true -> Js.utf8 (Js.units a ++ us)%list = a ++ Js.utf8 us.
Proof. intros W. apply (well_formed_units (String.length a) a (le_n _) W). Qed.

Lemma utf8_units (a : string) : well_formed a = true -> Js.utf8 (Js.units a) = a.
Proof.
  intros W. rewrite <- (app_nil_r (Js.units a)), (utf8_units_append a [] W).
  cbn [Js.utf8]. clear. induction a as [|c a IH]; simpl; [reflexivity | rewrite IH; reflexivity].
Qed.

(** Cutting a text at the end of a character and putting another text in. *)
Lemma insert_between (left content right : string) (column : Z) :
  well_formed left = true -> well_formed content = true -> well_formed right = true ->
  Z.to_nat column = Js.length left ->
  Js.utf8 (Js.substring_to (left ++ right) column ++ Js.units content ++
           Js.substring_from (left ++ right) column)%list =
  left ++ content ++ right.
Proof.
  intros Wl Wc Wr C. unfold Js.substring_to, Js.substring_from, Js.length in *.
  rewrite (units_append left right Wl), C.
  rewrite firstn_app, Nat.sub_diag, firstn_all. cbn [firstn]. rewrite app_nil_r.
  rewrite skipn_app, Nat.sub_diag, skipn_all. cbn [skipn app].
  rewrite (utf8_units_append left _ Wl), (utf8_units_append content _ Wc).
  rewrite (utf8_units right Wr). reflexivity.
Qed.

End Utf8.

(** ** Lines of a text *)

Section Lines.

Import Text.

Local Open Scope string_scope.

Lemma split_lines_cons (s : string) : exists line lines, split_lines s = line :: lines.
Proof.
  induction s as [|c s IH]; simpl; [eauto|].
  destruct (Ascii.eqb c newline_char); [eauto|].
  destruct IH as (line & lines & ->). eauto.
Qed.

(** Splitting and joining again gives the text back. *)
Lemma join_split (s : string) : join_lines (split_lines s) = s.
Proof.
  induction s as [|c s IH]; [reflexivity|]. simpl.
  destruct (Ascii.eqb c newline_char) eqn:E.
  - apply Ascii.eqb_eq in E. subst c.
    destruct (split_lines_cons s) as (line & lines & S). rewrite S in *.
    cbn [join_lines]. simpl. f_equal. exact IH.
  - destruct (split_lines_cons s) as (line & lines & S). rewrite S in *.
    destruct lines as [|l2 lines]; simpl in *; rewrite IH; reflexivity.
Qed.

(** The first [n] bytes of a text, and what follows them. *)
Fixpoint take (n : nat) (s : string) : string :=
  match n, s with
  | S n', String c rest => String c (take n' rest)
  | _, _ => EmptyString
  end.

Fixpoint drop (n : nat) (s : string) : string :=
  match n, s with
  | S n', String _ rest => drop n' rest
  | _, _ => s
  end.

Lemma take_drop (n : nat) (s : string) : take n s ++ drop n s = s.
Proof.
  revert s. induction n as [|n IH]; intros [|c s]; simpl; try reflexivity.
  rewrite IH. reflexivity.
Qed.

(** The text of the lines before a position, each with its line break. *)
Fixpoint lines_before (lines : list string) : string :=
  match lines with
  | [] => ""
  | line :: rest => line ++ String newline_char (lines_before rest)
  end.

(** The text of the lines after a position, each after a line break. *)
Fixpoint lines_after (lines : list string) : string :=
  match lines with
  | [] => ""
  | line :: rest => String newline_char (line ++ lines_after rest)
  end.

Lemma join_lines_after (line : string) (rest : list string) :
  join_lines (line :: rest) = line ++ lines_after rest.
Proof.
  revert line. induction rest as [|x rest IH]; intros line.
  - simpl. rewrite append_nil_r. reflexivity.
  - change (join_lines (line :: x :: rest))
      with (line ++ String newline_char (join_lines (x :: rest))).
    rewrite IH. reflexivity.
Qed.

Lemma join_around (before : list string) (line : string) (after : list string) :
  join_lines (before ++ line :: after)%list =
  lines_before before ++ line ++ lines_after after.
Proof.
  induction before as [|x before IH].
  - apply join_lines_after.
  - cbn [app lines_before]. rewrite append_assoc. simpl.
    destruct (before ++ line :: after)%list as [|y l] eqn:E.
    + destruct before; discriminate.
    + change (join_lines (x :: y :: l))
        with (x ++ String newline_char (join_lines (y :: l))).
      rewrite <- IH. reflexivity.
Qed.

Lemma set_index_split (A : Type) (before after : list A) (x y : A) :
  set_index (before ++ x :: after)%list (List.length before) y =
  (before ++ y :: after)%list.
Proof.
  induction before as [|z before IH]; simpl; [reflexivity|].
  rewrite IH. reflexivity.
Qed.

Lemma slice_all (A : Type) (l : list A) :
  l <> [] -> slice l 0 (Z.of_nat (List.length l) - 1 + 1) = l.
Proof.
  intros N. unfold slice. cbn [Z.ltb Z.compare].
  replace (Z.of_nat (List.length l) - 1 + 1)%Z with (Z.of_nat (List.length l)) by lia.
  destruct (Z.of_nat (List.length l) <? 0)%Z eqn:E; [apply Z.ltb_lt in E; lia|].
  rewrite Z.min_id.
  rewrite Z.min_l by lia. simpl skipn.
  rewrite Z.sub_0_r, Nat2Z.id. apply firstn_all.
Qed.

End Lines.

(** ** Properties of the file tools *)

Section FileToolsProperties.

Import Text FileTools.

Local Open Scope string_scope.

Variable D : Type.
Variable host : Host D.

Lemma at_index_split (before after : list string) (target : string) :
  at_index (before ++ target :: after)%list (Z.of_nat (List.length before)) = Some target.
Proof.
  unfold at_index.
  destruct (Z.of_nat (List.length before) <? 0)%Z eqn:E; [apply Z.ltb_lt in E; lia|].
  rewrite Nat2Z.id, nth_error_app2 by lia. rewrite Nat.sub_diag. reflexivity.
Qed.

(** X16: [updateFile] with a line number inserts in place.  When the file
    exists and reads as [existing], whose line [insertAtLine] is [target], and
    the column is not past the end of that line, counted in UTF-16 code units,
    the one thing written is [existing] with that line replaced and nothing
    else changed; the new line is the code units of [target] before the
    column, those of [content], and those of [target] from the column on.
    Whenever the column is the end of a character (the line is [left] followed
    by [right], both UTF-8 like [content], and the column is the length of
    [left]) the new line is [left], [content], [right].  A column left out, 0
    or negative is the start of the line.  The result reports the write: the
    success text, or the failure of [writeFileSync]. *)
Theorem update_inserts_in_place :
  forall (disk : D) (filePath content existing target : string)
         (before after : list string) (insertAtColumn : option Z),
    let column := match insertAtColumn with Some c => c | None => 0%Z end in
    let line :=
      Js.utf8 (Js.substring_to target column ++ Js.units content ++
               Js.substring_from target column)%list in
    existsSync host disk filePath = true ->
    readFileSync host disk filePath = inl existing ->
    split_lines existing = (before ++ target :: after)%list ->
    (column <= Z.of_nat (Js.length target))%Z ->
    existing = lines_before before ++ target ++ lines_after after /\
    (forall left right : string,
        target = left ++ right ->
        well_formed left = true -> well_formed content = true ->
        well_formed right = true ->
        Z.to_nat column = Js.length left ->
        line = left ++ content ++ right) /\
    updateFile host disk filePath content
               (Some (Z.of_nat (List.length before))) insertAtColumn =
      match writeFileSync host disk filePath
                          (lines_before before ++ line ++ lines_after after) with
      | (disk1, Some err) =>
          (disk1, "Error updating file at position: " ++ Js.err_message err)
      | (disk1, None) =>
          (disk1,
           "File updated successfully: " ++ filePath ++
           " (inserted content at line " ++
           number_text host (Z.of_nat (List.length before)) ++
           ", column " ++ number_text host column ++ ")" ++
           line_break ++ line_break ++ checkForDiagnostics host disk1 filePath)
      end.
Proof.
  intros disk filePath content existing target before after insertAtColumn.
  cbv zeta. intros Ex Rd Sp Col.
  set (column := match insertAtColumn with Some c => c | None => 0%Z end) in *.
  split; [|split].
  - rewrite <- (join_split existing), Sp, join_around. reflexivity.
  - intros left right -> Wl Wc Wr C. apply insert_between; assumption.
  - unfold updateFile. rewrite Ex, Rd, Sp. cbn [negb].
    assert (Lo : (Z.of_nat (List.length before) <? 0)%Z = false)
      by (apply Z.ltb_ge; lia).
    assert (Hi : (Z.of_nat (List.length (before ++ target :: after)%list) <=?
                  Z.of_nat (List.length before))%Z = false).
    { apply Z.leb_gt. rewrite length_app. simpl. lia. }
    rewrite Lo, Hi. cbn [orb]. rewrite at_index_split.
    assert (C : match insertAtColumn with
                | Some c => if (c =? 0)%Z then 0%Z else c
                | None => 0%Z
                end = column).
    { unfold column. destruct insertAtColumn as [c|]; [|reflexivity].
      destruct (c =? 0)%Z eqn:E; [apply Z.eqb_eq in E; auto | reflexivity]. }
    rewrite C.
    assert (Cl : (Z.of_nat (Js.length target) <? column)%Z = false)
      by (apply Z.ltb_ge; exact Col).
    rewrite Cl. rewrite Nat2Z.id, set_index_split, join_around. reflexivity.
Qed.

(** X17: [updateFile] touches the disk only by one [writeFileSync] on
    [filePath], and only when the file exists.  A missing file, and a line
    number below 0 or not below the number of lines, give an error text and
    leave the disk alone. *)
Theorem update_writes_only_an_existing_file :
  forall (disk : D) (filePath content : string) (insertAtLine insertAtColumn : option Z),
    let r := updateFile host disk filePath content insertAtLine insertAtColumn in
    (fst r = disk \/
     existsSync host disk filePath = true /\
     exists text, fst r = fst (writeFileSync host disk filePath text)) /\
    (existsSync host disk filePath = false ->
     r = (disk, "Error: File does not exist at " ++ filePath ++
                ". Use createFile to create a new file.")) /\
    (forall existing line,
        existsSync host disk filePath = true ->
        readFileSync host disk filePath = inl existing ->
        insertAtLine = Some line ->
        (line < 0 \/ Z.of_nat (List.length (split_lines existing)) <= line)%Z ->
        r = (disk, "Error: Line number " ++ number_text host line ++
                   " is out of range (file has " ++
                   Js.nat_text (List.length (split_lines existing)) ++ " lines)")).
Proof.
  intros disk filePath content insertAtLine insertAtColumn. cbv zeta.
  split; [|split].
  - unfold updateFile.
    destruct (existsSync host disk filePath); cbn [negb]; [|left; reflexivity].
    destruct insertAtLine as [line|].
    + destruct (readFileSync host disk filePath) as [existing|err]; [|left; reflexivity].
      destruct ((line <? 0)%Z || _); [left; reflexivity|].
      destruct (at_index (split_lines existing) line) as [target|]; [|left; reflexivity].
      destruct (Z.of_nat (Js.length target) <? _)%Z; [left; reflexivity|].
      right. split; [reflexivity|]. eexists.
      destruct (writeFileSync host disk filePath _) as [disk1 [err|]] eqn:W;
        cbn [fst]; rewrite W; reflexivity.
    + right. split; [reflexivity|]. exists content.
      destruct (writeFileSync host disk filePath content) as [disk1 [err|]];
        reflexivity.
  - intros Ex. unfold updateFile. rewrite Ex. reflexivity.
  - intros existing line Ex Rd -> Out. unfold updateFile. rewrite Ex, Rd. cbn [negb].
    replace ((line <? 0)%Z || (Z.of_nat (List.length (split_lines existing)) <=? line)%Z)
      with true; [reflexivity|].
    symmetry. apply orb_true_iff.
    destruct Out as [O|O]; [left; apply Z.ltb_lt | right; apply Z.leb_le]; exact O.
Qed.

(** X18: [createFile] never overwrites.  On a path that exists it writes
    nothing and says so; and when it reports success, the path did not exist
    and [content] was written to it by one [writeFileSync], after the one
    [mkdirSync] of its directory when that was missing. *)
Theorem create_never_overwrites :
  forall (disk : D) (filePath content : string),
    (existsSync host disk filePath = true ->
     createFile host disk filePath content =
       (disk, "Error: File already exists at " ++ filePath ++
              ". Use updateFile to modify existing files.")) /\
    (forall disk',
        createFile host disk filePath content =
          (disk', "File created successfully: " ++ filePath) ->
        existsSync host disk filePath = false /\
        exists disk1,
          (if existsSync host disk (dirname host filePath)
           then disk1 = disk
           else mkdirSync host disk (dirname host filePath) = (disk1, None)) /\
          writeFileSync host disk1 filePath content = (disk', None)).
Proof.
  intros disk filePath content. split.
  - intros Ex. unfold createFile. rewrite Ex. reflexivity.
  - intros disk'. unfold createFile.
    destruct (existsSync host disk filePath); [discriminate|].
    intros H. split; [reflexivity|].
    destruct (existsSync host disk (dirname host filePath)); cbn [negb] in H.
    + exists disk. split; [reflexivity|].
      destruct (writeFileSync host disk filePath content) as [disk2 [err|]];
        [discriminate|]. inversion H. reflexivity.
    + destruct (mkdirSync host disk (dirname host filePath)) as [disk1 [err|]];
        [discriminate|].
      exists disk1. split; [reflexivity|].
      destruct (writeFileSync host disk1 filePath content) as [disk2 [err|]];
        [discriminate|]. inversion H. reflexivity.
Qed.

End FileToolsProperties.

Section ViewFile.

Import Text ToolExecutorFiles.

Local Open Scope string_scope.

Lemma split_lines_length (s : string) : 0 < List.length (split_lines s).
Proof. destruct (split_lines_cons s) as (line & lines & ->). simpl. lia. Qed.

Lemma slice_to_end (A : Type) (l : list A) (start : Z) :
  (0 <= start)%Z ->
  slice l start (Z.of_nat (List.length l)) = skipn (Z.to_nat start) l.
Proof.
  intros S. unfold slice.
  destruct (start <? 0)%Z eqn:E1; [apply Z.ltb_lt in E1; lia|].
  destruct (Z.of_nat (List.length l) <? 0)%Z eqn:E2; [apply Z.ltb_lt in E2; lia|].
  rewrite Z.min_id.
  destruct (Z.le_gt_cases start (Z.of_nat (List.length l))) as [Le|Gt].
  - rewrite Z.min_l by exact Le. apply firstn_all2. rewrite length_skipn. lia.
  - rewrite Z.min_r by lia. rewrite Nat2Z.id.
    rewrite !skipn_all2 by lia. apply firstn_nil.
Qed.

(** X19: [executeViewFile] reads [EndLine] 0 like a missing [EndLine]: it
    returns the text from [StartLine] to the end of the document, which is the
    whole text, unchanged, when [StartLine] is missing, 0 or negative.  The
    path it opened is among the context files afterwards. *)
Theorem view_file_without_end_line :
  forall (editor : Editor) (manager : ContextFilesManager.Manager)
         (args : ViewFileArgs) (projectPath text : string),
    let filePath :=
      if isAbsolute editor (AbsolutePath args) then AbsolutePath args
      else join editor projectPath (AbsolutePath args) in
    let startLine := Z.max 0 (match StartLine args with Some z => z | None => 0%Z end) in
    getCurrentProjectPath editor = Some projectPath ->
    projectPath <> "" ->
    openTextDocument editor filePath = Js.Ok text ->
    EndLine args = None \/ EndLine args = Some 0%Z ->
    let r := executeViewFile editor manager args in
    snd r = join_lines (skipn (Z.to_nat startLine) (split_lines text)) /\
    (startLine = 0%Z -> snd r = text) /\
    In (normalize editor filePath) (ContextFilesManager.getContextFiles (fst r)).
Proof.
  intros editor manager args projectPath text. cbv zeta. intros P NE O E.
  unfold executeViewFile. rewrite P.
  assert (T : Js.truthy_opt (Some projectPath) = true)
    by (destruct projectPath; [contradiction | reflexivity]).
  rewrite T. cbn [negb].
  assert (F : (if negb (isAbsolute editor (AbsolutePath args))
               then join editor projectPath (AbsolutePath args)
               else AbsolutePath args) =
              (if isAbsolute editor (AbsolutePath args) then AbsolutePath args
               else join editor projectPath (AbsolutePath args)))
    by (destruct (isAbsolute editor (AbsolutePath args)); reflexivity).
  rewrite F, O. cbn [fst snd].
  pose proof (split_lines_length text) as L.
  assert (S : or_else (StartLine args) 0 =
              match StartLine args with Some z => z | None => 0%Z end).
  { unfold or_else. destruct (StartLine args) as [z|]; [|reflexivity].
    destruct (z =? 0)%Z eqn:Z0; [apply Z.eqb_eq in Z0; auto | reflexivity]. }
  assert (En : or_else (EndLine args) (Z.of_nat (List.length (split_lines text)) - 1) =
               (Z.of_nat (List.length (split_lines text)) - 1)%Z)
    by (destruct E as [-> | ->]; reflexivity).
  rewrite S, En, Z.min_id.
  replace (Z.of_nat (List.length (split_lines text)) - 1 + 1)%Z
    with (Z.of_nat (List.length (split_lines text))) by lia.
  rewrite slice_to_end by lia.
  split; [reflexivity|]. split.
  - intros Z0. rewrite Z0. simpl skipn. apply join_split.
  - unfold ContextFilesManager.getContextFiles, ContextFilesManager.addContextFile.
    cbn [ContextFilesManager.contextFiles].
    unfold ConversationManager.set_add.
    destruct (existsb _ (ContextFilesManager.contextFiles manager)) eqn:X.
    + apply existsb_exists in X. destruct X as (y & Iy & Ey).
      apply String.eqb_eq in Ey. subst y. exact Iy.
    + apply in_or_app. right. left. reflexivity.
Qed.

End ViewFile.

(** ** Files written and the context *)

Section WrittenFiles.

Import FileTools ToolExecutorFiles.

Local Open Scope string_scope.

Lemma prefix_append (p a b : string) : prefix p a = true -> prefix p (a ++ b) = true.
Proof.
  revert a. induction p as [|c p IH]; intros a H; [destruct (a ++ b); reflexivity|].
  destruct a as [|x a]; [discriminate|]. simpl in *.
  destruct (Ascii.ascii_dec c x); [apply IH; exact H | discriminate].
Qed.

Lemma includes_append (a b sub : string) :
  Js.includes a sub = true -> Js.includes (a ++ b) sub = true.
Proof.
  induction a as [|x a IH]; intros H.
  - simpl in H. rewrite orb_false_r in H.
    destruct sub; [|discriminate]. destruct b; reflexivity.
  - cbn [Js.includes] in H. apply orb_true_iff in H.
    change ((String x a) ++ b) with (String x (a ++ b)). cbn [Js.includes].
    apply orb_true_iff. destruct H as [H|H].
    + left. apply (prefix_append sub (String x a) b H).
    + right. apply IH. exact H.
Qed.

Lemma added_is_listed (normalize : string -> string)
    (manager : ContextFilesManager.Manager) (p : string) :
  In (normalize p)
     (ContextFilesManager.getContextFiles
        (ContextFilesManager.addContextFile normalize manager (Some p))).
Proof.
  unfold ContextFilesManager.getContextFiles, ContextFilesManager.addContextFile.
  cbn [ContextFilesManager.contextFiles]. unfold ConversationManager.set_add.
  destruct (existsb _ (ContextFilesManager.contextFiles manager)) eqn:X.
  - apply existsb_exists in X. destruct X as (y & Iy & Ey).
    apply String.eqb_eq in Ey. subst y. exact Iy.
  - apply in_or_app. right. left. reflexivity.
Qed.

Variable D : Type.
Variable host : Host D.
Variable editor : Editor.

(** X25: [executeCreateFile] and [executeUpdateFile] resolve with the text of
    [createFile] and [updateFile] and leave the disk as these leave it; when
    that text reports success, the normalised path of the file is among the
    context files afterwards, and when the text does not contain
    ["successfully"] the context files are as before. *)
Theorem written_files_join_the_context :
  forall (disk : D) (manager : ContextFilesManager.Manager) (args : WriteFileArgs),
    let created := executeCreateFile host editor disk manager args in
    let updated := executeUpdateFile host editor disk manager args in
    (fst (fst created), snd created) =
      createFile host disk (FilePath args) (Content args) /\
    (fst (fst updated), snd updated) =
      updateFile host disk (FilePath args) (Content args)
                 (InsertAtLine args) (InsertAtColumn args) /\
    (prefix "File created successfully: " (snd created) = true ->
     In (normalize editor (FilePath args))
        (ContextFilesManager.getContextFiles (snd (fst created)))) /\
    (prefix "File updated successfully: " (snd updated) = true ->
     In (normalize editor (FilePath args))
        (ContextFilesManager.getContextFiles (snd (fst updated)))) /\
    (Js.includes (snd created) "successfully" = false -> snd (fst created) = manager) /\
    (Js.includes (snd updated) "successfully" = false -> snd (fst updated) = manager).
Proof.
  intros disk manager args. cbv zeta.
  unfold executeCreateFile, executeUpdateFile.
  destruct (createFile host disk (FilePath args) (Content args)) as [disk1 text1].
  destruct (updateFile host disk (FilePath args) (Content args)
                       (InsertAtLine args) (InsertAtColumn args)) as [disk2 text2].
  cbn [fst snd]. unfold note_success.
  assert (Inc : forall label text,
             Js.includes label "successfully" = true ->
             prefix label text = true -> Js.includes text "successfully" = true).
  { intros label text L P. apply prefix_correct in P.
    rewrite <- (append_nil_r label) in L.
    rewrite <- P in L.
    rewrite <- (take_drop (String.length label) text) at 1.
    assert (T : take (String.length label) text =
                substring 0 (String.length label) text).
    { clear. generalize (String.length label). intros n. revert text.
      induction n as [|n IH]; intros [|c text]; simpl; try reflexivity.
      rewrite IH. reflexivity. }
    rewrite T. rewrite append_nil_r in L. apply includes_append. exact L. }
  repeat split.
  - intros P. rewrite (Inc "File created successfully: " _ eq_refl P).
    apply added_is_listed.
  - intros P. rewrite (Inc "File updated successfully: " _ eq_refl P).
    apply added_is_listed.
  - intros N. rewrite N. reflexivity.
  - intros N. rewrite N. reflexivity.
Qed.

End WrittenFiles.

(** * The further properties at work *)

Section AtWork.

Import ConversationManager AgentLoopService.

(** X1 on twelve messages of an answer in progress: all twelve are kept. *)
Lemma truncation_needs_a_user_message_witness :
  addAll [] Examples.long_answer = [] ++ Examples.long_answer /\
  List.length (addAll [] Examples.long_answer) = List.length (@nil ConversationMessage) + List.length Examples.long_answer.
Proof. exact (proj2 truncation_needs_a_user_message [] Examples.long_answer eq_refl). Defined.

(** X2 on a full store whose oldest message is the user's question: the
    question goes, the nine steps and the new message stay. *)
Lemma add_to_full_store_witness :
  List.length Examples.full_store = maxHistoryLength /\
  addToConversationHistory Examples.full_store (user_msg "q1") =
    repeat (assistant_text "working") 9 ++ [user_msg "q1"].
Proof.
  split; [reflexivity|].
  exact (add_to_full_store Examples.full_store (user_msg "q1") eq_refl).
Defined.

(** X4 on the twelve well-paired messages of [Scenario.long_transcript]. *)
Lemma sanitize_leaves_paired_transcript_witness :
  tool_ids_present Scenario.long_transcript = true /\
  pairing_invariant Scenario.long_transcript = true /\
  sanitizeToolMessages Scenario.long_transcript = (Scenario.long_transcript, 0).
Proof.
  split; [reflexivity|]. split; [reflexivity|].
  exact (sanitize_leaves_paired_transcript Scenario.long_transcript eq_refl eq_refl).
Defined.

(** X6 on [Scenario.broken_transcript]: a second validation finds nothing to
    do. *)
Lemma validate_is_idempotent_witness :
  repairable Scenario.broken_transcript = true /\
  validateAndSanitizeConversationHistory
    (validateAndSanitizeConversationHistory Scenario.broken_transcript) =
  validateAndSanitizeConversationHistory Scenario.broken_transcript.
Proof.
  split; [reflexivity|].
  exact (proj2 (proj2 (validate_is_idempotent Scenario.broken_transcript eq_refl))).
Defined.

(** X9 with the transport down: ten rounds, then the apology with the
    transport's error. *)
Lemma failing_transport_ends_in_apology_witness :
  snd (executeAgentLoop Scenario.offline_world Scenario.fresh "hello") =
    Js.Ok "I'm sorry, but I encountered an issue while processing your request. Error: connect ETIMEDOUT" /\
  iterations (snd (run_loop Scenario.offline_world Scenario.fresh "hello")) = 10.
Proof.
  pose proof (failing_transport_ends_in_apology
                Scenario.offline_world Scenario.fresh "hello"
                (Js.ThrownError (Js.newError "connect ETIMEDOUT"))
                eq_refl (fun _ _ => eq_refl) eq_refl) as H.
  cbv zeta in H. destruct H as (H1 & H2 & _). split; [exact H1 | exact H2].
Defined.

(** X10 on the first round of a query answered in plain text. *)
Lemma plain_answer_ends_the_loop_witness :
  exists st' v',
    while_loop Scenario.rejecting_world 1 (Scenario.started [user_msg "hello"])
               initial_vars = (st', v') /\
    conversationHistory st' = [user_msg "hello"; assistant_text "All done."] /\
    tool_executions st' = [] /\
    loopComplete v' = true /\
    response_text v' = "All done.".
Proof.
  destruct (plain_answer_ends_the_loop
              Scenario.rejecting_world 0 (Scenario.started [user_msg "hello"]) initial_vars
              (Scenario.started [user_msg "hello"])
              (MessageFormatterService.formatMessages
                 (withProjectPathSystemPrompt Scenario.rejecting_world)
                 [user_msg "hello"] None)
              (assistant_text "All done.") []
              eq_refl eq_refl eq_refl (or_introl eq_refl))
    as (st' & v' & W & H & _ & T & _ & C & R).
  exists st', v'. split; [exact W|]. split; [exact H|]. split; [exact T|].
  split; [exact C | exact R].
Defined.

(** X11 on a round with two calls, the second with malformed arguments: both
    are answered, the first with the tool's text and the second with the
    parser's error, which also becomes [lastError]. *)
Lemma tools_round_answers_every_call_witness :
  exists st' v',
    iteration Scenario.mixed_world (Scenario.started [user_msg "show the project"])
              (increment initial_vars) = (st', v', false) /\
    conversationHistory st' =
      [user_msg "show the project";
       Scenario.requests [Scenario.call "call_1" "list_dir" "{}";
                          Scenario.call "call_2" "view_file" "{"];
       tool_msg "call_1" "ok";
       tool_msg "call_2" "Error: Unexpected token in JSON"] /\
    lastError v' =
      Some (Js.newError "Tool execution failed: Error: Unexpected token in JSON") /\
    loopComplete v' = false.
Proof.
  assert (Nd : forall d, In d [Scenario.call "call_1" "list_dir" "{}";
                               Scenario.call "call_2" "view_file" "{"] ->
                         fn_name (tc_function d) <> "done").
  { intros d [<-|[<-|[]]]; discriminate. }
  destruct (tools_round_answers_every_call
              Scenario.mixed_world (Scenario.started [user_msg "show the project"])
              (increment initial_vars)
              (Scenario.started [user_msg "show the project"])
              (MessageFormatterService.formatMessages
                 (withProjectPathSystemPrompt Scenario.mixed_world)
                 [user_msg "show the project"] None)
              (Scenario.requests [Scenario.call "call_1" "list_dir" "{}";
                                  Scenario.call "call_2" "view_file" "{"]) []
              (Scenario.call "call_1" "list_dir" "{}")
              [Scenario.call "call_2" "view_file" "{"]
              eq_refl eq_refl eq_refl Nd)
    as (st' & v' & results & It & Len & Res & H & _ & C & _ & Le).
  exists st', v'. split; [exact It|]. split; [|split; [exact Le | exact C]].
  destruct results as [|r1 [|r2 [|r3 results]]]; try discriminate Len.
  destruct (Res 0 _ r1 eq_refl eq_refl) as (I1 & _ & O1).
  destruct (Res 1 _ r2 eq_refl eq_refl) as (I2 & _ & O2).
  cbn in I1, O1, I2, O2.
  rewrite H. cbn [map]. rewrite I1, O1, I2, O2. reflexivity.
Defined.

(** X23 on a round that creates a file, after a question: the transcript with
    the assistant message and its tool message satisfies the pairing
    invariant. *)
Lemma tools_round_keeps_pairing_witness :
  pairing_invariant
    (conversationHistory
       (fst (fst (iteration Scenario.denying_world
                            (Scenario.started [user_msg "create notes.txt"])
                            (increment initial_vars))))) = true.
Proof.
  assert (Nd : forall d, In d [Scenario.call "call_1" "create_file" "{}"] ->
                         fn_name (tc_function d) <> "done").
  { intros d [<-|[]]. discriminate. }
  assert (Ids : NoDup (map tc_id [Scenario.call "call_1" "create_file" "{}"])).
  { constructor; [intros [] | constructor]. }
  assert (Fresh : forall tc, In tc [Scenario.call "call_1" "create_file" "{}"] ->
                             earlier_calls [user_msg "create notes.txt"] (tc_id tc) = 0).
  { intros tc [<-|[]]. reflexivity. }
  assert (Room : List.length [user_msg "create notes.txt"] + 1 +
                 List.length [Scenario.call "call_1" "create_file" "{}"] <=
                 maxHistoryLength).
  { vm_compute. lia. }
  exact (tools_round_keeps_pairing
           Scenario.denying_world (Scenario.started [user_msg "create notes.txt"])
           (increment initial_vars)
           (Scenario.started [user_msg "create notes.txt"])
           (MessageFormatterService.formatMessages
              (withProjectPathSystemPrompt Scenario.denying_world)
              [user_msg "create notes.txt"] None)
           (Scenario.requests [Scenario.call "call_1" "create_file" "{}"]) []
           (Scenario.call "call_1" "create_file" "{}") []
           eq_refl eq_refl eq_refl eq_refl Nd eq_refl Ids Fresh Room).
Defined.

(** X24 on an answer that asks for [list_dir], [done] and [run_command]: only
    [call_2] is answered, and the stored transcript does not satisfy the
    pairing invariant. *)
Lemma done_round_leaves_calls_unanswered_witness :
  (exists text,
      conversationHistory
        (fst (fst (iteration Scenario.done_world
                             (Scenario.started [user_msg "list the project"])
                             (increment initial_vars)))) =
        [user_msg "list the project";
         Scenario.requests [Scenario.call "call_1" "list_dir" "{}";
                            Scenario.call "call_2" "done" "{}";
                            Scenario.call "call_3" "run_command" "{}"];
         tool_msg "call_2" text]) /\
  pairing_invariant
    (conversationHistory
       (fst (fst (iteration Scenario.done_world
                            (Scenario.started [user_msg "list the project"])
                            (increment initial_vars))))) = false.
Proof.
  assert (Other : tc_id (Scenario.call "call_1" "list_dir" "{}") <>
                  tc_id (Scenario.call "call_2" "done" "{}")).
  { discriminate. }
  assert (Room : List.length [user_msg "list the project"] + 2 <= maxHistoryLength).
  { vm_compute. lia. }
  exact (done_round_leaves_calls_unanswered
           Scenario.done_world (Scenario.started [user_msg "list the project"])
           (increment initial_vars)
           (Scenario.started [user_msg "list the project"])
           (MessageFormatterService.formatMessages
              (withProjectPathSystemPrompt Scenario.done_world)
              [user_msg "list the project"] None)
           (Scenario.requests [Scenario.call "call_1" "list_dir" "{}";
                               Scenario.call "call_2" "done" "{}";
                               Scenario.call "call_3" "run_command" "{}"]) []
           [Scenario.call "call_1" "list_dir" "{}";
            Scenario.call "call_2" "done" "{}";
            Scenario.call "call_3" "run_command" "{}"]
           (Scenario.call "call_2" "done" "{}")
           (Scenario.call "call_1" "list_dir" "{}")
           eq_refl eq_refl eq_refl eq_refl eq_refl (or_introl eq_refl) Other Room).
Defined.

End AtWork.

Section ToolsAtWork.

Local Open Scope string_scope.

(** X13 on a streamed answer with two calls: the parts of the call at
    position 0 are put together, and position 2, which no chunk names, has no
    call. *)
Lemma streamed_calls_are_reassembled_witness :
  (exists tc,
      call_at 0 (AgentLoopStreaming.processToolCallChunk Examples.streamed_chunks None) =
        Some tc /\
      name_of tc = "view_file" /\ arguments_of tc = "{}" /\
      AgentLoopStreaming.buffered_index tc = 0) /\
  call_at 2 (AgentLoopStreaming.processToolCallChunk Examples.streamed_chunks None) = None.
Proof.
  destruct (streamed_calls_are_reassembled Examples.streamed_chunks 0) as [_ Parts].
  destruct (streamed_calls_are_reassembled Examples.streamed_chunks 2) as [[Unnamed _] _].
  split.
  - destruct (call_at 0 (AgentLoopStreaming.processToolCallChunk
                           Examples.streamed_chunks None)) as [tc|] eqn:E.
    + exists tc. split; [reflexivity | exact (Parts tc eq_refl)].
    + vm_compute in E. discriminate E.
  - apply Unnamed. intros chunk [<-|[<-|[<-|[]]]]; discriminate.
Defined.

(** X16 on a line that holds U+00E9: column 4 is the end of that character,
    which takes two bytes, and the text goes in right after it. *)
Lemma update_inserts_in_place_witness :
  FileTools.updateFile Examples.memory_host Examples.menu_disk "/tmp/proj/menu.ts"
                       "!" (Some 1%Z) (Some 4%Z) =
  ([("/tmp/proj/menu.ts",
     "menu:" ++ FileTools.line_break ++ "caf" ++ Examples.e_acute ++ "! au lait")],
   "File updated successfully: /tmp/proj/menu.ts (inserted content at line 1, column 4)" ++
   FileTools.line_break ++ FileTools.line_break ++ "No diagnostic issues found.").
Proof.
  destruct (update_inserts_in_place
              Examples.Disk Examples.memory_host Examples.menu_disk
              "/tmp/proj/menu.ts" "!"
              ("menu:" ++ FileTools.line_break ++ Examples.accented_line)
              Examples.accented_line ["menu:"] [] (Some 4%Z)
              eq_refl eq_refl eq_refl ltac:(vm_compute; discriminate))
    as (_ & Line & Update).
  etransitivity; [exact Update|].
  rewrite (Line ("caf" ++ Examples.e_acute) " au lait"
                eq_refl eq_refl eq_refl eq_refl eq_refl).
  reflexivity.
Defined.

(** X19 on a document of two lines asked for with [EndLine] 0: all of it comes
    back. *)
Lemma view_file_without_end_line_witness :
  snd (ToolExecutorFiles.executeViewFile Examples.project_editor ContextFilesManager.empty
         (ToolExecutorFiles.mkViewFileArgs "main.ts" (Some 0%Z) (Some 0%Z))) =
    Examples.two_lines /\
  ContextFilesManager.getContextFiles
    (fst (ToolExecutorFiles.executeViewFile Examples.project_editor ContextFilesManager.empty
            (ToolExecutorFiles.mkViewFileArgs "main.ts" (Some 0%Z) (Some 0%Z)))) =
    ["/tmp/proj/main.ts"].
Proof.
  pose proof (view_file_without_end_line
                Examples.project_editor ContextFilesManager.empty
                (ToolExecutorFiles.mkViewFileArgs "main.ts" (Some 0%Z) (Some 0%Z))
                "/tmp/proj" Examples.two_lines
                eq_refl ltac:(discriminate) eq_refl (or_intror eq_refl)) as H.
  cbv zeta in H. destruct H as (_ & H & _).
  split; [exact (H eq_refl) | reflexivity].
Defined.

(** X21 on a client without a key. *)
Lemma unconfigured_key_rejects_the_query_witness :
  AgentLoopService.executeAgentLoop Examples.keyless_world Scenario.fresh "hello" =
    (Scenario.fresh,
     Js.Threw
       (Js.ThrownError
          (Js.newError
             "OpenAI API key validation failed: OpenAI API key not configured. Please set it in the extension settings."))).
Proof.
  exact (unconfigured_key_rejects_the_query
           Examples.plain_sdk Examples.no_key None
           Examples.keyless_world Scenario.fresh "hello" eq_refl eq_refl).
Defined.

End ToolsAtWork.
